(** * nano-vllm: request scheduler and paged KV-cache block manager

    A shallow embedding of [nanovllm/engine/sequence.py],
    [nanovllm/engine/block_manager.py], [nanovllm/engine/scheduler.py] and
    of [LLMEngine.step] and [LLMEngine.generate] of
    [nanovllm/engine/llm_engine.py], followed by the
    properties of the design document that concern them and by properties
    of the engine as a whole.

    Python integers are [Z]; lists are [list]; the dedup dictionary is a
    [gmap Z Z]; the set of used block ids is a [gset Z]; the free deque is a
    [list Z] whose head is the left end.  Python exceptions are values of
    [exn] carried by the [result] monad: an exception aborts the operation.
    The Python operators [//] and [%] are [Z.div] and [Z.modulo], which agree
    with Python for every non-zero divisor.  The divisors are block sizes:
    the class attribute [Sequence.block_size] is positive, and the block
    size of a manager is positive wherever a theorem needs the result of a
    division by it (a zero divisor raises ZeroDivisionError in the
    source). *)

From Stdlib Require Import ZArith Lia.
From stdpp Require Import gmap list sorting.

Open Scope Z_scope.

(** ** Python runtime: exceptions, indexing, slicing *)

(** The last two constructors are not Python exceptions: [OutOfFuel] is
    returned by a [while] loop that was given too little fuel ([while_fuel]
    says how much suffices), [Dangling] by the dereference of a position
    outside the object store. *)
Inductive exn : Set :=
  | AssertionError | IndexError | ValueError | KeyError | OverflowError
  | OutOfFuel | Dangling.

Inductive result (A : Type) : Type :=
  | Ok (a : A)
  | Raise (e : exn).
Arguments Ok {A} a.
Arguments Raise {A} e.

#[global] Instance result_ret : MRet result := @Ok.
#[global] Instance result_bind : MBind result :=
  λ A B f m, match m with Ok a => f a | Raise e => Raise e end.

Definition assert (b : bool) : result unit :=
  if b then Ok () else Raise AssertionError.

(** [l[i]] resolves a possibly negative index against the length. *)
Definition py_index (len i : Z) : option nat :=
  if (0 <=? i) && (i <? len) then Some (Z.to_nat i)
  else if (- len <=? i) && (i <? 0) then Some (Z.to_nat (len + i))
  else None.

Definition py_getitem {A} (l : list A) (i : Z) : result A :=
  match py_index (Z.of_nat (length l)) i with
  | Some n => match l !! n with Some a => Ok a | None => Raise IndexError end
  | None => Raise IndexError
  end.

(** [l[a:b]] *)
Definition py_slice_bound (len i : Z) : Z :=
  if i <? 0 then Z.max 0 (len + i) else Z.min i len.

Definition py_slice {A} (l : list A) (a b : Z) : list A :=
  let lo := py_slice_bound (Z.of_nat (length l)) a in
  let hi := py_slice_bound (Z.of_nat (length l)) b in
  take (Z.to_nat (hi - lo)) (drop (Z.to_nat lo) l).

(** [deque.remove(x)]: drops the first occurrence, ValueError if absent. *)
Fixpoint deque_remove `{EqDecision A} (x : A) (l : list A)
  : result (list A) :=
  match l with
  | [] => Raise ValueError
  | y :: l' =>
      if bool_decide (y = x) then Ok l'
      else l'' ← deque_remove x l'; Ok (y :: l'')
  end.

(** A [for] loop over a list, threading the loop state. *)
Fixpoint for_each {A S} (body : A → S → result S) (l : list A) (s : S)
  : result S :=
  match l with
  | [] => Ok s
  | x :: l' => s' ← body x s; for_each body l' s'
  end.

(** A [while] loop.  The body says whether it ran to its end ([Continue])
    or executed [break]; the loop reports the same, so that a
    [while ... else] can tell the two exits apart. *)
Inductive ctl (S : Type) : Type :=
  | Continue (s : S)
  | Break (s : S).
Arguments Continue {S} s.
Arguments Break {S} s.

Definition ctl_state {S} (c : ctl S) : S :=
  match c with Continue s | Break s => s end.

Fixpoint while {S} (fuel : nat) (cond : S → result bool)
    (body : S → result (ctl S)) (s : S) : result (ctl S) :=
  match fuel with
  | O => Raise OutOfFuel
  | Datatypes.S fuel' =>
      b ← cond s;
      if b : bool then
        c ← body s;
        match c with
        | Continue s' => while fuel' cond body s'
        | Break s' => Ok (Break s')
        end
      else Ok (Continue s)
  end.

(** ** The external hash (library xxhash)

    [xxhash.xxh64()] fed with a byte string and read with [intdigest()]
    returns an unsigned 64-bit integer.  The library is not part of the
    repository: the development is parametric in the digest function. *)

Class XXHash := {
  xxh64_intdigest : list Z → Z;
  xxh64_intdigest_range : ∀ data, 0 ≤ xxh64_intdigest data < 2 ^ 64
}.

(** Little-endian bytes of [z], [n] of them. *)
Definition le_bytes (n : nat) (z : Z) : list Z :=
  (λ i : nat, (z / 256 ^ Z.of_nat i) mod 256) <$> seq 0 n.

(** [z.to_bytes(8, "little")]: OverflowError outside [0, 2^64). *)
Definition int_to_bytes8 (z : Z) : result (list Z) :=
  if (0 <=? z) && (z <? 2 ^ 64) then Ok (le_bytes 8 z) else Raise OverflowError.

(** [np.array(token_ids).tobytes()] for token ids that fit the platform's
    default 64-bit integer: eight little-endian bytes per token. *)
Definition ndarray_tobytes (token_ids : list Z) : list Z :=
  concat ((λ t, le_bytes 8 (t mod 2 ^ 64)) <$> token_ids).

(** ** sampling_params.py (the float [temperature] is not read by the
       scheduler or the block manager and is left out) *)

Module SamplingParams.
Record t := mk { max_tokens : Z; ignore_eos : bool }.
Definition default : t := mk 64 false.
End SamplingParams.

(** ** engine/sequence.py *)

Module Sequence.

(** The class attribute [Sequence.block_size]: a positive integer, 256 in
    the source. *)
Class class_attrs := {
  block_size : Z;
  block_size_pos : 0 < block_size
}.
Definition source_class_attrs : class_attrs :=
  {| block_size := 256; block_size_pos := eq_refl |}.

Inductive SequenceStatus : Set := WAITING | RUNNING | FINISHED.

#[global] Instance SequenceStatus_eq_dec : EqDecision SequenceStatus.
Proof. solve_decision. Defined.

Record t := mk {
  seq_id : Z;
  status : SequenceStatus;
  token_ids : list Z;
  last_token : Z;
  num_tokens : Z;
  num_prompt_tokens : Z;
  num_cached_tokens : Z;
  block_table : list Z;
  max_tokens : Z;
  ignore_eos : bool
}.

Definition with_status (st : SequenceStatus) (s : t) : t :=
  mk (seq_id s) st (token_ids s) (last_token s) (num_tokens s)
     (num_prompt_tokens s) (num_cached_tokens s) (block_table s)
     (max_tokens s) (ignore_eos s).

Definition with_num_cached_tokens (n : Z) (s : t) : t :=
  mk (seq_id s) (status s) (token_ids s) (last_token s) (num_tokens s)
     (num_prompt_tokens s) n (block_table s) (max_tokens s) (ignore_eos s).

Definition with_block_table (bt : list Z) (s : t) : t :=
  mk (seq_id s) (status s) (token_ids s) (last_token s) (num_tokens s)
     (num_prompt_tokens s) (num_cached_tokens s) bt
     (max_tokens s) (ignore_eos s).

(** [Sequence(token_ids, sampling_params)]; [counter] is the value drawn
    from the process-wide [itertools.count()]. *)
Definition __init__ (counter : Z) (token_ids : list Z)
    (sampling_params : SamplingParams.t) : result t :=
  last ← py_getitem token_ids (-1);
  Ok (mk counter WAITING token_ids last
         (Z.of_nat (length token_ids)) (Z.of_nat (length token_ids))
         0 []
         (SamplingParams.max_tokens sampling_params)
         (SamplingParams.ignore_eos sampling_params)).

Definition __len__ (self : t) : Z := num_tokens self.

Definition is_finished (self : t) : bool :=
  bool_decide (status self = FINISHED).

Definition num_completion_tokens (self : t) : Z :=
  num_tokens self - num_prompt_tokens self.

Definition append_token (self : t) (token_id : Z) : t :=
  mk (seq_id self) (status self) (token_ids self ++ [token_id]) token_id
     (num_tokens self + 1) (num_prompt_tokens self)
     (num_cached_tokens self) (block_table self)
     (max_tokens self) (ignore_eos self).

(** [self.token_ids[key]] for an integer [key]. *)
Definition __getitem__ (self : t) (key : Z) : result Z :=
  py_getitem (token_ids self) key.

(** [self.token_ids[:self.num_prompt_tokens]] *)
Definition prompt_token_ids (self : t) : list Z :=
  py_slice (token_ids self) 0 (num_prompt_tokens self).

(** [self.token_ids[self.num_prompt_tokens:]] *)
Definition completion_token_ids (self : t) : list Z :=
  py_slice (token_ids self) (num_prompt_tokens self)
    (Z.of_nat (length (token_ids self))).

Section methods.
Context `{class_attrs}.

Definition num_cached_blocks (self : t) : Z :=
  num_cached_tokens self / block_size.

Definition num_blocks (self : t) : Z :=
  (num_tokens self + block_size - 1) / block_size.

Definition last_block_num_tokens (self : t) : Z :=
  num_tokens self - (num_blocks self - 1) * block_size.

Definition block (self : t) (i : Z) : result (list Z) :=
  assert ((0 <=? i) && (i <? num_blocks self));;
  Ok (py_slice (token_ids self) (i * block_size) ((i + 1) * block_size)).
End methods.

End Sequence.

(** ** engine/block_manager.py *)

Module Block.
Record t := mk {
  block_id : Z;
  ref_count : Z;
  hash : Z;
  token_ids : list Z
}.

Definition __init__ (block_id : Z) : t := mk block_id 0 (-1) [].

Definition update (self : t) (hash : Z) (token_ids : list Z) : t :=
  mk (block_id self) (ref_count self) hash token_ids.

Definition reset (self : t) : t := mk (block_id self) 1 (-1) [].

Definition with_ref_count (n : Z) (self : t) : t :=
  mk (block_id self) n (hash self) (token_ids self).
End Block.

Module BlockManager.

Record t := mk {
  block_size : Z;
  blocks : list Block.t;
  hash_to_block_id : gmap Z Z;
  free_block_ids : list Z;
  used_block_ids : gset Z
}.

Definition __init__ (num_blocks block_size : Z) : result t :=
  assert (0 <? num_blocks);;
  Ok (mk block_size (Block.__init__ <$> seqZ 0 num_blocks) ∅
         (seqZ 0 num_blocks) ∅).

(** [self.blocks[block_id]] read, and the in-place mutation of that
    Block object written back at the same position. *)
Definition get_block (self : t) (block_id : Z) : result Block.t :=
  py_getitem (blocks self) block_id.

Definition put_block (self : t) (block_id : Z) (b : Block.t) : t :=
  match py_index (Z.of_nat (length (blocks self))) block_id with
  | Some n =>
      mk (block_size self) (<[n := b]> (blocks self))
         (hash_to_block_id self) (free_block_ids self) (used_block_ids self)
  | None => self
  end.

Definition with_pool (free : list Z) (used : gset Z) (self : t) : t :=
  mk (block_size self) (blocks self) (hash_to_block_id self) free used.

Definition publish (h block_id : Z) (self : t) : t :=
  mk (block_size self) (blocks self)
     (<[h := block_id]> (hash_to_block_id self))
     (free_block_ids self) (used_block_ids self).

Section methods.
Context `{XXHash} `{Sequence.class_attrs}.

Definition compute_hash (token_ids : list Z) (prefix : Z) : result Z :=
  pre ← (if bool_decide (prefix ≠ -1) then int_to_bytes8 prefix
         else Ok []);
  Ok (xxh64_intdigest (pre ++ ndarray_tobytes token_ids)).

Definition _allocate_block (self : t) (block_id : Z) : result t :=
  block ← get_block self block_id;
  assert (Block.ref_count block =? 0);;
  let self := put_block self block_id (Block.reset block) in
  free ← deque_remove block_id (free_block_ids self);
  Ok (with_pool free ({[block_id]} ∪ used_block_ids self) self).

Definition _deallocate_block (self : t) (block_id : Z) : result t :=
  block ← get_block self block_id;
  assert (Block.ref_count block =? 0);;
  (if bool_decide (block_id ∈ used_block_ids self) then Ok ()
   else Raise KeyError);;
  Ok (with_pool (free_block_ids self ++ [block_id])
                (used_block_ids self ∖ {[block_id]}) self).

Definition can_allocate (self : t) (seq : Sequence.t) : bool :=
  Sequence.num_blocks seq <=? Z.of_nat (length (free_block_ids self)).

(** State of the [for] loop of [allocate]: the manager, the sequence,
    and the locals [h] and [cache_miss]. *)
Record alloc_state := AllocState {
  a_self : t;
  a_seq : Sequence.t;
  a_h : Z;
  a_cache_miss : bool
}.

Definition allocate_body (i : Z) (st : alloc_state) : result alloc_state :=
  let self := a_self st in
  let seq := a_seq st in
  token_ids ← Sequence.block seq i;
  h ← (if bool_decide (Z.of_nat (length token_ids) = block_size self)
       then compute_hash token_ids (a_h st) else Ok (-1));
  let block_id := default (-1) (hash_to_block_id self !! h) in
  cache_miss ←
    (if bool_decide (block_id = -1) then Ok true
     else
       b ← get_block self block_id;
       Ok (if bool_decide (Block.token_ids b ≠ token_ids) then true
           else a_cache_miss st));
  '(self, seq, block_id) ←
    (if cache_miss : bool then
       block_id ← py_getitem (free_block_ids self) 0;
       self ← _allocate_block self block_id;
       Ok (self, seq, block_id)
     else
       let seq :=
         Sequence.with_num_cached_tokens
           (Sequence.num_cached_tokens seq + block_size self) seq in
       if bool_decide (block_id ∈ used_block_ids self) then
         block ← get_block self block_id;
         Ok (put_block self block_id
               (Block.with_ref_count (Block.ref_count block + 1) block),
             seq, block_id)
       else
         self ← _allocate_block self block_id;
         Ok (self, seq, block_id));
  self ←
    (if bool_decide (h ≠ -1) then
       block ← get_block self block_id;
       Ok (publish h block_id
             (put_block self block_id (Block.update block h token_ids)))
     else Ok self);
  Ok (AllocState self
        (Sequence.with_block_table
           (Sequence.block_table seq ++ [block_id]) seq)
        h cache_miss).

Definition allocate (self : t) (seq : Sequence.t)
  : result (t * Sequence.t) :=
  assert (bool_decide (Sequence.block_table seq = []));;
  st ← for_each allocate_body (seqZ 0 (Sequence.num_blocks seq))
         (AllocState self seq (-1) false);
  Ok (a_self st, a_seq st).

Definition deallocate_body (block_id : Z) (self : t) : result t :=
  block ← get_block self block_id;
  let block := Block.with_ref_count (Block.ref_count block - 1) block in
  let self := put_block self block_id block in
  if Block.ref_count block =? 0 then _deallocate_block self block_id
  else Ok self.

Definition deallocate (self : t) (seq : Sequence.t)
  : result (t * Sequence.t) :=
  self ← for_each deallocate_body (reverse (Sequence.block_table seq)) self;
  Ok (self,
      Sequence.with_block_table []
        (Sequence.with_num_cached_tokens 0 seq)).

Definition can_append (self : t) (seq : Sequence.t) : bool :=
  (if bool_decide (Sequence.__len__ seq `mod` block_size self = 1)
   then 1 else 0) <=? Z.of_nat (length (free_block_ids self)).

Definition may_append (self : t) (seq : Sequence.t)
  : result (t * Sequence.t) :=
  let block_table := Sequence.block_table seq in
  last_id ← py_getitem block_table (-1);
  last_block ← get_block self last_id;
  if bool_decide (Sequence.__len__ seq `mod` block_size self = 1) then
    assert (bool_decide (Block.hash last_block ≠ -1));;
    block_id ← py_getitem (free_block_ids self) 0;
    self ← _allocate_block self block_id;
    Ok (self, Sequence.with_block_table (block_table ++ [block_id]) seq)
  else if bool_decide (Sequence.__len__ seq `mod` block_size self = 0) then
    assert (bool_decide (Block.hash last_block = -1));;
    token_ids ← Sequence.block seq (Sequence.num_blocks seq - 1);
    prefix ←
      (if 1 <? Z.of_nat (length block_table) then
         prev_id ← py_getitem block_table (-2);
         prev ← get_block self prev_id;
         Ok (Block.hash prev)
       else Ok (-1));
    h ← compute_hash token_ids prefix;
    Ok (publish h (Block.block_id last_block)
          (put_block self last_id (Block.update last_block h token_ids)),
        seq)
  else
    assert (bool_decide (Block.hash last_block = -1));;
    Ok (self, seq).
End methods.

End BlockManager.

(** ** engine/scheduler.py

    Sequence objects are shared: the same object sits in a queue, in the
    batch handed to the model runner and in the arguments of
    [postprocess].  The field [objects] is the store of all Sequence
    objects created so far, and queues and batches hold positions in it.
    Sequences are created by [add_request] only, so that the position of an
    object is also its [seq_id]. *)

Module Scheduler.

Record t := mk {
  max_num_seqs : Z;
  max_num_batched_tokens : Z;
  eos : Z;
  block_manager : BlockManager.t;
  waiting : list nat;
  running : list nat;
  objects : list Sequence.t
}.

Definition with_block_manager (bm : BlockManager.t) (self : t) : t :=
  mk (max_num_seqs self) (max_num_batched_tokens self) (eos self) bm
     (waiting self) (running self) (objects self).

Definition with_waiting (w : list nat) (self : t) : t :=
  mk (max_num_seqs self) (max_num_batched_tokens self) (eos self)
     (block_manager self) w (running self) (objects self).

Definition with_running (r : list nat) (self : t) : t :=
  mk (max_num_seqs self) (max_num_batched_tokens self) (eos self)
     (block_manager self) (waiting self) r (objects self).

Definition deref (self : t) (r : nat) : result Sequence.t :=
  match objects self !! r with Some s => Ok s | None => Raise Dangling end.

Definition store (r : nat) (s : Sequence.t) (self : t) : t :=
  mk (max_num_seqs self) (max_num_batched_tokens self) (eos self)
     (block_manager self) (waiting self) (running self)
     (<[r := s]> (objects self)).

(** [Scheduler(config)] with the fields of [config] it reads. *)
Definition __init__ (max_num_seqs max_num_batched_tokens eos
    num_kvcache_blocks kvcache_block_size : Z) : result t :=
  bm ← BlockManager.__init__ num_kvcache_blocks kvcache_block_size;
  Ok (mk max_num_seqs max_num_batched_tokens eos bm [] [] []).

Definition is_finished (self : t) : bool :=
  bool_decide (waiting self = []) && bool_decide (running self = []).

(** [LLMEngine.add_request] on a tokenized prompt: builds the Sequence
    and hands it to [Scheduler.add]. *)
Definition add (self : t) (r : nat) : t :=
  with_waiting (waiting self ++ [r]) self.

Definition add_request (self : t) (prompt : list Z)
    (sampling_params : SamplingParams.t) : result t :=
  seq ← Sequence.__init__ (Z.of_nat (length (objects self))) prompt
          sampling_params;
  Ok (add (mk (max_num_seqs self) (max_num_batched_tokens self) (eos self)
             (block_manager self) (waiting self) (running self)
             (objects self ++ [seq]))
          (length (objects self))).

Section methods.
Context `{XXHash} `{Sequence.class_attrs}.

Definition preempt (self : t) (r : nat) : result t :=
  seq ← deref self r;
  let seq := Sequence.with_status Sequence.WAITING seq in
  '(bm, seq) ← BlockManager.deallocate (block_manager self) seq;
  let self := with_block_manager bm (store r seq self) in
  Ok (with_waiting (r :: waiting self) self).

(** Locals of [schedule]. *)
Record sched_state := SchedState {
  s_self : t;
  s_scheduled : list nat;
  s_num_seqs : Z;
  s_num_batched_tokens : Z
}.

Definition with_self (self : t) (st : sched_state) : sched_state :=
  SchedState self (s_scheduled st) (s_num_seqs st)
    (s_num_batched_tokens st).

Definition prefill_cond (st : sched_state) : result bool :=
  Ok (negb (bool_decide (waiting (s_self st) = []))
      && (s_num_seqs st <? max_num_seqs (s_self st))).

Definition prefill_body (st : sched_state) : result (ctl sched_state) :=
  let self := s_self st in
  r ← py_getitem (waiting self) 0;
  seq ← deref self r;
  if (max_num_batched_tokens self
        <? s_num_batched_tokens st + Sequence.__len__ seq)
     || negb (BlockManager.can_allocate (block_manager self) seq)
  then Ok (Break st)
  else
    let num_seqs := s_num_seqs st + 1 in
    '(bm, seq) ← BlockManager.allocate (block_manager self) seq;
    let num_batched_tokens :=
      s_num_batched_tokens st
      + (Sequence.__len__ seq - Sequence.num_cached_tokens seq) in
    let seq := Sequence.with_status Sequence.RUNNING seq in
    let self := with_block_manager bm (store r seq self) in
    let self := with_waiting (tail (waiting self)) self in
    let self := with_running (running self ++ [r]) self in
    Ok (Continue (SchedState self (s_scheduled st ++ [r]) num_seqs
                    num_batched_tokens)).

(** The inner [while not can_append(seq)] of the decode phase. *)
Definition room_cond (r : nat) (self : t) : result bool :=
  seq ← deref self r;
  Ok (negb (BlockManager.can_append (block_manager self) seq)).

Definition room_body (r : nat) (self : t) : result (ctl t) :=
  match reverse (running self) with
  | victim :: rest =>
      self ← preempt (with_running (reverse rest) self) victim;
      Ok (Continue self)
  | [] =>
      self ← preempt self r;
      Ok (Break self)
  end.

Definition decode_cond (st : sched_state) : result bool :=
  Ok (negb (bool_decide (running (s_self st) = []))
      && (s_num_seqs st <? max_num_seqs (s_self st))).

Definition decode_body (st : sched_state) : result (ctl sched_state) :=
  let self := s_self st in
  r ← py_getitem (running self) 0;
  let self := with_running (tail (running self)) self in
  c ← while (S (length (running self))) (room_cond r) (room_body r) self;
  match c with
  | Break self => Ok (Continue (with_self self st))
  | Continue self =>
      let num_seqs := s_num_seqs st + 1 in
      seq ← deref self r;
      '(bm, seq) ← BlockManager.may_append (block_manager self) seq;
      let self := with_block_manager bm (store r seq self) in
      Ok (Continue (SchedState self (s_scheduled st ++ [r]) num_seqs
                      (s_num_batched_tokens st)))
  end.

Definition schedule (self : t) : result (t * (list nat * bool)) :=
  c ← while (S (length (waiting self))) prefill_cond prefill_body
        (SchedState self [] 0 0);
  let st := ctl_state c in
  if negb (bool_decide (s_scheduled st = [])) then
    Ok (s_self st, (s_scheduled st, true))
  else
    c ← while (S (length (running (s_self st)))) decode_cond decode_body
          st;
    let st := ctl_state c in
    assert (negb (bool_decide (s_scheduled st = [])));;
    let self := s_self st in
    Ok (with_running (s_scheduled st ++ running self) self,
        (s_scheduled st, false)).

Definition postprocess_body (p : nat * Z) (self : t) : result t :=
  let '(r, token_id) := p in
  seq ← deref self r;
  let seq := Sequence.append_token seq token_id in
  let self := store r seq self in
  if (negb (Sequence.ignore_eos seq) && bool_decide (token_id = eos self))
     || bool_decide (Sequence.num_completion_tokens seq
                     = Sequence.max_tokens seq)
  then
    let seq := Sequence.with_status Sequence.FINISHED seq in
    '(bm, seq) ← BlockManager.deallocate (block_manager self) seq;
    let self := with_block_manager bm (store r seq self) in
    running ← deque_remove r (running self);
    Ok (with_running running self)
  else Ok self.

Definition postprocess (self : t) (seqs : list nat) (token_ids : list Z)
  : result t :=
  for_each postprocess_body (zip seqs token_ids) self.

(** [LLMEngine.step] with the model runner's answer [token_ids] (one
    sampled token per scheduled sequence) supplied from outside. *)
Definition step (self : t) (runner : list nat → bool → list Z)
  : result t :=
  '(self, (seqs, is_prefill)) ← schedule self;
  postprocess self seqs (runner seqs is_prefill).
End methods.

End Scheduler.

(** ** engine/llm_engine.py

    [LLMEngine.step]: the value it returns, with the answer of the model
    runner supplied from outside as in [Scheduler.step].  The outputs are
    the finished sequences of the batch, each with its id and its
    completion tokens; [num_tokens] is the number of tokens of a prefill
    batch, and minus the number of sequences of a decode batch. *)

Module LLMEngine.
Section methods.
Context `{XXHash} `{Sequence.class_attrs}.

Definition step (self : Scheduler.t) (runner : list nat → bool → list Z)
  : result (Scheduler.t * (list (Z * list Z) * Z)) :=
  '(self, (seqs, is_prefill)) ← Scheduler.schedule self;
  let token_ids := runner seqs is_prefill in
  self ← Scheduler.postprocess self seqs token_ids;
  seqs ← mapM (Scheduler.deref self) seqs;
  let outputs :=
    (λ seq, (Sequence.seq_id seq, Sequence.completion_token_ids seq))
      <$> filter (λ seq, Sequence.is_finished seq = true) seqs in
  let num_tokens :=
    if is_prefill : bool
    then foldr Z.add 0 (Sequence.__len__ <$> seqs)
    else - Z.of_nat (length seqs) in
  Ok (self, (outputs, num_tokens)).

Definition is_finished (self : Scheduler.t) : bool :=
  Scheduler.is_finished self.

(** [LLMEngine.generate] on tokenized prompts with [use_tqdm=False]: the
    progress bar and the throughput it shows are left out.  The answer of
    the model runner at the [k]-th step of the loop is [runner k].
    [sampling_params] is one [SamplingParams] for all the prompts or a
    list of them.  [outputs] is the dictionary from [seq_id] to the
    completion tokens; the result is the ["token_ids"] of the outputs, in
    the order of [sorted(outputs)] (the ["text"] that the tokenizer
    decodes from them is left out), together with the engine. *)
Record generate_state := GenerateState {
  g_self : Scheduler.t;
  g_outputs : gmap Z (list Z);
  g_steps : nat
}.

Definition generate_cond (st : generate_state) : result bool :=
  Ok (negb (is_finished (g_self st))).

Definition generate_body (runner : nat → list nat → bool → list Z)
    (st : generate_state) : result (ctl generate_state) :=
  '(self, (output, num_tokens)) ← step (g_self st) (runner (g_steps st));
  let outputs :=
    foldl (λ outputs '(seq_id, token_ids), <[seq_id := token_ids]> outputs)
          (g_outputs st) output in
  Ok (Continue (GenerateState self outputs (S (g_steps st)))).

Definition generate (fuel : nat) (self : Scheduler.t)
    (runner : nat → list nat → bool → list Z) (prompts : list (list Z))
    (sampling_params : SamplingParams.t + list SamplingParams.t)
  : result (Scheduler.t * list (list Z)) :=
  let sampling_params :=
    match sampling_params with
    | inl sp => replicate (length prompts) sp
    | inr l => l
    end in
  self ← for_each (λ '(prompt, sp) self, Scheduler.add_request self prompt sp)
           (zip prompts sampling_params) self;
  c ← while fuel generate_cond (generate_body runner)
        (GenerateState self ∅ 0);
  let outputs := g_outputs (ctl_state c) in
  outputs ← mapM (λ seq_id,
                    match outputs !! seq_id with
                    | Some token_ids => Ok token_ids
                    | None => Raise KeyError
                    end)
             (merge_sort Z.le (map_to_list outputs).*1);
  Ok (g_self (ctl_state c), outputs).
End methods.
End LLMEngine.

(** ** A digest to run the model on: XXH64

    The published XXH64 algorithm with seed 0 (what [xxhash.xxh64()]
    computes), on a list of bytes.  It instantiates [XXHash] where a
    concrete run of the model is evaluated; the general theorems do not
    depend on it. *)

Module XXH64.
Definition w64 (z : Z) : Z := z mod 2 ^ 64.
Definition rotl (x r : Z) : Z :=
  w64 (Z.lor (Z.shiftl x r) (Z.shiftr x (64 - r))).
Definition P1 : Z := 0x9E3779B185EBCA87.
Definition P2 : Z := 0xC2B2AE3D27D4EB4F.
Definition P3 : Z := 0x165667B19E3779F9.
Definition P4 : Z := 0x85EBCA77C2B2AE63.
Definition P5 : Z := 0x27D4EB2F165667C5.

Definition read_le (bs : list Z) : Z :=
  foldr (λ b acc, b + 256 * acc) 0 bs.

Definition round (acc inp : Z) : Z :=
  w64 (rotl (w64 (acc + inp * P2)) 31 * P1).

Definition merge_round (acc v : Z) : Z :=
  w64 (w64 (Z.lxor acc (round 0 v) * P1) + P4).

Fixpoint stripes (fuel : nat) (bs : list Z) (v : Z * Z * Z * Z)
  : list Z * (Z * Z * Z * Z) :=
  match fuel with
  | O => (bs, v)
  | S fuel' =>
      if 32 <=? Z.of_nat (length bs) then
        let '(v1, v2, v3, v4) := v in
        stripes fuel' (drop 32 bs)
          (round v1 (read_le (take 8 bs)),
           round v2 (read_le (take 8 (drop 8 bs))),
           round v3 (read_le (take 8 (drop 16 bs))),
           round v4 (read_le (take 8 (drop 24 bs))))
      else (bs, v)
  end.

Fixpoint tail8 (fuel : nat) (bs : list Z) (h : Z) : list Z * Z :=
  match fuel with
  | O => (bs, h)
  | S fuel' =>
      if 8 <=? Z.of_nat (length bs) then
        let k1 := round 0 (read_le (take 8 bs)) in
        tail8 fuel' (drop 8 bs)
          (w64 (w64 (rotl (Z.lxor h k1) 27 * P1) + P4))
      else (bs, h)
  end.

Definition tail4 (bs : list Z) (h : Z) : list Z * Z :=
  if 4 <=? Z.of_nat (length bs) then
    (drop 4 bs,
     w64 (w64 (rotl (Z.lxor h (w64 (read_le (take 4 bs) * P1))) 23 * P2)
          + P3))
  else (bs, h).

Definition tail1 (bs : list Z) (h : Z) : Z :=
  foldl (λ h b, w64 (rotl (Z.lxor h (w64 (b * P5))) 11 * P1)) h bs.

Definition avalanche (h : Z) : Z :=
  let h := w64 (Z.lxor h (Z.shiftr h 33) * P2) in
  let h := w64 (Z.lxor h (Z.shiftr h 29) * P3) in
  Z.lxor h (Z.shiftr h 32).

Definition intdigest (bs : list Z) : Z :=
  let len := Z.of_nat (length bs) in
  let '(rest, h) :=
    if 32 <=? len then
      let '(rest, (v1, v2, v3, v4)) :=
        stripes (length bs) bs (w64 (P1 + P2), P2, 0, w64 (0 - P1)) in
      let h := w64 (rotl v1 1 + rotl v2 7 + rotl v3 12 + rotl v4 18) in
      (rest,
       merge_round (merge_round (merge_round (merge_round h v1) v2) v3) v4)
    else (bs, P5) in
  let h := w64 (h + len) in
  let '(rest, h) := tail8 (length rest) rest h in
  let '(rest, h) := tail4 rest h in
  avalanche (tail1 rest h).

Lemma lxor_range (a b : Z) :
  0 ≤ a < 2 ^ 64 → 0 ≤ b < 2 ^ 64 → 0 ≤ Z.lxor a b < 2 ^ 64.
Proof.
  intros Ha Hb.
  assert (0 ≤ Z.lxor a b) as Hnn by (apply Z.lxor_nonneg; lia).
  split; [done|].
  destruct (decide (Z.lxor a b = 0)) as [->|Hne]; [done|].
  apply Z.log2_lt_pow2; [lia|].
  pose proof (Z.log2_lxor a b ltac:(lia) ltac:(lia)) as Hl.
  assert (∀ c, 0 ≤ c < 2 ^ 64 → Z.log2 c < 64) as Hlog.
  { intros c Hc. destruct (decide (c = 0)) as [->|?]; [done|].
    apply Z.log2_lt_pow2; lia. }
  pose proof (Hlog a Ha). pose proof (Hlog b Hb). lia.
Qed.

Lemma avalanche_range (h : Z) : 0 ≤ avalanche h < 2 ^ 64.
Proof.
  unfold avalanche.
  set (h2 := w64 _).
  assert (0 ≤ h2 < 2 ^ 64) as Hh2 by (apply Z.mod_pos_bound; done).
  apply lxor_range; [done|].
  rewrite Z.shiftr_div_pow2 by done.
  split; [apply Z.div_pos; lia|].
  apply Z.div_lt_upper_bound; lia.
Qed.

Lemma intdigest_range (bs : list Z) : 0 ≤ intdigest bs < 2 ^ 64.
Proof.
  unfold intdigest.
  repeat match goal with
         | |- context [let '(_, _) := ?x in _] => destruct x
         end.
  apply avalanche_range.
Qed.

Definition xxhash : XXHash :=
  {| xxh64_intdigest := intdigest; xxh64_intdigest_range := intdigest_range |}.
End XXH64.

(** * Properties *)

(** ** The result monad *)

Lemma bind_Ok {A B} (m : result A) (f : A → result B) (b : B) :
  m ≫= f = Ok b ↔ ∃ a, m = Ok a ∧ f a = Ok b.
Proof.
  destruct m as [a|e]; simpl; split.
  - intros Hf. by exists a.
  - by intros (a' & [= ->] & Hf).
  - done.
  - by intros (a' & [=] & _).
Qed.

Lemma assert_Ok (b : bool) (u : unit) : assert b = Ok u ↔ b = true.
Proof. destruct b, u; simpl; split; congruence. Qed.

(** Splits a hypothesis [x ← m; k = Ok r] into [m = Ok x] and [k = Ok r]. *)
Ltac inv_bind H :=
  let Hm := fresh "Hm" in
  let x := fresh "x" in
  apply bind_Ok in H; destruct H as (x & Hm & H).

Ltac inv_assert H :=
  match type of H with
  | assert _ = Ok _ => apply assert_Ok in H
  end.

Lemma for_each_app {A S} (body : A → S → result S) (l1 l2 : list A) (s : S) :
  for_each body (l1 ++ l2) s = for_each body l1 s ≫= for_each body l2.
Proof.
  revert s. induction l1 as [|x l1 IH]; intros s; simpl; [done|].
  destruct (body x s) as [s'|e]; simpl; [apply IH|done].
Qed.

(** An invariant of the loop state that every successful pass of the body
    preserves holds when the loop ends. *)
Lemma for_each_invariant {A S} (P : list A → S → Prop)
    (body : A → S → result S) (l : list A) (s s' : S) :
  (∀ done x s1 s2, P done s1 → body x s1 = Ok s2 → P (done ++ [x]) s2) →
  P [] s → for_each body l s = Ok s' → P l s'.
Proof.
  intros Hstep.
  assert (∀ done s, P done s → for_each body l s = Ok s' → P (done ++ l) s')
    as Hgen.
  { induction l as [|x l IH]; intros done s0 HP Hrun; simpl in Hrun.
    - rewrite app_nil_r. congruence.
    - inv_bind Hrun. rewrite cons_middle, app_assoc. eapply IH; [|done].
      by eapply Hstep. }
  intros HP Hrun. by apply (Hgen [] s).
Qed.

(** ** Python indexing *)

Lemma py_index_nonneg (len : Z) (n : nat) :
  Z.of_nat n < len → py_index len (Z.of_nat n) = Some n.
Proof.
  intros Hlt. unfold py_index.
  rewrite (proj2 (Z.leb_le _ _)) by lia.
  rewrite (proj2 (Z.ltb_lt _ _)) by lia.
  simpl. by rewrite Nat2Z.id.
Qed.

Lemma py_index_Some (len i : Z) (n : nat) :
  py_index len i = Some n →
  Z.of_nat n < len ∧ (i = Z.of_nat n ∨ i = Z.of_nat n - len ∧ i < 0).
Proof.
  unfold py_index. intros Hi.
  destruct (0 <=? i) eqn:H0; destruct (i <? len) eqn:H1; simpl in Hi;
    try (injection Hi as <-; lia);
    destruct (- len <=? i) eqn:H2; destruct (i <? 0) eqn:H3; simpl in Hi;
    try done; injection Hi as <-; lia.
Qed.


Lemma py_getitem_Ok {A} (l : list A) (i : Z) (a : A) :
  py_getitem l i = Ok a →
  ∃ n, py_index (Z.of_nat (length l)) i = Some n ∧ l !! n = Some a.
Proof.
  unfold py_getitem. intros Hg.
  destruct (py_index _ i) as [n|]; [|done].
  destruct (l !! n) as [a'|] eqn:Hl; [|done].
  injection Hg as ->. by exists n.
Qed.

Lemma py_getitem_head {A} (l : list A) (a : A) :
  py_getitem l 0 = Ok a ↔ head l = Some a.
Proof.
  destruct l as [|x l]; [done|].
  unfold py_getitem, py_index.
  replace (0 <=? 0) with true by done.
  rewrite (proj2 (Z.ltb_lt _ _)) by (simpl; lia). simpl.
  split; congruence.
Qed.

Lemma py_getitem_last {A} (l : list A) (a : A) :
  py_getitem l (-1) = Ok a ↔ last l = Some a.
Proof.
  destruct (decide (l = [])) as [->|Hne]; [done|].
  assert (0 < length l)%nat as Hlen by (destruct l; [done|simpl; lia]).
  unfold py_getitem, py_index.
  replace (0 <=? -1) with false by done. simpl.
  rewrite (proj2 (Z.leb_le _ _)) by lia. simpl.
  replace (Z.to_nat (Z.of_nat (length l) + -1)) with (pred (length l)) by lia.
  rewrite <- last_lookup.
  destruct (last l); split; congruence.
Qed.

(** ** [deque.remove] *)

Lemma deque_remove_Ok `{EqDecision A} (x : A) (l l' : list A) :
  deque_remove x l = Ok l' →
  ∃ l1 l2, l = l1 ++ x :: l2 ∧ l' = l1 ++ l2 ∧ (x ∉ l1).
Proof.
  revert l'. induction l as [|y l IH]; intros l' Hr; simpl in Hr; [done|].
  case_bool_decide as Hy.
  - injection Hr as <-. subst y. exists [], l. split_and!; [done..|].
    apply not_elem_of_nil.
  - inv_bind Hr. injection Hr as <-.
    destruct (IH _ Hm) as (l1 & l2 & -> & -> & Hnin).
    exists (y :: l1), l2. split_and!; [done..|].
    rewrite not_elem_of_cons. split; [congruence|done].
Qed.

Lemma deque_remove_elem `{EqDecision A} (x : A) (l : list A) :
  x ∈ l → ∃ l', deque_remove x l = Ok l'.
Proof.
  induction l as [|y l IH]; intros Hin; [by apply elem_of_nil in Hin|].
  simpl. case_bool_decide as Hy; [by eexists|].
  apply elem_of_cons in Hin as [->|Hin]; [done|].
  destruct (IH Hin) as [l' ->]. by eexists.
Qed.

(** ** Decomposing a successful run *)

Ltac step_result :=
  match goal with
  | H : Raise _ = Ok _ |- _ => discriminate H
  | H : Ok _ = Raise _ |- _ => discriminate H
  | H : Ok _ = Ok _ |- _ => injection H as H; try subst
  | H : (_ ≫= _) = Ok _ |- _ => inv_bind H
  | H : assert _ = Ok _ |- _ => apply assert_Ok in H
  | H : (let '(_, _) := ?x in _) = Ok _ |- _ => destruct x
  | H : (if ?c then _ else _) = Ok _ |- _ => destruct c eqn:?
  end.

(** Reduces the projections of the records of the model. *)
Ltac simpl_bm :=
  cbn [BlockManager.block_size BlockManager.blocks
       BlockManager.hash_to_block_id BlockManager.free_block_ids
       BlockManager.used_block_ids BlockManager.with_pool
       BlockManager.publish
       BlockManager.a_self BlockManager.a_seq BlockManager.a_h
       BlockManager.a_cache_miss
       Block.block_id Block.ref_count Block.hash Block.token_ids
       Block.update Block.reset Block.with_ref_count Block.__init__
       Sequence.seq_id Sequence.status Sequence.token_ids
       Sequence.last_token Sequence.num_tokens Sequence.num_prompt_tokens
       Sequence.num_cached_tokens Sequence.block_table Sequence.max_tokens
       Sequence.ignore_eos Sequence.with_status
       Sequence.with_num_cached_tokens Sequence.with_block_table
       Sequence.append_token Sequence.__len__] in *.

(** ** Effects of the primitive updates of a manager *)

Definition pool_size (bm : BlockManager.t) : Z :=
  Z.of_nat (length (BlockManager.blocks bm)).

Lemma put_block_free bm b x :
  BlockManager.free_block_ids (BlockManager.put_block bm b x)
  = BlockManager.free_block_ids bm.
Proof. unfold BlockManager.put_block. by destruct (py_index _ _). Qed.

Lemma put_block_used bm b x :
  BlockManager.used_block_ids (BlockManager.put_block bm b x)
  = BlockManager.used_block_ids bm.
Proof. unfold BlockManager.put_block. by destruct (py_index _ _). Qed.

Lemma put_block_index bm b x :
  BlockManager.hash_to_block_id (BlockManager.put_block bm b x)
  = BlockManager.hash_to_block_id bm.
Proof. unfold BlockManager.put_block. by destruct (py_index _ _). Qed.

Lemma put_block_block_size bm b x :
  BlockManager.block_size (BlockManager.put_block bm b x)
  = BlockManager.block_size bm.
Proof. unfold BlockManager.put_block. by destruct (py_index _ _). Qed.

Lemma put_block_pool_size bm b x :
  pool_size (BlockManager.put_block bm b x) = pool_size bm.
Proof.
  unfold pool_size, BlockManager.put_block.
  destruct (py_index _ _); simpl; [by rewrite length_insert|done].
Qed.

Lemma put_block_blocks bm b x :
  0 ≤ b < pool_size bm →
  BlockManager.blocks (BlockManager.put_block bm b x)
  = <[Z.to_nat b := x]> (BlockManager.blocks bm).
Proof.
  intros Hb. unfold BlockManager.put_block, pool_size in *.
  replace b with (Z.of_nat (Z.to_nat b)) at 1 by lia.
  by rewrite py_index_nonneg by lia.
Qed.

Lemma get_block_range bm b blk :
  0 ≤ b < pool_size bm →
  BlockManager.get_block bm b = Ok blk
  ↔ BlockManager.blocks bm !! Z.to_nat b = Some blk.
Proof.
  intros Hb. unfold BlockManager.get_block, py_getitem, pool_size in *.
  replace b with (Z.of_nat (Z.to_nat b)) at 1 by lia.
  rewrite py_index_nonneg by lia.
  destruct (BlockManager.blocks bm !! Z.to_nat b); split; congruence.
Qed.

Lemma get_block_nonneg bm b blk :
  0 ≤ b → BlockManager.get_block bm b = Ok blk → b < pool_size bm.
Proof.
  intros Hb Hg. apply py_getitem_Ok in Hg as (n & Hn & _).
  apply py_index_Some in Hn. unfold pool_size. lia.
Qed.

Lemma get_block_exists bm b :
  0 ≤ b < pool_size bm → ∃ blk, BlockManager.get_block bm b = Ok blk.
Proof.
  intros Hb.
  destruct (lookup_lt_is_Some_2 (BlockManager.blocks bm) (Z.to_nat b))
    as [blk Hblk]; [unfold pool_size in Hb; lia|].
  exists blk. by apply get_block_range.
Qed.

Section BlockManagerFacts.
Context `{XXHash} `{Sequence.class_attrs}.

Lemma _allocate_block_Ok bm b bm' :
  BlockManager._allocate_block bm b = Ok bm' →
  ∃ blk l1 l2,
    BlockManager.get_block bm b = Ok blk ∧ Block.ref_count blk = 0 ∧
    BlockManager.free_block_ids bm = l1 ++ b :: l2 ∧ (b ∉ l1) ∧
    bm' = BlockManager.with_pool (l1 ++ l2)
            ({[b]} ∪ BlockManager.used_block_ids bm)
            (BlockManager.put_block bm b (Block.reset blk)).
Proof.
  unfold BlockManager._allocate_block. intros Hrun.
  repeat step_result.
  rewrite put_block_free in Hm1.
  apply deque_remove_Ok in Hm1 as (l1 & l2 & Hfree & -> & Hnin).
  exists x, l1, l2. rewrite put_block_used. split_and!; [done|lia|done..].
Qed.

Lemma _deallocate_block_Ok bm b bm' :
  BlockManager._deallocate_block bm b = Ok bm' →
  ∃ blk,
    BlockManager.get_block bm b = Ok blk ∧ Block.ref_count blk = 0 ∧
    b ∈ BlockManager.used_block_ids bm ∧
    bm' = BlockManager.with_pool (BlockManager.free_block_ids bm ++ [b])
            (BlockManager.used_block_ids bm ∖ {[b]}) bm.
Proof.
  unfold BlockManager._deallocate_block. intros Hrun.
  repeat step_result. case_bool_decide; [|done].
  exists x. split_and!; [done|lia|done..].
Qed.

(** *** Pool conservation *)

Record pool_inv (bm : BlockManager.t) : Prop := {
  pool_nodup : NoDup (BlockManager.free_block_ids bm);
  pool_disjoint :
    ∀ b, b ∈ BlockManager.free_block_ids bm →
         b ∉ BlockManager.used_block_ids bm;
  pool_total :
    (length (BlockManager.free_block_ids bm)
     + size (BlockManager.used_block_ids bm)
     = length (BlockManager.blocks bm))%nat
}.

Lemma pool_inv_frame bm bm' :
  BlockManager.free_block_ids bm' = BlockManager.free_block_ids bm →
  BlockManager.used_block_ids bm' = BlockManager.used_block_ids bm →
  pool_size bm' = pool_size bm →
  pool_inv bm → pool_inv bm'.
Proof.
  unfold pool_size. intros Hf Hu Hn [Hnd Hdis Htot].
  split; rewrite ?Hf, ?Hu; [done..|lia].
Qed.

Lemma pool_inv_put_block bm b x :
  pool_inv bm → pool_inv (BlockManager.put_block bm b x).
Proof.
  apply pool_inv_frame;
    [apply put_block_free|apply put_block_used|apply put_block_pool_size].
Qed.

Lemma pool_inv_publish bm h b :
  pool_inv bm → pool_inv (BlockManager.publish h b bm).
Proof. by apply pool_inv_frame. Qed.

Lemma pool_inv__init__ n bs bm :
  BlockManager.__init__ n bs = Ok bm → pool_inv bm.
Proof.
  unfold BlockManager.__init__. intros Hrun. repeat step_result.
  split; simpl_bm.
  - apply NoDup_seqZ.
  - intros b _. set_solver.
  - rewrite size_empty, length_fmap. lia.
Qed.

Lemma pool_inv__allocate_block bm b bm' :
  pool_inv bm → BlockManager._allocate_block bm b = Ok bm' → pool_inv bm'.
Proof.
  intros [Hnd Hdis Htot] Hrun.
  apply _allocate_block_Ok in Hrun
    as (blk & l1 & l2 & _ & _ & Hfree & Hnin & ->).
  rewrite Hfree in Hnd, Hdis, Htot.
  apply NoDup_app in Hnd as (Hnd1 & Hnd12 & Hnd2).
  apply NoDup_cons in Hnd2 as [Hb2 Hnd2].
  assert (b ∉ BlockManager.used_block_ids bm) as Hbu
    by (apply Hdis; set_solver).
  split; simpl_bm.
  - apply NoDup_app. split_and!; [done| |done].
    intros y Hy1 Hy2. apply (Hnd12 y Hy1). set_solver.
  - intros y Hy.
    assert (y ≠ b).
    { intros ->. apply elem_of_app in Hy as [?|?]; done. }
    assert (y ∉ BlockManager.used_block_ids bm)
      by (apply Hdis; set_solver).
    set_solver.
  - rewrite size_union, size_singleton by set_solver.
    pose proof (put_block_pool_size bm b (Block.reset blk)) as Hn.
    unfold pool_size in Hn.
    rewrite length_app in *. simpl in Htot. lia.
Qed.

Lemma pool_inv__deallocate_block bm b bm' :
  pool_inv bm → BlockManager._deallocate_block bm b = Ok bm' → pool_inv bm'.
Proof.
  intros [Hnd Hdis Htot] Hrun.
  apply _deallocate_block_Ok in Hrun as (blk & _ & _ & Hbu & ->).
  split; simpl_bm.
  - apply NoDup_app. split_and!; [done| |apply NoDup_singleton].
    intros y Hy ->%list_elem_of_singleton. by apply (Hdis b).
  - intros y [Hy| ->%list_elem_of_singleton]%elem_of_app.
    + apply Hdis in Hy. set_solver.
    + set_solver.
  - rewrite length_app. simpl.
    assert (size (BlockManager.used_block_ids bm)
            = S (size (BlockManager.used_block_ids bm ∖ {[b]}))) as Hsz.
    { rewrite (union_difference_L {[b]} (BlockManager.used_block_ids bm))
        at 1 by set_solver.
      rewrite size_union, size_singleton by set_solver. lia. }
    lia.
Qed.

Create HintDb pool.
#[local] Hint Resolve pool_inv_put_block pool_inv_publish
  pool_inv__allocate_block pool_inv__deallocate_block : pool.

Lemma pool_inv_allocate_body i st st' :
  pool_inv (BlockManager.a_self st) →
  BlockManager.allocate_body i st = Ok st' →
  pool_inv (BlockManager.a_self st').
Proof.
  unfold BlockManager.allocate_body. intros Hinv Hrun.
  repeat step_result; simpl_bm; eauto with pool.
Qed.

Lemma pool_inv_allocate bm seq bm' seq' :
  pool_inv bm → BlockManager.allocate bm seq = Ok (bm', seq') → pool_inv bm'.
Proof.
  unfold BlockManager.allocate. intros Hinv Hrun. repeat step_result.
  eapply (for_each_invariant (λ _ st, pool_inv (BlockManager.a_self st))
            _ _ (BlockManager.AllocState bm seq (-1) false));
    [|exact Hinv|exact Hm0].
  intros _ i s1 s2. apply pool_inv_allocate_body.
Qed.

Lemma pool_inv_deallocate_body b bm bm' :
  pool_inv bm → BlockManager.deallocate_body b bm = Ok bm' → pool_inv bm'.
Proof.
  unfold BlockManager.deallocate_body. intros Hinv Hrun.
  repeat step_result; simpl_bm; eauto with pool.
Qed.

Lemma pool_inv_deallocate bm seq bm' seq' :
  pool_inv bm → BlockManager.deallocate bm seq = Ok (bm', seq') → pool_inv bm'.
Proof.
  unfold BlockManager.deallocate. intros Hinv Hrun. repeat step_result.
  eapply (for_each_invariant (λ _ bm, pool_inv bm) _ _ bm);
    [|exact Hinv|exact Hm].
  intros _ b s1 s2. apply pool_inv_deallocate_body.
Qed.

Lemma pool_inv_may_append bm seq bm' seq' :
  pool_inv bm → BlockManager.may_append bm seq = Ok (bm', seq') → pool_inv bm'.
Proof.
  unfold BlockManager.may_append. intros Hinv Hrun.
  repeat step_result; simpl_bm; eauto with pool.
Qed.

(** The managers that calls of the three operations can produce from a
    fresh one, whatever sequences they are called on. *)
Inductive bm_reachable : BlockManager.t → Prop :=
  | bm_reachable_init n bs bm :
      BlockManager.__init__ n bs = Ok bm → bm_reachable bm
  | bm_reachable_allocate bm seq bm' seq' :
      bm_reachable bm →
      BlockManager.allocate bm seq = Ok (bm', seq') → bm_reachable bm'
  | bm_reachable_deallocate bm seq bm' seq' :
      bm_reachable bm →
      BlockManager.deallocate bm seq = Ok (bm', seq') → bm_reachable bm'
  | bm_reachable_may_append bm seq bm' seq' :
      bm_reachable bm →
      BlockManager.may_append bm seq = Ok (bm', seq') → bm_reachable bm'.

Lemma pool_size__allocate_block bm b bm' :
  BlockManager._allocate_block bm b = Ok bm' → pool_size bm' = pool_size bm.
Proof.
  intros Hrun.
  apply _allocate_block_Ok in Hrun as (blk & l1 & l2 & _ & _ & _ & _ & ->).
  apply put_block_pool_size.
Qed.

Lemma pool_size__deallocate_block bm b bm' :
  BlockManager._deallocate_block bm b = Ok bm' → pool_size bm' = pool_size bm.
Proof.
  intros Hrun. by apply _deallocate_block_Ok in Hrun as (blk & _ & _ & _ & ->).
Qed.

Lemma publish_pool_size h b bm :
  pool_size (BlockManager.publish h b bm) = pool_size bm.
Proof. done. Qed.

Ltac solve_pool_size :=
  repeat match goal with
    | H : BlockManager._allocate_block _ _ = Ok _ |- _ =>
        apply pool_size__allocate_block in H
    | H : BlockManager._deallocate_block _ _ = Ok _ |- _ =>
        apply pool_size__deallocate_block in H
    end;
  rewrite ?publish_pool_size, ?put_block_pool_size; congruence.

Lemma pool_size_allocate_body i st st' :
  BlockManager.allocate_body i st = Ok st' →
  pool_size (BlockManager.a_self st') = pool_size (BlockManager.a_self st).
Proof.
  unfold BlockManager.allocate_body. intros Hrun.
  repeat step_result; simpl_bm; solve_pool_size.
Qed.

(** *** Reference counts against a count of occurrences

    [occ b] stands for the number of entries equal to [b] in the block
    tables of the sequences that hold blocks.  The invariant ties the pool,
    the reference counts and the dedup index to it. *)

Definition occ_add (b : Z) (occ : Z → Z) : Z → Z :=
  λ x, if bool_decide (x = b) then occ x + 1 else occ x.

Definition occ_sub (b : Z) (occ : Z → Z) : Z → Z :=
  λ x, if bool_decide (x = b) then occ x - 1 else occ x.

Record bm_inv (occ : Z → Z) (bm : BlockManager.t) : Prop := {
  inv_pool : pool_inv bm;
  inv_cover :
    ∀ b, 0 ≤ b < pool_size bm
         ↔ b ∈ BlockManager.free_block_ids bm
           ∨ b ∈ BlockManager.used_block_ids bm;
  inv_block_id :
    ∀ n blk, BlockManager.blocks bm !! n = Some blk →
             Block.block_id blk = Z.of_nat n;
  inv_ref_count :
    ∀ n blk, BlockManager.blocks bm !! n = Some blk →
             Block.ref_count blk = occ (Z.of_nat n);
  inv_free : ∀ b, b ∈ BlockManager.free_block_ids bm → occ b = 0;
  inv_used : ∀ b, b ∈ BlockManager.used_block_ids bm → 0 < occ b;
  inv_index :
    ∀ h b, BlockManager.hash_to_block_id bm !! h = Some b →
           0 ≤ b < pool_size bm
}.

Lemma bm_inv_ext occ occ' bm :
  (∀ b, occ b = occ' b) → bm_inv occ bm → bm_inv occ' bm.
Proof.
  intros Hext [Hpool Hcover Hid Href Hfree Hused Hindex].
  split; try done.
  - intros n blk Hn. rewrite <- Hext. by apply Href.
  - intros b Hb. rewrite <- Hext. by apply Hfree.
  - intros b Hb. rewrite <- Hext. by apply Hused.
Qed.

Lemma bm_inv_used_iff occ bm b :
  bm_inv occ bm → 0 ≤ b < pool_size bm →
  (b ∈ BlockManager.used_block_ids bm ↔ 0 < occ b).
Proof.
  intros Hinv Hb. split; [apply (inv_used _ _ Hinv)|].
  intros Hocc. apply (inv_cover _ _ Hinv) in Hb as [Hf|Hu]; [|done].
  apply (inv_free _ _ Hinv) in Hf. lia.
Qed.

Lemma bm_inv_free_iff occ bm b :
  bm_inv occ bm → 0 ≤ b < pool_size bm →
  (b ∈ BlockManager.free_block_ids bm ↔ occ b = 0).
Proof.
  intros Hinv Hb. split; [apply (inv_free _ _ Hinv)|].
  intros Hocc. apply (inv_cover _ _ Hinv) in Hb as [Hf|Hu]; [done|].
  apply (inv_used _ _ Hinv) in Hu. lia.
Qed.

Lemma bm_inv_claim occ bm b bm' :
  bm_inv occ bm → BlockManager._allocate_block bm b = Ok bm' →
  bm_inv (occ_add b occ) bm' ∧ 0 ≤ b < pool_size bm ∧ occ b = 0.
Proof.
  intros Hinv Hrun.
  pose proof (pool_inv__allocate_block _ _ _ (inv_pool _ _ Hinv) Hrun) as Hpool'.
  pose proof (pool_size__allocate_block _ _ _ Hrun) as Hsize.
  apply _allocate_block_Ok in Hrun
    as (blk & l1 & l2 & Hget & Hrc & Hfree & Hnin & ->).
  destruct Hinv as [Hpool Hcover Hid Href Hfr Hused Hindex].
  assert (b ∈ BlockManager.free_block_ids bm) as Hbfree
    by (rewrite Hfree; set_solver).
  assert (0 ≤ b < pool_size bm) as Hb by (apply Hcover; by left).
  assert (b ∉ l2) as Hnin2.
  { pose proof (pool_nodup _ Hpool) as Hnd. rewrite Hfree in Hnd.
    apply NoDup_app in Hnd as (_ & _ & Hnd). by apply NoDup_cons in Hnd as []. }
  split; [|split; [done|by apply Hfr]].
  split; [exact Hpool'|..]; rewrite ?Hsize; clear Hsize Hpool'; simpl_bm.
  - intros y. rewrite Hcover, Hfree.
    rewrite !elem_of_app, elem_of_cons, elem_of_union, elem_of_singleton.
    tauto.
  - intros n blk'. rewrite put_block_blocks by done. intros Hn.
    destruct (decide (n = Z.to_nat b)) as [->|Hne].
    + rewrite list_lookup_insert_eq in Hn
        by (apply lookup_lt_Some in Hn; by rewrite length_insert in Hn).
      injection Hn as <-. simpl. apply Hid. by apply get_block_range.
    + rewrite list_lookup_insert_ne in Hn by done. by apply Hid.
  - intros n blk'. rewrite put_block_blocks by done. intros Hn.
    unfold occ_add.
    destruct (decide (n = Z.to_nat b)) as [->|Hne].
    + rewrite list_lookup_insert_eq in Hn
        by (apply lookup_lt_Some in Hn; by rewrite length_insert in Hn).
      injection Hn as <-. simpl.
      rewrite Z2Nat.id by lia.
      rewrite bool_decide_eq_true_2 by done. rewrite (Hfr b) by done. done.
    + rewrite list_lookup_insert_ne in Hn by done.
      rewrite bool_decide_eq_false_2 by lia. by apply Href.
  - intros y Hy. unfold occ_add.
    rewrite bool_decide_eq_false_2.
    + apply Hfr. rewrite Hfree. set_solver.
    + intros ->. apply elem_of_app in Hy as [?|?]; done.
  - intros y Hy. unfold occ_add. case_bool_decide as Hyb.
    + subst y. rewrite (Hfr b) by done. lia.
    + apply Hused. set_solver.
  - intros h y. rewrite put_block_index. apply Hindex.
Qed.

Lemma bm_inv_share occ bm b blk :
  bm_inv occ bm → b ∈ BlockManager.used_block_ids bm →
  BlockManager.get_block bm b = Ok blk →
  bm_inv (occ_add b occ)
    (BlockManager.put_block bm b
       (Block.with_ref_count (Block.ref_count blk + 1) blk)).
Proof.
  intros [Hpool Hcover Hid Href Hfr Hused Hindex] Hbu Hget.
  assert (0 ≤ b < pool_size bm) as Hb by (apply Hcover; by right).
  apply get_block_range in Hget; [|done].
  split; rewrite ?put_block_free, ?put_block_used, ?put_block_index,
           ?put_block_pool_size; try done.
  - by apply pool_inv_put_block.
  - intros n blk'. rewrite put_block_blocks by done. intros Hn.
    destruct (decide (n = Z.to_nat b)) as [->|Hne].
    + rewrite list_lookup_insert_eq in Hn
        by (apply lookup_lt_Some in Hn; by rewrite length_insert in Hn).
      injection Hn as <-. simpl. by apply Hid.
    + rewrite list_lookup_insert_ne in Hn by done. by apply Hid.
  - intros n blk'. rewrite put_block_blocks by done. intros Hn.
    unfold occ_add.
    destruct (decide (n = Z.to_nat b)) as [->|Hne].
    + rewrite list_lookup_insert_eq in Hn
        by (apply lookup_lt_Some in Hn; by rewrite length_insert in Hn).
      injection Hn as <-. simpl.
      rewrite (Href _ _ Hget), Z2Nat.id by lia.
      by rewrite bool_decide_eq_true_2 by done.
    + rewrite list_lookup_insert_ne in Hn by done.
      rewrite bool_decide_eq_false_2 by lia. by apply Href.
  - intros y Hy. unfold occ_add. rewrite bool_decide_eq_false_2.
    + by apply Hfr.
    + intros ->. by apply (pool_disjoint _ Hpool b).
  - intros y Hy. unfold occ_add. apply Hused in Hy.
    case_bool_decide; lia.
Qed.

Lemma bm_inv_update occ bm b blk h toks :
  bm_inv occ bm → 0 ≤ b < pool_size bm →
  BlockManager.get_block bm b = Ok blk →
  bm_inv occ
    (BlockManager.publish h b
       (BlockManager.put_block bm b (Block.update blk h toks))).
Proof.
  intros [Hpool Hcover Hid Href Hfr Hused Hindex] Hb Hget.
  apply get_block_range in Hget; [|done].
  split; simpl_bm;
    rewrite ?put_block_free, ?put_block_used, ?put_block_index,
      ?publish_pool_size, ?put_block_pool_size; try done.
  - by apply pool_inv_publish, pool_inv_put_block.
  - intros n blk'. rewrite put_block_blocks by done. intros Hn.
    destruct (decide (n = Z.to_nat b)) as [->|Hne].
    + rewrite list_lookup_insert_eq in Hn
        by (apply lookup_lt_Some in Hn; by rewrite length_insert in Hn).
      injection Hn as <-. simpl. by apply Hid.
    + rewrite list_lookup_insert_ne in Hn by done. by apply Hid.
  - intros n blk'. rewrite put_block_blocks by done. intros Hn.
    destruct (decide (n = Z.to_nat b)) as [->|Hne].
    + rewrite list_lookup_insert_eq in Hn
        by (apply lookup_lt_Some in Hn; by rewrite length_insert in Hn).
      injection Hn as <-. simpl. by apply Href.
    + rewrite list_lookup_insert_ne in Hn by done. by apply Href.
  - intros h' y. rewrite lookup_insert. case_decide.
    + by intros [= <-].
    + apply Hindex.
Qed.

Lemma put_block_lookup bm b x n blk :
  0 ≤ b < pool_size bm →
  BlockManager.blocks (BlockManager.put_block bm b x) !! n = Some blk →
  n = Z.to_nat b ∧ blk = x
  ∨ n ≠ Z.to_nat b ∧ BlockManager.blocks bm !! n = Some blk.
Proof.
  intros Hb. rewrite put_block_blocks by done. intros Hn.
  destruct (decide (n = Z.to_nat b)) as [->|Hne].
  - rewrite list_lookup_insert_eq in Hn
      by (apply lookup_lt_Some in Hn; by rewrite length_insert in Hn).
    left. split; congruence.
  - rewrite list_lookup_insert_ne in Hn by done. by right.
Qed.

Lemma get_put_block bm b x :
  0 ≤ b < pool_size bm →
  BlockManager.get_block (BlockManager.put_block bm b x) b = Ok x.
Proof.
  intros Hb. apply get_block_range; [by rewrite put_block_pool_size|].
  rewrite put_block_blocks by done.
  apply list_lookup_insert_eq. unfold pool_size in Hb. lia.
Qed.

(** The hash and the tokens of every block, which [deallocate] and the
    reference counting leave alone. *)
Definition contents (bm : BlockManager.t) : list (Z * list Z) :=
  (λ blk, (Block.hash blk, Block.token_ids blk)) <$> BlockManager.blocks bm.

Lemma contents_put_block bm b blk x :
  0 ≤ b < pool_size bm →
  BlockManager.get_block bm b = Ok blk →
  Block.hash x = Block.hash blk → Block.token_ids x = Block.token_ids blk →
  contents (BlockManager.put_block bm b x) = contents bm.
Proof.
  intros Hb Hget Hh Ht. apply get_block_range in Hget; [|done].
  unfold contents. rewrite put_block_blocks by done.
  rewrite list_fmap_insert, Hh, Ht.
  apply list_insert_id. by rewrite list_lookup_fmap, Hget.
Qed.

Lemma deallocate_body_spec occ bm b :
  bm_inv occ bm → 0 ≤ b < pool_size bm → 0 < occ b →
  ∃ bm', BlockManager.deallocate_body b bm = Ok bm' ∧
         bm_inv (occ_sub b occ) bm' ∧
         BlockManager.block_size bm' = BlockManager.block_size bm ∧
         BlockManager.hash_to_block_id bm' = BlockManager.hash_to_block_id bm ∧
         pool_size bm' = pool_size bm ∧
         contents bm' = contents bm.
Proof.
  intros Hinv Hb Hocc.
  pose proof Hinv as [Hpool Hcover Hid Href Hfr Hused Hindex].
  destruct (get_block_exists bm b Hb) as [blk Hget].
  pose proof Hget as Hlook. apply get_block_range in Hlook; [|done].
  assert (Block.ref_count blk = occ b) as Hrc
    by (rewrite (Href _ _ Hlook); f_equal; lia).
  assert (b ∈ BlockManager.used_block_ids bm) as Hbu
    by (by apply (bm_inv_used_iff occ)).
  set (blk1 := Block.with_ref_count (Block.ref_count blk - 1) blk).
  set (bm1 := BlockManager.put_block bm b blk1).
  assert (contents bm1 = contents bm) as Hcont
    by (by apply (contents_put_block _ _ blk)).
  assert (∀ n blk', BlockManager.blocks bm1 !! n = Some blk' →
            Block.block_id blk' = Z.of_nat n
            ∧ Block.ref_count blk' = occ_sub b occ (Z.of_nat n)) as Hblocks.
  { intros n blk' Hn. unfold occ_sub.
    apply (put_block_lookup _ _ _ _ _ Hb) in Hn as [[-> ->]|[Hne Hn]].
    - rewrite Z2Nat.id by lia. rewrite bool_decide_eq_true_2 by done.
      simpl. rewrite (Hid _ _ Hlook). split; lia.
    - rewrite bool_decide_eq_false_2 by lia. split; [by apply Hid|by apply Href]. }
  assert (BlockManager.get_block bm1 b = Ok blk1) as Hget1
    by (by apply get_put_block).
  assert (BlockManager.free_block_ids bm1 = BlockManager.free_block_ids bm)
    as Hfree1 by apply put_block_free.
  assert (BlockManager.used_block_ids bm1 = BlockManager.used_block_ids bm)
    as Hused1 by apply put_block_used.
  assert (BlockManager.hash_to_block_id bm1 = BlockManager.hash_to_block_id bm)
    as Hindex1 by apply put_block_index.
  assert (BlockManager.block_size bm1 = BlockManager.block_size bm)
    as Hbs1 by apply put_block_block_size.
  assert (pool_size bm1 = pool_size bm) as Hsize1
    by apply put_block_pool_size.
  assert (pool_inv bm1) as Hpool1 by (by apply pool_inv_put_block).
  assert (BlockManager.deallocate_body b bm
          = if Block.ref_count blk1 =? 0
            then BlockManager._deallocate_block bm1 b else Ok bm1) as ->.
  { unfold BlockManager.deallocate_body. by rewrite Hget. }
  assert (Block.ref_count blk1 = occ b - 1) as Hrc1 by (simpl; lia).
  clearbody bm1 blk1.
  destruct (Block.ref_count blk1 =? 0) eqn:Hz.
  - apply Z.eqb_eq in Hz.
    assert (BlockManager._deallocate_block bm1 b
            = Ok (BlockManager.with_pool
                    (BlockManager.free_block_ids bm1 ++ [b])
                    (BlockManager.used_block_ids bm1 ∖ {[b]}) bm1)) as Hrun.
    { unfold BlockManager._deallocate_block. rewrite Hget1. simpl.
      rewrite (proj2 (Z.eqb_eq _ _)) by done. simpl.
      rewrite bool_decide_eq_true_2 by (by rewrite Hused1). done. }
    rewrite Hrun. eexists. split; [done|].
    split; [|done].
    split.
    + by apply (pool_inv__deallocate_block bm1 b).
    + intros y. change (pool_size (BlockManager.with_pool _ _ bm1))
        with (pool_size bm1). simpl_bm.
      rewrite Hsize1, Hcover, Hfree1, Hused1.
      rewrite elem_of_app, list_elem_of_singleton, elem_of_difference,
        elem_of_singleton.
      destruct (decide (y = b)) as [->|?]; tauto.
    + intros n blk' Hn. by apply Hblocks.
    + intros n blk' Hn. by apply Hblocks.
    + intros y. simpl_bm. rewrite Hfree1.
      rewrite elem_of_app, list_elem_of_singleton. unfold occ_sub.
      intros [Hy| ->].
      * rewrite bool_decide_eq_false_2; [by apply Hfr|].
        intros ->. by apply (pool_disjoint _ Hpool b).
      * rewrite bool_decide_eq_true_2 by done. lia.
    + intros y. simpl_bm. rewrite Hused1.
      rewrite elem_of_difference, elem_of_singleton. unfold occ_sub.
      intros [Hy Hne]. rewrite bool_decide_eq_false_2 by done.
      by apply Hused.
    + intros h y. change (pool_size (BlockManager.with_pool _ _ bm1))
        with (pool_size bm1). simpl_bm. rewrite Hindex1, Hsize1.
      apply Hindex.
  - apply Z.eqb_neq in Hz.
    eexists. split; [done|]. split; [|done].
    split; rewrite ?Hfree1, ?Hused1, ?Hindex1, ?Hsize1; try done.
    + intros n blk' Hn. by apply Hblocks.
    + intros n blk' Hn. by apply Hblocks.
    + intros y Hy. unfold occ_sub.
      rewrite bool_decide_eq_false_2; [by apply Hfr|].
      intros ->. by apply (pool_disjoint _ Hpool b).
    + intros y Hy. unfold occ_sub. apply Hused in Hy.
      case_bool_decide; [subst y|]; lia.
Qed.

(** Number of entries of a block table that are [b]. *)
Definition occurrences (b : Z) (l : list Z) : Z :=
  Z.of_nat (length (filter (λ x, x = b) l)).

Lemma occurrences_nil b : occurrences b [] = 0.
Proof. done. Qed.

Lemma occurrences_cons b x l :
  occurrences b (x :: l)
  = (if bool_decide (x = b) then 1 else 0) + occurrences b l.
Proof.
  unfold occurrences. rewrite filter_cons.
  case_decide; case_bool_decide; try done. simpl. lia.
Qed.

Lemma occurrences_app b l1 l2 :
  occurrences b (l1 ++ l2) = occurrences b l1 + occurrences b l2.
Proof. unfold occurrences. rewrite filter_app, length_app. lia. Qed.

Lemma occurrences_nonneg b l : 0 ≤ occurrences b l.
Proof. unfold occurrences. lia. Qed.

Lemma occurrences_reverse b l : occurrences b (reverse l) = occurrences b l.
Proof.
  induction l as [|x l IH]; [done|].
  rewrite reverse_cons, occurrences_app, IH, !occurrences_cons,
    occurrences_nil. lia.
Qed.

Lemma occurrences_elem b l : b ∈ l ↔ 0 < occurrences b l.
Proof.
  induction l as [|x l IH].
  - rewrite occurrences_nil. split; [by intros ?%elem_of_nil|lia].
  - rewrite occurrences_cons, elem_of_cons.
    pose proof (occurrences_nonneg b l).
    case_bool_decide as Hx.
    + split; [lia|]. intros _. by left.
    + rewrite IH. split; [|intros ?; right; lia].
      intros [?|?]; [congruence|lia].
Qed.

Lemma deallocate_loop_spec occ l bm :
  bm_inv occ bm →
  (∀ b, b ∈ l → 0 ≤ b < pool_size bm) →
  (∀ b, occurrences b l ≤ occ b) →
  ∃ bm', for_each BlockManager.deallocate_body l bm = Ok bm' ∧
         bm_inv (λ b, occ b - occurrences b l) bm' ∧
         BlockManager.block_size bm' = BlockManager.block_size bm ∧
         BlockManager.hash_to_block_id bm' = BlockManager.hash_to_block_id bm ∧
         pool_size bm' = pool_size bm ∧
         contents bm' = contents bm.
Proof.
  revert occ bm. induction l as [|x l IH]; intros occ bm Hinv Hrange Hocc.
  - exists bm. split_and!; try done.
    eapply bm_inv_ext; [|done]. intros b. rewrite occurrences_nil. lia.
  - assert (0 ≤ x < pool_size bm) as Hx by (apply Hrange; by left).
    assert (0 < occ x) as Hpos.
    { specialize (Hocc x). rewrite occurrences_cons in Hocc.
      rewrite bool_decide_eq_true_2 in Hocc by done.
      pose proof (occurrences_nonneg x l). lia. }
    destruct (deallocate_body_spec occ bm x Hinv Hx Hpos)
      as (bm1 & Hrun1 & Hinv1 & Hbs1 & Hidx1 & Hsz1 & Hcont1).
    destruct (IH (occ_sub x occ) bm1 Hinv1) as
      (bm' & Hrun & Hinv' & Hbs & Hidx & Hsz & Hcont).
    { intros b Hb. rewrite Hsz1. apply Hrange. by right. }
    { intros b. specialize (Hocc b). rewrite occurrences_cons in Hocc.
      unfold occ_sub. case_bool_decide as Hxb.
      - subst b. rewrite bool_decide_eq_true_2 by done. lia.
      - rewrite bool_decide_eq_false_2 by congruence. lia. }
    exists bm'. simpl. rewrite Hrun1. simpl.
    split_and!; try congruence.
    eapply bm_inv_ext; [|done]. intros b. simpl.
    rewrite occurrences_cons. unfold occ_sub.
    case_bool_decide as Hxb.
    + subst b. rewrite bool_decide_eq_true_2 by done. lia.
    + rewrite bool_decide_eq_false_2 by congruence. lia.
Qed.

Lemma deallocate_spec occ bm seq :
  bm_inv occ bm →
  (∀ b, b ∈ Sequence.block_table seq → 0 ≤ b < pool_size bm) →
  (∀ b, occurrences b (Sequence.block_table seq) ≤ occ b) →
  ∃ bm',
    BlockManager.deallocate bm seq
    = Ok (bm', Sequence.with_block_table []
                 (Sequence.with_num_cached_tokens 0 seq)) ∧
    bm_inv (λ b, occ b - occurrences b (Sequence.block_table seq)) bm' ∧
    BlockManager.block_size bm' = BlockManager.block_size bm ∧
    BlockManager.hash_to_block_id bm' = BlockManager.hash_to_block_id bm ∧
    pool_size bm' = pool_size bm ∧
    contents bm' = contents bm.
Proof.
  intros Hinv Hrange Hocc.
  destruct (deallocate_loop_spec occ (reverse (Sequence.block_table seq)) bm)
    as (bm' & Hrun & Hinv' & Hrest); [done| | |].
  - intros b Hb. apply Hrange. by apply elem_of_reverse.
  - intros b. by rewrite occurrences_reverse.
  - exists bm'. unfold BlockManager.deallocate. rewrite Hrun. simpl.
    split_and!; [done| |apply Hrest..].
    eapply bm_inv_ext; [|done]. intros b. simpl.
    by rewrite occurrences_reverse.
Qed.

(** *** The two halves of the body of [allocate]

    [acquire] is the [if cache_miss: ... else: ...] statement, which obtains
    the block; [record] is the final [if h != -1: ...], which stores the hash
    and publishes the block.  [allocate_body_unfold] shows that the body is
    their composition. *)

Definition acquire (self : BlockManager.t) (seq : Sequence.t) (block_id : Z)
    (cache_miss : bool) : result (BlockManager.t * Sequence.t * Z) :=
  if cache_miss then
    block_id ← py_getitem (BlockManager.free_block_ids self) 0;
    self ← BlockManager._allocate_block self block_id;
    Ok (self, seq, block_id)
  else
    let seq :=
      Sequence.with_num_cached_tokens
        (Sequence.num_cached_tokens seq + BlockManager.block_size self) seq in
    if bool_decide (block_id ∈ BlockManager.used_block_ids self) then
      block ← BlockManager.get_block self block_id;
      Ok (BlockManager.put_block self block_id
            (Block.with_ref_count (Block.ref_count block + 1) block),
          seq, block_id)
    else
      self ← BlockManager._allocate_block self block_id;
      Ok (self, seq, block_id).

Definition record (self : BlockManager.t) (block_id h : Z)
    (token_ids : list Z) : result BlockManager.t :=
  if bool_decide (h ≠ -1) then
    block ← BlockManager.get_block self block_id;
    Ok (BlockManager.publish h block_id
          (BlockManager.put_block self block_id
             (Block.update block h token_ids)))
  else Ok self.

Definition block_hash (self : BlockManager.t) (token_ids : list Z) (h : Z)
  : result Z :=
  if bool_decide (Z.of_nat (length token_ids) = BlockManager.block_size self)
  then BlockManager.compute_hash token_ids h else Ok (-1).

Definition lookup_miss (self : BlockManager.t) (token_ids : list Z)
    (block_id : Z) (cache_miss : bool) : result bool :=
  if bool_decide (block_id = -1) then Ok true
  else
    b ← BlockManager.get_block self block_id;
    Ok (if bool_decide (Block.token_ids b ≠ token_ids) then true
        else cache_miss).

Lemma allocate_body_unfold i st :
  BlockManager.allocate_body i st =
  (let self := BlockManager.a_self st in
   let seq := BlockManager.a_seq st in
   token_ids ← Sequence.block seq i;
   h ← block_hash self token_ids (BlockManager.a_h st);
   let block_id := default (-1) (BlockManager.hash_to_block_id self !! h) in
   cache_miss ← lookup_miss self token_ids block_id
                  (BlockManager.a_cache_miss st);
   '(self, seq, block_id) ← acquire self seq block_id cache_miss;
   self ← record self block_id h token_ids;
   Ok (BlockManager.AllocState self
         (Sequence.with_block_table
            (Sequence.block_table seq ++ [block_id]) seq)
         h cache_miss)).
Proof. done. Qed.

Lemma with_num_cached_tokens_id seq :
  Sequence.with_num_cached_tokens (Sequence.num_cached_tokens seq) seq = seq.
Proof. by destruct seq. Qed.

Lemma acquire_spec occ self seq block_id cache_miss self' seq' b :
  bm_inv occ self →
  acquire self seq block_id cache_miss = Ok (self', seq', b) →
  0 ≤ b < pool_size self ∧
  bm_inv (occ_add b occ) self' ∧
  pool_size self' = pool_size self ∧
  BlockManager.block_size self' = BlockManager.block_size self ∧
  BlockManager.hash_to_block_id self' = BlockManager.hash_to_block_id self ∧
  (length (BlockManager.free_block_ids self)
   ≤ S (length (BlockManager.free_block_ids self')))%nat ∧
  ∃ n, seq' = Sequence.with_num_cached_tokens n seq.
Proof.
  intros Hinv Hrun. unfold acquire in Hrun.
  repeat step_result; simpl_bm.
  - pose proof (pool_size__allocate_block _ _ _ Hm0) as Hsz.
    destruct (bm_inv_claim _ _ _ _ Hinv Hm0) as (Hinv' & Hb & _).
    apply _allocate_block_Ok in Hm0 as (blk & l1 & l2 & _ & _ & Hf & _ & ->).
    simpl_bm. rewrite put_block_block_size, put_block_index, Hf.
    split_and!; try done; [lia..| |].
    + rewrite !length_app. simpl. lia.
    + eexists. by rewrite with_num_cached_tokens_id.
  - case_bool_decide as Hu; [|done].
    assert (0 ≤ b < pool_size self) as Hb
      by (apply (inv_cover _ _ Hinv); by right).
    rewrite put_block_pool_size, put_block_block_size, put_block_index,
      put_block_free.
    split_and!; try done; [lia..| |lia|by eexists]. by apply bm_inv_share.
  - pose proof (pool_size__allocate_block _ _ _ Hm) as Hsz.
    destruct (bm_inv_claim _ _ _ _ Hinv Hm) as (Hinv' & Hb & _).
    apply _allocate_block_Ok in Hm as (blk & l1 & l2 & _ & _ & Hf & _ & ->).
    simpl_bm. rewrite put_block_block_size, put_block_index, Hf.
    split_and!; try done; [lia..| |by eexists].
    rewrite !length_app. simpl. lia.
Qed.

Lemma record_spec occ self b h token_ids self' :
  bm_inv occ self → 0 ≤ b < pool_size self →
  record self b h token_ids = Ok self' →
  bm_inv occ self' ∧
  pool_size self' = pool_size self ∧
  BlockManager.block_size self' = BlockManager.block_size self ∧
  BlockManager.free_block_ids self' = BlockManager.free_block_ids self ∧
  BlockManager.used_block_ids self' = BlockManager.used_block_ids self.
Proof.
  intros Hinv Hb Hrun. unfold record in Hrun.
  repeat step_result; [|done].
  rewrite publish_pool_size, put_block_pool_size. simpl_bm.
  rewrite put_block_block_size, put_block_free, put_block_used.
  split_and!; try done. by apply bm_inv_update.
Qed.

Lemma bm_inv_allocate_body occ i st st' :
  bm_inv occ (BlockManager.a_self st) →
  BlockManager.allocate_body i st = Ok st' →
  ∃ b, 0 ≤ b < pool_size (BlockManager.a_self st) ∧
       Sequence.block_table (BlockManager.a_seq st')
       = Sequence.block_table (BlockManager.a_seq st) ++ [b] ∧
       bm_inv (occ_add b occ) (BlockManager.a_self st') ∧
       pool_size (BlockManager.a_self st')
       = pool_size (BlockManager.a_self st) ∧
       BlockManager.block_size (BlockManager.a_self st')
       = BlockManager.block_size (BlockManager.a_self st).
Proof.
  intros Hinv Hrun. rewrite allocate_body_unfold in Hrun.
  cbv zeta in Hrun. repeat step_result.
  destruct (acquire_spec _ _ _ _ _ _ _ _ Hinv Hm2)
    as (Hb & Hinv1 & Hsz1 & Hbs1 & _ & _ & n & ->).
  destruct (record_spec _ _ _ _ _ _ Hinv1 ltac:(by rewrite Hsz1) Hm3)
    as (Hinv2 & Hsz2 & Hbs2 & _).
  exists z. simpl_bm.
  split; [done|]. split; [done|]. split; [done|]. split; congruence.
Qed.

(** The part of a sequence that the block manager never writes. *)
Definition seq_core (s : Sequence.t)
  : Z * Sequence.SequenceStatus * list Z * Z * Z * Z * Z * bool :=
  (Sequence.seq_id s, Sequence.status s, Sequence.token_ids s,
   Sequence.last_token s, Sequence.num_tokens s, Sequence.num_prompt_tokens s,
   Sequence.max_tokens s, Sequence.ignore_eos s).

Lemma seq_core_num_blocks s s' :
  seq_core s' = seq_core s → Sequence.num_blocks s' = Sequence.num_blocks s.
Proof. unfold seq_core, Sequence.num_blocks. intros [=]. congruence. Qed.

Lemma seq_core_block s s' i :
  seq_core s' = seq_core s → Sequence.block s' i = Sequence.block s i.
Proof.
  intros Hc. unfold Sequence.block. rewrite (seq_core_num_blocks _ _ Hc).
  injection Hc as _ _ -> _ _ _ _ _. done.
Qed.

Lemma allocate_body_seq_core i st st' :
  BlockManager.allocate_body i st = Ok st' →
  seq_core (BlockManager.a_seq st') = seq_core (BlockManager.a_seq st).
Proof.
  intros Hrun. rewrite allocate_body_unfold in Hrun. cbv zeta in Hrun.
  repeat step_result. unfold acquire in Hm2.
  repeat step_result; done.
Qed.

Lemma bm_inv_allocate_loop occ l st st' :
  bm_inv occ (BlockManager.a_self st) →
  for_each BlockManager.allocate_body l st = Ok st' →
  ∃ tbl,
    Sequence.block_table (BlockManager.a_seq st')
    = Sequence.block_table (BlockManager.a_seq st) ++ tbl ∧
    (∀ b, b ∈ tbl → 0 ≤ b < pool_size (BlockManager.a_self st)) ∧
    length tbl = length l ∧
    bm_inv (λ b, occ b + occurrences b tbl) (BlockManager.a_self st') ∧
    pool_size (BlockManager.a_self st')
    = pool_size (BlockManager.a_self st) ∧
    BlockManager.block_size (BlockManager.a_self st')
    = BlockManager.block_size (BlockManager.a_self st) ∧
    seq_core (BlockManager.a_seq st') = seq_core (BlockManager.a_seq st).
Proof.
  revert occ st. induction l as [|i l IH]; intros occ st Hinv Hrun.
  - simpl in Hrun. injection Hrun as <-. exists [].
    rewrite app_nil_r. split_and!; try done.
    + by intros b ?%elem_of_nil.
    + eapply bm_inv_ext; [|done]. intros b. rewrite occurrences_nil. lia.
  - simpl in Hrun. inv_bind Hrun. rename x into st1.
    destruct (bm_inv_allocate_body _ _ _ _ Hinv Hm)
      as (b & Hb & Htab1 & Hinv1 & Hsz1 & Hbs1).
    pose proof (allocate_body_seq_core _ _ _ Hm) as Hcore1.
    destruct (IH _ _ Hinv1 Hrun)
      as (tbl & Htab & Hrange & Hlen & Hinv' & Hsz & Hbs & Hcore).
    exists (b :: tbl). rewrite Htab, Htab1, <- app_assoc. simpl.
    split; [done|]. split.
    { intros y [->|Hy]%elem_of_cons; [done|].
      rewrite <- Hsz1. by apply Hrange. }
    split; [by rewrite Hlen|]. split; [|split_and!; congruence].
    eapply bm_inv_ext; [|done]. intros y. simpl.
    rewrite occurrences_cons. unfold occ_add.
    case_bool_decide as Hy.
    + subst y. rewrite bool_decide_eq_true_2 by done. lia.
    + rewrite bool_decide_eq_false_2 by congruence. lia.
Qed.

Lemma bm_inv_allocate occ bm seq bm' seq' :
  bm_inv occ bm →
  BlockManager.allocate bm seq = Ok (bm', seq') →
  bm_inv (λ b, occ b + occurrences b (Sequence.block_table seq')) bm' ∧
  (∀ b, b ∈ Sequence.block_table seq' → 0 ≤ b < pool_size bm) ∧
  length (Sequence.block_table seq') = Z.to_nat (Sequence.num_blocks seq) ∧
  pool_size bm' = pool_size bm ∧
  BlockManager.block_size bm' = BlockManager.block_size bm ∧
  seq_core seq' = seq_core seq.
Proof.
  intros Hinv Hrun. unfold BlockManager.allocate in Hrun.
  repeat step_result. apply bool_decide_eq_true in Hm.
  destruct (bm_inv_allocate_loop occ _
              (BlockManager.AllocState bm seq (-1) false) _ Hinv Hm0)
    as (tbl & Htab & Hrange & Hlen & Hinv' & Hsz & Hbs & Hcore).
  simpl_bm. rewrite Hm in Htab. simpl in Htab. rewrite Htab.
  rewrite length_seqZ in Hlen. by split_and!.
Qed.

(** *** When [allocate] cannot fail *)

Definition hash_ok (h : Z) : Prop := h = -1 ∨ 0 ≤ h < 2 ^ 64.

Lemma compute_hash_range token_ids prefix h :
  BlockManager.compute_hash token_ids prefix = Ok h → 0 ≤ h < 2 ^ 64.
Proof.
  unfold BlockManager.compute_hash. intros Hrun. repeat step_result;
    apply xxh64_intdigest_range.
Qed.

Lemma compute_hash_success token_ids prefix :
  hash_ok prefix → ∃ h, BlockManager.compute_hash token_ids prefix = Ok h.
Proof.
  intros [->|Hr]; unfold BlockManager.compute_hash.
  - rewrite bool_decide_eq_false_2 by (intros ?; done). by eexists.
  - rewrite bool_decide_eq_true_2 by lia. unfold int_to_bytes8.
    rewrite (proj2 (Z.leb_le _ _)) by lia.
    rewrite (proj2 (Z.ltb_lt _ _)) by lia. by eexists.
Qed.

Lemma block_hash_ok self token_ids prefix h :
  block_hash self token_ids prefix = Ok h → hash_ok h.
Proof.
  unfold block_hash. intros Hrun. step_result; [|left; congruence].
  right. by eapply compute_hash_range.
Qed.

Lemma _allocate_block_success occ bm b :
  bm_inv occ bm → b ∈ BlockManager.free_block_ids bm →
  ∃ bm', BlockManager._allocate_block bm b = Ok bm'.
Proof.
  intros Hinv Hb.
  assert (0 ≤ b < pool_size bm) as Hr by (apply (inv_cover _ _ Hinv); by left).
  destruct (get_block_exists _ _ Hr) as [blk Hget].
  pose proof Hget as Hlook. apply get_block_range in Hlook; [|done].
  unfold BlockManager._allocate_block. rewrite Hget. simpl.
  rewrite (inv_ref_count _ _ Hinv _ _ Hlook), Z2Nat.id by lia.
  rewrite (inv_free _ _ Hinv b Hb). simpl. rewrite put_block_free.
  destruct (deque_remove_elem b _ Hb) as [l' ->]. by eexists.
Qed.

Lemma acquire_success occ self seq block_id cache_miss :
  bm_inv occ self →
  BlockManager.free_block_ids self ≠ [] →
  (cache_miss = false → 0 ≤ block_id < pool_size self) →
  ∃ r, acquire self seq block_id cache_miss = Ok r.
Proof.
  intros Hinv Hfree Hhit. unfold acquire. destruct cache_miss.
  - destruct (BlockManager.free_block_ids self) as [|b l] eqn:Hf; [done|].
    assert (py_getitem (b :: l) 0 = Ok b) as -> by (by apply py_getitem_head).
    simpl. destruct (_allocate_block_success occ self b Hinv) as [bm' ->].
    + rewrite Hf. by left.
    + by eexists.
  - specialize (Hhit eq_refl). case_bool_decide as Hu.
    + destruct (get_block_exists _ _ Hhit) as [blk ->]. by eexists.
    + destruct (_allocate_block_success occ self block_id Hinv) as [bm' ->].
      * by apply (inv_cover _ _ Hinv) in Hhit as [?|?].
      * by eexists.
Qed.

Lemma allocate_body_success occ i st :
  bm_inv occ (BlockManager.a_self st) →
  0 ≤ i < Sequence.num_blocks (BlockManager.a_seq st) →
  BlockManager.free_block_ids (BlockManager.a_self st) ≠ [] →
  hash_ok (BlockManager.a_h st) →
  ∃ st', BlockManager.allocate_body i st = Ok st' ∧
         hash_ok (BlockManager.a_h st') ∧
         (length (BlockManager.free_block_ids (BlockManager.a_self st))
          ≤ S (length (BlockManager.free_block_ids (BlockManager.a_self st'))))%nat.
Proof.
  intros Hinv Hi Hfree Hh. rewrite allocate_body_unfold. cbv zeta.
  unfold Sequence.block at 1.
  rewrite (proj2 (Z.leb_le _ _)) by lia.
  rewrite (proj2 (Z.ltb_lt _ _)) by lia. simpl.
  set (token_ids := py_slice _ _ _).
  assert (∃ h, block_hash (BlockManager.a_self st) token_ids
                 (BlockManager.a_h st) = Ok h) as [h Hbh].
  { unfold block_hash. case_bool_decide; [|by eexists].
    by apply compute_hash_success. }
  rewrite Hbh. simpl.
  set (block_id := default (-1) _).
  assert (block_id ≠ -1 → 0 ≤ block_id < pool_size (BlockManager.a_self st))
    as Hrange.
  { unfold block_id. intros Hne.
    destruct (BlockManager.hash_to_block_id (BlockManager.a_self st) !! h)
      as [b|] eqn:Hidx; [|done].
    by apply (inv_index _ _ Hinv) in Hidx. }
  assert (∃ cm, lookup_miss (BlockManager.a_self st) token_ids block_id
                  (BlockManager.a_cache_miss st) = Ok cm
                ∧ (cm = false → block_id ≠ -1)) as (cm & Hcm & Hcmf).
  { unfold lookup_miss. case_bool_decide as Hb; [by eexists|].
    destruct (get_block_exists _ _ (Hrange Hb)) as [blk ->]. simpl.
    eexists. split; [done|]. done. }
  rewrite Hcm. simpl.
  destruct (acquire_success occ (BlockManager.a_self st)
              (BlockManager.a_seq st) block_id cm Hinv Hfree)
    as [[[self1 seq1] b] Hacq]; [by intros ?%Hcmf%Hrange|].
  rewrite Hacq. simpl.
  destruct (acquire_spec _ _ _ _ _ _ _ _ Hinv Hacq)
    as (Hb & Hinv1 & Hsz1 & _ & _ & Hlen & _).
  assert (∃ self2, record self1 b h token_ids = Ok self2) as [self2 Hrec].
  { unfold record. case_bool_decide; [|by eexists].
    destruct (get_block_exists self1 b) as [blk ->]; [by rewrite Hsz1|].
    by eexists. }
  rewrite Hrec. simpl. eexists. split; [done|]. simpl_bm.
  split; [by eapply block_hash_ok|].
  destruct (record_spec _ _ _ _ _ _ Hinv1 ltac:(by rewrite Hsz1) Hrec)
    as (_ & _ & _ & -> & _). done.
Qed.

Lemma allocate_loop_success occ l st :
  bm_inv occ (BlockManager.a_self st) →
  (∀ i, i ∈ l → 0 ≤ i < Sequence.num_blocks (BlockManager.a_seq st)) →
  (length l ≤ length (BlockManager.free_block_ids (BlockManager.a_self st)))%nat →
  hash_ok (BlockManager.a_h st) →
  ∃ st', for_each BlockManager.allocate_body l st = Ok st'.
Proof.
  revert occ st. induction l as [|i l IH]; intros occ st Hinv Hl Hlen Hh.
  - by eexists.
  - simpl in Hlen.
    destruct (allocate_body_success occ i st Hinv) as (st1 & Hrun1 & Hh1 & Hlen1);
      [apply Hl; by left| |done|].
    { intros Hnil. rewrite Hnil in Hlen. simpl in Hlen. lia. }
    destruct (bm_inv_allocate_body _ _ _ _ Hinv Hrun1)
      as (b & _ & _ & Hinv1 & _).
    pose proof (allocate_body_seq_core _ _ _ Hrun1) as Hcore.
    destruct (IH _ st1 Hinv1) as [st' Hrun]; [|lia|done|].
    { intros j Hj. rewrite (seq_core_num_blocks _ _ Hcore). apply Hl.
      by right. }
    exists st'. simpl. by rewrite Hrun1.
Qed.

Lemma allocate_success occ bm seq :
  bm_inv occ bm → Sequence.block_table seq = [] →
  BlockManager.can_allocate bm seq = true →
  ∃ bm' seq', BlockManager.allocate bm seq = Ok (bm', seq').
Proof.
  intros Hinv Htab Hcan. unfold BlockManager.can_allocate in Hcan.
  apply Z.leb_le in Hcan.
  destruct (allocate_loop_success occ (seqZ 0 (Sequence.num_blocks seq))
              (BlockManager.AllocState bm seq (-1) false) Hinv)
    as [st' Hrun].
  - intros i Hi. apply elem_of_seqZ in Hi. simpl. lia.
  - rewrite length_seqZ. simpl. lia.
  - by left.
  - unfold BlockManager.allocate.
    rewrite Htab, bool_decide_eq_true_2 by done. simpl.
    rewrite Hrun. by eexists _, _.
Qed.

Lemma block_size__allocate_block bm b bm' :
  BlockManager._allocate_block bm b = Ok bm' →
  BlockManager.block_size bm' = BlockManager.block_size bm.
Proof.
  intros Hrun.
  apply _allocate_block_Ok in Hrun as (blk & l1 & l2 & _ & _ & _ & _ & ->).
  apply put_block_block_size.
Qed.

Lemma block_size_acquire self seq block_id cache_miss self' seq' b :
  acquire self seq block_id cache_miss = Ok (self', seq', b) →
  BlockManager.block_size self' = BlockManager.block_size self.
Proof.
  unfold acquire. intros Hrun.
  repeat step_result; rewrite ?put_block_block_size;
    eauto using block_size__allocate_block.
Qed.

Lemma block_size_record self b h token_ids self' :
  record self b h token_ids = Ok self' →
  BlockManager.block_size self' = BlockManager.block_size self.
Proof.
  unfold record. intros Hrun.
  repeat step_result; simpl_bm; by rewrite ?put_block_block_size.
Qed.

Lemma block_size_allocate_body i st st' :
  BlockManager.allocate_body i st = Ok st' →
  BlockManager.block_size (BlockManager.a_self st')
  = BlockManager.block_size (BlockManager.a_self st).
Proof.
  intros Hrun. rewrite allocate_body_unfold in Hrun. cbv zeta in Hrun.
  repeat step_result. simpl_bm.
  apply block_size_acquire in Hm2. apply block_size_record in Hm3.
  congruence.
Qed.

(** *** Hash validity

    The chained hash of a list of token blocks, as [allocate] computes it
    along a sequence: each block is hashed with the hash of the one before
    it, the first one with the sentinel. *)

Definition chain_hash (blocks : list (list Z)) : result Z :=
  for_each BlockManager.compute_hash blocks (-1).

Definition chained (bs h : Z) : Prop :=
  ∃ L, Forall (λ T, Z.of_nat (length T) = bs) L ∧ chain_hash L = Ok h.

Definition block_valid (bs : Z) (blk : Block.t) : Prop :=
  (Block.hash blk = -1 → Block.token_ids blk = []) ∧
  (Block.hash blk ≠ -1 →
   Z.of_nat (length (Block.token_ids blk)) = bs ∧
   ∃ L, Forall (λ T, Z.of_nat (length T) = bs) L ∧
        chain_hash (L ++ [Block.token_ids blk]) = Ok (Block.hash blk)).

Definition hash_inv (bm : BlockManager.t) : Prop :=
  ∀ n blk, BlockManager.blocks bm !! n = Some blk →
           block_valid (BlockManager.block_size bm) blk.

Lemma chained_unset bs : chained bs (-1).
Proof. exists []. by split. Qed.

Lemma chain_hash_snoc L token_ids h0 h :
  chain_hash L = Ok h0 →
  BlockManager.compute_hash token_ids h0 = Ok h →
  chain_hash (L ++ [token_ids]) = Ok h.
Proof.
  unfold chain_hash. intros HL Hh. rewrite for_each_app, HL. simpl.
  by rewrite Hh.
Qed.

Lemma chained_hash_ok bs h : chained bs h → hash_ok h.
Proof.
  intros (L & _ & HL). destruct (decide (L = [])) as [->|Hne].
  - left. unfold chain_hash in HL. simpl in HL. congruence.
  - right. destruct (exists_last Hne) as (L' & T & ->).
    unfold chain_hash in HL. rewrite for_each_app in HL.
    inv_bind HL. simpl in HL. inv_bind HL. injection HL as <-.
    by eapply compute_hash_range.
Qed.

Lemma block_valid_chained bs blk : block_valid bs blk → chained bs (Block.hash blk).
Proof.
  intros [Hunset Hset]. destruct (decide (Block.hash blk = -1)) as [->|Hne].
  - apply chained_unset.
  - destruct (Hset Hne) as (Hlen & L & HL & Hchain).
    exists (L ++ [Block.token_ids blk]). split; [|done].
    apply Forall_app. split; [done|]. by apply Forall_singleton.
Qed.

Lemma block_valid_reset bs blk : block_valid bs (Block.reset blk).
Proof. split; [done|]. simpl. done. Qed.

Lemma block_valid_ref_count bs blk n :
  block_valid bs blk → block_valid bs (Block.with_ref_count n blk).
Proof. done. Qed.

Lemma block_valid_update bs blk h0 h token_ids :
  chained bs h0 → Z.of_nat (length token_ids) = bs →
  BlockManager.compute_hash token_ids h0 = Ok h →
  block_valid bs (Block.update blk h token_ids).
Proof.
  intros (L & HL & Hchain) Hlen Hh. split; simpl.
  - intros ->. apply compute_hash_range in Hh. lia.
  - intros _. split; [done|]. exists L. split; [done|].
    by eapply chain_hash_snoc.
Qed.

Lemma hash_inv_put_block bm b x :
  hash_inv bm → block_valid (BlockManager.block_size bm) x →
  hash_inv (BlockManager.put_block bm b x).
Proof.
  intros Hinv Hx n blk. rewrite put_block_block_size.
  unfold BlockManager.put_block.
  destruct (py_index _ _) as [m|]; simpl_bm; [|apply Hinv].
  intros [[_ [<- _]]|[_ Hn]]%list_lookup_insert_Some; [done|].
  by eapply Hinv.
Qed.

Lemma hash_inv_frame bm bm' :
  BlockManager.blocks bm' = BlockManager.blocks bm →
  BlockManager.block_size bm' = BlockManager.block_size bm →
  hash_inv bm → hash_inv bm'.
Proof. unfold hash_inv. intros -> ->. done. Qed.

Lemma hash_inv_contents bm bm' :
  contents bm' = contents bm →
  BlockManager.block_size bm' = BlockManager.block_size bm →
  hash_inv bm → hash_inv bm'.
Proof.
  unfold hash_inv, contents. intros Hc -> Hinv n blk' Hn.
  assert (((λ blk, (Block.hash blk, Block.token_ids blk))
             <$> BlockManager.blocks bm') !! n
          = Some (Block.hash blk', Block.token_ids blk')) as Hl
    by (by rewrite list_lookup_fmap, Hn).
  rewrite Hc, list_lookup_fmap in Hl.
  destruct (BlockManager.blocks bm !! n) as [blk|] eqn:Hblk; [|done].
  simpl in Hl. injection Hl as Hh Ht.
  specialize (Hinv n blk Hblk). unfold block_valid in *.
  by rewrite <- Hh, <- Ht.
Qed.

Lemma hash_inv__allocate_block bm b bm' :
  hash_inv bm → BlockManager._allocate_block bm b = Ok bm' → hash_inv bm'.
Proof.
  intros Hinv Hrun.
  apply _allocate_block_Ok in Hrun as (blk & l1 & l2 & _ & _ & _ & _ & ->).
  eapply (hash_inv_frame (BlockManager.put_block bm b (Block.reset blk)));
    [done..|].
  apply hash_inv_put_block; [done|apply block_valid_reset].
Qed.

Lemma get_block_valid bm b blk :
  hash_inv bm → BlockManager.get_block bm b = Ok blk →
  block_valid (BlockManager.block_size bm) blk.
Proof.
  intros Hinv Hget. apply py_getitem_Ok in Hget as (n & _ & Hn).
  by eapply Hinv.
Qed.

Lemma hash_inv_acquire self seq block_id cache_miss self' seq' b :
  hash_inv self →
  acquire self seq block_id cache_miss = Ok (self', seq', b) →
  hash_inv self'.
Proof.
  intros Hinv Hrun. unfold acquire in Hrun.
  repeat step_result; eauto using hash_inv__allocate_block.
  apply hash_inv_put_block; [done|].
  apply block_valid_ref_count. by eapply get_block_valid.
Qed.

Lemma hash_inv_allocate_body i st st' :
  hash_inv (BlockManager.a_self st) →
  chained (BlockManager.block_size (BlockManager.a_self st))
    (BlockManager.a_h st) →
  BlockManager.allocate_body i st = Ok st' →
  hash_inv (BlockManager.a_self st') ∧
  chained (BlockManager.block_size (BlockManager.a_self st))
    (BlockManager.a_h st').
Proof.
  intros Hinv Hch Hrun. rewrite allocate_body_unfold in Hrun.
  cbv zeta in Hrun. repeat step_result. simpl_bm.
  rename x into token_ids, x0 into h, t into self1.
  pose proof (hash_inv_acquire _ _ _ _ _ _ _ Hinv Hm2) as Hinv1.
  pose proof (block_size_acquire _ _ _ _ _ _ _ Hm2) as Hbs1.
  assert (Z.of_nat (length token_ids)
          = BlockManager.block_size (BlockManager.a_self st)
          ∧ BlockManager.compute_hash token_ids (BlockManager.a_h st) = Ok h
          ∨ h = -1) as [[Hlen Hh]| ->].
  { unfold block_hash in Hm0. case_bool_decide; [by left|right; congruence]. }
  - split.
    + unfold record in Hm3. repeat step_result; [|done].
      eapply (hash_inv_frame (BlockManager.put_block self1 z _)); [done..|].
      apply hash_inv_put_block; [done|]. rewrite Hbs1.
      by eapply block_valid_update.
    + destruct Hch as (L & HL & Hchain).
      exists (L ++ [token_ids]). split.
      * apply Forall_app. split; [done|]. by apply Forall_singleton.
      * by eapply chain_hash_snoc.
  - unfold record in Hm3.
    rewrite bool_decide_eq_false_2 in Hm3 by (intros ?; done).
    injection Hm3 as <-. split; [done|apply chained_unset].
Qed.

Lemma hash_inv_allocate bm seq bm' seq' :
  hash_inv bm → BlockManager.allocate bm seq = Ok (bm', seq') → hash_inv bm'.
Proof.
  intros Hinv Hrun. unfold BlockManager.allocate in Hrun.
  repeat step_result.
  apply (for_each_invariant
           (λ _ st, hash_inv (BlockManager.a_self st)
                    ∧ BlockManager.block_size (BlockManager.a_self st)
                      = BlockManager.block_size bm
                    ∧ chained (BlockManager.block_size bm)
                        (BlockManager.a_h st))
           _ _ (BlockManager.AllocState bm seq (-1) false) _) in Hm0.
  - apply Hm0.
  - intros _ i s1 s2 (Hi1 & Hbs & Hch) Hbody.
    rewrite <- Hbs in Hch.
    destruct (hash_inv_allocate_body _ _ _ Hi1 Hch Hbody) as [Hi2 Hch2].
    rewrite Hbs in Hch2. split_and!; [done| |done].
    rewrite <- Hbs. by eapply block_size_allocate_body.
  - simpl. split_and!; [done..|apply chained_unset].
Qed.

Lemma hash_inv_deallocate bm seq bm' seq' :
  hash_inv bm → BlockManager.deallocate bm seq = Ok (bm', seq') → hash_inv bm'.
Proof.
  intros Hinv Hrun. unfold BlockManager.deallocate in Hrun.
  repeat step_result.
  eapply (for_each_invariant (λ _ bm, hash_inv bm) _ _ bm); [|done|done].
  intros _ b s1 s2 Hi Hbody. unfold BlockManager.deallocate_body in Hbody.
  apply bind_Ok in Hbody as (blk0 & Hget & Hbody). cbv zeta in Hbody.
  assert (hash_inv (BlockManager.put_block s1 b
             (Block.with_ref_count (Block.ref_count blk0 - 1) blk0))) as Hput.
  { apply hash_inv_put_block; [done|].
    apply block_valid_ref_count. by eapply get_block_valid. }
  step_result; [|by step_result].
  apply _deallocate_block_Ok in Hbody as (blk & _ & _ & _ & ->).
  by eapply hash_inv_frame.
Qed.

(** *** [may_append], case by case *)

Lemma may_append_Ok bm seq bm' seq' :
  BlockManager.may_append bm seq = Ok (bm', seq') →
  ∃ last_id last_block,
    last (Sequence.block_table seq) = Some last_id ∧
    BlockManager.get_block bm last_id = Ok last_block ∧
    ((Sequence.num_tokens seq `mod` BlockManager.block_size bm = 1 ∧
      Block.hash last_block ≠ -1 ∧
      ∃ b, head (BlockManager.free_block_ids bm) = Some b ∧
           BlockManager._allocate_block bm b = Ok bm' ∧
           seq' = Sequence.with_block_table
                    (Sequence.block_table seq ++ [b]) seq)
     ∨ (Sequence.num_tokens seq `mod` BlockManager.block_size bm = 0 ∧
        Sequence.num_tokens seq `mod` BlockManager.block_size bm ≠ 1 ∧
        Block.hash last_block = -1 ∧
        ∃ token_ids prefix h,
          Sequence.block seq (Sequence.num_blocks seq - 1) = Ok token_ids ∧
          (prefix = -1 ∨
           ∃ prev_id prev,
             py_getitem (Sequence.block_table seq) (-2) = Ok prev_id ∧
             BlockManager.get_block bm prev_id = Ok prev ∧
             prefix = Block.hash prev) ∧
          BlockManager.compute_hash token_ids prefix = Ok h ∧
          bm' = BlockManager.publish h (Block.block_id last_block)
                  (BlockManager.put_block bm last_id
                     (Block.update last_block h token_ids)) ∧
          seq' = seq)
     ∨ (Sequence.num_tokens seq `mod` BlockManager.block_size bm ≠ 1 ∧
        Sequence.num_tokens seq `mod` BlockManager.block_size bm ≠ 0 ∧
        Block.hash last_block = -1 ∧ bm' = bm ∧ seq' = seq)).
Proof.
  unfold BlockManager.may_append, Sequence.__len__. intros Hrun.
  apply bind_Ok in Hrun as (last_id & Hlast & Hrun).
  apply bind_Ok in Hrun as (last_block & Hget & Hrun).
  apply py_getitem_last in Hlast.
  exists last_id, last_block. split; [done|]. split; [done|].
  case_bool_decide as Hone.
  - left. repeat step_result. apply bool_decide_eq_true in Hm.
    apply py_getitem_head in Hm0.
    split; [done|]. split; [done|]. by exists x0.
  - case_bool_decide as Hzero.
    + right. left.
      apply bind_Ok in Hrun as (u & Hassert & Hrun).
      apply assert_Ok, bool_decide_eq_true in Hassert.
      apply bind_Ok in Hrun as (token_ids & Hblock & Hrun).
      apply bind_Ok in Hrun as (prefix & Hprefix & Hrun).
      apply bind_Ok in Hrun as (h & Hh & Hrun).
      injection Hrun as <- <-.
      split; [done|]. split; [done|].
      split; [done|]. exists token_ids, prefix, h.
      split; [done|]. split; [|done].
      destruct (1 <? _); [|left; congruence].
      right. repeat step_result. by eexists _, _.
    + right. right. repeat step_result.
      apply bool_decide_eq_true in Hm. done.
Qed.

Lemma py_slice_length {A} (l : list A) (a b : Z) :
  0 ≤ a ≤ b →
  Z.of_nat (length (py_slice l a b))
  = Z.min b (Z.of_nat (length l)) - Z.min a (Z.of_nat (length l)).
Proof.
  intros Hab. unfold py_slice, py_slice_bound.
  rewrite (proj2 (Z.ltb_ge _ _)) by lia.
  rewrite (proj2 (Z.ltb_ge _ _)) by lia.
  rewrite length_take, length_drop. lia.
Qed.

Lemma num_blocks_exact n k :
  0 < Sequence.block_size → n = k * Sequence.block_size →
  (n + Sequence.block_size - 1) / Sequence.block_size = k.
Proof.
  intros Hbs ->.
  replace (k * Sequence.block_size + Sequence.block_size - 1)
    with (k * Sequence.block_size + (Sequence.block_size - 1)) by lia.
  rewrite Z.div_add_l by lia. rewrite Z.div_small by lia. lia.
Qed.

Lemma last_block_full seq token_ids :
  0 < Sequence.block_size →
  Z.of_nat (length (Sequence.token_ids seq)) = Sequence.num_tokens seq →
  Sequence.num_tokens seq `mod` Sequence.block_size = 0 →
  Sequence.block seq (Sequence.num_blocks seq - 1) = Ok token_ids →
  Z.of_nat (length token_ids) = Sequence.block_size.
Proof.
  intros Hbs Hlen Hmod Hblock. unfold Sequence.block in Hblock.
  repeat step_result. apply andb_true_iff in Hm as [Hlo _].
  apply Z.leb_le in Hlo.
  apply Z.mod_divide in Hmod as [k Hk]; [|lia].
  unfold Sequence.num_blocks in *.
  rewrite (num_blocks_exact _ k Hbs Hk) in *.
  rewrite py_slice_length by nia. rewrite Hlen, Hk.
  replace (k - 1 + 1) with k by lia. nia.
Qed.

Lemma bm_inv_may_append occ bm seq bm' seq' :
  bm_inv occ bm →
  (∀ b, b ∈ Sequence.block_table seq → 0 ≤ b < pool_size bm) →
  BlockManager.may_append bm seq = Ok (bm', seq') →
  seq_core seq' = seq_core seq ∧
  Sequence.num_cached_tokens seq' = Sequence.num_cached_tokens seq ∧
  pool_size bm' = pool_size bm ∧
  BlockManager.block_size bm' = BlockManager.block_size bm ∧
  (Sequence.block_table seq' = Sequence.block_table seq ∧ bm_inv occ bm'
   ∨ ∃ b, Sequence.block_table seq' = Sequence.block_table seq ++ [b] ∧
          0 ≤ b < pool_size bm ∧ bm_inv (occ_add b occ) bm').
Proof.
  intros Hinv Hrange Hrun.
  apply may_append_Ok in Hrun
    as (last_id & last_block & Hlast & Hget & Hcases).
  assert (0 ≤ last_id < pool_size bm) as Hlr.
  { apply Hrange. apply last_Some in Hlast as [l' ->]. set_solver. }
  destruct Hcases as [(_ & _ & b & _ & Halloc & ->)
                     |[(_ & _ & _ & toks & prefix & h & _ & _ & _ & -> & ->)
                      |(_ & _ & _ & -> & ->)]].
  - pose proof (pool_size__allocate_block _ _ _ Halloc).
    pose proof (block_size__allocate_block _ _ _ Halloc).
    destruct (bm_inv_claim _ _ _ _ Hinv Halloc) as (Hinv' & Hb & _).
    split_and!; try done. right. by exists b.
  - rewrite publish_pool_size, put_block_pool_size. simpl_bm.
    rewrite put_block_block_size.
    split_and!; try done. left. split; [done|].
    pose proof Hget as Hlook. apply get_block_range in Hlook; [|done].
    rewrite (inv_block_id _ _ Hinv _ _ Hlook), Z2Nat.id by lia.
    by apply bm_inv_update.
  - split_and!; try done. by left.
Qed.

Lemma hash_inv_may_append bm seq bm' seq' :
  hash_inv bm →
  BlockManager.block_size bm = Sequence.block_size →
  0 < Sequence.block_size →
  Z.of_nat (length (Sequence.token_ids seq)) = Sequence.num_tokens seq →
  BlockManager.may_append bm seq = Ok (bm', seq') →
  hash_inv bm'.
Proof.
  intros Hinv Hbs Hpos Hlen Hrun.
  apply may_append_Ok in Hrun
    as (last_id & last_block & Hlast & Hget & Hcases).
  destruct Hcases as [(_ & _ & b & _ & Halloc & ->)
                     |[(Hmod & _ & _ & toks & prefix & h & Hblock & Hprefix
                        & Hh & -> & ->)
                      |(_ & _ & _ & -> & ->)]]; [..|done].
  - by eapply hash_inv__allocate_block.
  - eapply (hash_inv_frame (BlockManager.put_block bm last_id _)); [done..|].
    apply hash_inv_put_block; [done|].
    eapply (block_valid_update _ _ prefix); [|  |done].
    + destruct Hprefix as [->|(prev_id & prev & _ & Hprev & ->)].
      * apply chained_unset.
      * apply block_valid_chained. by eapply get_block_valid.
    + rewrite Hbs in *. by eapply last_block_full.
Qed.

(** ** Worlds: a manager and the sequences it serves

    The sequences are the Sequence objects of the process, in creation
    order.  A step is one call of a BlockManager operation on one of them,
    or one of the changes the rest of the engine makes to a sequence
    (creation, a decoded token, a status change). *)

Record world := World {
  w_bm : BlockManager.t;
  w_seqs : list Sequence.t
}.

Inductive world_step : world → world → Prop :=
  | step_new bm seqs counter prompt params s :
      Sequence.__init__ counter prompt params = Ok s →
      world_step (World bm seqs) (World bm (seqs ++ [s]))
  | step_append_token bm seqs r s token_id :
      seqs !! r = Some s →
      world_step (World bm seqs)
        (World bm (<[r := Sequence.append_token s token_id]> seqs))
  | step_status bm seqs r s st :
      seqs !! r = Some s →
      world_step (World bm seqs)
        (World bm (<[r := Sequence.with_status st s]> seqs))
  | step_allocate bm seqs r s bm' s' :
      seqs !! r = Some s →
      BlockManager.allocate bm s = Ok (bm', s') →
      world_step (World bm seqs) (World bm' (<[r := s']> seqs))
  | step_deallocate bm seqs r s bm' s' :
      seqs !! r = Some s →
      BlockManager.deallocate bm s = Ok (bm', s') →
      world_step (World bm seqs) (World bm' (<[r := s']> seqs))
  | step_may_append bm seqs r s bm' s' :
      seqs !! r = Some s →
      BlockManager.may_append bm s = Ok (bm', s') →
      world_step (World bm seqs) (World bm' (<[r := s']> seqs)).

Inductive reachable : world → Prop :=
  | reachable_init num_blocks bm :
      0 < Sequence.block_size →
      BlockManager.__init__ num_blocks Sequence.block_size = Ok bm →
      reachable (World bm [])
  | reachable_step w w' :
      reachable w → world_step w w' → reachable w'.

(** Number of entries equal to [b] over all block tables. *)
Definition total_occurrences (seqs : list Sequence.t) (b : Z) : Z :=
  foldr (λ s acc, occurrences b (Sequence.block_table s) + acc) 0 seqs.


Lemma total_occurrences_app seqs1 seqs2 b :
  total_occurrences (seqs1 ++ seqs2) b
  = total_occurrences seqs1 b + total_occurrences seqs2 b.
Proof.
  induction seqs1 as [|s seqs1 IH]; simpl; [done|]. rewrite IH. lia.
Qed.

Lemma total_occurrences_insert seqs r s s' b :
  seqs !! r = Some s →
  total_occurrences (<[r := s']> seqs) b
  = total_occurrences seqs b
    - occurrences b (Sequence.block_table s)
    + occurrences b (Sequence.block_table s').
Proof.
  revert r. induction seqs as [|s0 seqs IH]; intros r Hr; [done|].
  destruct r as [|r]; simpl in *.
  - injection Hr as ->. lia.
  - rewrite (IH r Hr). lia.
Qed.

Lemma total_occurrences_nonneg seqs b : 0 ≤ total_occurrences seqs b.
Proof.
  induction seqs as [|s seqs IH]; simpl; [done|].
  pose proof (occurrences_nonneg b (Sequence.block_table s)). lia.
Qed.

Lemma total_occurrences_ge seqs r s b :
  seqs !! r = Some s →
  occurrences b (Sequence.block_table s) ≤ total_occurrences seqs b.
Proof.
  revert r. induction seqs as [|s0 seqs IH]; intros r Hr; [done|].
  destruct r as [|r]; simpl in *.
  - injection Hr as ->. pose proof (total_occurrences_nonneg seqs b). lia.
  - specialize (IH r Hr).
    pose proof (occurrences_nonneg b (Sequence.block_table s0)). lia.
Qed.

Lemma total_occurrences_same_table seqs r s s' b :
  seqs !! r = Some s →
  Sequence.block_table s' = Sequence.block_table s →
  total_occurrences (<[r := s']> seqs) b = total_occurrences seqs b.
Proof.
  intros Hr Htab. rewrite (total_occurrences_insert _ _ s) by done.
  rewrite Htab. lia.
Qed.

Record world_inv (w : world) : Prop := {
  wi_block_size : BlockManager.block_size (w_bm w) = Sequence.block_size;
  wi_block_size_pos : 0 < Sequence.block_size;
  wi_bm : bm_inv (total_occurrences (w_seqs w)) (w_bm w);
  wi_hash : hash_inv (w_bm w);
  wi_tables :
    ∀ r s b, w_seqs w !! r = Some s → b ∈ Sequence.block_table s →
             0 ≤ b < pool_size (w_bm w);
  wi_tokens :
    ∀ r s, w_seqs w !! r = Some s →
           Z.of_nat (length (Sequence.token_ids s)) = Sequence.num_tokens s
}.

Lemma bm_inv__init__ n bs bm :
  BlockManager.__init__ n bs = Ok bm →
  bm_inv (λ _, 0) bm ∧ hash_inv bm ∧ BlockManager.block_size bm = bs.
Proof.
  intros Hrun. pose proof (pool_inv__init__ _ _ _ Hrun) as Hpool.
  unfold BlockManager.__init__ in Hrun. repeat step_result.
  apply Z.ltb_lt in Hm.
  assert (∀ k blk, (Block.__init__ <$> seqZ 0 n) !! k = Some blk →
                   blk = Block.__init__ (Z.of_nat k)) as Hlook.
  { intros k blk. rewrite list_lookup_fmap.
    destruct (seqZ 0 n !! k) as [z|] eqn:Hz; [|done].
    apply lookup_seqZ in Hz as [-> _]. simpl. by intros [= <-]. }
  split_and!; [|intros k blk Hk; apply Hlook in Hk as ->; by split|done].
  split; simpl_bm; [done|..].
  - intros b. unfold pool_size. simpl_bm.
    rewrite length_fmap, length_seqZ, elem_of_seqZ. set_solver by lia.
  - intros k blk Hk. by apply Hlook in Hk as ->.
  - intros k blk Hk. by apply Hlook in Hk as ->.
  - done.
  - set_solver.
  - intros h b. by rewrite lookup_empty.
Qed.

Lemma world_inv_init n bm :
  0 < Sequence.block_size →
  BlockManager.__init__ n Sequence.block_size = Ok bm →
  world_inv (World bm []).
Proof.
  intros Hpos Hrun.
  destruct (bm_inv__init__ _ _ _ Hrun) as (Hinv & Hhash & Hbs).
  split; simpl; try done.
Qed.

Lemma Sequence__init__wf counter prompt params s :
  Sequence.__init__ counter prompt params = Ok s →
  Sequence.block_table s = [] ∧
  Z.of_nat (length (Sequence.token_ids s)) = Sequence.num_tokens s ∧
  Sequence.num_prompt_tokens s = Sequence.num_tokens s ∧
  0 < Sequence.num_tokens s.
Proof.
  unfold Sequence.__init__. intros Hrun. repeat step_result. simpl.
  split_and!; try done.
  apply py_getitem_last in Hm. destruct prompt; [done|]. simpl. lia.
Qed.

(** An update of one sequence that leaves its block table and its tokens'
    length relation alone keeps the invariant. *)
Lemma world_inv_update_seq bm seqs r s s' :
  world_inv (World bm seqs) →
  seqs !! r = Some s →
  Sequence.block_table s' = Sequence.block_table s →
  Z.of_nat (length (Sequence.token_ids s')) = Sequence.num_tokens s' →
  world_inv (World bm (<[r := s']> seqs)).
Proof.
  intros [Hbs Hpos Hinv Hhash Htab Htok] Hr Htable Hlen. simpl in *.
  split; simpl; try done.
  - eapply bm_inv_ext; [|done]. intros b.
    by rewrite (total_occurrences_same_table _ _ s).
  - intros r' s0 b [[-> [<- _]]|[_ Hr']]%list_lookup_insert_Some Hb.
    + rewrite Htable in Hb. by eapply Htab.
    + by eapply Htab.
  - intros r' s0 [[-> [<- _]]|[_ Hr']]%list_lookup_insert_Some; [done|].
    by eapply Htok.
Qed.

Lemma world_inv_step w w' : world_inv w → world_step w w' → world_inv w'.
Proof.
  intros Hw Hstep. destruct Hstep.
  - (* a new sequence *)
    destruct Hw as [Hbs Hpos Hinv Hhash Htab Htok]. simpl in *.
    apply Sequence__init__wf in H1 as (Htable & Hlen & _).
    split; simpl; try done.
    + eapply bm_inv_ext; [|done]. intros b.
      rewrite total_occurrences_app. simpl. rewrite Htable, occurrences_nil.
      lia.
    + intros r s0 b [Hr|[_ Hr]]%lookup_app_Some Hb; [by eapply Htab|].
      apply list_lookup_singleton_Some in Hr as [_ <-].
      rewrite Htable in Hb. by apply elem_of_nil in Hb.
    + intros r s0 [Hr|[_ Hr]]%lookup_app_Some; [by eapply Htok|].
      by apply list_lookup_singleton_Some in Hr as [_ <-].
  - (* a decoded token *)
    eapply world_inv_update_seq; [done..|].
    simpl. rewrite length_app. simpl.
    pose proof (wi_tokens _ Hw _ _ H1). simpl in *. lia.
  - (* a status change *)
    eapply world_inv_update_seq; [done..|].
    apply (wi_tokens _ Hw _ _ H1).
  - (* allocate *)
    destruct Hw as [Hbs Hpos Hinv Hhash Htab Htok]. simpl in *.
    pose proof (hash_inv_allocate _ _ _ _ Hhash H2) as Hhash'.
    destruct (bm_inv_allocate _ _ _ _ _ Hinv H2)
      as (Hinv' & Hrange & _ & Hsz & Hbs' & Hcore).
    assert (Sequence.block_table s = []) as Hempty.
    { unfold BlockManager.allocate in H2. repeat step_result.
      by apply bool_decide_eq_true in Hm. }
    split; simpl; try done; [congruence| | |].
    + eapply bm_inv_ext; [|done]. intros b. simpl.
      rewrite (total_occurrences_insert _ _ s) by done.
      rewrite Hempty, occurrences_nil. lia.
    + intros r' s0 b [[-> [<- _]]|[_ Hr']]%list_lookup_insert_Some Hb;
        rewrite Hsz; [by apply Hrange|by eapply Htab].
    + intros r' s0 [[-> [<- _]]|[_ Hr']]%list_lookup_insert_Some;
        [|by eapply Htok].
      specialize (Htok _ _ H1). unfold seq_core in Hcore.
      injection Hcore as _ _ -> _ -> _ _ _. done.
  - (* deallocate *)
    destruct Hw as [Hbs Hpos Hinv Hhash Htab Htok]. simpl in *.
    pose proof (hash_inv_deallocate _ _ _ _ Hhash H2) as Hhash'.
    destruct (deallocate_spec _ _ s Hinv)
      as (bm'' & Hrun & Hinv' & Hbs' & _ & Hsz & _).
    { intros b Hb. by eapply Htab. }
    { intros b. by eapply total_occurrences_ge. }
    rewrite Hrun in H2. injection H2 as <- <-.
    split; simpl; try done; [congruence| | |].
    + eapply bm_inv_ext; [|done]. intros b. simpl.
      rewrite (total_occurrences_insert _ _ s) by done.
      simpl. rewrite occurrences_nil. lia.
    + intros r' s0 b [[-> [<- _]]|[_ Hr']]%list_lookup_insert_Some Hb;
        rewrite Hsz; [by apply elem_of_nil in Hb|by eapply Htab].
    + intros r' s0 [[-> [<- _]]|[_ Hr']]%list_lookup_insert_Some;
        [|by eapply Htok].
      simpl. by eapply Htok.
  - (* may_append *)
    destruct Hw as [Hbs Hpos Hinv Hhash Htab Htok]. simpl in *.
    pose proof (hash_inv_may_append _ _ _ _ Hhash Hbs Hpos (Htok _ _ H1) H2)
      as Hhash'.
    destruct (bm_inv_may_append _ _ _ _ _ Hinv (λ b, Htab _ _ b H1) H2)
      as (Hcore & _ & Hsz & Hbs' & Hcases).
    split; simpl; try done; [congruence| | |].
    + destruct Hcases as [[Htable Hinv']|(b & Htable & Hb & Hinv')];
        (eapply bm_inv_ext; [|done]); intros y;
        rewrite (total_occurrences_insert _ _ s) by done; rewrite Htable.
      * lia.
      * rewrite occurrences_app, occurrences_cons, occurrences_nil.
        unfold occ_add. case_bool_decide as Hy.
        -- subst y. rewrite bool_decide_eq_true_2 by done. lia.
        -- rewrite bool_decide_eq_false_2 by congruence. lia.
    + intros r' s0 b [[-> [<- _]]|[_ Hr']]%list_lookup_insert_Some Hb;
        rewrite Hsz; [|by eapply Htab].
      destruct Hcases as [[Htable _]|(b' & Htable & Hb' & _)];
        rewrite Htable in Hb; [by eapply Htab|].
      apply elem_of_app in Hb as [Hb| ->%list_elem_of_singleton];
        [by eapply Htab|done].
    + intros r' s0 [[-> [<- _]]|[_ Hr']]%list_lookup_insert_Some;
        [|by eapply Htok].
      specialize (Htok _ _ H1). unfold seq_core in Hcore.
      injection Hcore as _ _ -> _ -> _ _ _. done.
Qed.

Lemma reachable_world_inv w : reachable w → world_inv w.
Proof.
  induction 1 as [n bm Hpos Hinit|w w' _ IH Hstep].
  - by eapply world_inv_init.
  - by eapply world_inv_step.
Qed.

(** ** Pool conservation *)

(** C3.  In every manager state that calls of [allocate], [deallocate] and
    [may_append] can produce from a fresh manager (whatever the sequences
    they are called on), the free deque holds no block id twice, no id is
    both in the free deque and in the used set, and the number of free ids
    plus the number of used ids is the number of blocks of the pool. *)
Theorem pool_conservation (bm : BlockManager.t) :
  bm_reachable bm →
  NoDup (BlockManager.free_block_ids bm) ∧
  (∀ b, b ∈ BlockManager.free_block_ids bm →
        b ∉ BlockManager.used_block_ids bm) ∧
  (length (BlockManager.free_block_ids bm)
   + size (BlockManager.used_block_ids bm)
   = length (BlockManager.blocks bm))%nat.
Proof.
  intros Hreach.
  assert (pool_inv bm) as [Hnd Hdis Htot]; [|done].
  induction Hreach as [n bs bm Hinit
                      |bm seq bm' seq' _ IH Hrun
                      |bm seq bm' seq' _ IH Hrun
                      |bm seq bm' seq' _ IH Hrun].
  - by eapply pool_inv__init__.
  - by eapply pool_inv_allocate.
  - by eapply pool_inv_deallocate.
  - by eapply pool_inv_may_append.
Qed.

(** ** Reference counts *)


(** ** [allocate] then [deallocate] *)

Lemma bm_inv_same_used occ bm bm' :
  bm_inv occ bm → bm_inv occ bm' → pool_size bm' = pool_size bm →
  BlockManager.used_block_ids bm' = BlockManager.used_block_ids bm.
Proof.
  intros Hinv Hinv' Hsz. apply set_eq. intros b. split; intros Hb.
  - assert (0 ≤ b < pool_size bm') as Hr
      by (apply (inv_cover _ _ Hinv'); by right).
    apply (bm_inv_used_iff occ); [done|lia|]. by apply (inv_used _ _ Hinv').
  - assert (0 ≤ b < pool_size bm) as Hr
      by (apply (inv_cover _ _ Hinv); by right).
    apply (bm_inv_used_iff occ); [done|lia|]. by apply (inv_used _ _ Hinv).
Qed.

Lemma deallocate_empty bm seq :
  Sequence.block_table seq = [] →
  BlockManager.deallocate bm seq
  = Ok (bm, Sequence.with_block_table []
              (Sequence.with_num_cached_tokens 0 seq)).
Proof. intros Htab. unfold BlockManager.deallocate. by rewrite Htab. Qed.

(** C6.  In a reachable world, for a sequence with an empty block table
    that [can_allocate] accepts, [allocate] and then [deallocate] both
    return, the free deque and the used set have the sizes they had before,
    and the sequence ends with an empty block table and no cached token.
    On any manager, [deallocate] of a sequence whose block table is empty
    returns the manager unchanged (free deque, used set, every block). *)
Theorem allocate_deallocate_roundtrip (w : world) (seq : Sequence.t) :
  reachable w →
  Sequence.block_table seq = [] →
  BlockManager.can_allocate (w_bm w) seq = true →
  (∃ bm1 seq1 bm2 seq2,
     BlockManager.allocate (w_bm w) seq = Ok (bm1, seq1) ∧
     BlockManager.deallocate bm1 seq1 = Ok (bm2, seq2) ∧
     length (BlockManager.free_block_ids bm2)
     = length (BlockManager.free_block_ids (w_bm w)) ∧
     size (BlockManager.used_block_ids bm2)
     = size (BlockManager.used_block_ids (w_bm w)) ∧
     Sequence.block_table seq2 = [] ∧
     Sequence.num_cached_tokens seq2 = 0) ∧
  (∀ bm seq0, Sequence.block_table seq0 = [] →
     ∃ seq', BlockManager.deallocate bm seq0 = Ok (bm, seq') ∧
             Sequence.block_table seq' = [] ∧
             Sequence.num_cached_tokens seq' = 0).
Proof.
  intros Hreach Hempty Hcan. split.
  - pose proof (wi_bm _ (reachable_world_inv _ Hreach)) as Hinv.
    destruct (allocate_success _ _ _ Hinv Hempty Hcan) as (bm1 & seq1 & Hrun1).
    destruct (bm_inv_allocate _ _ _ _ _ Hinv Hrun1)
      as (Hinv1 & Hrange & _ & Hsz1 & _).
    destruct (deallocate_spec _ bm1 seq1 Hinv1)
      as (bm2 & Hrun2 & Hinv2 & _ & _ & Hsz2 & _).
    { intros b Hb. rewrite Hsz1. by apply Hrange. }
    { intros b. simpl. pose proof (total_occurrences_nonneg (w_seqs w) b). lia. }
    assert (bm_inv (total_occurrences (w_seqs w)) bm2) as Hinv2'.
    { eapply bm_inv_ext; [|done]. intros b. simpl. lia. }
    assert (BlockManager.used_block_ids bm2
            = BlockManager.used_block_ids (w_bm w)) as Hused
      by (eapply bm_inv_same_used; [done..|congruence]).
    eexists bm1, seq1, bm2, _. split; [done|]. split; [done|].
    split_and!; [|by rewrite Hused|done..].
    pose proof (pool_total _ (inv_pool _ _ Hinv2')) as Ht2.
    pose proof (pool_total _ (inv_pool _ _ Hinv)) as Ht.
    rewrite Hused in Ht2. unfold pool_size in *. lia.
  - intros bm seq0 Htab. eexists. split; [by apply deallocate_empty|done].
Qed.

(** ** Cache hits in [allocate] *)

Lemma get_block_with_pool free used bm b :
  BlockManager.get_block (BlockManager.with_pool free used bm) b
  = BlockManager.get_block bm b.
Proof. done. Qed.

(** One pass of the loop of [allocate] over a full logical block [i] whose
    chained hash [h] the dedup index maps to a block [b] holding the same
    tokens.  With [cache_miss] still false the pass is a cache hit: a used
    block gets its reference count incremented, a free one is taken out of
    the free deque into the used set with reference count 1, and in both
    cases [block_size] is added to [num_cached_tokens] and [b] is appended
    to the block table.  With [cache_miss] set, the pass takes the head of
    the free deque instead and leaves [num_cached_tokens] alone. *)
Lemma allocate_body_match (i : Z) (st : BlockManager.alloc_state)
    (token_ids : list Z) (h b : Z) (blk : Block.t) :
  Sequence.block (BlockManager.a_seq st) i = Ok token_ids →
  Z.of_nat (length token_ids) = BlockManager.block_size (BlockManager.a_self st) →
  BlockManager.compute_hash token_ids (BlockManager.a_h st) = Ok h →
  BlockManager.hash_to_block_id (BlockManager.a_self st) !! h = Some b →
  0 ≤ b →
  BlockManager.get_block (BlockManager.a_self st) b = Ok blk →
  Block.token_ids blk = token_ids →
  (BlockManager.a_cache_miss st = false →
   (b ∈ BlockManager.used_block_ids (BlockManager.a_self st) →
    ∃ st', BlockManager.allocate_body i st = Ok st' ∧
      BlockManager.get_block (BlockManager.a_self st') b
      = Ok (Block.mk (Block.block_id blk) (Block.ref_count blk + 1)
              h token_ids) ∧
      BlockManager.free_block_ids (BlockManager.a_self st')
      = BlockManager.free_block_ids (BlockManager.a_self st) ∧
      BlockManager.used_block_ids (BlockManager.a_self st')
      = BlockManager.used_block_ids (BlockManager.a_self st) ∧
      Sequence.num_cached_tokens (BlockManager.a_seq st')
      = Sequence.num_cached_tokens (BlockManager.a_seq st)
        + BlockManager.block_size (BlockManager.a_self st) ∧
      Sequence.block_table (BlockManager.a_seq st')
      = Sequence.block_table (BlockManager.a_seq st) ++ [b] ∧
      BlockManager.a_cache_miss st' = false) ∧
   (b ∉ BlockManager.used_block_ids (BlockManager.a_self st) →
    Block.ref_count blk = 0 →
    b ∈ BlockManager.free_block_ids (BlockManager.a_self st) →
    ∃ st' free',
      BlockManager.allocate_body i st = Ok st' ∧
      BlockManager.get_block (BlockManager.a_self st') b
      = Ok (Block.mk (Block.block_id blk) 1 h token_ids) ∧
      deque_remove b (BlockManager.free_block_ids (BlockManager.a_self st))
      = Ok free' ∧
      BlockManager.free_block_ids (BlockManager.a_self st') = free' ∧
      BlockManager.used_block_ids (BlockManager.a_self st')
      = {[b]} ∪ BlockManager.used_block_ids (BlockManager.a_self st) ∧
      Sequence.num_cached_tokens (BlockManager.a_seq st')
      = Sequence.num_cached_tokens (BlockManager.a_seq st)
        + BlockManager.block_size (BlockManager.a_self st) ∧
      Sequence.block_table (BlockManager.a_seq st')
      = Sequence.block_table (BlockManager.a_seq st) ++ [b] ∧
      BlockManager.a_cache_miss st' = false)) ∧
  (BlockManager.a_cache_miss st = true →
   ∀ st', BlockManager.allocate_body i st = Ok st' →
     ∃ b', head (BlockManager.free_block_ids (BlockManager.a_self st))
           = Some b' ∧
           Sequence.block_table (BlockManager.a_seq st')
           = Sequence.block_table (BlockManager.a_seq st) ++ [b'] ∧
           Sequence.num_cached_tokens (BlockManager.a_seq st')
           = Sequence.num_cached_tokens (BlockManager.a_seq st) ∧
           BlockManager.a_cache_miss st' = true).
Proof.
  intros Hblock Hlen Hh Hidx Hb0 Hget Htoks.
  pose proof (compute_hash_range _ _ _ Hh) as Hhr.
  pose proof (get_block_nonneg _ _ _ Hb0 Hget) as Hbn.
  assert (0 ≤ b < pool_size (BlockManager.a_self st)) as Hbr by lia.
  assert (
    BlockManager.allocate_body i st
    = '(self, seq, block_id) ←
        acquire (BlockManager.a_self st) (BlockManager.a_seq st) b
          (BlockManager.a_cache_miss st);
      self ← record self block_id h token_ids;
      Ok (BlockManager.AllocState self
            (Sequence.with_block_table
               (Sequence.block_table seq ++ [block_id]) seq) h
            (BlockManager.a_cache_miss st))) as Hbody.
  { rewrite allocate_body_unfold. cbv zeta. rewrite Hblock. simpl.
    unfold block_hash. rewrite bool_decide_eq_true_2 by done. rewrite Hh.
    simpl. rewrite Hidx. simpl. unfold lookup_miss.
    rewrite bool_decide_eq_false_2 by lia. rewrite Hget. simpl.
    by rewrite bool_decide_eq_false_2 by (intros Hne; by apply Hne). }
  split.
  - intros Hcm. rewrite Hcm in Hbody. split.
    + intros Hused. rewrite Hbody. unfold acquire.
      rewrite bool_decide_eq_true_2 by done. rewrite Hget. simpl.
      unfold record. rewrite bool_decide_eq_true_2 by lia.
      rewrite get_put_block by done. simpl.
      eexists. split; [done|]. simpl_bm.
      change (BlockManager.get_block (BlockManager.publish ?a ?c ?m) ?d)
        with (BlockManager.get_block m d).
      rewrite get_put_block
        by (by rewrite put_block_pool_size).
      by rewrite !put_block_free, !put_block_used.
    + intros Hnused Hrc Hfree. rewrite Hbody. unfold acquire.
      rewrite bool_decide_eq_false_2 by done.
      destruct (deque_remove_elem b _ Hfree) as [free' Hrem].
      unfold BlockManager._allocate_block. rewrite Hget. simpl.
      rewrite Hrc. simpl. rewrite put_block_free, Hrem. simpl.
      unfold record. rewrite bool_decide_eq_true_2 by lia.
      rewrite get_block_with_pool, get_put_block by done. simpl.
      eexists _, free'. split; [done|]. simpl_bm.
      change (BlockManager.get_block (BlockManager.publish ?a ?c ?m) ?d)
        with (BlockManager.get_block m d).
      rewrite get_put_block
        by (change (pool_size (BlockManager.with_pool ?f ?u ?m))
              with (pool_size m); by rewrite put_block_pool_size).
      by rewrite !put_block_free, !put_block_used.
  - intros Hcm st' Hrun. rewrite Hbody, Hcm in Hrun.
    repeat step_result. unfold acquire in Hm.
    apply bind_Ok in Hm as (b' & Hhead & Hm).
    apply bind_Ok in Hm as (self1 & _ & Hm). injection Hm as <- <- <-.
    apply py_getitem_head in Hhead.
    exists b'. simpl_bm. done.
Qed.

(** ** Length of the block table *)

(** The block table of [seq] has one block per [block_size] tokens of its
    first [k] tokens. *)
Definition covers (k : Z) (seq : Sequence.t) : Prop :=
  Z.of_nat (length (Sequence.block_table seq))
  = (k + Sequence.block_size - 1) / Sequence.block_size.

Lemma num_blocks_step m :
  1 < Sequence.block_size → 0 ≤ m →
  (m + 1 + Sequence.block_size - 1) / Sequence.block_size
  = (m + Sequence.block_size - 1) / Sequence.block_size
    + (if bool_decide ((m + 1) `mod` Sequence.block_size = 1) then 1 else 0).
Proof.
  intros Hbs Hm. set (bs := Sequence.block_size) in *.
  pose proof (Z.div_mod m bs ltac:(lia)) as Hdm.
  pose proof (Z.mod_pos_bound m bs ltac:(lia)) as Hr.
  set (q := m / bs) in *. set (r := m `mod` bs) in *.
  assert ((m + 1) `mod` bs = 1 ↔ r = 0) as Hiff.
  { split; intros Hx.
    - destruct (decide (r + 1 < bs)).
      + assert ((m + 1) `mod` bs = r + 1) as Heq
          by (symmetry; apply (Z.mod_unique _ _ q); lia).
        lia.
      + assert ((m + 1) `mod` bs = 0) as Heq
          by (symmetry; apply (Z.mod_unique _ _ (q + 1)); lia).
        lia.
    - symmetry. apply (Z.mod_unique _ _ q); lia. }
  case_bool_decide as Hone.
  - apply Hiff in Hone.
    assert ((m + bs - 1) / bs = q) as ->
      by (symmetry; apply (Z.div_unique _ _ _ (bs - 1)); lia).
    symmetry. apply (Z.div_unique _ _ _ 0); lia.
  - assert (r ≠ 0) as Hr0 by (intros ?; by apply Hone, Hiff).
    assert ((m + bs - 1) / bs = q + 1) as ->
      by (symmetry; apply (Z.div_unique _ _ _ (r - 1)); lia).
    symmetry. apply (Z.div_unique _ _ _ r); lia.
Qed.

Lemma allocate_body_table i st st' :
  BlockManager.allocate_body i st = Ok st' →
  length (Sequence.block_table (BlockManager.a_seq st'))
  = S (length (Sequence.block_table (BlockManager.a_seq st))).
Proof.
  intros Hrun. rewrite allocate_body_unfold in Hrun. cbv zeta in Hrun.
  repeat step_result. simpl_bm. rewrite length_app. simpl.
  unfold acquire in Hm2. repeat step_result; simpl; lia.
Qed.

Lemma allocate_table_length bm seq bm' seq' :
  BlockManager.allocate bm seq = Ok (bm', seq') →
  length (Sequence.block_table seq') = Z.to_nat (Sequence.num_blocks seq)
  ∧ seq_core seq' = seq_core seq.
Proof.
  unfold BlockManager.allocate. intros Hrun. repeat step_result.
  apply bool_decide_eq_true in Hm.
  apply (for_each_invariant
           (λ done st,
              length (Sequence.block_table (BlockManager.a_seq st))
              = length done
              ∧ seq_core (BlockManager.a_seq st) = seq_core seq)
           _ _ (BlockManager.AllocState bm seq (-1) false) _) in Hm0.
  - by rewrite length_seqZ in Hm0.
  - intros done i s1 s2 [Hlen Hcore] Hbody.
    rewrite (allocate_body_table _ _ _ Hbody), Hlen, length_app.
    rewrite (allocate_body_seq_core _ _ _ Hbody). simpl. split; [lia|done].
  - simpl. by rewrite Hm.
Qed.


End BlockManagerFacts.

(** ** Loops *)

Lemma while_unfold {S} fuel (cond : S → result bool)
    (body : S → result (ctl S)) (s : S) :
  while (Datatypes.S fuel) cond body s
  = b ← cond s;
    if b : bool then
      c ← body s;
      match c with
      | Continue s' => while fuel cond body s'
      | Break s' => Ok (Break s')
      end
    else Ok (Continue s).
Proof. done. Qed.

(** A property of the loop state that the body preserves holds when the
    loop ends. *)
Lemma while_invariant {S} (P : S → Prop) fuel (cond : S → result bool)
    (body : S → result (ctl S)) (s : S) (c : ctl S) :
  (∀ s c, P s → body s = Ok c → P (ctl_state c)) →
  P s → while fuel cond body s = Ok c → P (ctl_state c).
Proof.
  intros Hbody. revert s. induction fuel as [|fuel IH]; intros s HP Hrun.
  - done.
  - rewrite while_unfold in Hrun.
    apply bind_Ok in Hrun as (b & _ & Hrun). destruct b.
    + apply bind_Ok in Hrun as (c1 & Hc1 & Hrun).
      pose proof (Hbody _ _ HP Hc1) as HP1. destruct c1 as [s1|s1].
      * by eapply IH.
      * by injection Hrun as <-.
    + by injection Hrun as <-.
Qed.

(** With more fuel than a measure that every full pass of the body
    decreases, the loop does not run out of fuel. *)
Lemma while_fuel {S} (μ : S → nat) fuel (cond : S → result bool)
    (body : S → result (ctl S)) (s : S) :
  (∀ s s', body s = Ok (Continue s') → (μ s' < μ s)%nat) →
  (∀ s, cond s ≠ Raise OutOfFuel) →
  (∀ s, body s ≠ Raise OutOfFuel) →
  (μ s < fuel)%nat →
  while fuel cond body s ≠ Raise OutOfFuel.
Proof.
  intros Hdec Hcond Hbody. revert s.
  induction fuel as [|fuel IH]; intros s Hlt; [lia|].
  rewrite while_unfold. specialize (Hcond s).
  destruct (cond s) as [[|]|e]; simpl; [|done|congruence].
  specialize (Hbody s). pose proof (Hdec s) as Hd.
  destruct (body s) as [[s1|s1]|e]; simpl; [|done|congruence].
  apply IH. specialize (Hd s1 eq_refl). lia.
Qed.

(** A loop whose body preserves [P] as long as it does not break, and
    establishes [Q] when it breaks. *)
Lemma while_invariant_break {S} (P Q : S → Prop) fuel (cond : S → result bool)
    (body : S → result (ctl S)) (s : S) (c : ctl S) :
  (∀ s s', P s → cond s = Ok true → body s = Ok (Continue s') → P s') →
  (∀ s s', P s → cond s = Ok true → body s = Ok (Break s') → Q s') →
  P s → while fuel cond body s = Ok c →
  match c with
  | Continue s' => P s' ∧ cond s' = Ok false
  | Break s' => Q s'
  end.
Proof.
  intros Hcont Hbreak. revert s.
  induction fuel as [|fuel IH]; intros s HP Hrun; [done|].
  rewrite while_unfold in Hrun.
  apply bind_Ok in Hrun as (b & Hb & Hrun). destruct b.
  - apply bind_Ok in Hrun as (c1 & Hc1 & Hrun). destruct c1 as [s1|s1].
    + eapply IH; [|exact Hrun]. by eapply Hcont.
    + injection Hrun as <-. by eapply Hbreak.
  - by injection Hrun as <-.
Qed.

(** A loop whose condition and body return under the invariant [P], and
    whose full passes decrease the measure [μ], returns when it is given
    more fuel than the measure. *)
Lemma while_total {S} (P : S → Prop) (μ : S → nat) fuel
    (cond : S → result bool) (body : S → result (ctl S)) (s : S) :
  (∀ s, P s → ∃ b, cond s = Ok b) →
  (∀ s, P s → cond s = Ok true →
        ∃ c, body s = Ok c ∧
             match c with
             | Continue s' => P s' ∧ (μ s' < μ s)%nat
             | Break _ => True
             end) →
  P s → (μ s < fuel)%nat → ∃ c, while fuel cond body s = Ok c.
Proof.
  intros Hcond Hbody. revert s.
  induction fuel as [|fuel IH]; intros s HP Hlt; [lia|].
  rewrite while_unfold. destruct (Hcond s HP) as [b Hb]. rewrite Hb. simpl.
  destruct b; [|by eexists].
  destruct (Hbody s HP Hb) as (c & -> & Hc). simpl.
  destruct c as [s'|s']; [|by eexists].
  destruct Hc as [HP' Hlt']. apply IH; [done|lia].
Qed.

Section SchedulerFacts.
Context `{XXHash} `{Sequence.class_attrs}.

(** ** The prefill phase *)

Lemma deref_store self r s :
  (r < length (Scheduler.objects self))%nat →
  Scheduler.deref (Scheduler.store r s self) r = Ok s.
Proof.
  intros Hr. unfold Scheduler.deref, Scheduler.store. simpl.
  by rewrite list_lookup_insert_eq.
Qed.

Lemma deref_Ok self r s :
  Scheduler.deref self r = Ok s ↔ Scheduler.objects self !! r = Some s.
Proof.
  unfold Scheduler.deref.
  destruct (Scheduler.objects self !! r); split; congruence.
Qed.

Lemma prefill_body_scheduled st c :
  Scheduler.prefill_body st = Ok c →
  Scheduler.s_scheduled st `prefix_of` Scheduler.s_scheduled (ctl_state c).
Proof.
  unfold Scheduler.prefill_body. intros Hrun.
  repeat step_result; simpl; [done|]. by apply prefix_app_r.
Qed.

(** C8.  One pass of the prefill loop on the head [r] of the waiting queue,
    a sequence [seq].  If the tokens batched so far plus the full length of
    [seq] exceed [max_num_batched_tokens], the pass breaks out of the loop
    and leaves everything as it is ([seq] stays at the head of the waiting
    queue).  If [seq] passes both gates and [allocate] returns, the batched
    tokens grow by the length of [seq] minus its cached tokens, [seq] is
    Running, it has left the waiting queue for the end of the running queue
    and the end of the batch; and the batch that [schedule] returns, if it
    returns, is a prefill batch that starts with the batch so far. *)
Theorem prefill_admission (st : Scheduler.sched_state) (r : nat)
    (seq : Sequence.t) :
  head (Scheduler.waiting (Scheduler.s_self st)) = Some r →
  Scheduler.deref (Scheduler.s_self st) r = Ok seq →
  (Scheduler.max_num_batched_tokens (Scheduler.s_self st)
   < Scheduler.s_num_batched_tokens st + Sequence.num_tokens seq →
   Scheduler.prefill_body st = Ok (Break st)) ∧
  (Scheduler.s_num_batched_tokens st + Sequence.num_tokens seq
   ≤ Scheduler.max_num_batched_tokens (Scheduler.s_self st) →
   BlockManager.can_allocate
     (Scheduler.block_manager (Scheduler.s_self st)) seq = true →
   ∀ bm' seq',
     BlockManager.allocate
       (Scheduler.block_manager (Scheduler.s_self st)) seq = Ok (bm', seq') →
     ∃ st',
       Scheduler.prefill_body st = Ok (Continue st') ∧
       Scheduler.s_num_batched_tokens st'
       = Scheduler.s_num_batched_tokens st
         + (Sequence.num_tokens seq - Sequence.num_cached_tokens seq') ∧
       Scheduler.s_num_seqs st' = Scheduler.s_num_seqs st + 1 ∧
       Scheduler.deref (Scheduler.s_self st') r
       = Ok (Sequence.with_status Sequence.RUNNING seq') ∧
       Scheduler.waiting (Scheduler.s_self st')
       = tail (Scheduler.waiting (Scheduler.s_self st)) ∧
       Scheduler.running (Scheduler.s_self st')
       = Scheduler.running (Scheduler.s_self st) ++ [r] ∧
       Scheduler.s_scheduled st' = Scheduler.s_scheduled st ++ [r] ∧
       Scheduler.block_manager (Scheduler.s_self st') = bm') ∧
  (∀ self self' batch is_prefill,
     st = Scheduler.SchedState self [] 0 0 →
     0 < Scheduler.max_num_seqs self →
     Sequence.num_tokens seq ≤ Scheduler.max_num_batched_tokens self →
     BlockManager.can_allocate (Scheduler.block_manager self) seq = true →
     Scheduler.schedule self = Ok (self', (batch, is_prefill)) →
     is_prefill = true ∧ head batch = Some r).
Proof.
  intros Hhead Hderef.
  assert (py_getitem (Scheduler.waiting (Scheduler.s_self st)) 0 = Ok r)
    as Hget by (by apply py_getitem_head).
  split_and!.
  - intros Hover. unfold Scheduler.prefill_body. rewrite Hget. simpl.
    rewrite Hderef. simpl. unfold Sequence.__len__.
    by rewrite (proj2 (Z.ltb_lt _ _)) by done.
  - intros Hfit Hcan bm' seq' Halloc.
    unfold Scheduler.prefill_body. rewrite Hget. simpl. rewrite Hderef. simpl.
    unfold Sequence.__len__.
    rewrite (proj2 (Z.ltb_ge _ _)) by done. rewrite Hcan. simpl.
    rewrite Halloc. simpl. eexists. split; [done|]. simpl.
    apply allocate_table_length in Halloc as [_ Hcore].
    assert (Sequence.num_tokens seq' = Sequence.num_tokens seq) as ->
      by (unfold seq_core in Hcore; congruence).
    split_and!; try done.
    unfold Scheduler.deref. simpl.
    apply deref_Ok in Hderef.
    rewrite list_lookup_insert_eq; [done|]. by eapply lookup_lt_Some.
  - intros self self' batch is_prefill -> Hmax Hfit Hcan Hrun. simpl in *.
    unfold Scheduler.schedule in Hrun.
    apply bind_Ok in Hrun as (c & Hloop & Hrun).
    assert ([r] `prefix_of` Scheduler.s_scheduled (ctl_state c)) as Hpre.
    { rewrite while_unfold in Hloop.
      set (fuel := length (Scheduler.waiting self)) in Hloop. clearbody fuel.
      unfold Scheduler.prefill_cond at 1 in Hloop. simpl in Hloop.
      destruct (Scheduler.waiting self) as [|r' rest] eqn:Hw; [done|].
      injection Hhead as ->.
      rewrite bool_decide_eq_false_2 in Hloop by done.
      rewrite (proj2 (Z.ltb_lt _ _)) in Hloop by done. simpl in Hloop.
      apply bind_Ok in Hloop as (c1 & Hbody & Hloop).
      unfold Scheduler.prefill_body in Hbody. simpl in Hbody.
      rewrite Hw in Hbody.
      rewrite (proj2 (py_getitem_head (r :: rest) r) eq_refl) in Hbody.
      simpl in Hbody. rewrite Hderef in Hbody. simpl in Hbody.
      unfold Sequence.__len__ in Hbody.
      rewrite (proj2 (Z.ltb_ge _ _)) in Hbody by lia.
      rewrite Hcan in Hbody. simpl in Hbody.
      apply bind_Ok in Hbody as ([bm' seq'] & _ & Hbody).
      injection Hbody as <-.
      eapply (while_invariant
                (λ s, [r] `prefix_of` Scheduler.s_scheduled s));
        [|  |exact Hloop]; [|done].
      intros s0 c0 Hs0 Hb0. etrans; [done|].
      by apply prefill_body_scheduled. }
    destruct Hpre as [k Hk]. rewrite Hk in Hrun. simpl in Hrun.
    by injection Hrun as <- <- <-.
Qed.

(** ** [postprocess] and the length condition *)

(** C10.  [postprocess] on a sequence that is not Finished, whose
    [max_tokens] is zero or negative: after the token is appended the
    sequence has at least one completion token, so the test
    [num_completion_tokens == max_tokens] is false; the sequence is
    Finished afterwards only if [ignore_eos] is false and the token is EOS,
    and otherwise [postprocess] does nothing but append the token. *)
Theorem nonpositive_max_tokens_finishes_on_eos_only (self : Scheduler.t)
    (r : nat) (token_id : Z) (seq : Sequence.t) (self' : Scheduler.t) :
  Scheduler.deref self r = Ok seq →
  Sequence.max_tokens seq ≤ 0 →
  Sequence.num_prompt_tokens seq ≤ Sequence.num_tokens seq →
  Sequence.status seq ≠ Sequence.FINISHED →
  Scheduler.postprocess_body (r, token_id) self = Ok self' →
  1 ≤ Sequence.num_completion_tokens (Sequence.append_token seq token_id) ∧
  Sequence.num_completion_tokens (Sequence.append_token seq token_id)
  ≠ Sequence.max_tokens (Sequence.append_token seq token_id) ∧
  (∀ seq', Scheduler.deref self' r = Ok seq' →
           Sequence.status seq' = Sequence.FINISHED →
           Sequence.ignore_eos seq = false ∧ token_id = Scheduler.eos self) ∧
  (Sequence.ignore_eos seq = true ∨ token_id ≠ Scheduler.eos self →
   self' = Scheduler.store r (Sequence.append_token seq token_id) self).
Proof.
  intros Hderef Hmax Hwf Hstatus Hrun.
  assert (1 ≤ Sequence.num_completion_tokens
                (Sequence.append_token seq token_id)) as Hone
    by (unfold Sequence.num_completion_tokens; simpl; lia).
  assert (Sequence.num_completion_tokens (Sequence.append_token seq token_id)
          ≠ Sequence.max_tokens (Sequence.append_token seq token_id)) as Hne
    by (simpl; lia).
  split; [done|]. split; [done|].
  unfold Scheduler.postprocess_body in Hrun. rewrite Hderef in Hrun.
  simpl in Hrun.
  rewrite (bool_decide_eq_false_2 _ Hne), orb_false_r in Hrun.
  assert (r < length (Scheduler.objects self))%nat as Hr
    by (apply deref_Ok in Hderef; by eapply lookup_lt_Some).
  destruct (negb (Sequence.ignore_eos seq)
            && bool_decide (token_id = Scheduler.eos self)) eqn:Heos.
  - apply andb_true_iff in Heos as [Hign Heq].
    apply negb_true_iff in Hign. apply bool_decide_eq_true in Heq.
    split; [done|]. intros [Hcontra|Hcontra]; congruence.
  - injection Hrun as <-. split.
    + intros seq'. rewrite deref_store by done. intros [= <-]. done.
    + done.
Qed.

(** ** The decode phase

    What the decode phase of [schedule] relies on, between two ticks of the
    engine: the world invariant; for every running sequence, a block table
    whose last block is hashed exactly when the token appended last opened
    a new block ([ready]); and no sharing of blocks whose hash is unset
    ([exclusive]). *)

Definition to_world (self : Scheduler.t) : world :=
  World (Scheduler.block_manager self) (Scheduler.objects self).

Definition ready (bm : BlockManager.t) (seq : Sequence.t) : Prop :=
  1 ≤ Sequence.num_tokens seq ∧
  ∃ last_id h toks,
    last (Sequence.block_table seq) = Some last_id ∧
    contents bm !! Z.to_nat last_id = Some (h, toks) ∧
    (Sequence.num_tokens seq `mod` Sequence.block_size = 1 ↔ h ≠ -1).

Definition exclusive (bm : BlockManager.t) (seqs : list Sequence.t) : Prop :=
  ∀ n toks, contents bm !! n = Some (-1, toks) →
            total_occurrences seqs (Z.of_nat n) ≤ 1.

Record decode_inv (self : Scheduler.t) : Prop := {
  di_world : world_inv (to_world self);
  di_block_size : 1 < Sequence.block_size;
  di_exclusive :
    exclusive (Scheduler.block_manager self) (Scheduler.objects self);
  di_running :
    ∀ r, r ∈ Scheduler.running self →
         ∃ seq, Scheduler.objects self !! r = Some seq ∧
                ready (Scheduler.block_manager self) seq;
  di_nodup : NoDup (Scheduler.running self)
}.

Lemma contents_lookup bm b blk :
  0 ≤ b < pool_size bm →
  BlockManager.get_block bm b = Ok blk →
  contents bm !! Z.to_nat b = Some (Block.hash blk, Block.token_ids blk).
Proof.
  intros Hb Hget. apply get_block_range in Hget; [|done].
  unfold contents. by rewrite list_lookup_fmap, Hget.
Qed.


Lemma contents_put_block_ne bm b x n :
  0 ≤ b < pool_size bm → n ≠ Z.to_nat b →
  contents (BlockManager.put_block bm b x) !! n = contents bm !! n.
Proof.
  intros Hb Hne. unfold contents. rewrite put_block_blocks by done.
  by rewrite !list_lookup_fmap, list_lookup_insert_ne.
Qed.

Lemma contents_put_block_eq bm b x :
  0 ≤ b < pool_size bm →
  contents (BlockManager.put_block bm b x) !! Z.to_nat b
  = Some (Block.hash x, Block.token_ids x).
Proof.
  intros Hb. unfold contents. rewrite put_block_blocks by done.
  rewrite list_lookup_fmap, list_lookup_insert_eq; [done|].
  unfold pool_size in Hb. lia.
Qed.

Lemma total_occurrences_two seqs r1 r2 s1 s2 b :
  r1 ≠ r2 → seqs !! r1 = Some s1 → seqs !! r2 = Some s2 →
  occurrences b (Sequence.block_table s1)
  + occurrences b (Sequence.block_table s2)
  ≤ total_occurrences seqs b.
Proof.
  revert r1 r2. induction seqs as [|s0 seqs IH]; intros r1 r2 Hne H1 H2;
    [done|].
  destruct r1 as [|r1], r2 as [|r2]; simpl in *; try done.
  - injection H1 as ->.
    pose proof (total_occurrences_ge _ _ _ b H2). lia.
  - injection H2 as ->.
    pose proof (total_occurrences_ge _ _ _ b H1). lia.
  - assert (r1 ≠ r2) as Hne' by congruence.
    specialize (IH _ _ Hne' H1 H2).
    pose proof (occurrences_nonneg b (Sequence.block_table s0)). lia.
Qed.

Lemma last_elem_of {A} (l : list A) (x : A) : last l = Some x → x ∈ l.
Proof. intros [l' ->]%last_Some. set_solver. Qed.

Lemma ready_frame bm bm' seq :
  (∀ b, last (Sequence.block_table seq) = Some b →
        contents bm' !! Z.to_nat b = contents bm !! Z.to_nat b) →
  ready bm seq → ready bm' seq.
Proof.
  intros Hsame (Hn & last_id & h & toks & Hlast & Hc & Hiff).
  split; [done|]. exists last_id, h, toks. split; [done|]. split; [|done].
  by rewrite Hsame.
Qed.

Record wd_inv (bm : BlockManager.t) (seqs : list Sequence.t) : Prop := {
  wd_world : world_inv (World bm seqs);
  wd_block_size : 1 < Sequence.block_size;
  wd_exclusive : exclusive bm seqs
}.

Lemma deallocate_world bm seqs r s st :
  wd_inv bm seqs → seqs !! r = Some s →
  ∃ bm',
    BlockManager.deallocate bm (Sequence.with_status st s)
    = Ok (bm', Sequence.with_block_table []
                 (Sequence.with_num_cached_tokens 0
                    (Sequence.with_status st s))) ∧
    wd_inv bm'
      (<[r := Sequence.with_block_table []
                (Sequence.with_num_cached_tokens 0
                   (Sequence.with_status st s))]> seqs) ∧
    contents bm' = contents bm ∧
    pool_size bm' = pool_size bm ∧
    BlockManager.block_size bm' = BlockManager.block_size bm.
Proof.
  intros [Hw Hbs Hex] Hr.
  pose proof Hw as [Hbsz Hpos Hinv Hhash Htab Htok]. simpl in *.
  destruct (deallocate_spec _ bm (Sequence.with_status st s) Hinv)
    as (bm' & Hrun & Hinv' & Hbs' & _ & Hsz & Hcont).
  { intros b Hb. by eapply Htab. }
  { intros b. simpl. by eapply total_occurrences_ge. }
  exists bm'. split; [done|]. split; [|done].
  split; [|done|].
  - assert (world_step (World bm seqs)
              (World bm (<[r := Sequence.with_status st s]> seqs))) as Hs1
      by (by constructor).
    assert (world_step (World bm (<[r := Sequence.with_status st s]> seqs))
              (World bm' (<[r := Sequence.with_block_table []
                                 (Sequence.with_num_cached_tokens 0
                                    (Sequence.with_status st s))]>
                          (<[r := Sequence.with_status st s]> seqs)))) as Hs2.
    { eapply step_deallocate; [|done].
      apply list_lookup_insert_eq. by eapply lookup_lt_Some. }
    rewrite list_insert_insert_eq in Hs2.
    eapply world_inv_step; [|exact Hs2]. by eapply world_inv_step.
  - intros n toks Hn. rewrite Hcont in Hn. specialize (Hex n toks Hn).
    rewrite (total_occurrences_insert _ _ s) by done. simpl.
    rewrite occurrences_nil.
    pose proof (occurrences_nonneg (Z.of_nat n) (Sequence.block_table s)).
    lia.
Qed.

Lemma py_getitem_second_last {A} (l : list A) :
  (2 ≤ length l)%nat → ∃ a, py_getitem l (-2) = Ok a ∧ a ∈ l.
Proof.
  intros Hlen. unfold py_getitem, py_index.
  replace (0 <=? -2) with false by done. simpl.
  rewrite (proj2 (Z.leb_le _ _)) by lia. simpl.
  destruct (lookup_lt_is_Some_2 l (Z.to_nat (Z.of_nat (length l) + -2)))
    as [a Ha]; [lia|].
  rewrite Ha. exists a. split; [done|]. by eapply list_elem_of_lookup_2.
Qed.

Lemma may_append_success bm seqs r seq :
  wd_inv bm seqs → seqs !! r = Some seq → ready bm seq →
  BlockManager.can_append bm seq = true →
  ∃ bm' seq', BlockManager.may_append bm seq = Ok (bm', seq').
Proof.
  intros [Hw Hbs _] Hr (Hn & last_id & h & toks & Hlast & Hc & Hiff) Hcan.
  pose proof Hw as [Hbsz Hpos Hinv Hhash Htab Htok]. simpl in *.
  assert (0 ≤ last_id < pool_size bm) as Hlr
    by (eapply Htab; [done|by apply last_elem_of]).
  destruct (get_block_exists _ _ Hlr) as [blk Hget].
  pose proof (contents_lookup _ _ _ Hlr Hget) as Hc'.
  rewrite Hc in Hc'. injection Hc' as -> ->.
  unfold BlockManager.may_append, Sequence.__len__.
  rewrite (proj2 (py_getitem_last _ _) Hlast). simpl. rewrite Hget. simpl.
  rewrite Hbsz. unfold BlockManager.can_append, Sequence.__len__ in Hcan.
  rewrite Hbsz in Hcan.
  case_bool_decide as Hone.
  - rewrite bool_decide_eq_true_2 by (by apply Hiff). simpl.
    apply Z.leb_le in Hcan.
    destruct (BlockManager.free_block_ids bm) as [|b free] eqn:Hfree;
      [simpl in Hcan; lia|].
    rewrite (proj2 (py_getitem_head (b :: free) b) eq_refl). simpl.
    destruct (_allocate_block_success _ bm b Hinv) as [bm' ->];
      [rewrite Hfree; by left|]. by eexists _, _.
  - assert (Block.hash blk = -1) as Hunset.
    { destruct (decide (Block.hash blk = -1)); [done|]. by apply Hiff in n. }
    rewrite (bool_decide_eq_true_2 _ Hunset). simpl.
    case_bool_decide as Hzero; [|by eexists _, _].
    assert (1 ≤ Sequence.num_blocks seq) as Hnb.
    { unfold Sequence.num_blocks. apply Z.div_le_lower_bound; lia. }
    unfold Sequence.block.
    rewrite (proj2 (Z.leb_le 0 (Sequence.num_blocks seq - 1))) by lia.
    rewrite (proj2 (Z.ltb_lt (Sequence.num_blocks seq - 1)
                      (Sequence.num_blocks seq))) by lia.
    simpl.
    assert (∃ prefix,
      (if 1 <? Z.of_nat (length (Sequence.block_table seq))
       then prev_id ← py_getitem (Sequence.block_table seq) (-2);
            prev ← BlockManager.get_block bm prev_id; Ok (Block.hash prev)
       else Ok (-1)) = Ok prefix ∧ hash_ok prefix) as (prefix & -> & Hok).
    { destruct (1 <? _) eqn:Hlen; [|exists (-1); split; [done|by left]].
      apply Z.ltb_lt in Hlen.
      destruct (py_getitem_second_last (Sequence.block_table seq))
        as (prev_id & -> & Hin); [lia|]. simpl.
      destruct (get_block_exists bm prev_id) as [prev Hprev];
        [by eapply Htab|].
      rewrite Hprev. simpl. eexists. split; [done|].
      eapply chained_hash_ok, block_valid_chained.
      by eapply get_block_valid. }
    simpl.
    destruct (compute_hash_success
                (py_slice (Sequence.token_ids seq)
                   ((Sequence.num_blocks seq - 1) * Sequence.block_size)
                   ((Sequence.num_blocks seq - 1 + 1) * Sequence.block_size))
                prefix Hok) as [h ->].
    by eexists _, _.
Qed.

Lemma contents_with_pool free used bm :
  contents (BlockManager.with_pool free used bm) = contents bm.
Proof. done. Qed.

Lemma contents_publish h b bm :
  contents (BlockManager.publish h b bm) = contents bm.
Proof. done. Qed.

Lemma may_append_world bm seqs r seq bm' seq' :
  wd_inv bm seqs → seqs !! r = Some seq →
  BlockManager.may_append bm seq = Ok (bm', seq') →
  wd_inv bm' (<[r := seq']> seqs) ∧
  (∀ r2 s2, r2 ≠ r → seqs !! r2 = Some s2 → ready bm s2 → ready bm' s2).
Proof.
  intros [Hw Hbs Hex] Hr Hrun.
  assert (world_inv (World bm' (<[r := seq']> seqs))) as Hw'.
  { eapply world_inv_step; [exact Hw|]. by eapply step_may_append. }
  pose proof Hw as [Hbsz Hpos Hinv Hhash Htab Htok]. simpl in *.
  assert (∀ r2 s2 b2, seqs !! r2 = Some s2 →
            last (Sequence.block_table s2) = Some b2 →
            0 ≤ b2 < pool_size bm
            ∧ 1 ≤ occurrences b2 (Sequence.block_table s2)) as Hlast2.
  { intros r2 s2 b2 Hr2 Hl2. apply last_elem_of in Hl2.
    split; [by eapply Htab|]. apply occurrences_elem in Hl2. lia. }
  apply may_append_Ok in Hrun
    as (last_id & last_block & Hlast & Hget & Hcases).
  destruct (Hlast2 _ _ _ Hr Hlast) as [Hlr Hlocc].
  destruct Hcases as [(_ & _ & b & _ & Halloc & ->)
                     |[(_ & _ & Hunset & toks & prefix & h & _ & _ & Hh
                        & -> & ->)
                      |(_ & _ & _ & -> & ->)]].
  - (* a new block *)
    destruct (bm_inv_claim _ _ _ _ Hinv Halloc) as (_ & Hb & Hocc0).
    apply _allocate_block_Ok in Halloc
      as (blk & l1 & l2 & Hgetb & _ & _ & _ & ->).
    split; [split; [done..|]|].
    + intros n toks. rewrite contents_with_pool.
      rewrite (total_occurrences_insert _ _ seq) by done. simpl.
      rewrite occurrences_app, occurrences_cons, occurrences_nil.
      destruct (decide (n = Z.to_nat b)) as [->|Hne].
      * intros _. rewrite Z2Nat.id by lia.
        rewrite bool_decide_eq_true_2 by done.
        pose proof (total_occurrences_ge _ _ _ b Hr). lia.
      * rewrite contents_put_block_ne by done. intros Hn.
        specialize (Hex n toks Hn).
        rewrite bool_decide_eq_false_2 by lia. lia.
    + intros r2 s2 Hne Hr2. apply ready_frame. intros b2 Hl2.
      destruct (Hlast2 _ _ _ Hr2 Hl2) as [Hb2 Hocc2].
      rewrite contents_with_pool. apply contents_put_block_ne; [done|].
      intros Heq. assert (b2 = b) as -> by lia.
      pose proof (total_occurrences_ge _ _ _ b Hr2). lia.
  - (* the last block is hashed *)
    pose proof (compute_hash_range _ _ _ Hh) as Hhr.
    pose proof (contents_lookup _ _ _ Hlr Hget) as Hcl.
    rewrite Hunset in Hcl.
    split; [split; [done..|]|].
    + intros n toks'. rewrite contents_publish.
      rewrite list_insert_id by done.
      destruct (decide (n = Z.to_nat last_id)) as [->|Hne].
      * rewrite contents_put_block_eq by done. simpl. intros [= ? _]. lia.
      * rewrite contents_put_block_ne by done. apply Hex.
    + intros r2 s2 Hne Hr2. apply ready_frame. intros b2 Hl2.
      destruct (Hlast2 _ _ _ Hr2 Hl2) as [Hb2 Hocc2].
      rewrite contents_publish. apply contents_put_block_ne; [done|].
      intros Heq. assert (b2 = last_id) as -> by lia.
      specialize (Hex _ _ Hcl). rewrite Z2Nat.id in Hex by lia.
      pose proof (total_occurrences_two _ _ _ _ _ last_id Hne Hr2 Hr). lia.
  - rewrite list_insert_id by done. split; [by split|]. done.
Qed.

Lemma preempt_spec self r seq :
  wd_inv (Scheduler.block_manager self) (Scheduler.objects self) →
  Scheduler.objects self !! r = Some seq →
  ∃ self',
    Scheduler.preempt self r = Ok self' ∧
    wd_inv (Scheduler.block_manager self') (Scheduler.objects self') ∧
    contents (Scheduler.block_manager self')
    = contents (Scheduler.block_manager self) ∧
    Scheduler.running self' = Scheduler.running self ∧
    Scheduler.waiting self' = r :: Scheduler.waiting self ∧
    Scheduler.max_num_seqs self' = Scheduler.max_num_seqs self ∧
    (∀ r2, r2 ≠ r →
           Scheduler.objects self' !! r2 = Scheduler.objects self !! r2).
Proof.
  intros Hwd Hr.
  destruct (deallocate_world _ _ _ _ Sequence.WAITING Hwd Hr)
    as (bm' & Hrun & Hwd' & Hcont & _).
  unfold Scheduler.preempt.
  rewrite (proj2 (deref_Ok self r seq) Hr). simpl. rewrite Hrun. simpl.
  eexists. split; [done|]. simpl. split_and!; try done.
  intros r2 Hne. by rewrite list_lookup_insert_ne.
Qed.

(** The state of the inner loop of the decode phase for the sequence [r]
    that was popped from the running queue. *)
Record room_inv (r : nat) (self : Scheduler.t) : Prop := {
  ri_wd : wd_inv (Scheduler.block_manager self) (Scheduler.objects self);
  ri_running :
    ∀ r2, r2 ∈ Scheduler.running self →
          ∃ s2, Scheduler.objects self !! r2 = Some s2 ∧
                ready (Scheduler.block_manager self) s2;
  ri_nodup : NoDup (r :: Scheduler.running self);
  ri_self :
    ∃ seq, Scheduler.objects self !! r = Some seq ∧
           ready (Scheduler.block_manager self) seq
}.

Lemma room_loop r fuel self :
  room_inv r self →
  (length (Scheduler.running self) < fuel)%nat →
  ∃ c,
    while fuel (Scheduler.room_cond r) (Scheduler.room_body r) self = Ok c ∧
    Scheduler.max_num_seqs (ctl_state c) = Scheduler.max_num_seqs self ∧
    (length (Scheduler.running (ctl_state c))
     ≤ length (Scheduler.running self))%nat ∧
    match c with
    | Continue self' =>
        room_inv r self' ∧
        ∃ seq, Scheduler.objects self' !! r = Some seq ∧
               BlockManager.can_append (Scheduler.block_manager self') seq
               = true
    | Break self' =>
        wd_inv (Scheduler.block_manager self') (Scheduler.objects self') ∧
        Scheduler.running self' = []
    end.
Proof.
  revert self. induction fuel as [|fuel IH]; intros self Hinv Hfuel; [lia|].
  pose proof Hinv as [Hwd Hrun Hnd (seq & Hr & Hready)].
  rewrite while_unfold.
  assert (Scheduler.room_cond r self
          = Ok (negb (BlockManager.can_append
                        (Scheduler.block_manager self) seq))) as ->.
  { unfold Scheduler.room_cond.
    by rewrite (proj2 (deref_Ok self r seq) Hr). }
  simpl.
  destruct (BlockManager.can_append (Scheduler.block_manager self) seq)
    eqn:Hcan; simpl.
  { eexists. split; [done|]. split; [done|]. split; [done|].
    split; [done|]. by exists seq. }
  assert (Scheduler.room_body r self
          = match reverse (Scheduler.running self) with
            | victim :: rest =>
                self ← Scheduler.preempt
                         (Scheduler.with_running (reverse rest) self) victim;
                Ok (Continue self)
            | [] => self ← Scheduler.preempt self r; Ok (Break self)
            end) as -> by done.
  destruct (reverse (Scheduler.running self)) as [|victim rest] eqn:Hrev.
  - (* nobody left to preempt: the sequence preempts itself *)
    destruct (preempt_spec self r seq Hwd Hr)
      as (self1 & -> & Hwd1 & _ & Hrun1 & _ & Hmax & _).
    simpl. eexists. split; [done|]. split; [done|]. simpl.
    split; [by rewrite Hrun1|]. split; [done|].
    rewrite Hrun1.
    apply (f_equal reverse) in Hrev. by rewrite reverse_involutive in Hrev.
  - (* the tail of the running queue is preempted *)
    assert (Scheduler.running self = reverse rest ++ [victim]) as Hrunning.
    { apply (f_equal reverse) in Hrev.
      by rewrite reverse_involutive, reverse_cons in Hrev. }
    destruct (Hrun victim) as (sv & Hv & _); [rewrite Hrunning; set_solver|].
    destruct (preempt_spec (Scheduler.with_running (reverse rest) self)
                victim sv Hwd Hv)
      as (self1 & -> & Hwd1 & Hcont1 & Hrun1 & _ & Hmax1 & Hobj1).
    simpl in *.
    rewrite Hrunning in Hnd, Hfuel.
    apply NoDup_cons in Hnd as [Hrnin Hnd].
    apply NoDup_app in Hnd as (Hnd1 & Hnd12 & _).
    assert (r ≠ victim) as Hrv by set_solver.
    destruct (IH self1) as (c & Hloop & Hmax & Hlen & Hc).
    { split; [done|..].
      - intros r2 Hr2. rewrite Hrun1 in Hr2.
        destruct (Hrun r2) as (s2 & Hs2 & Hready2);
          [rewrite Hrunning; set_solver|].
        exists s2. rewrite Hobj1 by (intros ->; by apply (Hnd12 victim);
                                     [|set_solver]).
        split; [done|]. eapply ready_frame; [|done].
        intros b _. by rewrite Hcont1.
      - rewrite Hrun1. apply NoDup_cons. split; [set_solver|done].
      - exists seq. rewrite Hobj1 by done. split; [done|].
        eapply ready_frame; [|done]. intros b _. by rewrite Hcont1. }
    { rewrite Hrun1. rewrite length_app in Hfuel. simpl in Hfuel. lia. }
    exists c. split; [done|]. split; [congruence|]. split; [|done].
    rewrite Hrun1 in Hlen. rewrite Hrunning, length_app. simpl. lia.
Qed.

Lemma decode_inv_wd self :
  decode_inv self →
  wd_inv (Scheduler.block_manager self) (Scheduler.objects self).
Proof. intros [Hw Hbs Hex _ _]. by split. Qed.

(** The outcome of the inner loop for the head [r] of the running queue
    decides what one pass of the decode loop does. *)
Lemma decode_body_spec st r rest :
  decode_inv (Scheduler.s_self st) →
  Scheduler.running (Scheduler.s_self st) = r :: rest →
  ∃ c st',
    while (S (length rest)) (Scheduler.room_cond r) (Scheduler.room_body r)
      (Scheduler.with_running rest (Scheduler.s_self st)) = Ok c ∧
    Scheduler.decode_body st = Ok (Continue st') ∧
    decode_inv (Scheduler.s_self st') ∧
    Scheduler.max_num_seqs (Scheduler.s_self st')
    = Scheduler.max_num_seqs (Scheduler.s_self st) ∧
    (length (Scheduler.running (Scheduler.s_self st')) ≤ length rest)%nat ∧
    match c with
    | Continue _ => Scheduler.s_scheduled st' = Scheduler.s_scheduled st ++ [r]
    | Break _ =>
        Scheduler.s_scheduled st' = Scheduler.s_scheduled st ∧
        Scheduler.running (Scheduler.s_self st') = []
    end.
Proof.
  intros Hinv Hrunning.
  pose proof Hinv as [Hw Hbs Hex Hready Hnd].
  rewrite Hrunning in Hready, Hnd.
  set (self0 := Scheduler.with_running rest (Scheduler.s_self st)).
  assert (room_inv r self0) as Hroom.
  { split; simpl.
    - by apply decode_inv_wd.
    - intros r2 Hr2. apply Hready. by right.
    - done.
    - apply Hready. by left. }
  destruct (room_loop r (S (length rest)) self0 Hroom)
    as (c & Hloop & Hmax & Hlen & Hc); [simpl; lia|].
  assert (Scheduler.decode_body st
          = c ← while (S (length rest)) (Scheduler.room_cond r)
                  (Scheduler.room_body r) self0;
            match c with
            | Break self => Ok (Continue (Scheduler.with_self self st))
            | Continue self =>
                seq ← Scheduler.deref self r;
                '(bm, seq) ← BlockManager.may_append
                               (Scheduler.block_manager self) seq;
                Ok (Continue
                      (Scheduler.SchedState
                         (Scheduler.with_block_manager bm
                            (Scheduler.store r seq self))
                         (Scheduler.s_scheduled st ++ [r])
                         (Scheduler.s_num_seqs st + 1)
                         (Scheduler.s_num_batched_tokens st)))
            end) as Hbody.
  { unfold Scheduler.decode_body. rewrite Hrunning.
    by rewrite (proj2 (py_getitem_head (r :: rest) r) eq_refl). }
  rewrite Hbody, Hloop. simpl. exists c.
  destruct c as [self1|self1]; simpl in *.
  - destruct Hc as ([Hwd1 Hready1 Hnd1 (seq0 & Hr' & Hrdy')] & seq & Hr & Hcan).
    rewrite (proj2 (deref_Ok self1 r seq) Hr). simpl.
    assert (ready (Scheduler.block_manager self1) seq) as Hrdy
      by congruence.
    destruct (may_append_success _ _ _ _ Hwd1 Hr Hrdy Hcan)
      as (bm' & seq' & Hrun).
    rewrite Hrun. simpl. eexists. split; [done|]. simpl.
    destruct (may_append_world _ _ _ _ _ _ Hwd1 Hr Hrun) as [Hwd2 Hothers].
    apply NoDup_cons in Hnd1 as [Hrnin Hnd1].
    split_and!; try done; try lia.
    destruct Hwd2 as [Hw2 _ Hex2].
    split; simpl; try done.
    intros r2 Hr2. destruct (Hready1 r2 Hr2) as (s2 & Hs2 & Hrdy2).
    assert (r2 ≠ r) as Hne by (intros ->; done).
    exists s2. rewrite list_lookup_insert_ne by done. split; [done|].
    by eapply Hothers.
  - destruct Hc as [[Hw1 _ Hex1] Hrun1].
    eexists. split; [done|]. simpl.
    split_and!; try done; try lia.
    split; simpl; try done.
    + intros r2. rewrite Hrun1. by intros ?%elem_of_nil.
    + rewrite Hrun1. apply NoDup_nil_2.
Qed.

Lemma decode_loop fuel st :
  decode_inv (Scheduler.s_self st) →
  (length (Scheduler.running (Scheduler.s_self st)) < fuel)%nat →
  ∃ c,
    while fuel Scheduler.decode_cond Scheduler.decode_body st = Ok c ∧
    Scheduler.s_scheduled st
      `prefix_of` Scheduler.s_scheduled (ctl_state c).
Proof.
  revert st. induction fuel as [|fuel IH]; intros st Hinv Hfuel; [lia|].
  rewrite while_unfold.
  assert (Scheduler.decode_cond st
          = Ok (negb (bool_decide (Scheduler.running (Scheduler.s_self st) = []))
                && (Scheduler.s_num_seqs st
                    <? Scheduler.max_num_seqs (Scheduler.s_self st))))
    as -> by done.
  simpl.
  destruct (negb _ && _) eqn:Hcond; [|by eexists].
  apply andb_true_iff in Hcond as [Hne _].
  apply negb_true_iff, bool_decide_eq_false in Hne.
  destruct (Scheduler.running (Scheduler.s_self st)) as [|r rest] eqn:Hrun;
    [done|].
  destruct (decode_body_spec st r rest Hinv Hrun)
    as (c1 & st' & _ & -> & Hinv' & _ & Hlen & Hsched).
  simpl. simpl in Hfuel.
  destruct (IH st' Hinv') as (c & Hloop & Hpre); [lia|].
  exists c. split; [done|]. etrans; [|exact Hpre].
  destruct c1; [rewrite Hsched; by apply prefix_app_r|].
  by destruct Hsched as [-> _].
Qed.

(** No prefill admission is possible: the waiting queue is empty, or its
    head does not fit the token budget or the free pool. *)
Definition prefill_blocked (self : Scheduler.t) : Prop :=
  Scheduler.waiting self = [] ∨
  ∃ r seq, head (Scheduler.waiting self) = Some r ∧
           Scheduler.deref self r = Ok seq ∧
           (Scheduler.max_num_batched_tokens self < Sequence.num_tokens seq
            ∨ BlockManager.can_allocate (Scheduler.block_manager self) seq
              = false).

Lemma prefill_blocked_loop self fuel :
  prefill_blocked self →
  ∃ c, while (S fuel) Scheduler.prefill_cond Scheduler.prefill_body
         (Scheduler.SchedState self [] 0 0) = Ok c ∧
       ctl_state c = Scheduler.SchedState self [] 0 0.
Proof.
  intros Hblocked. rewrite while_unfold.
  assert (Scheduler.prefill_cond (Scheduler.SchedState self [] 0 0)
          = Ok (negb (bool_decide (Scheduler.waiting self = []))
                && (0 <? Scheduler.max_num_seqs self))) as -> by done.
  simpl. destruct (negb _ && _) eqn:Hcond; [|by eexists].
  apply andb_true_iff in Hcond as [Hne _].
  apply negb_true_iff, bool_decide_eq_false in Hne.
  destruct Hblocked as [?|(r & seq & Hhead & Hderef & Hgate)]; [done|].
  unfold Scheduler.prefill_body. simpl.
  rewrite (proj2 (py_getitem_head _ _) Hhead). simpl.
  rewrite Hderef. simpl. unfold Sequence.__len__.
  assert ((Scheduler.max_num_batched_tokens self <? 0 + Sequence.num_tokens seq)
          || negb (BlockManager.can_allocate (Scheduler.block_manager self) seq)
          = true) as ->.
  { destruct Hgate as [Hlt| ->]; [|by rewrite orb_true_r].
    by rewrite (proj2 (Z.ltb_lt _ _)) by lia. }
  simpl. by eexists.
Qed.

(** X25.  A scheduler between two ticks ([decode_inv]) in which no
    prefill admission is possible ([prefill_blocked]), whose running queue
    is [r] followed by [rest], with a positive [max_num_seqs].  The inner
    loop for [r] never fails: it preempts sequences from the tail of [rest]
    until [r] can append, or until nobody is left and [r] preempts itself.
    In the first case [schedule] returns normally a decode batch that
    starts with [r]; in the second case the decode phase ends with an empty
    batch and [schedule] raises AssertionError at [assert scheduled_seqs].
    In particular, when [r] is the only running sequence and cannot append,
    [schedule] raises AssertionError. *)
Theorem decode_exhaustion (self : Scheduler.t) (r : nat) (rest : list nat) :
  decode_inv self →
  prefill_blocked self →
  Scheduler.running self = r :: rest →
  0 < Scheduler.max_num_seqs self →
  (∃ c,
     while (S (length rest)) (Scheduler.room_cond r) (Scheduler.room_body r)
       (Scheduler.with_running rest self) = Ok c ∧
     match c with
     | Continue _ =>
         ∃ self' batch,
           Scheduler.schedule self = Ok (self', (batch, false)) ∧
           head batch = Some r
     | Break _ => Scheduler.schedule self = Raise AssertionError
     end) ∧
  (∀ seq, rest = [] → Scheduler.deref self r = Ok seq →
          BlockManager.can_append (Scheduler.block_manager self) seq = false →
          Scheduler.schedule self = Raise AssertionError).
Proof.
  intros Hinv Hblocked Hrunning Hmax.
  assert (∃ c,
     while (S (length rest)) (Scheduler.room_cond r) (Scheduler.room_body r)
       (Scheduler.with_running rest self) = Ok c ∧
     match c with
     | Continue _ =>
         ∃ self' batch,
           Scheduler.schedule self = Ok (self', (batch, false)) ∧
           head batch = Some r
     | Break _ => Scheduler.schedule self = Raise AssertionError
     end) as Hmain.
  { destruct (prefill_blocked_loop self (length (Scheduler.waiting self))
                Hblocked) as (c0 & Hpre & Hst0).
    set (st0 := Scheduler.SchedState self [] 0 0) in *.
    destruct (decode_body_spec st0 r rest Hinv Hrunning)
      as (c & st' & Hroom & Hbody & Hinv' & _ & Hlen & Hsched).
    exists c. split; [done|].
    assert (while (S (length (Scheduler.running self)))
              Scheduler.decode_cond Scheduler.decode_body st0
            = while (length (Scheduler.running self))
                Scheduler.decode_cond Scheduler.decode_body st') as Hstep.
    { rewrite while_unfold.
      assert (Scheduler.decode_cond st0 = Ok true) as ->.
      { unfold Scheduler.decode_cond. simpl. rewrite Hrunning.
        rewrite bool_decide_eq_false_2 by done.
        by rewrite (proj2 (Z.ltb_lt _ _)) by done. }
      simpl. by rewrite Hbody. }
    unfold Scheduler.schedule. fold st0. rewrite Hpre.
    assert (∀ (k : ctl Scheduler.sched_state
                   → result (Scheduler.t * (list nat * bool))),
              Ok c0 ≫= k = k c0) as -> by done.
    cbv zeta. rewrite Hst0.
    assert (Scheduler.s_scheduled st0 = []) as -> by done.
    rewrite bool_decide_eq_true_2 by done.
    assert (Scheduler.s_self st0 = self) as -> by done.
    cbv iota. simpl negb. cbv iota.
    rewrite Hstep. rewrite Hrunning. simpl length.
    destruct c as [self1|self1].
    - destruct (decode_loop (S (length rest)) st' Hinv')
        as (c' & -> & Hpre'); [lia|].
      rewrite Hsched in Hpre'. simpl in Hpre'.
      destruct Hpre' as [k Hk]. simpl. rewrite Hk. simpl.
      by eexists _, _.
    - destruct Hsched as [Hsched Hrun']. simpl in Hsched.
      rewrite while_unfold.
      assert (Scheduler.decode_cond st' = Ok false) as ->.
      { unfold Scheduler.decode_cond. by rewrite Hrun'. }
      simpl. by rewrite Hsched. }
  split; [done|].
  intros seq -> Hderef Hcan.
  destruct Hmain as (c & Hroom & Hc).
  rewrite while_unfold in Hroom.
  assert (Scheduler.room_cond r (Scheduler.with_running [] self) = Ok true)
    as Hcond.
  { unfold Scheduler.room_cond.
    assert (Scheduler.deref (Scheduler.with_running [] self) r = Ok seq)
      as -> by done.
    simpl. by rewrite Hcan. }
  rewrite Hcond in Hroom. simpl in Hroom.
  apply bind_Ok in Hroom as (c1 & _ & Hroom).
  destruct c1; [done|]. by injection Hroom as <-.
Qed.

End SchedulerFacts.

(** ** Running a list of operations on a world

    An executable form of [world_step]: scenarios are lists of operations,
    and what they produce is reachable. *)

Inductive op : Type :=
  | OpNew (prompt : list Z) (params : SamplingParams.t)
  | OpAppendToken (r : nat) (token_id : Z)
  | OpStatus (r : nat) (st : Sequence.SequenceStatus)
  | OpAllocate (r : nat)
  | OpDeallocate (r : nat)
  | OpMayAppend (r : nat).

Section Run.
Context `{XXHash} `{Sequence.class_attrs}.

Definition world_deref (w : world) (r : nat) : result Sequence.t :=
  match w_seqs w !! r with Some s => Ok s | None => Raise Dangling end.

Definition run_op (o : op) (w : world) : result world :=
  match o with
  | OpNew prompt params =>
      s ← Sequence.__init__ (Z.of_nat (length (w_seqs w))) prompt params;
      Ok (World (w_bm w) (w_seqs w ++ [s]))
  | OpAppendToken r token_id =>
      s ← world_deref w r;
      Ok (World (w_bm w) (<[r := Sequence.append_token s token_id]> (w_seqs w)))
  | OpStatus r st =>
      s ← world_deref w r;
      Ok (World (w_bm w) (<[r := Sequence.with_status st s]> (w_seqs w)))
  | OpAllocate r =>
      s ← world_deref w r;
      '(bm, s) ← BlockManager.allocate (w_bm w) s;
      Ok (World bm (<[r := s]> (w_seqs w)))
  | OpDeallocate r =>
      s ← world_deref w r;
      '(bm, s) ← BlockManager.deallocate (w_bm w) s;
      Ok (World bm (<[r := s]> (w_seqs w)))
  | OpMayAppend r =>
      s ← world_deref w r;
      '(bm, s) ← BlockManager.may_append (w_bm w) s;
      Ok (World bm (<[r := s]> (w_seqs w)))
  end.

Definition run (num_blocks : Z) (ops : list op) : result world :=
  bm ← BlockManager.__init__ num_blocks Sequence.block_size;
  for_each run_op ops (World bm []).

Lemma run_op_step o w w' : run_op o w = Ok w' → world_step w w'.
Proof.
  destruct w as [bm seqs]. unfold run_op, world_deref. simpl.
  destruct o as [prompt params|r tok|r st|r|r|r]; intros Hrun.
  - repeat step_result. by econstructor.
  - destruct (seqs !! r) eqn:Hr; repeat step_result. by constructor.
  - destruct (seqs !! r) eqn:Hr; repeat step_result. by constructor.
  - destruct (seqs !! r) eqn:Hr; repeat step_result.
    by eapply step_allocate.
  - destruct (seqs !! r) eqn:Hr; repeat step_result.
    by eapply step_deallocate.
  - destruct (seqs !! r) eqn:Hr; repeat step_result.
    by eapply step_may_append.
Qed.

Lemma run_reachable num_blocks ops w :
  0 < Sequence.block_size → run num_blocks ops = Ok w → reachable w.
Proof.
  unfold run. intros Hpos Hrun.
  apply bind_Ok in Hrun as (bm & Hinit & Hrun).
  eapply (for_each_invariant (λ _ w, reachable w) _ _ (World bm []));
    [|by eapply reachable_init|exact Hrun].
  intros _ o w1 w2 Hw1 Hstep. eapply reachable_step; [done|].
  by eapply run_op_step.
Qed.

End Run.

Lemma reachable_bm_reachable `{XXHash} `{Sequence.class_attrs} (w : world) :
  reachable w → bm_reachable (w_bm w).
Proof.
  induction 1 as [n bm Hpos Hinit|w w' _ IH Hstep].
  - by eapply bm_reachable_init.
  - destruct Hstep; simpl in *; try done.
    + by eapply bm_reachable_allocate.
    + by eapply bm_reachable_deallocate.
    + by eapply bm_reachable_may_append.
Qed.

(** * The engine

    The rest of the scheduler and of the engine: an invariant of the
    states that [LLMEngine] reaches, and what it gives for [schedule],
    [postprocess], [step] and [is_finished]; then the guards of the block
    manager and the token lists of [Sequence]. *)

(** ** What [allocate] and [may_append] do to the hashes *)

Section EngineFacts.
Context `{XXHash} `{Sequence.class_attrs}.

(** The dedup index has no entry for the sentinel. *)
Definition index_inv (bm : BlockManager.t) : Prop :=
  BlockManager.hash_to_block_id bm !! (-1) = None.

(** Block [n] exists and its hash is unset. *)
Definition unset_at (bm : BlockManager.t) (n : nat) : Prop :=
  ∃ toks, contents bm !! n = Some (-1, toks).

Lemma acquire_contents occ self seq block_id cache_miss self' seq' b :
  bm_inv occ self →
  acquire self seq block_id cache_miss = Ok (self', seq', b) →
  0 ≤ b < pool_size self ∧
  pool_size self' = pool_size self ∧
  BlockManager.hash_to_block_id self' = BlockManager.hash_to_block_id self ∧
  (∀ n, n ≠ Z.to_nat b → contents self' !! n = contents self !! n) ∧
  (occ b = 0 ∧ contents self' !! Z.to_nat b = Some (-1, [])
   ∨ 0 < occ b ∧ cache_miss = false ∧ b = block_id ∧
     contents self' !! Z.to_nat b = contents self !! Z.to_nat b).
Proof.
  intros Hinv Hrun.
  destruct (acquire_spec _ _ _ _ _ _ _ _ Hinv Hrun)
    as (Hb & _ & Hsz & _ & Hidx & _).
  split; [done|]. split; [done|]. split; [done|].
  assert (∀ bm1,
    BlockManager._allocate_block self b = Ok bm1 →
    (∀ n, n ≠ Z.to_nat b → contents bm1 !! n = contents self !! n) ∧
    occ b = 0 ∧ contents bm1 !! Z.to_nat b = Some (-1, [])) as Hclaim.
  { intros bm1 Halloc.
    destruct (bm_inv_claim _ _ _ _ Hinv Halloc) as (_ & _ & Hocc).
    apply _allocate_block_Ok in Halloc as (blk & l1 & l2 & _ & _ & _ & _ & ->).
    rewrite contents_with_pool. split; [|split; [done|]].
    - intros n Hn. by apply contents_put_block_ne.
    - by rewrite contents_put_block_eq. }
  unfold acquire in Hrun. destruct cache_miss.
  - apply bind_Ok in Hrun as (b' & _ & Hrun).
    apply bind_Ok in Hrun as (bm1 & Halloc & Hrun).
    injection Hrun as <- _ <-.
    destruct (Hclaim _ Halloc) as (Hne & Hocc & Heq). split; [done|].
    by left.
  - case_bool_decide as Hused.
    + apply bind_Ok in Hrun as (blk & Hget & Hrun).
      injection Hrun as <- _ <-.
      split; [intros n Hn; by apply contents_put_block_ne|].
      right. split; [by apply (inv_used _ _ Hinv)|]. split; [done|].
      split; [done|].
      rewrite contents_put_block_eq by done. simpl.
      symmetry. by apply contents_lookup.
    + apply bind_Ok in Hrun as (bm1 & Halloc & Hrun).
      injection Hrun as <- _ <-.
      destruct (Hclaim _ Halloc) as (Hne & Hocc & Heq). split; [done|].
      by left.
Qed.

Lemma record_contents self b h token_ids self' :
  0 ≤ b < pool_size self →
  record self b h token_ids = Ok self' →
  (∀ n, n ≠ Z.to_nat b → contents self' !! n = contents self !! n) ∧
  (h ≠ -1 → contents self' !! Z.to_nat b = Some (h, token_ids)) ∧
  (h = -1 → self' = self) ∧
  (index_inv self → index_inv self').
Proof.
  intros Hb Hrun. unfold record in Hrun. case_bool_decide as Hh.
  - apply bind_Ok in Hrun as (blk & Hget & Hrun). injection Hrun as <-.
    rewrite contents_publish. split_and!.
    + intros n Hn. by apply contents_put_block_ne.
    + intros _. by rewrite contents_put_block_eq.
    + done.
    + unfold index_inv. simpl. rewrite put_block_index.
      intros Hi. by rewrite lookup_insert_ne.
  - injection Hrun as <-. split_and!; try done.
Qed.

Lemma allocate_body_contents occ i st st' :
  bm_inv occ (BlockManager.a_self st) →
  hash_inv (BlockManager.a_self st) →
  index_inv (BlockManager.a_self st) →
  0 < BlockManager.block_size (BlockManager.a_self st) →
  BlockManager.allocate_body i st = Ok st' →
  ∃ b token_ids toks,
    Sequence.block (BlockManager.a_seq st) i = Ok token_ids ∧
    (BlockManager.a_h st' ≠ -1
     ↔ Z.of_nat (length token_ids)
       = BlockManager.block_size (BlockManager.a_self st)) ∧
    Sequence.block_table (BlockManager.a_seq st')
    = Sequence.block_table (BlockManager.a_seq st) ++ [b] ∧
    0 ≤ b < pool_size (BlockManager.a_self st) ∧
    index_inv (BlockManager.a_self st') ∧
    (∀ n, n ≠ Z.to_nat b →
          contents (BlockManager.a_self st') !! n
          = contents (BlockManager.a_self st) !! n) ∧
    contents (BlockManager.a_self st') !! Z.to_nat b
    = Some (BlockManager.a_h st', toks) ∧
    (occ b = 0
     ∨ 0 < occ b ∧ BlockManager.a_h st' ≠ -1
       ∧ ¬ unset_at (BlockManager.a_self st) (Z.to_nat b)).
Proof.
  intros Hinv Hhash Hidx Hbs Hrun.
  rewrite allocate_body_unfold in Hrun. cbv zeta in Hrun.
  apply bind_Ok in Hrun as (token_ids & Hblock & Hrun).
  apply bind_Ok in Hrun as (h & Hh & Hrun).
  apply bind_Ok in Hrun as (cache_miss & Hmiss & Hrun).
  apply bind_Ok in Hrun as ([[self1 seq1] b] & Hacq & Hrun).
  apply bind_Ok in Hrun as (self2 & Hrec & Hrun).
  injection Hrun as <-. simpl_bm.
  destruct (acquire_contents _ _ _ _ _ _ _ _ Hinv Hacq)
    as (Hb & Hsz1 & Hidx1 & Hne1 & Hcase).
  destruct (record_contents _ _ _ _ _ ltac:(by rewrite Hsz1) Hrec)
    as (Hne2 & Hset & Hunset & Hidx2).
  destruct (acquire_spec _ _ _ _ _ _ _ _ Hinv Hacq)
    as (_ & _ & _ & _ & _ & _ & nc & ->).
  assert (h ≠ -1
          ↔ Z.of_nat (length token_ids)
            = BlockManager.block_size (BlockManager.a_self st)) as Hiff.
  { unfold block_hash in Hh.
    destruct (decide (Z.of_nat (length token_ids)
                      = BlockManager.block_size (BlockManager.a_self st)))
      as [Hlen|Hlen].
    - rewrite bool_decide_eq_true_2 in Hh by done.
      apply compute_hash_range in Hh. split; [done|lia].
    - rewrite bool_decide_eq_false_2 in Hh by done.
      injection Hh as <-. done. }
  assert (index_inv self1) as Hidx1'
    by (unfold index_inv; by rewrite Hidx1).
  pose proof (Hidx2 Hidx1') as Hidx'.
  assert (∀ n, n ≠ Z.to_nat b →
               contents self2 !! n
               = contents (BlockManager.a_self st) !! n) as Hne.
  { intros n Hn. rewrite Hne2 by done. by apply Hne1. }
  destruct Hcase as [[Hocc Hc1]|(Hocc & -> & -> & Hc1)].
  - (* a block out of the free pool *)
    destruct (decide (h = -1)) as [->|Hh1].
    + exists b, token_ids, []. rewrite (Hunset eq_refl).
      split_and!; try done; lia.
    + exists b, token_ids, token_ids. rewrite (Hset Hh1).
      split_and!; try done; lia.
  - (* a hit on a block in use *)
    unfold lookup_miss in Hmiss.
    case_bool_decide as Hid; [done|].
    apply bind_Ok in Hmiss as (blk & Hget & Hmiss).
    case_bool_decide as Htoks; [done|].
    assert (Block.token_ids blk = token_ids) as Htok
      by (destruct (decide (Block.token_ids blk = token_ids)); done).
    assert (h ≠ -1) as Hh1.
    { intros ->. apply Hid. unfold index_inv in Hidx. by rewrite Hidx. }
    exists (default (-1) (BlockManager.hash_to_block_id (BlockManager.a_self st) !! h)),
      token_ids, token_ids.
    rewrite (Hset Hh1). split_and!; try done; try lia.
    right. split; [done|]. split; [done|].
    intros [toks Hu]. rewrite (contents_lookup _ _ _ Hb Hget) in Hu.
    injection Hu as Hu _.
    apply (get_block_valid _ _ _ Hhash) in Hget as [Hnil _].
    rewrite (Hnil Hu) in Htok. apply Hiff in Hh1.
    rewrite <- Htok in Hh1. simpl in Hh1. lia.
Qed.

Lemma allocate_body_cached i st st' :
  index_inv (BlockManager.a_self st) →
  BlockManager.allocate_body i st = Ok st' →
  Sequence.num_cached_tokens (BlockManager.a_seq st')
  = Sequence.num_cached_tokens (BlockManager.a_seq st)
  ∨ Sequence.num_cached_tokens (BlockManager.a_seq st')
    = Sequence.num_cached_tokens (BlockManager.a_seq st)
      + BlockManager.block_size (BlockManager.a_self st)
    ∧ BlockManager.a_h st' ≠ -1.
Proof.
  intros Hidx Hrun. rewrite allocate_body_unfold in Hrun. cbv zeta in Hrun.
  apply bind_Ok in Hrun as (token_ids & Hblock & Hrun).
  apply bind_Ok in Hrun as (h & Hh & Hrun).
  apply bind_Ok in Hrun as (cache_miss & Hmiss & Hrun).
  apply bind_Ok in Hrun as ([[self1 seq1] b] & Hacq & Hrun).
  apply bind_Ok in Hrun as (self2 & Hrec & Hrun).
  injection Hrun as <-. simpl_bm.
  unfold acquire in Hacq. destruct cache_miss.
  - left. apply bind_Ok in Hacq as (b' & _ & Hacq).
    apply bind_Ok in Hacq as (bm1 & _ & Hacq). by injection Hacq as _ <- _.
  - right. split.
    + case_bool_decide.
      * apply bind_Ok in Hacq as (blk & _ & Hacq). by injection Hacq as _ <- _.
      * apply bind_Ok in Hacq as (bm1 & _ & Hacq). by injection Hacq as _ <- _.
    + intros ->. unfold lookup_miss in Hmiss. unfold index_inv in Hidx.
      rewrite Hidx in Hmiss. simpl in Hmiss. done.
Qed.

Lemma unset_at_same bm bm' n :
  contents bm' !! n = contents bm !! n → unset_at bm' n ↔ unset_at bm n.
Proof. unfold unset_at. by intros ->. Qed.

(** What [allocate] does to the hashes.  [occ] counts the entries of the
    block tables before the call. *)
Lemma allocate_contents occ bm seq bm' seq' :
  bm_inv occ bm → hash_inv bm → index_inv bm →
  0 < BlockManager.block_size bm →
  (∀ n, unset_at bm n → occ (Z.of_nat n) ≤ 1) →
  BlockManager.allocate bm seq = Ok (bm', seq') →
  index_inv bm' ∧
  (∀ n, 0 < occ (Z.of_nat n) → (unset_at bm' n ↔ unset_at bm n)) ∧
  (∀ n, unset_at bm' n →
        occ (Z.of_nat n)
        + occurrences (Z.of_nat n) (Sequence.block_table seq') ≤ 1) ∧
  (1 ≤ Sequence.num_blocks seq →
   ∃ b h toks token_ids,
     last (Sequence.block_table seq') = Some b ∧ 0 ≤ b ∧
     contents bm' !! Z.to_nat b = Some (h, toks) ∧
     Sequence.block seq (Sequence.num_blocks seq - 1) = Ok token_ids ∧
     (h ≠ -1 ↔ Z.of_nat (length token_ids) = BlockManager.block_size bm) ∧
     ∃ j, 0 ≤ j ≤ Sequence.num_blocks seq ∧
          (h = -1 → j ≤ Sequence.num_blocks seq - 1) ∧
          Sequence.num_cached_tokens seq'
          = Sequence.num_cached_tokens seq + BlockManager.block_size bm * j).
Proof.
  intros Hinv Hhash Hidx Hbs Hex Hrun. unfold BlockManager.allocate in Hrun.
  apply bind_Ok in Hrun as (u & Hempty & Hrun).
  apply assert_Ok, bool_decide_eq_true in Hempty.
  apply bind_Ok in Hrun as (st' & Hloop & Hrun). injection Hrun as <- <-.
  apply (for_each_invariant
           (λ done st,
              bm_inv (λ b, occ b
                           + occurrences b
                               (Sequence.block_table (BlockManager.a_seq st)))
                (BlockManager.a_self st)
              ∧ hash_inv (BlockManager.a_self st)
              ∧ index_inv (BlockManager.a_self st)
              ∧ BlockManager.block_size (BlockManager.a_self st)
                = BlockManager.block_size bm
              ∧ chained (BlockManager.block_size bm) (BlockManager.a_h st)
              ∧ seq_core (BlockManager.a_seq st) = seq_core seq
              ∧ (∀ n, 0 < occ (Z.of_nat n) →
                      (unset_at (BlockManager.a_self st) n ↔ unset_at bm n))
              ∧ (∀ n, unset_at (BlockManager.a_self st) n →
                      occ (Z.of_nat n)
                      + occurrences (Z.of_nat n)
                          (Sequence.block_table (BlockManager.a_seq st)) ≤ 1)
              ∧ (∀ i, last done = Some i →
                      ∃ b toks token_ids,
                        last (Sequence.block_table (BlockManager.a_seq st))
                        = Some b ∧ 0 ≤ b ∧
                        contents (BlockManager.a_self st) !! Z.to_nat b
                        = Some (BlockManager.a_h st, toks) ∧
                        Sequence.block seq i = Ok token_ids ∧
                        (BlockManager.a_h st ≠ -1
                         ↔ Z.of_nat (length token_ids)
                           = BlockManager.block_size bm))
              ∧ (∃ j, 0 ≤ j ≤ Z.of_nat (length done) ∧
                      (BlockManager.a_h st = -1 →
                       j ≤ Z.of_nat (length done) - 1 ∨ done = []) ∧
                      Sequence.num_cached_tokens (BlockManager.a_seq st)
                      = Sequence.num_cached_tokens seq
                        + BlockManager.block_size bm * j))
           _ _ (BlockManager.AllocState bm seq (-1) false) _) in Hloop.
  - destruct Hloop
      as (_ & _ & Hidx' & _ & _ & _ & Hsame & Hex' & Hlast & j & Hj & Hjh & Hjc).
    split; [done|]. split; [done|]. split; [done|].
    intros Hnb.
    destruct (Hlast (Sequence.num_blocks seq - 1))
      as (b & toks & token_ids & Hl & Hb & Hc & Hblk & Hiff).
    { replace (seqZ 0 (Sequence.num_blocks seq))
        with (seqZ 0 (Sequence.num_blocks seq - 1)
              ++ [Sequence.num_blocks seq - 1]).
      - by rewrite last_snoc.
      - replace (Sequence.num_blocks seq)
          with (Sequence.num_blocks seq - 1 + 1) at 3 by lia.
        rewrite seqZ_app by lia. simpl. by rewrite Z.add_0_l. }
    exists b, (BlockManager.a_h st'), toks, token_ids.
    split_and!; try done. rewrite length_seqZ in Hj, Hjh.
    exists j. split; [lia|]. split; [|done].
    intros Hh. destruct (Hjh Hh) as [?|Hnil]; [lia|].
    apply (f_equal length) in Hnil. rewrite length_seqZ in Hnil.
    simpl in Hnil. lia.
  - intros done i s1 s2
      (Hinv1 & Hhash1 & Hidx1 & Hbs1 & Hch1 & Hcore1 & Hsame1 & Hex1 & _
       & j & Hj & Hjh & Hjc)
      Hbody.
    pose proof (allocate_body_cached _ _ _ Hidx1 Hbody) as Hcached.
    destruct (bm_inv_allocate_body _ _ _ _ Hinv1 Hbody)
      as (b0 & _ & Htab0 & Hinv2 & _ & Hbs2).
    rewrite <- Hbs1 in Hch1.
    destruct (hash_inv_allocate_body _ _ _ Hhash1 Hch1 Hbody)
      as [Hhash2 Hch2].
    rewrite Hbs1 in Hch2.
    pose proof (allocate_body_seq_core _ _ _ Hbody) as Hcore2.
    destruct (allocate_body_contents _ _ _ _ Hinv1 Hhash1 Hidx1
                ltac:(by rewrite Hbs1) Hbody)
      as (b & token_ids & toks & Hblk & Hiff & Htab & Hb & Hidx2 & Hne
          & Hc & Hcase).
    rewrite Htab0 in Htab. apply app_inv_head in Htab. injection Htab as <-.
    rewrite Hbs1 in Hiff.
    split_and!; try done; try congruence.
    + eapply bm_inv_ext; [|exact Hinv2]. intros y. rewrite Htab0.
      rewrite occurrences_app, occurrences_cons, occurrences_nil.
      unfold occ_add. case_bool_decide as Hy.
      * subst y. rewrite bool_decide_eq_true_2 by done. lia.
      * rewrite bool_decide_eq_false_2 by congruence. lia.
    + intros n Hocc. rewrite <- (Hsame1 n Hocc).
      destruct (decide (n = Z.to_nat b0)) as [->|Hn];
        [|by apply unset_at_same, Hne].
      rewrite Z2Nat.id in Hocc by lia.
      pose proof (occurrences_nonneg b0
                    (Sequence.block_table (BlockManager.a_seq s1))).
      destruct Hcase as [?|(_ & Hset & Hnot)]; [lia|].
      split; [|done]. intros [toks' Hu]. rewrite Hc in Hu. congruence.
    + intros n Hu. rewrite Htab0.
      rewrite occurrences_app, occurrences_cons, occurrences_nil.
      destruct (decide (n = Z.to_nat b0)) as [->|Hn].
      * rewrite Z2Nat.id by lia. rewrite bool_decide_eq_true_2 by done.
        destruct Hu as [toks' Hu]. rewrite Hc in Hu.
        injection Hu as Hu _.
        destruct Hcase as [?|(_ & Hset & _)]; [lia|done].
      * rewrite bool_decide_eq_false_2 by lia.
        apply (unset_at_same _ _ _ (Hne n Hn)) in Hu.
        specialize (Hex1 n Hu). lia.
    + intros i' Hi'. rewrite last_snoc in Hi'. injection Hi' as <-.
      exists b0, toks, token_ids. rewrite Htab0, last_snoc.
      split_and!; try done; try lia.
      by rewrite <- (seq_core_block _ _ _ Hcore1).
    + rewrite length_app. simpl.
      destruct Hcached as [Hsame|[Hadd Hset]].
      * exists j. split; [lia|]. split; [intros _; left; lia|congruence].
      * exists (j + 1). split; [lia|]. split; [done|].
        rewrite Hadd, Hjc, Hbs1. lia.
  - simpl. rewrite Hempty. split_and!; try done.
    + eapply bm_inv_ext; [|exact Hinv]. intros y.
      rewrite occurrences_nil. lia.
    + apply chained_unset.
    + intros n Hu. rewrite occurrences_nil. specialize (Hex n Hu). lia.
    + exists 0. split; [done|]. split; [by right|lia].
Qed.

(** The last logical block of a sequence is full exactly when the number
    of tokens is a multiple of the block size. *)
Lemma last_block_length seq token_ids :
  Z.of_nat (length (Sequence.token_ids seq)) = Sequence.num_tokens seq →
  1 ≤ Sequence.num_tokens seq →
  Sequence.block seq (Sequence.num_blocks seq - 1) = Ok token_ids →
  (Z.of_nat (length token_ids) = Sequence.block_size
   ↔ Sequence.num_tokens seq `mod` Sequence.block_size = 0).
Proof.
  intros Hlen Hn Hblock. pose proof Sequence.block_size_pos as Hbs.
  unfold Sequence.block in Hblock.
  apply bind_Ok in Hblock as (u & _ & Hblock). injection Hblock as <-.
  unfold Sequence.num_blocks.
  set (bs := Sequence.block_size) in *. set (n := Sequence.num_tokens seq) in *.
  set (nb := (n + bs - 1) / bs).
  pose proof (Z.mul_div_le (n + bs - 1) bs Hbs) as Hlo.
  pose proof (Z.mul_succ_div_gt (n + bs - 1) bs Hbs) as Hhi.
  fold nb in Hlo, Hhi. clearbody nb.
  assert (1 ≤ nb) as Hnb by nia.
  rewrite py_slice_length by nia. rewrite Hlen.
  replace (nb - 1 + 1) with nb by lia.
  rewrite (Z.min_r (nb * bs) n) by nia.
  rewrite (Z.min_l ((nb - 1) * bs) n) by nia.
  split; intros Hx.
  - assert (n = nb * bs) as -> by lia. by apply Z.mod_mul; lia.
  - apply Z.mod_divide in Hx as [k Hk]; [|lia].
    assert (k = nb) by nia. subst k. lia.
Qed.

(** The hash of the last block of the table is set exactly when [P]. *)
Definition last_hashed (bm : BlockManager.t) (seq : Sequence.t) (P : Prop)
  : Prop :=
  ∃ last_id h toks,
    last (Sequence.block_table seq) = Some last_id ∧
    contents bm !! Z.to_nat last_id = Some (h, toks) ∧
    (P ↔ h ≠ -1).

(** The block table covers every token of the sequence: the state of a
    sequence between [allocate] or [may_append] and the next
    [append_token]. *)
Definition synced (bm : BlockManager.t) (seq : Sequence.t) : Prop :=
  1 ≤ Sequence.num_tokens seq ∧
  last_hashed bm seq (Sequence.num_tokens seq `mod` Sequence.block_size = 0).

Lemma ready_last_hashed bm seq :
  ready bm seq
  ↔ 1 ≤ Sequence.num_tokens seq ∧
    last_hashed bm seq (Sequence.num_tokens seq `mod` Sequence.block_size = 1).
Proof. done. Qed.

Lemma last_hashed_frame bm bm' seq seq' P :
  Sequence.block_table seq' = Sequence.block_table seq →
  (∀ b, last (Sequence.block_table seq) = Some b →
        is_Some (contents bm' !! Z.to_nat b) ∧
        (unset_at bm' (Z.to_nat b) ↔ unset_at bm (Z.to_nat b))) →
  last_hashed bm seq P → last_hashed bm' seq' P.
Proof.
  intros Htab Hframe (b & h & toks & Hlast & Hc & Hiff).
  destruct (Hframe b Hlast) as [[[h' toks'] Hc'] Hu].
  exists b, h', toks'. rewrite Htab. split; [done|]. split; [done|].
  rewrite Hiff. unfold unset_at in Hu. rewrite Hc, Hc' in Hu.
  split; intros Hne ->.
  - destruct (proj1 Hu) as [t Ht]; [by eexists|]. congruence.
  - destruct (proj2 Hu) as [t Ht]; [by eexists|]. congruence.
Qed.

Lemma last_hashed_same bm bm' seq seq' P :
  Sequence.block_table seq' = Sequence.block_table seq →
  (∀ b, last (Sequence.block_table seq) = Some b →
        contents bm' !! Z.to_nat b = contents bm !! Z.to_nat b) →
  last_hashed bm seq P → last_hashed bm' seq' P.
Proof.
  intros Htab Hsame (b & h & toks & Hlast & Hc & Hiff).
  exists b, h, toks. rewrite Htab, (Hsame b Hlast). done.
Qed.

Lemma last_hashed_iff bm seq P Q :
  (P ↔ Q) → last_hashed bm seq P → last_hashed bm seq Q.
Proof.
  intros HPQ (b & h & toks & Hlast & Hc & Hiff).
  exists b, h, toks. split; [done|]. split; [done|]. by rewrite <- HPQ.
Qed.

Lemma contents_length bm : Z.of_nat (length (contents bm)) = pool_size bm.
Proof. unfold contents, pool_size. by rewrite length_fmap. Qed.

Lemma contents_is_Some bm b :
  0 ≤ b < pool_size bm → is_Some (contents bm !! Z.to_nat b).
Proof.
  intros Hb. apply lookup_lt_is_Some. pose proof (contents_length bm). lia.
Qed.

Lemma covers_grow seq seq' :
  1 < Sequence.block_size → 1 ≤ Sequence.num_tokens seq →
  covers (Sequence.num_tokens seq - 1) seq →
  Sequence.num_tokens seq' = Sequence.num_tokens seq →
  Z.of_nat (length (Sequence.block_table seq'))
  = Z.of_nat (length (Sequence.block_table seq))
    + (if bool_decide
            (Sequence.num_tokens seq `mod` Sequence.block_size = 1)
       then 1 else 0) →
  covers (Sequence.num_tokens seq') seq'.
Proof.
  intros Hbs Hn Hcov Hnum Hlen. unfold covers in *. rewrite Hnum, Hlen, Hcov.
  pose proof (num_blocks_step (Sequence.num_tokens seq - 1) Hbs ltac:(lia))
    as Hstep.
  replace (Sequence.num_tokens seq - 1 + 1) with (Sequence.num_tokens seq)
    in Hstep by lia.
  lia.
Qed.

Lemma may_append_synced bm seqs r seq bm' seq' :
  wd_inv bm seqs → index_inv bm → seqs !! r = Some seq →
  1 ≤ Sequence.num_tokens seq →
  BlockManager.may_append bm seq = Ok (bm', seq') →
  index_inv bm' ∧ synced bm' seq' ∧ seq_core seq' = seq_core seq ∧
  (∀ r2 s2 b2, r2 ≠ r → seqs !! r2 = Some s2 →
               last (Sequence.block_table s2) = Some b2 →
               contents bm' !! Z.to_nat b2 = contents bm !! Z.to_nat b2) ∧
  Sequence.num_cached_tokens seq' = Sequence.num_cached_tokens seq ∧
  (covers (Sequence.num_tokens seq - 1) seq →
   covers (Sequence.num_tokens seq') seq').
Proof.
  intros [Hw Hbs Hex] Hidx Hr Hn Hrun.
  pose proof Hw as [Hbsz Hpos Hinv Hhash Htab Htok]. simpl in *.
  assert (∀ r2 s2 b2, seqs !! r2 = Some s2 →
            last (Sequence.block_table s2) = Some b2 →
            0 ≤ b2 < pool_size bm
            ∧ 1 ≤ occurrences b2 (Sequence.block_table s2)) as Hlast2.
  { intros r2 s2 b2 Hr2 Hl2. apply last_elem_of in Hl2.
    split; [by eapply Htab|]. apply occurrences_elem in Hl2. lia. }
  apply may_append_Ok in Hrun
    as (last_id & last_block & Hlast & Hget & Hcases).
  destruct (Hlast2 _ _ _ Hr Hlast) as [Hlr Hlocc].
  pose proof (contents_lookup _ _ _ Hlr Hget) as Hcl.
  rewrite Hbsz in Hcases.
  destruct Hcases as [(Hone & _ & b & _ & Halloc & ->)
                     |[(Hzero & _ & Hunset & toks & prefix & h & _ & _ & Hh
                        & -> & ->)
                      |(Hone & Hzero & Hunset & -> & ->)]].
  - (* a new block *)
    destruct (bm_inv_claim _ _ _ _ Hinv Halloc) as (_ & Hb & Hocc0).
    apply _allocate_block_Ok in Halloc
      as (blk & l1 & l2 & Hgetb & _ & _ & _ & ->).
    split_and!.
    + unfold index_inv. simpl. by rewrite put_block_index.
    + split; [done|]. exists b, (-1), []. simpl. rewrite last_snoc.
      split; [done|]. rewrite contents_with_pool.
      rewrite contents_put_block_eq by done. split; [done|].
      split; [lia|done].
    + done.
    + intros r2 s2 b2 Hne Hr2 Hl2.
      destruct (Hlast2 _ _ _ Hr2 Hl2) as [Hb2 Hocc2].
      rewrite contents_with_pool. apply contents_put_block_ne; [done|].
      intros Heq. assert (b2 = b) as -> by lia.
      pose proof (total_occurrences_ge _ _ _ b Hr2). lia.
    + done.
    + intros Hcov. eapply covers_grow; [done..|]. simpl.
      rewrite length_app, bool_decide_eq_true_2 by done. simpl. lia.
  - (* the last block is hashed *)
    pose proof (compute_hash_range _ _ _ Hh) as Hhr.
    rewrite Hunset in Hcl.
    split_and!.
    + unfold index_inv. simpl. rewrite put_block_index.
      rewrite lookup_insert_ne by lia. done.
    + split; [done|]. exists last_id, h, toks. split; [done|].
      rewrite contents_publish. rewrite contents_put_block_eq by done.
      split; [done|]. split; [lia|done].
    + done.
    + intros r2 s2 b2 Hne Hr2 Hl2.
      destruct (Hlast2 _ _ _ Hr2 Hl2) as [Hb2 Hocc2].
      rewrite contents_publish. apply contents_put_block_ne; [done|].
      intros Heq. assert (b2 = last_id) as -> by lia.
      specialize (Hex _ _ Hcl). rewrite Z2Nat.id in Hex by lia.
      pose proof (total_occurrences_two _ _ _ _ _ last_id Hne Hr2 Hr). lia.
    + done.
    + intros Hcov. eapply covers_grow; [done..|].
      rewrite bool_decide_eq_false_2 by lia. lia.
  - split_and!; try done.
    + split; [done|]. exists last_id, (Block.hash last_block),
        (Block.token_ids last_block).
      split; [done|]. split; [done|]. rewrite Hunset. split; [done|done].
    + intros Hcov. eapply covers_grow; [done..|].
      rewrite bool_decide_eq_false_2 by lia. lia.
Qed.

Lemma index_inv_deallocate occ bm seq bm' seq' :
  bm_inv occ bm →
  (∀ b, b ∈ Sequence.block_table seq → 0 ≤ b < pool_size bm) →
  (∀ b, occurrences b (Sequence.block_table seq) ≤ occ b) →
  BlockManager.deallocate bm seq = Ok (bm', seq') →
  index_inv bm → index_inv bm'.
Proof.
  intros Hinv Hrange Hocc Hrun Hidx.
  destruct (deallocate_spec _ _ _ Hinv Hrange Hocc)
    as (bm1 & Hrun1 & _ & _ & Hsame & _).
  rewrite Hrun1 in Hrun. injection Hrun as <- _.
  unfold index_inv. by rewrite Hsame.
Qed.

(** ** The invariant of the scheduler *)

Definition cached_ok (seq : Sequence.t) : Prop :=
  0 ≤ Sequence.num_cached_tokens seq ≤ Sequence.num_tokens seq ∧
  Sequence.num_cached_tokens seq `mod` Sequence.block_size = 0.

(** A running sequence between two ticks: its block table covers all its
    tokens but the one appended last. *)
Definition running_ok (bm : BlockManager.t) (seq : Sequence.t) : Prop :=
  Sequence.status seq = Sequence.RUNNING ∧ ready bm seq ∧
  covers (Sequence.num_tokens seq - 1) seq ∧ cached_ok seq.

(** A sequence of the batch, between [schedule] and [postprocess]. *)
Definition batch_ok (bm : BlockManager.t) (seq : Sequence.t) : Prop :=
  Sequence.status seq = Sequence.RUNNING ∧ synced bm seq ∧
  covers (Sequence.num_tokens seq) seq ∧ cached_ok seq.

Definition waiting_ok (seq : Sequence.t) : Prop :=
  Sequence.status seq = Sequence.WAITING ∧ Sequence.block_table seq = [] ∧
  Sequence.num_cached_tokens seq = 0.

Definition finished_ok (seq : Sequence.t) : Prop :=
  Sequence.status seq = Sequence.FINISHED ∧ Sequence.block_table seq = [] ∧
  Sequence.num_cached_tokens seq = 0.

Lemma running_ok_frame bm bm' seq :
  (∀ P, last_hashed bm seq P → last_hashed bm' seq P) →
  running_ok bm seq → running_ok bm' seq.
Proof.
  intros Hframe (Hst & [Hn Hlh] & Hcov & Hc).
  split; [done|]. split; [|done]. split; [done|]. by apply Hframe.
Qed.

Lemma batch_ok_frame bm bm' seq :
  (∀ P, last_hashed bm seq P → last_hashed bm' seq P) →
  batch_ok bm seq → batch_ok bm' seq.
Proof.
  intros Hframe (Hst & [Hn Hlh] & Hcov & Hc).
  split; [done|]. split; [|done]. split; [done|]. by apply Hframe.
Qed.

Lemma last_hashed_contents bm bm' seq P :
  contents bm' = contents bm → last_hashed bm seq P → last_hashed bm' seq P.
Proof.
  intros Hcont. apply last_hashed_same; [done|]. intros b _. by rewrite Hcont.
Qed.

(** [batch] is the batch being assembled by [schedule], or the batch that
    [postprocess] still has to go through; between two ticks it is empty.
    Every sequence is waiting, running, in the batch or finished. *)
Record sched_inv (batch : list nat) (self : Scheduler.t) : Prop := {
  si_wd : wd_inv (Scheduler.block_manager self) (Scheduler.objects self);
  si_index : index_inv (Scheduler.block_manager self);
  si_tokens :
    ∀ r seq, Scheduler.objects self !! r = Some seq →
             1 ≤ Sequence.num_tokens seq;
  si_running :
    ∀ r, r ∈ Scheduler.running self → r ∉ batch →
         ∃ seq, Scheduler.objects self !! r = Some seq ∧
                running_ok (Scheduler.block_manager self) seq;
  si_batch :
    ∀ r, r ∈ batch →
         ∃ seq, Scheduler.objects self !! r = Some seq ∧
                batch_ok (Scheduler.block_manager self) seq;
  si_waiting :
    ∀ r, r ∈ Scheduler.waiting self →
         ∃ seq, Scheduler.objects self !! r = Some seq ∧ waiting_ok seq;
  si_others :
    ∀ r seq, Scheduler.objects self !! r = Some seq →
             r ∈ Scheduler.waiting self ∨ r ∈ Scheduler.running self
             ∨ r ∈ batch ∨ finished_ok seq;
  si_nodup_running : NoDup (Scheduler.running self);
  si_nodup_waiting : NoDup (Scheduler.waiting self);
  si_nodup_batch : NoDup batch;
  si_disjoint :
    ∀ r, r ∈ Scheduler.waiting self →
         r ∉ Scheduler.running self ∧ r ∉ batch
}.

Lemma with_running_id self :
  Scheduler.with_running (Scheduler.running self) self = self.
Proof. by destruct self. Qed.

Lemma sched_inv_perm batch self R :
  sched_inv batch self → NoDup R →
  (∀ x, x ∈ R ↔ x ∈ Scheduler.running self) →
  sched_inv batch (Scheduler.with_running R self).
Proof.
  intros [Hwd Hidx Htok Hrun Hbatch Hwait Hoth Hnd1 Hnd2 Hnd3 Hdis] Hnd Hiff.
  split; simpl; try done.
  - intros r Hr. apply Hrun. by apply Hiff.
  - intros r seq Hr. rewrite Hiff. by eapply Hoth.
  - intros r Hr. rewrite Hiff. by apply Hdis.
Qed.

(** [preempt] on a sequence [v] that was popped from the running queue. *)
Lemma preempt_inv batch self v R self' :
  sched_inv batch (Scheduler.with_running (v :: R) self) →
  v ∉ batch →
  Scheduler.preempt self v = Ok self' →
  sched_inv batch (Scheduler.with_running R self') ∧
  Scheduler.running self' = Scheduler.running self.
Proof.
  intros [Hwd Hidx Htok Hrun Hbatch Hwait Hoth Hnd1 Hnd2 Hnd3 Hdis] Hvb Hpre.
  simpl in *.
  apply NoDup_cons in Hnd1 as [HvR Hnd1].
  destruct (Hrun v) as (sv & Hv & _); [by left|done|].
  assert (v ∉ Scheduler.waiting self) as Hvw.
  { intros Hin. destruct (Hdis v Hin) as [Hn _]. apply Hn. by left. }
  destruct (deallocate_world _ _ _ _ Sequence.WAITING Hwd Hv)
    as (bm' & Hdealloc & Hwd' & Hcont & Hsz & Hbsz).
  assert (index_inv bm') as Hidx'.
  { pose proof Hwd as [Hw _ _].
    eapply (index_inv_deallocate _ _ _ _ _ (wi_bm _ Hw));
      [| |exact Hdealloc|done].
    - intros b Hb. by eapply (wi_tables _ Hw).
    - intros b. simpl. by eapply total_occurrences_ge. }
  unfold Scheduler.preempt in Hpre.
  rewrite (proj2 (deref_Ok self v sv) Hv) in Hpre. simpl in Hpre.
  rewrite Hdealloc in Hpre. simpl in Hpre. injection Hpre as <-. simpl.
  assert (v < length (Scheduler.objects self))%nat as Hvlt
    by (by eapply lookup_lt_Some).
  split; [|done].
  split; simpl; try done.
  - intros r seq [[-> [<- _]]|[_ Hr]]%list_lookup_insert_Some.
    + simpl. by eapply Htok.
    + by eapply Htok.
  - intros r Hr Hnb. destruct (Hrun r) as (s2 & Hs2 & Hok); [by right|done|].
    exists s2. rewrite list_lookup_insert_ne by (intros ->; done).
    split; [done|]. eapply running_ok_frame; [|done].
    intros P. by apply last_hashed_contents.
  - intros r Hr. destruct (Hbatch r Hr) as (s2 & Hs2 & Hok).
    exists s2. rewrite list_lookup_insert_ne by (intros ->; done).
    split; [done|]. eapply batch_ok_frame; [|done].
    intros P. by apply last_hashed_contents.
  - intros r [->|Hr]%elem_of_cons.
    + eexists. by rewrite list_lookup_insert_eq.
    + destruct (Hwait r Hr) as (s2 & Hs2 & Hok). exists s2.
      by rewrite list_lookup_insert_ne by (intros ->; done).
  - intros r seq [[-> _]|[Hne Hr]]%list_lookup_insert_Some.
    + left. by left.
    + destruct (Hoth r seq Hr) as [?|[?|?]]; set_solver.
  - by apply NoDup_cons.
  - intros r [->|Hr]%elem_of_cons; [done|].
    destruct (Hdis r Hr) as [Hn1 Hn2]. set_solver.
Qed.

Lemma seq_core_num_tokens s s' :
  seq_core s' = seq_core s → Sequence.num_tokens s' = Sequence.num_tokens s.
Proof. unfold seq_core. intros [=]. congruence. Qed.

Lemma seq_core_status s s' :
  seq_core s' = seq_core s → Sequence.status s' = Sequence.status s.
Proof. unfold seq_core. intros [=]. congruence. Qed.

Lemma num_blocks_pos seq :
  1 ≤ Sequence.num_tokens seq → 1 ≤ Sequence.num_blocks seq.
Proof.
  intros Hn. pose proof Sequence.block_size_pos as Hbs.
  unfold Sequence.num_blocks. apply Z.div_le_lower_bound; lia.
Qed.

(** Cache hits cover at most the full blocks of the sequence. *)
Lemma cached_bound n j :
  1 ≤ n →
  0 ≤ j ≤ (n + Sequence.block_size - 1) / Sequence.block_size →
  (n `mod` Sequence.block_size ≠ 0 →
   j ≤ (n + Sequence.block_size - 1) / Sequence.block_size - 1) →
  0 ≤ Sequence.block_size * j ≤ n ∧
  (Sequence.block_size * j) `mod` Sequence.block_size = 0.
Proof.
  intros Hn Hj Hpart. pose proof Sequence.block_size_pos as Hbs.
  split; [|by rewrite Z.mul_comm, Z.mod_mul by lia].
  split; [nia|].
  destruct (decide (n `mod` Sequence.block_size = 0)) as [Hz|Hnz].
  - apply Z.mod_divide in Hz as [k Hk]; [|lia].
    rewrite (num_blocks_exact n k Hbs Hk) in Hj. nia.
  - specialize (Hpart Hnz).
    pose proof (Z.mul_div_le (n + Sequence.block_size - 1)
                  Sequence.block_size Hbs). nia.
Qed.

(** One pass of the prefill loop. *)
Lemma prefill_body_inv st c :
  sched_inv (Scheduler.s_scheduled st) (Scheduler.s_self st) →
  (∀ r, r ∈ Scheduler.s_scheduled st →
        r ∈ Scheduler.running (Scheduler.s_self st)) →
  Scheduler.prefill_body st = Ok c →
  sched_inv (Scheduler.s_scheduled (ctl_state c))
    (Scheduler.s_self (ctl_state c)) ∧
  (∀ r, r ∈ Scheduler.s_scheduled (ctl_state c) →
        r ∈ Scheduler.running (Scheduler.s_self (ctl_state c))).
Proof.
  intros Hinv Hsub Hrun.
  pose proof Hinv
    as [Hwd Hidx Htok Hready Hbatch Hwait Hoth Hnd1 Hnd2 Hnd3 Hdis].
  unfold Scheduler.prefill_body in Hrun.
  apply bind_Ok in Hrun as (r & Hhead & Hrun).
  apply py_getitem_head in Hhead.
  apply bind_Ok in Hrun as (seq & Hderef & Hrun).
  apply deref_Ok in Hderef.
  destruct (_ || _) in Hrun; [by injection Hrun as <-|].
  apply bind_Ok in Hrun as ([bm' seq'] & Halloc & Hrun).
  injection Hrun as <-. simpl.
  set (self := Scheduler.s_self st) in *.
  set (bm := Scheduler.block_manager self) in *.
  set (objs := Scheduler.objects self) in *.
  destruct (Scheduler.waiting self) as [|r0 wait'] eqn:Hw; [done|].
  injection Hhead as ->. simpl.
  destruct (Hwait r) as (seq0 & Hr0 & Hwst & Hempty & Hcached0); [by left|].
  assert (seq0 = seq) as -> by congruence.
  destruct (Hdis r) as [Hrnr Hrnb]; [by left|].
  apply NoDup_cons in Hnd2 as [Hrnw Hnd2].
  pose proof Hwd as [Hworld Hbs Hex].
  pose proof Hworld as [Hbsz Hpos Hbm Hhash Htab Hlen]. simpl in *.
  destruct (allocate_contents _ _ _ _ _ Hbm Hhash Hidx
              ltac:(by rewrite Hbsz)
              ltac:(intros n [toks Hn]; by eapply Hex) Halloc)
    as (Hidx' & Hsame & Hex' & Hlast).
  destruct (bm_inv_allocate _ _ _ _ _ Hbm Halloc)
    as (_ & _ & Hlen' & Hsz & _ & Hcore).
  pose proof (seq_core_num_tokens _ _ Hcore) as Hnum.
  assert (r < length objs)%nat as Hrlt by (by eapply lookup_lt_Some).
  assert (world_inv
            (World bm' (<[r := Sequence.with_status Sequence.RUNNING seq']>
                          objs))) as Hworld'.
  { assert (world_step (World bm objs) (World bm' (<[r := seq']> objs)))
      as Hs1 by (by eapply step_allocate).
    assert (world_step (World bm' (<[r := seq']> objs))
              (World bm' (<[r := Sequence.with_status Sequence.RUNNING seq']>
                            (<[r := seq']> objs)))) as Hs2.
    { eapply step_status. by apply list_lookup_insert_eq. }
    rewrite list_insert_insert_eq in Hs2.
    eapply world_inv_step; [|exact Hs2]. by eapply world_inv_step. }
  assert (∀ r2 s2 P, objs !! r2 = Some s2 →
            last_hashed bm s2 P → last_hashed bm' s2 P) as Hframe.
  { intros r2 s2 P Hr2. apply last_hashed_frame; [done|].
    intros b Hb. apply last_elem_of in Hb.
    assert (0 ≤ b < pool_size bm) as Hbr by (by eapply Htab).
    split; [apply contents_is_Some; by rewrite Hsz|].
    apply Hsame. rewrite Z2Nat.id by lia.
    pose proof (total_occurrences_ge _ _ _ b Hr2).
    apply occurrences_elem in Hb. lia. }
  assert (1 ≤ Sequence.num_tokens seq) as Hn by (by eapply Htok).
  assert (batch_ok bm' (Sequence.with_status Sequence.RUNNING seq'))
    as Hnew.
  { destruct (Hlast (num_blocks_pos _ Hn))
      as (b & h & toks & token_ids & Hl & Hb & Hc & Hblk & Hiff
          & j & Hj & Hjh & Hjc).
    assert (h ≠ -1 ↔ Sequence.num_tokens seq `mod` Sequence.block_size = 0)
      as Hiff'.
    { rewrite Hiff, Hbsz. apply last_block_length; [|done..].
      by eapply Hlen. }
    split; [done|]. split; [|split].
    - split; [simpl; lia|]. exists b, h, toks. simpl.
      split; [done|]. split; [done|]. by rewrite Hnum.
    - unfold covers. simpl. rewrite Hlen', Hnum.
      pose proof (num_blocks_pos _ Hn). unfold Sequence.num_blocks in *. lia.
    - unfold cached_ok. simpl. rewrite Hjc, Hcached0, Hbsz, Hnum.
      rewrite Z.add_0_l. apply cached_bound; [done|done|].
      intros Hnz. apply Hjh. destruct (decide (h = -1)); [done|].
      by apply Hiff' in n. }
  split.
  - split; simpl; fold self; fold objs; fold bm.
    + split; [done|done|].
      intros n toks Hn'.
      rewrite (total_occurrences_insert _ _ seq) by done. simpl.
      rewrite Hempty, occurrences_nil.
      specialize (Hex' n ltac:(by exists toks)). lia.
    + done.
    + intros r2 s2 [[-> [<- _]]|[_ Hr2]]%list_lookup_insert_Some.
      * simpl. lia.
      * by eapply Htok.
    + intros r2 Hr2 Hnb. rewrite not_elem_of_app in Hnb.
      destruct Hnb as [Hnb Hne]. apply not_elem_of_cons in Hne as [Hne _].
      apply elem_of_app in Hr2 as [Hr2|Hr2]; [|set_solver].
      destruct (Hready r2 Hr2 Hnb) as (s2 & Hs2 & Hok).
      exists s2. rewrite list_lookup_insert_ne by done.
      split; [done|]. eapply running_ok_frame; [|done].
      intros P. by eapply Hframe.
    + intros r2 [Hr2|Hr2]%elem_of_app.
      * destruct (Hbatch r2 Hr2) as (s2 & Hs2 & Hok).
        exists s2. rewrite list_lookup_insert_ne by (intros ->; done).
        split; [done|]. eapply batch_ok_frame; [|done].
        intros P. by eapply Hframe.
      * apply list_elem_of_singleton in Hr2 as ->.
        eexists. by rewrite list_lookup_insert_eq by done.
    + intros r2 Hr2. destruct (Hwait r2) as (s2 & Hs2 & Hok); [by right|].
      exists s2. rewrite list_lookup_insert_ne by (intros ->; done). done.
    + intros r2 s2 [[-> _]|[Hne Hr2]]%list_lookup_insert_Some.
      * right. left. set_solver.
      * destruct (Hoth r2 s2 Hr2) as [Hx|[?|[?|?]]]; set_solver.
    + apply NoDup_app. split; [done|]. split; [|apply NoDup_singleton].
      intros x Hx ->%list_elem_of_singleton. done.
    + done.
    + apply NoDup_app. split; [done|]. split; [|apply NoDup_singleton].
      intros x Hx ->%list_elem_of_singleton. done.
    + intros r2 Hr2. destruct (Hdis r2) as [Hn1 Hn2]; [by right|].
      assert (r2 ≠ r) by (intros ->; done). set_solver.
  - intros r2 [Hr2|Hr2]%elem_of_app; [|set_solver].
    apply elem_of_app. left. by apply Hsub.
Qed.

(** The state of the inner loop of the decode phase, for the sequence [r]
    that was popped from the running queue: the invariant holds of the
    state in which [r] is put back. *)
Definition room_sched_inv (r : nat) (batch : list nat) (self : Scheduler.t)
  : Prop :=
  sched_inv batch
    (Scheduler.with_running (r :: Scheduler.running self) self) ∧
  (∀ x, x ∈ batch → x ∉ r :: Scheduler.running self).

Lemma reverse_cons_inv {A} (l : list A) (x : A) (l' : list A) :
  reverse l = x :: l' → l = reverse l' ++ [x].
Proof.
  intros Hrev. apply (f_equal reverse) in Hrev.
  by rewrite reverse_involutive, reverse_cons in Hrev.
Qed.

Lemma room_body_continue r batch self self' :
  room_sched_inv r batch self →
  Scheduler.room_body r self = Ok (Continue self') →
  room_sched_inv r batch self'.
Proof.
  intros [Hinv Hbr] Hrun.
  unfold Scheduler.room_body in Hrun.
  destruct (reverse (Scheduler.running self)) as [|victim rest] eqn:Hrev.
  { apply bind_Ok in Hrun as (? & _ & Hrun). done. }
  apply reverse_cons_inv in Hrev.
  apply bind_Ok in Hrun as (self1 & Hpre & Hrun). injection Hrun as <-.
  rewrite Hrev in Hinv, Hbr.
  pose proof (si_nodup_running _ _ Hinv) as Hnd. simpl in Hnd.
  apply NoDup_cons in Hnd as [Hrn Hnd].
  apply NoDup_app in Hnd as (Hnd1 & Hnd12 & _).
  destruct (preempt_inv batch
              (Scheduler.with_running (reverse rest) self) victim
              (r :: reverse rest) self1) as [Hinv1 Hrun1].
  - apply (sched_inv_perm _ _ (victim :: r :: reverse rest)) in Hinv;
      [exact Hinv| |simpl; set_solver].
    apply NoDup_cons. split; [|apply NoDup_cons; split; [set_solver|done]].
    intros [->|Hin]%elem_of_cons; [set_solver|].
    by apply (Hnd12 victim); [|set_solver].
  - intros Hin. apply (Hbr victim Hin). set_solver.
  - done.
  - simpl in Hrun1. split; rewrite Hrun1; [done|].
    intros x Hx Hin. apply (Hbr x Hx). set_solver.
Qed.

Lemma room_body_break r batch self self' :
  room_sched_inv r batch self →
  Scheduler.room_body r self = Ok (Break self') →
  sched_inv batch self' ∧ Scheduler.running self' = [].
Proof.
  intros [Hinv Hbr] Hrun.
  unfold Scheduler.room_body in Hrun.
  destruct (reverse (Scheduler.running self)) as [|victim rest] eqn:Hrev.
  - apply bind_Ok in Hrun as (self1 & Hpre & Hrun). injection Hrun as <-.
    apply (f_equal reverse) in Hrev. rewrite reverse_involutive in Hrev.
    change (reverse []) with (@nil nat) in Hrev.
    rewrite Hrev in Hinv, Hbr.
    destruct (preempt_inv batch self r [] self1 Hinv) as [Hinv1 Hrun1];
      [intros Hin; apply (Hbr r Hin); by left|done|].
    rewrite Hrev in Hrun1. split; [|done].
    rewrite <- Hrun1 in Hinv1. by rewrite with_running_id in Hinv1.
  - apply bind_Ok in Hrun as (? & _ & Hrun). done.
Qed.

(** One pass of the decode loop. *)
Lemma decode_body_inv st c :
  sched_inv (Scheduler.s_scheduled st) (Scheduler.s_self st) →
  (∀ x, x ∈ Scheduler.s_scheduled st →
        x ∉ Scheduler.running (Scheduler.s_self st)) →
  Scheduler.decode_body st = Ok c →
  sched_inv (Scheduler.s_scheduled (ctl_state c))
    (Scheduler.s_self (ctl_state c)) ∧
  (∀ x, x ∈ Scheduler.s_scheduled (ctl_state c) →
        x ∉ Scheduler.running (Scheduler.s_self (ctl_state c))).
Proof.
  intros Hinv Hbr Hrun.
  unfold Scheduler.decode_body in Hrun.
  apply bind_Ok in Hrun as (r & Hhead & Hrun).
  apply py_getitem_head in Hhead.
  destruct (Scheduler.running (Scheduler.s_self st)) as [|r0 rest] eqn:Hrunning;
    [done|].
  injection Hhead as ->. simpl tail in Hrun.
  apply bind_Ok in Hrun as (c1 & Hloop & Hrun).
  assert (room_sched_inv r (Scheduler.s_scheduled st)
            (Scheduler.with_running rest (Scheduler.s_self st))) as Hroom.
  { split; [|done].
    rewrite <- (with_running_id (Scheduler.s_self st)) in Hinv.
    rewrite Hrunning in Hinv. exact Hinv. }
  apply (while_invariant_break
           (room_sched_inv r (Scheduler.s_scheduled st))
           (λ s, sched_inv (Scheduler.s_scheduled st) s
                 ∧ Scheduler.running s = [])) in Hloop;
    [|intros s s' Hs _; by apply room_body_continue
     |intros s s' Hs _; by apply room_body_break
     |done].
  destruct c1 as [self1|self1].
  - destruct Hloop as [[Hinv1 Hbr1] _].
    apply bind_Ok in Hrun as (seq & Hderef & Hrun).
    apply deref_Ok in Hderef.
    apply bind_Ok in Hrun as ([bm' seq'] & Happ & Hrun).
    injection Hrun as <-. simpl.
    pose proof Hinv1
      as [Hwd Hidx Htok Hready Hbatch Hwait Hoth Hnd1 Hnd2 Hnd3 Hdis].
    simpl in *.
    assert (r ∉ Scheduler.s_scheduled st) as Hrnb
      by (intros Hin; apply (Hbr1 r Hin); by left).
    destruct (Hready r) as (seq0 & Hr & Hst & Hrdy & Hcov & Hc);
      [by left|done|].
    assert (seq0 = seq) as -> by congruence.
    apply NoDup_cons in Hnd1 as [Hrn Hnd1].
    destruct (may_append_synced _ _ _ _ _ _ Hwd Hidx Hr
                ltac:(by eapply Htok) Happ)
      as (Hidx' & Hsync & Hcore & Hframe & Hcached & Hcov').
    destruct (may_append_world _ _ _ _ _ _ Hwd Hr Happ) as [Hwd' _].
    pose proof (seq_core_num_tokens _ _ Hcore) as Hnum.
    assert (r < length (Scheduler.objects self1))%nat as Hrlt
      by (by eapply lookup_lt_Some).
    assert (∀ r2 s2 P, r2 ≠ r → Scheduler.objects self1 !! r2 = Some s2 →
              last_hashed (Scheduler.block_manager self1) s2 P →
              last_hashed bm' s2 P) as Hlh.
    { intros r2 s2 P Hne Hr2. apply last_hashed_same; [done|].
      intros b Hb. by eapply Hframe. }
    split; [|intros x [Hx|Hx]%elem_of_app Hin;
             [apply (Hbr1 x Hx); by right|set_solver]].
    split; simpl; try done.
    + intros r2 s2 [[-> [<- _]]|[_ Hr2']]%list_lookup_insert_Some.
      * rewrite Hnum. by eapply Htok.
      * by eapply Htok.
    + intros r2 Hr2' Hnb. rewrite not_elem_of_app in Hnb.
      destruct Hnb as [Hnb Hne]. apply not_elem_of_cons in Hne as [Hne _].
      destruct (Hready r2) as (s2 & Hs2 & Hok); [by right|done|].
      exists s2. rewrite list_lookup_insert_ne by done.
      split; [done|]. eapply running_ok_frame; [|done].
      intros P. by eapply Hlh.
    + intros r2 [Hr2'|Hr2']%elem_of_app.
      * assert (r2 ≠ r) as Hne by (intros ->; done).
        destruct (Hbatch r2 Hr2') as (s2 & Hs2 & Hok).
        exists s2. rewrite list_lookup_insert_ne by done.
        split; [done|]. eapply batch_ok_frame; [|done].
        intros P. by eapply Hlh.
      * apply list_elem_of_singleton in Hr2' as ->.
        exists seq'. rewrite list_lookup_insert_eq by done.
        split; [done|]. split; [by rewrite (seq_core_status _ _ Hcore)|].
        split; [done|]. split; [by apply Hcov'|].
        unfold cached_ok in *. by rewrite Hcached, Hnum.
    + intros r2 Hr2'.
      assert (r2 ≠ r) as Hne.
      { intros ->. destruct (Hdis r Hr2') as [Hn _]. apply Hn. by left. }
      destruct (Hwait r2 Hr2') as (s2 & Hs2 & Ht2).
      exists s2. by rewrite list_lookup_insert_ne.
    + intros r2 s2 [[-> _]|[Hne Hr2]]%list_lookup_insert_Some.
      * right. right. left. set_solver.
      * destruct (Hoth r2 s2 Hr2) as [?|[?|[?|?]]]; set_solver.
    + apply NoDup_app. split; [done|]. split; [|apply NoDup_singleton].
      intros x Hx ->%list_elem_of_singleton. done.
    + intros r2 Hr2'. destruct (Hdis r2 Hr2') as [Hn1 Hn2]. set_solver.
  - destruct Hloop as [Hinv1 Hrun1]. injection Hrun as <-. simpl.
    split; [done|]. rewrite Hrun1. set_solver.
Qed.

(** [schedule] between two ticks: the batch it returns is not empty, has
    no duplicates, is part of the running queue, and its sequences are
    [synced]. *)
Lemma schedule_inv self self' batch is_prefill :
  sched_inv [] self →
  Scheduler.schedule self = Ok (self', (batch, is_prefill)) →
  sched_inv batch self' ∧
  (∀ r, r ∈ batch → r ∈ Scheduler.running self') ∧
  batch ≠ [].
Proof.
  intros Hinv Hrun. unfold Scheduler.schedule in Hrun.
  apply bind_Ok in Hrun as (c & Hpre & Hrun).
  apply (while_invariant
           (λ st, sched_inv (Scheduler.s_scheduled st) (Scheduler.s_self st)
                  ∧ ∀ r : nat, r ∈ Scheduler.s_scheduled st →
                         r ∈ Scheduler.running (Scheduler.s_self st)))
    in Hpre; [|intros s c0 [Hs1 Hs2] Hb; exact (prefill_body_inv s c0 Hs1 Hs2 Hb)
              |split; [done|by intros r ?%elem_of_nil]].
  cbv zeta in Hrun. destruct Hpre as [Hinv1 Hsub1].
  case_bool_decide as Hsched; cbn [negb] in Hrun.
  - apply bind_Ok in Hrun as (c2 & Hdec & Hrun).
    apply (while_invariant
             (λ st, sched_inv (Scheduler.s_scheduled st) (Scheduler.s_self st)
                    ∧ ∀ r : nat, r ∈ Scheduler.s_scheduled st →
                           r ∉ Scheduler.running (Scheduler.s_self st)))
      in Hdec; [|intros s c0 [Hs1 Hs2] Hb; exact (decode_body_inv s c0 Hs1 Hs2 Hb)
                |split; [done|rewrite Hsched; by intros r ?%elem_of_nil]].
    destruct Hdec as [Hinv2 Hdis2].
    apply bind_Ok in Hrun as (u & Hassert & Hrun).
    apply assert_Ok, negb_true_iff, bool_decide_eq_false in Hassert.
    injection Hrun as <- <- <-.
    split; [|split; [|done]]; simpl; [|set_solver].
    destruct Hinv2
      as [Hwd Hidx Htok Hready Hbatch Hwait Hoth Hnd1 Hnd2 Hnd3 Hdis].
    split; simpl; try done.
    + intros r [Hr|Hr]%elem_of_app Hnb; [done|]. by apply Hready.
    + intros r seq Hr. destruct (Hoth r seq Hr) as [?|[?|[?|?]]]; set_solver.
    + apply NoDup_app. split; [done|]. split; [|done]. apply Hdis2.
    + intros r Hr. destruct (Hdis r Hr) as [Hn1 Hn2]. set_solver.
  - injection Hrun as <- <- <-. done.
Qed.

Lemma mod_succ_one n bs :
  1 < bs → (n `mod` bs = 0 ↔ (n + 1) `mod` bs = 1).
Proof.
  intros Hbs.
  pose proof (Z.div_mod n bs ltac:(lia)) as Hdm.
  pose proof (Z.mod_pos_bound n bs ltac:(lia)) as Hr.
  set (q := n / bs) in *. set (m := n `mod` bs) in *.
  split; intros Hx.
  - symmetry. apply (Z.mod_unique _ _ q); lia.
  - destruct (decide (m + 1 < bs)).
    + assert ((n + 1) `mod` bs = m + 1) as Heq
        by (symmetry; apply (Z.mod_unique _ _ q); lia).
      lia.
    + assert ((n + 1) `mod` bs = 0) as Heq
        by (symmetry; apply (Z.mod_unique _ _ (q + 1)); lia).
      lia.
Qed.

(** A sequence of the batch is a running sequence once its token is
    appended. *)
Lemma batch_ok_append_token bm seq token_id :
  1 < Sequence.block_size →
  batch_ok bm seq → running_ok bm (Sequence.append_token seq token_id).
Proof.
  intros Hbs (Hst & [Hn Hlh] & Hcov & [Hc1 Hc2]).
  split; [done|]. split; [|split].
  - apply ready_last_hashed. simpl. split; [lia|].
    eapply last_hashed_iff; [by apply mod_succ_one|].
    eapply last_hashed_same; [|done|exact Hlh]. done.
  - unfold covers in *. simpl.
    by replace (Sequence.num_tokens seq + 1 - 1)
      with (Sequence.num_tokens seq) by lia.
  - split; simpl; [lia|done].
Qed.

(** The world after [append_token] on the sequence [r]. *)
Lemma wd_inv_append_token bm objs r seq token_id :
  wd_inv bm objs → objs !! r = Some seq →
  wd_inv bm (<[r := Sequence.append_token seq token_id]> objs).
Proof.
  intros [Hworld Hbs Hex] Hr. split; [|done|].
  - eapply world_inv_step; [exact Hworld|]. by constructor.
  - intros n toks Hn.
    rewrite (total_occurrences_same_table _ _ seq) by done.
    by eapply Hex.
Qed.

(** [postprocess] on one sequence of the batch. *)
Lemma postprocess_body_inv r rest token_id self self' :
  sched_inv (r :: rest) self →
  (∀ x, x ∈ r :: rest → x ∈ Scheduler.running self) →
  Scheduler.postprocess_body (r, token_id) self = Ok self' →
  sched_inv rest self' ∧ (∀ x, x ∈ rest → x ∈ Scheduler.running self').
Proof.
  intros Hinv Hsub Hrun.
  pose proof Hinv
    as [Hwd Hidx Htok Hready Hbatch Hwait Hoth Hnd1 Hnd2 Hnd3 Hdis].
  apply NoDup_cons in Hnd3 as [Hrn Hnd3].
  destruct (Hbatch r) as (seq & Hr & Hok); [by left|].
  unfold Scheduler.postprocess_body in Hrun.
  rewrite (proj2 (deref_Ok self r seq) Hr) in Hrun. simpl in Hrun.
  set (seq1 := Sequence.append_token seq token_id) in *.
  set (bm := Scheduler.block_manager self) in *.
  set (objs := Scheduler.objects self) in *.
  pose proof Hwd as [Hworld Hbs Hex].
  assert (r < length objs)%nat as Hrlt by (by eapply lookup_lt_Some).
  pose proof (wd_inv_append_token _ _ _ _ token_id Hwd Hr) as Hwd1.
  fold seq1 in Hwd1.
  assert (running_ok bm seq1) as Hok1 by (by apply batch_ok_append_token).
  assert (r ∉ Scheduler.waiting self) as Hrw.
  { intros Hin. destruct (Hdis r Hin) as [_ Hn]. apply Hn. by left. }
  destruct (_ || _) in Hrun.
  - (* the sequence is finished *)
    destruct (deallocate_world _ _ r seq1 Sequence.FINISHED Hwd1)
      as (bm' & Hdealloc & Hwd' & Hcont & Hsz & Hbsz);
      [by apply list_lookup_insert_eq|].
    assert (index_inv bm') as Hidx'.
    { pose proof Hwd1 as [Hw1 _ _].
      eapply (index_inv_deallocate _ _ _ _ _ (wi_bm _ Hw1));
        [| |exact Hdealloc|done].
      - intros b Hb.
        apply (wi_tables _ Hw1 r seq1 b); [by apply list_lookup_insert_eq|].
        exact Hb.
      - intros b. simpl.
        rewrite (total_occurrences_same_table _ _ seq) by done.
        by eapply total_occurrences_ge. }
    rewrite Hdealloc in Hrun. simpl in Hrun.
    apply bind_Ok in Hrun as (running' & Hrem & Hrun).
    injection Hrun as <-. simpl.
    apply deque_remove_Ok in Hrem as (l1 & l2 & Hrunning & -> & Hnl1).
    rewrite list_insert_insert_eq in Hwd'.
    rewrite Hrunning in Hnd1, Hready, Hsub, Hdis, Hoth.
    apply NoDup_app in Hnd1 as (Hnd11 & Hnd12 & Hnd13).
    apply NoDup_cons in Hnd13 as [Hrl2 Hnd13].
    split.
    + split; simpl; rewrite ?list_insert_insert_eq; try done.
      * intros x s [[-> [<- _]]|[_ Hx]]%list_lookup_insert_Some.
        -- simpl. pose proof (Htok _ _ Hr). lia.
        -- by eapply Htok.
      * intros x Hx Hnb.
        assert (x ≠ r) as Hne by (intros ->; set_solver).
        destruct (Hready x) as (s2 & Hs2 & Hok2); [set_solver|set_solver|].
        exists s2. rewrite list_lookup_insert_ne by done.
        split; [done|]. eapply running_ok_frame; [|done].
        intros P. by apply last_hashed_contents.
      * intros x Hx. assert (x ≠ r) as Hne by (intros ->; done).
        destruct (Hbatch x) as (s2 & Hs2 & Hok2); [by right|].
        exists s2. rewrite list_lookup_insert_ne by done.
        split; [done|]. eapply batch_ok_frame; [|done].
        intros P. by apply last_hashed_contents.
      * intros x Hx. assert (x ≠ r) as Hne by (intros ->; done).
        destruct (Hwait x Hx) as (s2 & Hs2 & Ht2).
        exists s2. by rewrite list_lookup_insert_ne.
      * intros x s [[-> [<- _]]|[Hne Hx]]%list_lookup_insert_Some.
        -- right. right. right. done.
        -- destruct (Hoth x s Hx) as [?|[?|[?|?]]]; set_solver.
      * apply NoDup_app. split; [done|]. split; [|done].
        intros x Hx1 Hx2. apply (Hnd12 x Hx1). by right.
      * intros x Hx. destruct (Hdis x Hx) as [Hn1 Hn2]. set_solver.
    + intros x Hx. assert (x ≠ r) as Hne by (intros ->; done).
      specialize (Hsub x ltac:(by right)). set_solver.
  - (* the sequence goes on *)
    injection Hrun as <-. split; [|intros x Hx; apply Hsub; by right].
    split; simpl; try done.
    + intros x s [[-> [<- _]]|[_ Hx]]%list_lookup_insert_Some.
      * simpl. pose proof (Htok _ _ Hr). lia.
      * by eapply Htok.
    + intros x Hx Hnb. destruct (decide (x = r)) as [->|Hne].
      * exists seq1. by rewrite list_lookup_insert_eq.
      * destruct (Hready x Hx) as (s2 & Hs2 & Hrdy2); [set_solver|].
        exists s2. by rewrite list_lookup_insert_ne.
    + intros x Hx. assert (x ≠ r) as Hne by (intros ->; done).
      destruct (Hbatch x) as (s2 & Hs2 & Hsync2); [by right|].
      exists s2. by rewrite list_lookup_insert_ne.
    + intros x Hx. assert (x ≠ r) as Hne by (intros ->; done).
      destruct (Hwait x Hx) as (s2 & Hs2 & Ht2).
      exists s2. by rewrite list_lookup_insert_ne.
    + intros x s [[-> _]|[Hne Hx]]%list_lookup_insert_Some.
      * right. left. apply Hsub. by left.
      * destruct (Hoth x s Hx) as [?|[?|[?|?]]]; set_solver.
    + intros x Hx. destruct (Hdis x Hx) as [Hn1 Hn2]. set_solver.
Qed.

Lemma postprocess_inv batch token_ids self self' :
  sched_inv batch self →
  (∀ x, x ∈ batch → x ∈ Scheduler.running self) →
  length token_ids = length batch →
  Scheduler.postprocess self batch token_ids = Ok self' →
  sched_inv [] self'.
Proof.
  unfold Scheduler.postprocess.
  revert token_ids self. induction batch as [|r rest IH];
    intros token_ids self Hinv Hsub Hlen Hrun.
  - simpl in Hrun. by injection Hrun as <-.
  - destruct token_ids as [|t ts]; [done|]. simpl in Hrun.
    apply bind_Ok in Hrun as (self1 & Hbody & Hrun).
    destruct (postprocess_body_inv _ _ _ _ _ Hinv Hsub Hbody) as [Hinv1 Hsub1].
    eapply (IH ts self1); try done. simpl in Hlen. lia.
Qed.

Lemma add_request_inv self prompt params self' :
  sched_inv [] self →
  Scheduler.add_request self prompt params = Ok self' →
  sched_inv [] self'.
Proof.
  intros [Hwd Hidx Htok Hready Hbatch Hwait Hoth Hnd1 Hnd2 Hnd3 Hdis] Hrun.
  unfold Scheduler.add_request in Hrun.
  apply bind_Ok in Hrun as (seq & Hinit & Hrun). injection Hrun as <-.
  pose proof (Sequence__init__wf _ _ _ _ Hinit) as (Htab & Hlen & _ & Hpos).
  assert (waiting_ok seq) as Hnew.
  { unfold Sequence.__init__ in Hinit.
    apply bind_Ok in Hinit as (l & _ & Hinit). by injection Hinit as <-. }
  destruct Hwd as [Hworld Hbs Hex].
  assert (∀ r, r ∈ Scheduler.waiting self ∨ r ∈ Scheduler.running self →
               (r < length (Scheduler.objects self))%nat) as Hlive.
  { intros r [Hr|Hr].
    - destruct (Hwait r Hr) as (s & Hs & _). by eapply lookup_lt_Some.
    - destruct (Hready r Hr) as (s & Hs & _); [by intros ?%elem_of_nil|].
      by eapply lookup_lt_Some. }
  split; simpl.
  - split; [|done|].
    + eapply world_inv_step; [exact Hworld|]. by econstructor.
    + intros n toks Hn. rewrite total_occurrences_app. simpl.
      rewrite Htab, occurrences_nil. specialize (Hex n toks Hn). lia.
  - done.
  - intros r s [Hr|[_ Hr]]%lookup_app_Some; [by eapply Htok|].
    apply list_lookup_singleton_Some in Hr as [_ <-]. lia.
  - intros r Hr Hnb. destruct (Hready r Hr Hnb) as (s & Hs & Hrdy).
    exists s. split; [|done]. by apply lookup_app_l_Some.
  - by intros r ?%elem_of_nil.
  - intros r [Hr|Hr]%elem_of_app.
    + destruct (Hwait r Hr) as (s & Hs & Ht). exists s.
      split; [|done]. by apply lookup_app_l_Some.
    + apply list_elem_of_singleton in Hr as ->. exists seq.
      split; [|done]. rewrite lookup_app_r by lia.
      by rewrite Nat.sub_diag.
  - intros r s [Hr|[Hge Hr]]%lookup_app_Some.
    + destruct (Hoth r s Hr) as [?|[?|[?|?]]]; set_solver.
    + apply list_lookup_singleton_Some in Hr as [Hr <-].
      left. apply elem_of_app. right. apply list_elem_of_singleton. lia.
  - done.
  - apply NoDup_app. split; [done|]. split; [|apply NoDup_singleton].
    intros x Hx ->%list_elem_of_singleton.
    specialize (Hlive _ (or_introl Hx)). lia.
  - done.
  - intros r [Hr|Hr]%elem_of_app; [by apply Hdis|].
    apply list_elem_of_singleton in Hr as ->.
    split; [|by intros ?%elem_of_nil].
    intros Hin. specialize (Hlive _ (or_intror Hin)). lia.
Qed.

Lemma Scheduler__init__inv max_num_seqs max_num_batched_tokens eos n self :
  1 < Sequence.block_size →
  Scheduler.__init__ max_num_seqs max_num_batched_tokens eos n
    Sequence.block_size = Ok self →
  sched_inv [] self.
Proof.
  intros Hbs Hrun. unfold Scheduler.__init__ in Hrun.
  apply bind_Ok in Hrun as (bm & Hinit & Hrun). injection Hrun as <-.
  split; simpl; try done; try (by intros r ?%elem_of_nil);
    try apply NoDup_nil_2.
  - split; [|done|].
    + apply (world_inv_init n); [lia|done].
    + intros b toks _. simpl. lia.
  - unfold BlockManager.__init__ in Hinit.
    apply bind_Ok in Hinit as (u & _ & Hinit). by injection Hinit as <-.
Qed.

(** ** The states of the engine

    The states that [LLMEngine] reaches: a scheduler created with
    [kvcache_block_size] equal to [Sequence.block_size] (both are 256 by
    default) and larger than 1, then any sequence of [add_request] and
    [step] that return, the model runner answering one token per scheduled
    sequence. *)
Definition answers_each (runner : list nat → bool → list Z) : Prop :=
  ∀ seqs is_prefill, length (runner seqs is_prefill) = length seqs.

Inductive engine_reachable : Scheduler.t → Prop :=
  | engine_init max_num_seqs max_num_batched_tokens eos n self :
      1 < Sequence.block_size →
      Scheduler.__init__ max_num_seqs max_num_batched_tokens eos n
        Sequence.block_size = Ok self →
      engine_reachable self
  | engine_add_request self prompt params self' :
      engine_reachable self →
      Scheduler.add_request self prompt params = Ok self' →
      engine_reachable self'
  | engine_step self runner self' :
      engine_reachable self →
      answers_each runner →
      Scheduler.step self runner = Ok self' →
      engine_reachable self'.

Lemma step_inv self runner self' :
  sched_inv [] self → answers_each runner →
  Scheduler.step self runner = Ok self' → sched_inv [] self'.
Proof.
  intros Hinv Hrunner Hrun. unfold Scheduler.step in Hrun.
  apply bind_Ok in Hrun as ([self1 [batch is_prefill]] & Hsched & Hrun).
  destruct (schedule_inv _ _ _ _ Hinv Hsched) as (Hinv1 & Hsub & _).
  by eapply postprocess_inv.
Qed.

Lemma engine_reachable_inv self : engine_reachable self → sched_inv [] self.
Proof.
  induction 1 as [m1 m2 eos n self Hbs Hinit
                 |self prompt params self' _ IH Hadd
                 |self runner self' _ IH Hrunner Hstep].
  - by eapply Scheduler__init__inv.
  - by eapply add_request_inv.
  - by eapply step_inv.
Qed.

Lemma sched_inv_decode_inv self : sched_inv [] self → decode_inv self.
Proof.
  intros [[Hworld Hbs Hex] Hidx Htok Hready Hbatch Hwait Hoth Hnd1 Hnd2 Hnd3
          Hdis].
  split; try done.
  intros r Hr. destruct (Hready r Hr) as (seq & Hs & _ & Hrdy & _);
    [by intros ?%elem_of_nil|].
  by exists seq.
Qed.

(** ** A step of the engine never fails, except at [assert scheduled_seqs] *)

Lemma prefill_body_total st :
  sched_inv (Scheduler.s_scheduled st) (Scheduler.s_self st) →
  Scheduler.waiting (Scheduler.s_self st) ≠ [] →
  ∃ c, Scheduler.prefill_body st = Ok c ∧
       match c with
       | Continue st' =>
           Scheduler.waiting (Scheduler.s_self st')
           = tail (Scheduler.waiting (Scheduler.s_self st))
       | Break _ => True
       end.
Proof.
  intros Hinv Hne. unfold Scheduler.prefill_body.
  destruct (Scheduler.waiting (Scheduler.s_self st)) as [|r wait'] eqn:Hw;
    [done|].
  rewrite (proj2 (py_getitem_head (r :: wait') r) eq_refl). simpl.
  destruct (si_waiting _ _ Hinv r) as (seq & Hr & _ & Hempty & _);
    [rewrite Hw; by left|].
  rewrite (proj2 (deref_Ok _ r seq) Hr). simpl.
  destruct (_ <? _); simpl; [by eexists|].
  destruct (BlockManager.can_allocate _ seq) eqn:Hcan; simpl; [|by eexists].
  pose proof (si_wd _ _ Hinv) as [Hworld _ _].
  destruct (allocate_success _ _ _ (wi_bm _ Hworld) Hempty Hcan)
    as (bm' & seq' & Halloc).
  simpl in Halloc. rewrite Halloc. simpl. eexists. split; [done|]. simpl.
  by rewrite Hw.
Qed.

Lemma prefill_loop_total self :
  sched_inv [] self →
  ∃ c, while (S (length (Scheduler.waiting self))) Scheduler.prefill_cond
         Scheduler.prefill_body (Scheduler.SchedState self [] 0 0) = Ok c.
Proof.
  intros Hinv.
  apply (while_total
           (λ st, sched_inv (Scheduler.s_scheduled st) (Scheduler.s_self st)
                  ∧ ∀ r : nat, r ∈ Scheduler.s_scheduled st →
                         r ∈ Scheduler.running (Scheduler.s_self st))
           (λ st, length (Scheduler.waiting (Scheduler.s_self st)))).
  - intros st _. by eexists.
  - intros st [Hst Hsub] Hcond.
    unfold Scheduler.prefill_cond in Hcond. injection Hcond as Hcond.
    apply andb_true_iff in Hcond as [Hne _].
    apply negb_true_iff, bool_decide_eq_false in Hne.
    destruct (prefill_body_total st Hst Hne) as (c & Hbody & Hc).
    exists c. split; [done|]. destruct c as [st'|st']; [|done].
    split; [exact (prefill_body_inv st _ Hst Hsub Hbody)|].
    rewrite Hc. destruct (Scheduler.waiting (Scheduler.s_self st)); [done|].
    simpl. lia.
  - split; [done|]. by intros r ?%elem_of_nil.
  - simpl. lia.
Qed.

(** [schedule] between two ticks returns a batch, or raises AssertionError
    after both loops have run to their end without scheduling anything. *)
Lemma schedule_total self :
  sched_inv [] self →
  (∃ self' batch is_prefill,
     Scheduler.schedule self = Ok (self', (batch, is_prefill)))
  ∨ (Scheduler.schedule self = Raise AssertionError ∧
     ∃ c1 c2,
       while (S (length (Scheduler.waiting self))) Scheduler.prefill_cond
         Scheduler.prefill_body (Scheduler.SchedState self [] 0 0) = Ok c1 ∧
       Scheduler.s_scheduled (ctl_state c1) = [] ∧
       while (S (length (Scheduler.running
                           (Scheduler.s_self (ctl_state c1)))))
         Scheduler.decode_cond Scheduler.decode_body (ctl_state c1) = Ok c2 ∧
       Scheduler.s_scheduled (ctl_state c2) = []).
Proof.
  intros Hinv. destruct (prefill_loop_total self Hinv) as [c1 Hpre].
  pose proof Hpre as Hpre'.
  apply (while_invariant
           (λ st, sched_inv (Scheduler.s_scheduled st) (Scheduler.s_self st)
                  ∧ ∀ r : nat, r ∈ Scheduler.s_scheduled st →
                         r ∈ Scheduler.running (Scheduler.s_self st)))
    in Hpre'; [|intros s c0 [Hs1 Hs2] Hb;
                 exact (prefill_body_inv s c0 Hs1 Hs2 Hb)
               |split; [done|by intros r ?%elem_of_nil]].
  destruct Hpre' as [Hinv1 _].
  unfold Scheduler.schedule. rewrite Hpre.
  assert (∀ (k : ctl Scheduler.sched_state
                 → result (Scheduler.t * (list nat * bool))),
            Ok c1 ≫= k = k c1) as -> by done.
  cbv zeta. case_bool_decide as Hsched; cbn [negb]; [|left; by eexists _, _, _].
  rewrite Hsched in Hinv1.
  destruct (decode_loop
              (S (length (Scheduler.running (Scheduler.s_self (ctl_state c1)))))
              (ctl_state c1) (sched_inv_decode_inv _ Hinv1))
    as (c2 & Hdec & _); [lia|].
  rewrite Hdec.
  assert (∀ (k : ctl Scheduler.sched_state
                 → result (Scheduler.t * (list nat * bool))),
            Ok c2 ≫= k = k c2) as -> by done.
  case_bool_decide as Hsched2; simpl.
  - right. split; [done|]. by exists c1, c2.
  - left. by eexists _, _, _.
Qed.

Lemma postprocess_body_total r rest token_id self :
  sched_inv (r :: rest) self →
  r ∈ Scheduler.running self →
  ∃ self', Scheduler.postprocess_body (r, token_id) self = Ok self'.
Proof.
  intros Hinv Hin.
  destruct (si_batch _ _ Hinv r) as (seq & Hr & _); [by left|].
  unfold Scheduler.postprocess_body.
  rewrite (proj2 (deref_Ok self r seq) Hr). simpl.
  destruct (_ || _); [|by eexists].
  pose proof (wd_inv_append_token _ _ _ _ token_id (si_wd _ _ Hinv) Hr)
    as Hwd1.
  destruct (deallocate_world _ _ r (Sequence.append_token seq token_id)
              Sequence.FINISHED Hwd1) as (bm' & Hdealloc & _).
  { apply list_lookup_insert_eq. by eapply lookup_lt_Some. }
  rewrite Hdealloc. simpl.
  destruct (deque_remove_elem r (Scheduler.running self) Hin) as [l ->].
  by eexists.
Qed.

Lemma postprocess_total batch token_ids self :
  sched_inv batch self →
  (∀ x, x ∈ batch → x ∈ Scheduler.running self) →
  ∃ self', Scheduler.postprocess self batch token_ids = Ok self'.
Proof.
  unfold Scheduler.postprocess.
  revert token_ids self. induction batch as [|r rest IH];
    intros token_ids self Hinv Hsub.
  - by eexists.
  - destruct token_ids as [|t ts]; [by eexists|].
    assert (for_each Scheduler.postprocess_body (zip (r :: rest) (t :: ts))
              self
            = Scheduler.postprocess_body (r, t) self
              ≫= for_each Scheduler.postprocess_body (zip rest ts))
      as -> by done.
    destruct (postprocess_body_total r rest t self Hinv) as [self1 Hbody];
      [apply Hsub; by left|].
    rewrite Hbody. simpl.
    destruct (postprocess_body_inv _ _ _ _ _ Hinv Hsub Hbody) as [Hinv1 Hsub1].
    by apply IH.
Qed.

Lemma step_total self runner :
  sched_inv [] self →
  (∃ self', Scheduler.step self runner = Ok self')
  ∨ (Scheduler.step self runner = Raise AssertionError
     ∧ Scheduler.schedule self = Raise AssertionError).
Proof.
  intros Hinv. unfold Scheduler.step.
  destruct (schedule_total self Hinv)
    as [(self1 & batch & is_prefill & Hsched)|[Hsched _]].
  - left. rewrite Hsched. simpl.
    destruct (schedule_inv _ _ _ _ Hinv Hsched) as (Hinv1 & Hsub & _).
    by apply postprocess_total.
  - right. by rewrite Hsched.
Qed.

Lemma total_occurrences_pos seqs b :
  0 < total_occurrences seqs b
  ↔ ∃ r s, seqs !! r = Some s ∧ b ∈ Sequence.block_table s.
Proof.
  induction seqs as [|s0 seqs IH]; simpl.
  - split; [lia|]. by intros (r & s & Hr & _).
  - pose proof (occurrences_nonneg b (Sequence.block_table s0)) as Hs0.
    pose proof (total_occurrences_nonneg seqs b) as Hrest.
    split.
    + intros Hpos.
      destruct (decide (0 < occurrences b (Sequence.block_table s0)))
        as [Hin|Hout].
      * exists 0%nat, s0. split; [done|]. by apply occurrences_elem.
      * destruct (proj1 IH) as (r & s & Hr & Hb); [lia|].
        by exists (S r), s.
    + intros (r & s & Hr & Hb). destruct r as [|r]; simpl in Hr.
      * injection Hr as ->. apply occurrences_elem in Hb. lia.
      * assert (0 < total_occurrences seqs b) by (apply IH; by exists r, s).
        lia.
Qed.

(** X1.  A step of the engine, from any state the engine reaches: it
    returns, or [schedule] raises AssertionError at [assert scheduled_seqs]
    after both of its loops have run to their end without scheduling
    anything.  No other exception leaves [schedule] or [postprocess]. *)
Theorem engine_step_fails_only_at_assert (self : Scheduler.t)
    (runner : list nat → bool → list Z) :
  engine_reachable self →
  (∃ self', Scheduler.step self runner = Ok self')
  ∨ (Scheduler.step self runner = Raise AssertionError ∧
     Scheduler.schedule self = Raise AssertionError ∧
     ∃ c1 c2,
       while (S (length (Scheduler.waiting self))) Scheduler.prefill_cond
         Scheduler.prefill_body (Scheduler.SchedState self [] 0 0) = Ok c1 ∧
       Scheduler.s_scheduled (ctl_state c1) = [] ∧
       while (S (length (Scheduler.running
                           (Scheduler.s_self (ctl_state c1)))))
         Scheduler.decode_cond Scheduler.decode_body (ctl_state c1) = Ok c2 ∧
       Scheduler.s_scheduled (ctl_state c2) = []).
Proof.
  intros Hreach. pose proof (engine_reachable_inv self Hreach) as Hinv.
  destruct (step_total self runner Hinv) as [Hok|[Hstep Hsched]];
    [by left|right].
  split; [done|]. split; [done|].
  destruct (schedule_total self Hinv) as [(s1 & b & p & Hok)|[_ Hloops]];
    [congruence|done].
Qed.

(** X2.  In every state the engine reaches, each sequence is in exactly one
    of three places: in the waiting queue, with status WAITING, no block
    and no cached token; in the running queue, with status RUNNING; or in
    neither queue, with status FINISHED and no block.  Neither queue lists
    a sequence twice. *)
Theorem engine_sequences_partition (self : Scheduler.t) :
  engine_reachable self →
  NoDup (Scheduler.waiting self) ∧ NoDup (Scheduler.running self) ∧
  (∀ r, r ∈ Scheduler.waiting self ∨ r ∈ Scheduler.running self →
        is_Some (Scheduler.objects self !! r)) ∧
  ∀ r seq,
    Scheduler.objects self !! r = Some seq →
    (r ∈ Scheduler.waiting self ∧ r ∉ Scheduler.running self ∧
     Sequence.status seq = Sequence.WAITING ∧
     Sequence.block_table seq = [] ∧ Sequence.num_cached_tokens seq = 0)
    ∨ (r ∈ Scheduler.running self ∧ r ∉ Scheduler.waiting self ∧
       Sequence.status seq = Sequence.RUNNING ∧
       Sequence.block_table seq ≠ [])
    ∨ (r ∉ Scheduler.waiting self ∧ r ∉ Scheduler.running self ∧
       Sequence.status seq = Sequence.FINISHED ∧
       Sequence.block_table seq = [] ∧ Sequence.num_cached_tokens seq = 0).
Proof.
  intros Hreach.
  destruct (engine_reachable_inv self Hreach)
    as [Hwd Hidx Htok Hready Hbatch Hwait Hoth Hnd1 Hnd2 Hnd3 Hdis].
  assert (∀ r, r ∈ Scheduler.running self →
               ∃ seq, Scheduler.objects self !! r = Some seq ∧
                      Sequence.status seq = Sequence.RUNNING ∧
                      Sequence.block_table seq ≠ []) as Hrun.
  { intros r Hr.
    destruct (Hready r Hr) as (seq & Hs & Hst & [_ Hlh] & _);
      [by intros ?%elem_of_nil|].
    exists seq. split; [done|]. split; [done|].
    destruct Hlh as (b & _ & _ & Hlast & _). intros Hnil.
    by rewrite Hnil in Hlast. }
  split; [done|]. split; [done|]. split.
  { intros r [Hr|Hr].
    - destruct (Hwait r Hr) as (seq & -> & _). by eexists.
    - destruct (Hrun r Hr) as (seq & -> & _). by eexists. }
  intros r seq Hr. destruct (Hoth r seq Hr) as [Hw|[Hrn|[Hb|Hfin]]].
  - left. destruct (Hwait r Hw) as (seq' & Hr' & Hok).
    assert (seq' = seq) as -> by congruence.
    destruct (Hdis r Hw) as [Hn _]. by destruct Hok as (? & ? & ?).
  - right. left. destruct (Hrun r Hrn) as (seq' & Hr' & Hst & Htab).
    assert (seq' = seq) as -> by congruence.
    split; [done|]. split; [|done]. intros Hw. by destruct (Hdis r Hw).
  - by apply elem_of_nil in Hb.
  - right. right. destruct Hfin as (Hst & Htab & Hc).
    split_and!; try done.
    + intros Hw. destruct (Hwait r Hw) as (seq' & Hr' & Hst' & _).
      assert (seq' = seq) as -> by congruence. congruence.
    + intros Hrn. destruct (Hrun r Hrn) as (seq' & Hr' & Hst' & _).
      assert (seq' = seq) as -> by congruence. congruence.
Qed.

(** X3.  In every state the engine reaches, that is between two ticks, the
    block table of a running sequence has one entry per block of its
    tokens but the last one: [ceil ((num_tokens - 1) / block_size)]
    entries, which is [num_blocks] unless the token appended last opened a
    new block, and [num_blocks - 1] then. *)
Theorem engine_running_table_length (self : Scheduler.t) (r : nat)
    (seq : Sequence.t) :
  engine_reachable self →
  r ∈ Scheduler.running self →
  Scheduler.objects self !! r = Some seq →
  Z.of_nat (length (Sequence.block_table seq))
  = (Sequence.num_tokens seq - 1 + Sequence.block_size - 1)
    / Sequence.block_size ∧
  Z.of_nat (length (Sequence.block_table seq))
  = Sequence.num_blocks seq
    - (if bool_decide
            (Sequence.num_tokens seq `mod` Sequence.block_size = 1)
       then 1 else 0).
Proof.
  intros Hreach Hr Hs.
  pose proof (engine_reachable_inv self Hreach) as Hinv.
  destruct (si_running _ _ Hinv r Hr) as (seq' & Hs' & _ & _ & Hcov & _);
    [by intros ?%elem_of_nil|].
  assert (seq' = seq) as -> by congruence.
  pose proof (si_wd _ _ Hinv) as [_ Hbs _].
  pose proof (si_tokens _ _ Hinv r seq Hs) as Hn.
  split; [exact Hcov|]. unfold covers in Hcov. rewrite Hcov.
  unfold Sequence.num_blocks.
  pose proof (num_blocks_step (Sequence.num_tokens seq - 1) Hbs ltac:(lia))
    as Hstep.
  replace (Sequence.num_tokens seq - 1 + 1) with (Sequence.num_tokens seq)
    in Hstep by lia.
  lia.
Qed.

(** X4.  In every state the engine reaches, the number of cached tokens of
    a sequence is a multiple of the block size between 0 and the number of
    its tokens: the work [len(seq) - num_cached_tokens] that the prefill
    loop counts is never negative. *)
Theorem engine_cached_tokens_bound (self : Scheduler.t) (r : nat)
    (seq : Sequence.t) :
  engine_reachable self →
  Scheduler.objects self !! r = Some seq →
  0 ≤ Sequence.num_cached_tokens seq ≤ Sequence.num_tokens seq ∧
  Sequence.num_cached_tokens seq `mod` Sequence.block_size = 0.
Proof.
  intros Hreach Hs.
  pose proof (engine_reachable_inv self Hreach) as Hinv.
  pose proof (si_tokens _ _ Hinv r seq Hs) as Hn.
  pose proof Sequence.block_size_pos as Hbs.
  destruct (si_others _ _ Hinv r seq Hs) as [Hw|[Hrn|[Hb|Hfin]]].
  - destruct (si_waiting _ _ Hinv r Hw) as (seq' & Hr' & _ & _ & Hc).
    assert (seq' = seq) as -> by congruence.
    rewrite Hc. split; [lia|]. by apply Z.mod_0_l; lia.
  - destruct (si_running _ _ Hinv r Hrn) as (seq' & Hr' & _ & _ & _ & Hc);
      [by intros ?%elem_of_nil|].
    by assert (seq' = seq) as -> by congruence.
  - by apply elem_of_nil in Hb.
  - destruct Hfin as (_ & _ & Hc).
    rewrite Hc. split; [lia|]. by apply Z.mod_0_l; lia.
Qed.

(** X5.  In every state the engine reaches, the used set holds exactly the
    blocks listed in the block tables of the running sequences.  When no
    sequence is running, no block is in use and the free deque holds the
    whole pool. *)
Theorem engine_used_blocks (self : Scheduler.t) :
  engine_reachable self →
  (∀ b, b ∈ BlockManager.used_block_ids (Scheduler.block_manager self)
        ↔ ∃ r seq, r ∈ Scheduler.running self ∧
                   Scheduler.objects self !! r = Some seq ∧
                   b ∈ Sequence.block_table seq) ∧
  (Scheduler.running self = [] →
   BlockManager.used_block_ids (Scheduler.block_manager self) = ∅ ∧
   length (BlockManager.free_block_ids (Scheduler.block_manager self))
   = length (BlockManager.blocks (Scheduler.block_manager self))).
Proof.
  intros Hreach.
  pose proof (engine_reachable_inv self Hreach) as Hinv.
  pose proof (si_wd _ _ Hinv) as [Hworld _ _].
  pose proof (wi_bm _ Hworld) as Hbm. simpl in Hbm.
  assert (∀ b, b ∈ BlockManager.used_block_ids (Scheduler.block_manager self)
               ↔ ∃ r seq, r ∈ Scheduler.running self ∧
                          Scheduler.objects self !! r = Some seq ∧
                          b ∈ Sequence.block_table seq) as Hused.
  { intros b. split.
    - intros Hb. apply (inv_used _ _ Hbm), total_occurrences_pos in Hb.
      destruct Hb as (r & seq & Hs & Hin). exists r, seq.
      split; [|done].
      destruct (si_others _ _ Hinv r seq Hs) as [Hw|[Hrn|[Hb|Hfin]]].
      + destruct (si_waiting _ _ Hinv r Hw) as (seq' & Hr' & _ & Htab & _).
        assert (seq' = seq) as -> by congruence.
        rewrite Htab in Hin. by apply elem_of_nil in Hin.
      + done.
      + by apply elem_of_nil in Hb.
      + destruct Hfin as (_ & Htab & _).
        rewrite Htab in Hin. by apply elem_of_nil in Hin.
    - intros (r & seq & _ & Hs & Hin).
      assert (0 ≤ b < pool_size (Scheduler.block_manager self)) as Hb
        by (by eapply (wi_tables _ Hworld)).
      apply (bm_inv_used_iff _ _ _ Hbm Hb), total_occurrences_pos.
      by exists r, seq. }
  split; [done|]. intros Hnil.
  assert (BlockManager.used_block_ids (Scheduler.block_manager self) = ∅)
    as Hempty.
  { apply elem_of_equiv_empty_L. intros b Hb.
    apply Hused in Hb as (r & _ & Hr & _). rewrite Hnil in Hr.
    by apply elem_of_nil in Hr. }
  split; [done|].
  pose proof (pool_total _ (inv_pool _ _ Hbm)) as Htot.
  rewrite Hempty, size_empty in Htot. lia.
Qed.

(** X6.  Every state the engine reaches satisfies [decode_inv], the
    condition between two ticks under which the decode phase was analysed:
    the world invariant holds, a block has more than one token, a block
    whose hash is unset is listed at most once over all block tables, the
    running queue has no duplicates, and every running sequence has at
    least one token and a last block whose hash is set exactly when
    [num_tokens % block_size == 1]. *)
Theorem engine_decode_inv (self : Scheduler.t) :
  engine_reachable self → decode_inv self.
Proof.
  intros Hreach. by apply sched_inv_decode_inv, engine_reachable_inv.
Qed.

(** X7.  The batch that [schedule] returns, from any state the engine
    reaches: it is not empty, lists no sequence twice, is part of the
    running queue, and each of its sequences is RUNNING with a block table
    of exactly [num_blocks] entries. *)
Theorem schedule_batch (self self' : Scheduler.t) (batch : list nat)
    (is_prefill : bool) :
  engine_reachable self →
  Scheduler.schedule self = Ok (self', (batch, is_prefill)) →
  batch ≠ [] ∧ NoDup batch ∧
  ∀ r, r ∈ batch →
       r ∈ Scheduler.running self' ∧
       ∃ seq, Scheduler.objects self' !! r = Some seq ∧
              Sequence.status seq = Sequence.RUNNING ∧
              Z.of_nat (length (Sequence.block_table seq))
              = Sequence.num_blocks seq.
Proof.
  intros Hreach Hrun.
  pose proof (engine_reachable_inv self Hreach) as Hinv.
  destruct (schedule_inv _ _ _ _ Hinv Hrun) as (Hinv' & Hsub & Hne).
  split; [done|]. split; [exact (si_nodup_batch _ _ Hinv')|].
  intros r Hr. split; [by apply Hsub|].
  destruct (si_batch _ _ Hinv' r Hr) as (seq & Hs & Hst & _ & Hcov & _).
  by exists seq.
Qed.

End EngineFacts.

(** ** The loop of [allocate], pass by pass

    [allocate] keeps one [cache_miss] flag and one running hash [h] for the
    whole loop.  This section follows the loop pass by pass: when the flag
    is set, and which chain each hash it writes is the hash of. *)

Section AllocateLoop.
Context `{XXHash} `{Sequence.class_attrs}.

(** *** The dedup index has no entry for the sentinel *)

Lemma index_inv_allocate_body occ i st st' :
  bm_inv occ (BlockManager.a_self st) →
  index_inv (BlockManager.a_self st) →
  BlockManager.allocate_body i st = Ok st' →
  index_inv (BlockManager.a_self st').
Proof.
  intros Hinv Hidx Hrun. rewrite allocate_body_unfold in Hrun.
  cbv zeta in Hrun.
  apply bind_Ok in Hrun as (token_ids & _ & Hrun).
  apply bind_Ok in Hrun as (h & _ & Hrun).
  apply bind_Ok in Hrun as (cache_miss & _ & Hrun).
  apply bind_Ok in Hrun as ([[self1 seq1] b] & Hacq & Hrun).
  apply bind_Ok in Hrun as (self2 & Hrec & Hrun).
  injection Hrun as <-. simpl_bm.
  destruct (acquire_spec _ _ _ _ _ _ _ _ Hinv Hacq)
    as (Hb & _ & Hsz & _ & Hsame & _).
  destruct (record_contents _ _ _ _ _ ltac:(by rewrite Hsz) Hrec)
    as (_ & _ & _ & Hkeep).
  apply Hkeep. unfold index_inv. by rewrite Hsame.
Qed.

Lemma index_inv_allocate occ bm seq bm' seq' :
  bm_inv occ bm → index_inv bm →
  BlockManager.allocate bm seq = Ok (bm', seq') →
  index_inv bm'.
Proof.
  intros Hinv Hidx Hrun. unfold BlockManager.allocate in Hrun.
  apply bind_Ok in Hrun as (u & _ & Hrun).
  apply bind_Ok in Hrun as (st & Hloop & Hrun). injection Hrun as <- _.
  apply (for_each_invariant
           (λ _ st, (∃ occ', bm_inv occ' (BlockManager.a_self st))
                    ∧ index_inv (BlockManager.a_self st))
           _ _ (BlockManager.AllocState bm seq (-1) false) _) in Hloop.
  - apply Hloop.
  - intros _ i s1 s2 [[occ1 Hinv1] Hidx1] Hbody. split.
    + destruct (bm_inv_allocate_body _ _ _ _ Hinv1 Hbody)
        as (b & _ & _ & Hinv2 & _).
      by eexists.
    + by eapply index_inv_allocate_body.
  - split; [by exists occ|done].
Qed.

Lemma index_deallocate bm seq bm' seq' :
  BlockManager.deallocate bm seq = Ok (bm', seq') →
  BlockManager.hash_to_block_id bm' = BlockManager.hash_to_block_id bm.
Proof.
  unfold BlockManager.deallocate. intros Hrun.
  apply bind_Ok in Hrun as (bm1 & Hloop & Hrun). injection Hrun as <- _.
  apply (for_each_invariant
           (λ _ s, BlockManager.hash_to_block_id s
                   = BlockManager.hash_to_block_id bm)) in Hloop;
    [done| |done].
  intros _ b s1 s2 Hs1 Hbody. unfold BlockManager.deallocate_body in Hbody.
  apply bind_Ok in Hbody as (blk & _ & Hbody). cbv zeta in Hbody.
  destruct (_ =? _) in Hbody.
  - apply _deallocate_block_Ok in Hbody as (blk' & _ & _ & _ & ->).
    simpl_bm. by rewrite put_block_index.
  - injection Hbody as <-. by rewrite put_block_index.
Qed.

Lemma index_inv_may_append bm seq bm' seq' :
  index_inv bm →
  BlockManager.may_append bm seq = Ok (bm', seq') →
  index_inv bm'.
Proof.
  intros Hidx Hrun.
  apply may_append_Ok in Hrun
    as (last_id & last_block & _ & _
        & [(_ & _ & b & _ & Halloc & _)
          |[(_ & _ & _ & t & p & h & _ & _ & Hh & -> & _)
           |(_ & _ & _ & -> & _)]]); [| |done].
  - apply _allocate_block_Ok in Halloc as (blk & l1 & l2 & _ & _ & _ & _ & ->).
    unfold index_inv. simpl_bm. by rewrite put_block_index.
  - apply compute_hash_range in Hh. unfold index_inv. simpl_bm.
    rewrite put_block_index. rewrite lookup_insert_ne by lia. exact Hidx.
Qed.

Lemma reachable_index_inv w : reachable w → index_inv (w_bm w).
Proof.
  induction 1 as [n bm Hpos Hinit|w w' Hreach IH Hstep].
  - unfold BlockManager.__init__ in Hinit.
    apply bind_Ok in Hinit as (u & _ & Hinit). injection Hinit as <-.
    done.
  - pose proof (wi_bm _ (reachable_world_inv _ Hreach)) as Hinv.
    destruct Hstep; simpl in *; try done.
    + by eapply index_inv_allocate.
    + unfold index_inv. by erewrite index_deallocate.
    + by eapply index_inv_may_append.
Qed.

(** *** The loop of [allocate], pass by pass *)

(** The state of the loop of [allocate(seq)] on the manager [bm] when it
    reaches logical block [k]: the passes for the blocks [0], ..., [k - 1]
    have run. *)
Definition allocate_upto (bm : BlockManager.t) (seq : Sequence.t) (k : Z)
  : result BlockManager.alloc_state :=
  for_each BlockManager.allocate_body (seqZ 0 k)
    (BlockManager.AllocState bm seq (-1) false).

(** In the loop state [st], logical block [i] has a match in the dedup
    index: it is full, and the index maps its chained hash [h] to a block
    [b] whose current tokens are those of the logical block. *)
Definition index_match (st : BlockManager.alloc_state) (i : Z)
    (token_ids : list Z) (h b : Z) (blk : Block.t) : Prop :=
  Sequence.block (BlockManager.a_seq st) i = Ok token_ids ∧
  Z.of_nat (length token_ids)
  = BlockManager.block_size (BlockManager.a_self st) ∧
  BlockManager.compute_hash token_ids (BlockManager.a_h st) = Ok h ∧
  BlockManager.hash_to_block_id (BlockManager.a_self st) !! h = Some b ∧
  BlockManager.get_block (BlockManager.a_self st) b = Ok blk ∧
  Block.token_ids blk = token_ids.

(** Logical block [j] is a cache miss of [allocate(seq)] on [bm]: when the
    loop reaches it, it has no match in the index. *)
Definition miss_at (bm : BlockManager.t) (seq : Sequence.t) (j : Z) : Prop :=
  ∃ st, allocate_upto bm seq j = Ok st ∧
        ∀ token_ids h b blk, ¬ index_match st j token_ids h b blk.

(** Some logical block before [i] is a cache miss. *)
Definition earlier_miss (bm : BlockManager.t) (seq : Sequence.t) (i : Z)
  : Prop :=
  ∃ j, 0 ≤ j < i ∧ miss_at bm seq j.

Lemma seqZ_snoc (k : Z) : 0 ≤ k → seqZ 0 (k + 1) = seqZ 0 k ++ [k].
Proof.
  intros Hk. rewrite seqZ_app by lia. f_equal.
Qed.

Lemma allocate_upto_succ bm seq k :
  0 ≤ k →
  allocate_upto bm seq (k + 1)
  = allocate_upto bm seq k ≫= BlockManager.allocate_body k.
Proof.
  intros Hk. unfold allocate_upto. rewrite seqZ_snoc by done.
  rewrite for_each_app.
  destruct (for_each _ (seqZ 0 k) _) as [st|e]; simpl; [|done].
  by destruct (BlockManager.allocate_body k st).
Qed.

Lemma allocate_upto_prefix bm seq n st k :
  0 ≤ k ≤ n →
  allocate_upto bm seq n = Ok st →
  ∃ st_k, allocate_upto bm seq k = Ok st_k.
Proof.
  intros Hk Hrun. unfold allocate_upto in *.
  replace n with (k + (n - k)) in Hrun by lia.
  rewrite seqZ_app, for_each_app in Hrun by lia.
  apply bind_Ok in Hrun as (st_k & Hst & _). by exists st_k.
Qed.

(** The flag after a pass: still false exactly when it was false and the
    block of the pass has a match. *)
Lemma allocate_body_flag occ i st st' :
  bm_inv occ (BlockManager.a_self st) →
  index_inv (BlockManager.a_self st) →
  BlockManager.allocate_body i st = Ok st' →
  (BlockManager.a_cache_miss st' = false
   ↔ BlockManager.a_cache_miss st = false ∧
     ∃ token_ids h b blk, index_match st i token_ids h b blk).
Proof.
  intros Hinv Hidx Hrun. rewrite allocate_body_unfold in Hrun.
  cbv zeta in Hrun.
  apply bind_Ok in Hrun as (token_ids & Hblock & Hrun).
  apply bind_Ok in Hrun as (h & Hh & Hrun).
  apply bind_Ok in Hrun as (cache_miss & Hmiss & Hrun).
  apply bind_Ok in Hrun as ([[self1 seq1] b] & Hacq & Hrun).
  apply bind_Ok in Hrun as (self2 & Hrec & Hrun).
  injection Hrun as <-. simpl_bm.
  unfold lookup_miss in Hmiss. unfold block_hash in Hh. split.
  - intros ->.
    case_bool_decide as Hid; [done|].
    apply bind_Ok in Hmiss as (blk & Hget & Hmiss).
    case_bool_decide as Htoks; [done|]. injection Hmiss as Hflag.
    assert (Block.token_ids blk = token_ids) as Htok
      by (destruct (decide (Block.token_ids blk = token_ids)); done).
    destruct (BlockManager.hash_to_block_id (BlockManager.a_self st) !! h)
      as [b0|] eqn:Hlook; [|done].
    simpl in Hid, Hget.
    assert (h ≠ -1) as Hh1.
    { intros ->. unfold index_inv in Hidx. congruence. }
    case_bool_decide as Hlen; [|congruence].
    split; [done|]. exists token_ids, h, b0, blk. by split_and!.
  - intros [Hflag (T & h' & b0 & blk & HT & Hlen & Hh' & Hlook & Hget & Htok)].
    assert (T = token_ids) as -> by congruence.
    rewrite bool_decide_eq_true_2 in Hh by done.
    assert (h' = h) as -> by congruence.
    rewrite Hlook in Hmiss. simpl in Hmiss.
    pose proof (inv_index _ _ Hinv _ _ Hlook) as Hb0.
    rewrite bool_decide_eq_false_2 in Hmiss by lia.
    rewrite Hget in Hmiss. simpl in Hmiss.
    rewrite bool_decide_eq_false_2 in Hmiss by (intros Hne; by apply Hne).
    congruence.
Qed.

Lemma allocate_upto_inv occ bm seq (k : nat) st :
  bm_inv occ bm → index_inv bm →
  allocate_upto bm seq (Z.of_nat k) = Ok st →
  (∃ occ', bm_inv occ' (BlockManager.a_self st)) ∧
  index_inv (BlockManager.a_self st) ∧
  BlockManager.block_size (BlockManager.a_self st)
  = BlockManager.block_size bm ∧
  (BlockManager.a_cache_miss st = true ↔ earlier_miss bm seq (Z.of_nat k)).
Proof.
  intros Hinv Hidx. unfold earlier_miss.
  revert st. induction k as [|k IH]; intros st Hrun.
  - unfold allocate_upto in Hrun. simpl in Hrun. injection Hrun as <-.
    simpl. split; [by exists occ|]. split; [done|]. split; [done|].
    split; [done|]. intros (j & Hj & _). lia.
  - replace (Z.of_nat (S k)) with (Z.of_nat k + 1) in * by lia.
    rewrite allocate_upto_succ in Hrun by lia.
    apply bind_Ok in Hrun as (st0 & Hst0 & Hbody).
    destruct (IH st0 Hst0) as ([occ0 Hinv0] & Hidx0 & Hbs0 & Hflag0).
    destruct (bm_inv_allocate_body _ _ _ _ Hinv0 Hbody)
      as (b & _ & _ & Hinv1 & _ & Hbs1).
    pose proof (index_inv_allocate_body _ _ _ _ Hinv0 Hidx0 Hbody) as Hidx1.
    pose proof (allocate_body_flag _ _ _ _ Hinv0 Hidx0 Hbody) as Hflag.
    split; [by eexists|]. split; [done|]. split; [congruence|]. split.
    + intros Htrue.
      destruct (BlockManager.a_cache_miss st0) eqn:Hf0.
      * destruct (proj1 Hflag0 eq_refl) as (j & Hj & Hmiss).
        exists j. split; [lia|done].
      * exists (Z.of_nat k). split; [lia|]. exists st0. split; [done|].
        intros T h b' blk Hm.
        assert (BlockManager.a_cache_miss st = false) as Hfalse
          by (apply Hflag; split; [done|by exists T, h, b', blk]).
        congruence.
    + intros (j & Hj & Hmiss).
      destruct (BlockManager.a_cache_miss st) eqn:Hf; [done|].
      destruct (proj1 Hflag eq_refl) as [Hf0 (T & h & b' & blk & Hm)].
      destruct (decide (j = Z.of_nat k)) as [->|Hne].
      * destruct Hmiss as (st1 & Hst1 & Hno).
        assert (st1 = st0) as -> by congruence.
        by destruct (Hno T h b' blk).
      * assert (BlockManager.a_cache_miss st0 = true); [|congruence].
        apply Hflag0. exists j. split; [lia|done].
Qed.

Lemma allocate_upto_nat bm seq n :
  allocate_upto bm seq n = allocate_upto bm seq (Z.of_nat (Z.to_nat n)).
Proof. unfold allocate_upto, seqZ. by rewrite Nat2Z.id. Qed.

Lemma allocate_Ok bm seq bm' seq' :
  BlockManager.allocate bm seq = Ok (bm', seq') →
  Sequence.block_table seq = [] ∧
  ∃ st, allocate_upto bm seq (Sequence.num_blocks seq) = Ok st ∧
        bm' = BlockManager.a_self st ∧ seq' = BlockManager.a_seq st.
Proof.
  unfold BlockManager.allocate. intros Hrun.
  apply bind_Ok in Hrun as (u & Hempty & Hrun).
  apply assert_Ok, bool_decide_eq_true in Hempty.
  apply bind_Ok in Hrun as (st & Hloop & Hrun). injection Hrun as <- <-.
  split; [done|]. by exists st.
Qed.

(** C1 (as amended).  [allocate(seq)] on the manager of a reachable world,
    at the pass for logical block [i]: [st] is the loop state before the
    pass and [st'] the one after it.  The flag [cache_miss] is set in [st]
    exactly when an earlier logical block of [seq] was a miss.  When block
    [i] has a match in the index (it is full, the index maps its chained
    hash [h] to a block [b], and [b] holds the same tokens):
    - if no earlier block was a miss, the pass is a cache hit: [block_size]
      is added to [num_cached_tokens], [b] is appended to the block table,
      and [b] gets its reference count incremented if it is in the used
      set, or else is taken out of the free deque into the used set with
      reference count 1;
    - if an earlier block was a miss, the pass appends the head of the free
      deque instead and leaves [num_cached_tokens] alone. *)
Theorem allocate_hit_until_first_miss (w : world) (seq : Sequence.t)
    (bm' : BlockManager.t) (seq' : Sequence.t) (i : Z) :
  reachable w →
  BlockManager.allocate (w_bm w) seq = Ok (bm', seq') →
  0 ≤ i < Sequence.num_blocks seq →
  ∃ st st' st_end,
    allocate_upto (w_bm w) seq i = Ok st ∧
    BlockManager.allocate_body i st = Ok st' ∧
    allocate_upto (w_bm w) seq (i + 1) = Ok st' ∧
    allocate_upto (w_bm w) seq (Sequence.num_blocks seq) = Ok st_end ∧
    bm' = BlockManager.a_self st_end ∧ seq' = BlockManager.a_seq st_end ∧
    (BlockManager.a_cache_miss st = true ↔ earlier_miss (w_bm w) seq i) ∧
    ∀ token_ids h b blk,
      index_match st i token_ids h b blk →
      (¬ earlier_miss (w_bm w) seq i →
       Sequence.num_cached_tokens (BlockManager.a_seq st')
       = Sequence.num_cached_tokens (BlockManager.a_seq st)
         + BlockManager.block_size (w_bm w) ∧
       Sequence.block_table (BlockManager.a_seq st')
       = Sequence.block_table (BlockManager.a_seq st) ++ [b] ∧
       (b ∈ BlockManager.used_block_ids (BlockManager.a_self st) →
        BlockManager.get_block (BlockManager.a_self st') b
        = Ok (Block.mk (Block.block_id blk) (Block.ref_count blk + 1)
                h token_ids) ∧
        BlockManager.free_block_ids (BlockManager.a_self st')
        = BlockManager.free_block_ids (BlockManager.a_self st) ∧
        BlockManager.used_block_ids (BlockManager.a_self st')
        = BlockManager.used_block_ids (BlockManager.a_self st)) ∧
       (b ∉ BlockManager.used_block_ids (BlockManager.a_self st) →
        Block.ref_count blk = 0 ∧
        b ∈ BlockManager.free_block_ids (BlockManager.a_self st) ∧
        BlockManager.get_block (BlockManager.a_self st') b
        = Ok (Block.mk (Block.block_id blk) 1 h token_ids) ∧
        deque_remove b (BlockManager.free_block_ids (BlockManager.a_self st))
        = Ok (BlockManager.free_block_ids (BlockManager.a_self st')) ∧
        BlockManager.used_block_ids (BlockManager.a_self st')
        = {[b]} ∪ BlockManager.used_block_ids (BlockManager.a_self st))) ∧
      (earlier_miss (w_bm w) seq i →
       ∃ b', head (BlockManager.free_block_ids (BlockManager.a_self st))
             = Some b' ∧
             Sequence.block_table (BlockManager.a_seq st')
             = Sequence.block_table (BlockManager.a_seq st) ++ [b'] ∧
             Sequence.num_cached_tokens (BlockManager.a_seq st')
             = Sequence.num_cached_tokens (BlockManager.a_seq st)).
Proof.
  intros Hreach Hrun Hi.
  pose proof (wi_bm _ (reachable_world_inv _ Hreach)) as Hinv.
  pose proof (reachable_index_inv _ Hreach) as Hidx.
  apply allocate_Ok in Hrun as (_ & st_end & Hend & -> & ->).
  assert (0 ≤ i + 1 ≤ Sequence.num_blocks seq) as Hi1 by lia.
  destruct (allocate_upto_prefix _ _ _ _ _ Hi1 Hend) as [st' Hst'].
  pose proof Hst' as Hsucc. rewrite allocate_upto_succ in Hsucc by lia.
  apply bind_Ok in Hsucc as (st & Hst & Hbody).
  exists st, st', st_end.
  split; [done|]. split; [done|]. split; [done|]. split; [done|].
  split; [done|]. split; [done|].
  pose proof Hst as Hst_nat. rewrite allocate_upto_nat in Hst_nat.
  destruct (allocate_upto_inv _ _ _ _ _ Hinv Hidx Hst_nat)
    as ([occ' Hinv'] & Hidx' & Hbs & Hflag).
  rewrite Z2Nat.id in Hflag by lia.
  split; [done|].
  intros token_ids h b blk (Hblock & Hlen & Hh & Hlook & Hget & Htoks).
  pose proof (inv_index _ _ Hinv' _ _ Hlook) as Hb.
  destruct (allocate_body_match i st token_ids h b blk
              Hblock Hlen Hh Hlook ltac:(lia) Hget Htoks) as [Hhit Hmiss].
  split.
  - intros Hno.
    assert (BlockManager.a_cache_miss st = false) as Hfalse.
    { destruct (BlockManager.a_cache_miss st); [|done].
      destruct Hno. by apply Hflag. }
    destruct (Hhit Hfalse) as [Hused Hfree].
    destruct (decide (b ∈ BlockManager.used_block_ids (BlockManager.a_self st)))
      as [Hu|Hu].
    + destruct (Hused Hu)
        as (st1 & Hrun1 & Hget1 & Hfree1 & Hused1 & Hcached & Htable & _).
      assert (st1 = st') as -> by congruence.
      rewrite <- Hbs. split; [done|]. split; [done|]. split; [done|].
      intros Hnu. by destruct Hnu.
    + assert (b ∈ BlockManager.free_block_ids (BlockManager.a_self st))
        as Hf.
      { destruct (proj1 (inv_cover _ _ Hinv' b) Hb); [done|].
        by destruct Hu. }
      assert (Block.ref_count blk = 0) as Hrc.
      { apply get_block_range in Hget; [|done].
        rewrite (inv_ref_count _ _ Hinv' _ _ Hget).
        rewrite Z2Nat.id by lia. by apply (inv_free _ _ Hinv'). }
      destruct (Hfree Hu Hrc Hf)
        as (st1 & free' & Hrun1 & Hget1 & Hrem & Hfree1 & Hused1
            & Hcached & Htable & _).
      assert (st1 = st') as -> by congruence.
      rewrite <- Hbs. split; [done|]. split; [done|].
      split; [intros Hu'; by destruct Hu|].
      intros _. rewrite Hfree1. done.
  - intros Hearlier.
    destruct (Hmiss (proj2 Hflag Hearlier) _ Hbody)
      as (b' & Hhead & Htable & Hcached & _).
    by exists b'.
Qed.

(** *** Which chain a hash is the hash of *)








End AllocateLoop.

(** ** The queues and the budgets of [schedule] *)

Lemma prefix_sublist {A} (l1 l2 : list A) :
  l1 `prefix_of` l2 → l1 `sublist_of` l2.
Proof. intros [k ->]. by apply sublist_inserts_r. Qed.

Section ScheduleQueues.
Context `{XXHash} `{Sequence.class_attrs}.

(** The configuration of a scheduler: the fields that no method assigns. *)
Definition limits (self : Scheduler.t) : Z * Z * Z :=
  (Scheduler.max_num_seqs self, Scheduler.max_num_batched_tokens self,
   Scheduler.eos self).

Lemma preempt_queues self v self' :
  Scheduler.preempt self v = Ok self' →
  Scheduler.waiting self' = v :: Scheduler.waiting self ∧
  Scheduler.running self' = Scheduler.running self ∧
  limits self' = limits self.
Proof.
  unfold Scheduler.preempt. intros Hrun. repeat step_result. done.
Qed.

(** The queues during the prefill loop of [schedule] called on [self]. *)
Definition prefill_queues (self : Scheduler.t) (st : Scheduler.sched_state)
  : Prop :=
  Scheduler.waiting self
  = Scheduler.s_scheduled st ++ Scheduler.waiting (Scheduler.s_self st) ∧
  Scheduler.running (Scheduler.s_self st)
  = Scheduler.running self ++ Scheduler.s_scheduled st ∧
  limits (Scheduler.s_self st) = limits self.

Lemma prefill_body_queues self st c :
  prefill_queues self st →
  Scheduler.prefill_body st = Ok c →
  prefill_queues self (ctl_state c).
Proof.
  intros (Hw & Hr & Hl) Hrun. unfold Scheduler.prefill_body in Hrun.
  apply bind_Ok in Hrun as (r & Hhead & Hrun).
  apply py_getitem_head in Hhead.
  apply bind_Ok in Hrun as (seq & _ & Hrun).
  destruct (_ || _) in Hrun; [by injection Hrun as <-|].
  apply bind_Ok in Hrun as ([bm' seq'] & _ & Hrun).
  injection Hrun as <-. unfold prefill_queues. simpl.
  destruct (Scheduler.waiting (Scheduler.s_self st)) as [|r0 rest];
    [done|].
  injection Hhead as ->. simpl.
  rewrite Hw, Hr, <- !(assoc_L (++)). done.
Qed.

(** The queues during the inner loop of the decode phase: [A] lists the
    sequences of both queues when the loop starts. *)
Definition room_queues (W A R : list nat) (l : Z * Z * Z)
    (self : Scheduler.t) : Prop :=
  Scheduler.waiting self ++ Scheduler.running self ≡ₚ A ∧
  W `suffix_of` Scheduler.waiting self ∧
  Scheduler.running self `prefix_of` R ∧
  limits self = l.

Lemma room_body_queues W A R l r self c :
  room_queues W A R l self →
  Scheduler.room_body r self = Ok c →
  match c with
  | Continue self' => room_queues W A R l self'
  | Break self' => room_queues W (r :: A) R l self'
  end.
Proof.
  intros (Hp & Hs & Hpre0 & Hl) Hrun. unfold Scheduler.room_body in Hrun.
  destruct (reverse (Scheduler.running self)) as [|victim rest] eqn:Hrev.
  - apply bind_Ok in Hrun as (self' & Hpre & Hrun). injection Hrun as <-.
    apply preempt_queues in Hpre as (Hw' & Hr' & Hl').
    unfold room_queues. rewrite Hw', Hr', Hl'.
    split_and!; [|by apply suffix_cons_r|done|done].
    simpl. by rewrite Hp.
  - apply bind_Ok in Hrun as (self' & Hpre & Hrun). injection Hrun as <-.
    apply preempt_queues in Hpre as (Hw' & Hr' & Hl').
    apply reverse_cons_inv in Hrev.
    unfold room_queues. rewrite Hw', Hr', Hl'. simpl.
    split_and!; [|by apply suffix_cons_r| |done].
    + rewrite <- Hp, Hrev.
      rewrite (Permutation_app_comm (reverse rest) [victim]). simpl.
      by rewrite Permutation_middle.
    + etrans; [|exact Hpre0]. rewrite Hrev. by apply prefix_app_r.
Qed.

(** The queues during the decode loop of [schedule] called on [self]. *)
Definition decode_queues (self : Scheduler.t) (st : Scheduler.sched_state)
  : Prop :=
  Scheduler.waiting (Scheduler.s_self st)
  ++ Scheduler.running (Scheduler.s_self st) ++ Scheduler.s_scheduled st
  ≡ₚ Scheduler.waiting self ++ Scheduler.running self ∧
  Scheduler.waiting self `suffix_of` Scheduler.waiting (Scheduler.s_self st) ∧
  Scheduler.s_scheduled st ++ Scheduler.running (Scheduler.s_self st)
  `sublist_of` Scheduler.running self ∧
  limits (Scheduler.s_self st) = limits self.

Lemma decode_body_queues self st c :
  decode_queues self st →
  Scheduler.decode_body st = Ok c →
  decode_queues self (ctl_state c).
Proof.
  intros (Hp & Hs & Hsub & Hl) Hrun. unfold Scheduler.decode_body in Hrun.
  apply bind_Ok in Hrun as (r & Hhead & Hrun).
  apply py_getitem_head in Hhead.
  destruct (Scheduler.running (Scheduler.s_self st)) as [|r0 rest]
    eqn:Hrunning; [done|].
  injection Hhead as ->. simpl tail in Hrun.
  apply bind_Ok in Hrun as (c1 & Hloop & Hrun).
  set (A := Scheduler.waiting (Scheduler.s_self st) ++ rest).
  apply (while_invariant_break
           (room_queues (Scheduler.waiting self) A rest (limits self))
           (room_queues (Scheduler.waiting self) (r :: A) rest
              (limits self)))
    in Hloop.
  - destruct c1 as [self1|self1].
    + destruct Hloop as [(Hp1 & Hs1 & Hpre1 & Hl1) _].
      apply bind_Ok in Hrun as (seq & _ & Hrun).
      apply bind_Ok in Hrun as ([bm' seq'] & _ & Hrun).
      injection Hrun as <-. unfold decode_queues. simpl.
      split_and!; [|done| |done].
      * rewrite (assoc_L (++)), Hp1, <- Hp. unfold A.
        rewrite <- !(assoc_L (++)). apply Permutation_app_head.
        rewrite (assoc_L (++) rest).
        rewrite (Permutation_app_comm (rest ++ _) [r]). simpl.
        done.
      * etrans; [|exact Hsub]. rewrite <- (assoc_L (++)).
        apply sublist_app; [done|]. simpl. apply sublist_skip.
        by apply prefix_sublist.
    + destruct Hloop as (Hp1 & Hs1 & Hpre1 & Hl1).
      injection Hrun as <-. unfold decode_queues. simpl.
      split_and!; [|done| |done].
      * rewrite (assoc_L (++)), Hp1, <- Hp. unfold A. simpl.
        rewrite <- (assoc_L (++)). apply Permutation_middle.
      * etrans; [|exact Hsub].
        apply sublist_app; [done|]. apply sublist_cons.
        by apply prefix_sublist.
  - intros s s' Hs0 _ Hb. exact (room_body_queues _ _ _ _ r s _ Hs0 Hb).
  - intros s s' Hs0 _ Hb. exact (room_body_queues _ _ _ _ r s _ Hs0 Hb).
  - done.
Qed.

(** [schedule] loses no sequence and assigns none of the limits. *)
Lemma schedule_keeps_sequences self self' batch is_prefill :
  Scheduler.schedule self = Ok (self', (batch, is_prefill)) →
  Scheduler.waiting self' ++ Scheduler.running self'
  ≡ₚ Scheduler.waiting self ++ Scheduler.running self ∧
  limits self' = limits self.
Proof.
  intros Hrun. unfold Scheduler.schedule in Hrun.
  apply bind_Ok in Hrun as (c & Hpre & Hrun).
  apply (while_invariant (prefill_queues self)) in Hpre;
    [|intros s c0 Hs Hb; exact (prefill_body_queues self s c0 Hs Hb)
     |unfold prefill_queues; simpl; by rewrite app_nil_r].
  cbv zeta in Hrun. destruct Hpre as (Hw1 & Hr1 & Hl1).
  case_bool_decide as Hsched; cbn [negb] in Hrun.
  - apply bind_Ok in Hrun as (c2 & Hdec & Hrun).
    rewrite Hsched in Hw1, Hr1. simpl in Hw1. rewrite app_nil_r in Hr1.
    apply (while_invariant (decode_queues self)) in Hdec;
      [|intros s c0 Hs Hb; exact (decode_body_queues self s c0 Hs Hb)|].
    + destruct Hdec as (Hp2 & _ & _ & Hl2).
      apply bind_Ok in Hrun as (u & _ & Hrun).
      injection Hrun as <- <- <-. simpl. split; [|done].
      rewrite <- Hp2. apply Permutation_app_head, Permutation_app_comm.
    + unfold decode_queues. rewrite Hsched, app_nil_r, <- Hw1, Hr1. done.
  - injection Hrun as <- <- <-. split; [|done].
    rewrite Hw1, Hr1, <- (assoc_L (++) (Scheduler.s_scheduled _)).
    rewrite (assoc_L (++) (Scheduler.waiting _)).
    apply Permutation_app_comm.
Qed.

(** X8.  What [schedule] does to the two queues when it returns: no
    sequence is lost or duplicated (the two queues together list the same
    sequences as before), and [max_num_seqs], [max_num_batched_tokens] and
    [eos] are not assigned.  A prefill batch is taken from the front of the
    waiting queue, in order, and put at the end of the running queue.  In
    a decode step the old waiting queue is the end of the new one
    (preempted sequences are pushed in front of it), the batch is the
    front of the new running queue, and the new running queue lists
    sequences of the old one in the same order. *)
Theorem schedule_queues (self self' : Scheduler.t) (batch : list nat)
    (is_prefill : bool) :
  Scheduler.schedule self = Ok (self', (batch, is_prefill)) →
  Scheduler.waiting self' ++ Scheduler.running self'
  ≡ₚ Scheduler.waiting self ++ Scheduler.running self ∧
  (if is_prefill
   then Scheduler.waiting self = batch ++ Scheduler.waiting self' ∧
        Scheduler.running self' = Scheduler.running self ++ batch
   else Scheduler.waiting self `suffix_of` Scheduler.waiting self' ∧
        batch `prefix_of` Scheduler.running self' ∧
        Scheduler.running self' `sublist_of` Scheduler.running self) ∧
  limits self' = limits self.
Proof.
  intros Hrun.
  destruct (schedule_keeps_sequences _ _ _ _ Hrun) as [Hperm Hlim].
  split; [done|]. split; [|done]. clear Hperm Hlim.
  unfold Scheduler.schedule in Hrun.
  apply bind_Ok in Hrun as (c & Hpre & Hrun).
  apply (while_invariant (prefill_queues self)) in Hpre;
    [|intros s c0 Hs Hb; exact (prefill_body_queues self s c0 Hs Hb)
     |unfold prefill_queues; simpl; by rewrite app_nil_r].
  cbv zeta in Hrun. destruct Hpre as (Hw1 & Hr1 & Hl1).
  case_bool_decide as Hsched; cbn [negb] in Hrun.
  - apply bind_Ok in Hrun as (c2 & Hdec & Hrun).
    rewrite Hsched in Hw1, Hr1. simpl in Hw1. rewrite app_nil_r in Hr1.
    apply (while_invariant (decode_queues self)) in Hdec;
      [|intros s c0 Hs Hb; exact (decode_body_queues self s c0 Hs Hb)
       |unfold decode_queues; by rewrite Hsched, app_nil_r, <- Hw1, Hr1].
    destruct Hdec as (_ & Hs2 & Hsub2 & _).
    apply bind_Ok in Hrun as (u & _ & Hrun).
    injection Hrun as <- <- <-. simpl.
    split_and!; [done|by apply prefix_app_r|done].
  - by injection Hrun as <- <- <-.
Qed.

End ScheduleQueues.

Section ScheduleBudget.
Context `{XXHash} `{Sequence.class_attrs}.

(** The tokens that a prefill of [batch] computes: for each sequence, its
    tokens that are not cached ([len(seq) - seq.num_cached_tokens], the
    summand of [num_batched_tokens]). *)
Definition batched_tokens (objs : list Sequence.t) (batch : list nat) : Z :=
  foldr (λ r acc,
           match objs !! r with
           | Some seq =>
               Sequence.__len__ seq - Sequence.num_cached_tokens seq
           | None => 0
           end + acc) 0 batch.

Lemma batched_tokens_app objs l1 l2 :
  batched_tokens objs (l1 ++ l2)
  = batched_tokens objs l1 + batched_tokens objs l2.
Proof. induction l1 as [|r l1 IH]; simpl; [done|]. rewrite IH. lia. Qed.

Lemma batched_tokens_insert objs r seq batch :
  r ∉ batch →
  batched_tokens (<[r := seq]> objs) batch = batched_tokens objs batch.
Proof.
  induction batch as [|x batch IH]; simpl; [done|].
  intros [Hne Hnin]%not_elem_of_cons.
  rewrite list_lookup_insert_ne by done. by rewrite IH.
Qed.

(** The counters of [schedule] called on [self]: [num_seqs] is the length
    of the batch and [num_batched_tokens] is the work of the batch; both
    respect their limit once a sequence is scheduled. *)
Definition budget_inv (self : Scheduler.t) (st : Scheduler.sched_state)
  : Prop :=
  Scheduler.s_num_seqs st = Z.of_nat (length (Scheduler.s_scheduled st)) ∧
  Scheduler.s_num_batched_tokens st
  = batched_tokens (Scheduler.objects (Scheduler.s_self st))
      (Scheduler.s_scheduled st) ∧
  limits (Scheduler.s_self st) = limits self ∧
  0 ≤ Scheduler.s_num_batched_tokens st ∧
  (Scheduler.s_scheduled st ≠ [] →
   Scheduler.s_num_seqs st ≤ Scheduler.max_num_seqs self ∧
   Scheduler.s_num_batched_tokens st
   ≤ Scheduler.max_num_batched_tokens self).

Lemma prefill_body_budget self st c :
  sched_inv (Scheduler.s_scheduled st) (Scheduler.s_self st) →
  (∀ r, r ∈ Scheduler.s_scheduled st →
        r ∈ Scheduler.running (Scheduler.s_self st)) →
  budget_inv self st →
  Scheduler.prefill_cond st = Ok true →
  Scheduler.prefill_body st = Ok c →
  budget_inv self (ctl_state c).
Proof.
  intros Hinv Hsub (Hn & Ht & Hl & Hpos & Hle) Hcond Hrun.
  destruct (prefill_body_inv st c Hinv Hsub Hrun) as [Hinv' _].
  unfold Scheduler.prefill_cond in Hcond. injection Hcond as Hcond.
  apply andb_true_iff in Hcond as [_ Hlt%Z.ltb_lt].
  unfold Scheduler.prefill_body in Hrun.
  apply bind_Ok in Hrun as (r & Hhead & Hrun).
  apply py_getitem_head in Hhead.
  apply bind_Ok in Hrun as (seq & Hderef & Hrun).
  apply deref_Ok in Hderef.
  destruct (_ <? _) eqn:Hfit in Hrun; [by injection Hrun as <-|].
  apply Z.ltb_ge in Hfit.
  destruct (negb _) in Hrun; [by injection Hrun as <-|]. simpl in Hrun.
  apply bind_Ok in Hrun as ([bm' seq'] & Halloc & Hrun).
  injection Hrun as <-. simpl in *.
  assert (r ∈ Scheduler.waiting (Scheduler.s_self st)) as Hrw.
  { destruct (Scheduler.waiting (Scheduler.s_self st)); [done|].
    injection Hhead as ->. by left. }
  destruct (si_disjoint _ _ Hinv r Hrw) as [_ Hrnb].
  destruct (si_batch _ _ Hinv' r) as (s & Hs & _ & _ & _ & Hc);
    [simpl; set_solver|].
  simpl in Hs. rewrite list_lookup_insert_eq in Hs
    by (by eapply lookup_lt_Some).
  injection Hs as <-. destruct Hc as [Hc _]. simpl in Hc.
  apply allocate_table_length in Halloc as [_ Hcore].
  pose proof (seq_core_num_tokens _ _ Hcore) as Hnum.
  injection Hl as Hl1 Hl2 Hl3.
  unfold budget_inv. simpl. split_and!.
  - rewrite length_app. simpl. lia.
  - rewrite batched_tokens_app, batched_tokens_insert by done. simpl.
    rewrite list_lookup_insert_eq by (by eapply lookup_lt_Some).
    simpl. unfold Sequence.__len__ in *. lia.
  - unfold limits. simpl. congruence.
  - unfold Sequence.__len__ in *. lia.
  - intros _. unfold Sequence.__len__ in *. lia.
Qed.

Lemma room_loop_limits r fuel self c :
  while fuel (Scheduler.room_cond r) (Scheduler.room_body r) self = Ok c →
  limits (ctl_state c) = limits self.
Proof.
  intros Hrun.
  apply (while_invariant (λ s, limits s = limits self)) in Hrun;
    [done| |done].
  intros s c0 Hs Hb. unfold Scheduler.room_body in Hb.
  destruct (reverse (Scheduler.running s)).
  - apply bind_Ok in Hb as (s' & Hpre & Hb). injection Hb as <-.
    apply preempt_queues in Hpre as (_ & _ & Hl). simpl. congruence.
  - apply bind_Ok in Hb as (s' & Hpre & Hb). injection Hb as <-.
    apply preempt_queues in Hpre as (_ & _ & Hl). simpl.
    by rewrite Hl, <- Hs.
Qed.

(** The decode loop counts the sequences it schedules. *)
Definition decode_budget (self : Scheduler.t) (st : Scheduler.sched_state)
  : Prop :=
  Scheduler.s_num_seqs st = Z.of_nat (length (Scheduler.s_scheduled st)) ∧
  limits (Scheduler.s_self st) = limits self ∧
  (Scheduler.s_scheduled st ≠ [] →
   Scheduler.s_num_seqs st ≤ Scheduler.max_num_seqs self).

Lemma decode_body_budget self st c :
  decode_budget self st →
  Scheduler.decode_cond st = Ok true →
  Scheduler.decode_body st = Ok c →
  decode_budget self (ctl_state c).
Proof.
  intros (Hn & Hl & Hle) Hcond Hrun.
  unfold Scheduler.decode_cond in Hcond. injection Hcond as Hcond.
  apply andb_true_iff in Hcond as [_ Hlt%Z.ltb_lt].
  unfold Scheduler.decode_body in Hrun.
  apply bind_Ok in Hrun as (r & _ & Hrun).
  apply bind_Ok in Hrun as (c1 & Hloop & Hrun).
  apply room_loop_limits in Hloop. injection Hl as Hl1 Hl2 Hl3.
  injection Hloop as Hm1 Hm2 Hm3. simpl in *.
  destruct c1 as [self1|self1]; simpl in *.
  - apply bind_Ok in Hrun as (seq & _ & Hrun).
    apply bind_Ok in Hrun as ([bm' seq'] & _ & Hrun).
    injection Hrun as <-. unfold decode_budget, limits. simpl.
    split_and!; [rewrite length_app; simpl; lia|congruence|lia].
  - injection Hrun as <-. unfold decode_budget, limits. simpl.
    split_and!; [done|congruence|done].
Qed.

(** X9.  The batch that [schedule] returns, from any state the engine
    reaches, respects the two limits of the configuration: it holds at
    least one and at most [max_num_seqs] sequences, and in a prefill batch
    the tokens to compute, [len(seq) - seq.num_cached_tokens] summed over
    the batch, are at most [max_num_batched_tokens] (and not negative). *)
Theorem schedule_budget (self self' : Scheduler.t) (batch : list nat)
    (is_prefill : bool) :
  engine_reachable self →
  Scheduler.schedule self = Ok (self', (batch, is_prefill)) →
  1 ≤ Z.of_nat (length batch) ≤ Scheduler.max_num_seqs self ∧
  (is_prefill = true →
   0 ≤ batched_tokens (Scheduler.objects self') batch
     ≤ Scheduler.max_num_batched_tokens self).
Proof.
  intros Hreach Hrun.
  pose proof (engine_reachable_inv self Hreach) as Hinv.
  unfold Scheduler.schedule in Hrun.
  apply bind_Ok in Hrun as (c & Hpre & Hrun).
  apply (while_invariant_break
           (λ st, (sched_inv (Scheduler.s_scheduled st) (Scheduler.s_self st)
                   ∧ ∀ r : nat, r ∈ Scheduler.s_scheduled st →
                          r ∈ Scheduler.running (Scheduler.s_self st))
                  ∧ budget_inv self st)
           (λ st, (sched_inv (Scheduler.s_scheduled st) (Scheduler.s_self st)
                   ∧ ∀ r : nat, r ∈ Scheduler.s_scheduled st →
                          r ∈ Scheduler.running (Scheduler.s_self st))
                  ∧ budget_inv self st)) in Hpre.
  - assert ((sched_inv (Scheduler.s_scheduled (ctl_state c))
               (Scheduler.s_self (ctl_state c))
             ∧ ∀ r : nat, r ∈ Scheduler.s_scheduled (ctl_state c) →
                    r ∈ Scheduler.running (Scheduler.s_self (ctl_state c)))
            ∧ budget_inv self (ctl_state c)) as [[Hinv1 Hsub1] Hb1].
    { destruct c; [by destruct Hpre|done]. }
    clear Hpre. cbv zeta in Hrun. destruct Hb1 as (Hn & Ht & Hl & Hpos & Hle).
    case_bool_decide as Hsched; cbn [negb] in Hrun.
    + apply bind_Ok in Hrun as (c2 & Hdec & Hrun).
      apply (while_invariant_break (decode_budget self)
               (decode_budget self)) in Hdec.
      * assert (decode_budget self (ctl_state c2)) as (Hn2 & _ & Hle2)
          by (destruct c2; [by destruct Hdec|done]).
        apply bind_Ok in Hrun as (u & Hassert & Hrun).
        apply assert_Ok, negb_true_iff, bool_decide_eq_false in Hassert.
        injection Hrun as <- <- <-. split; [|done].
        specialize (Hle2 Hassert).
        destruct (Scheduler.s_scheduled (ctl_state c2)); [done|].
        simpl in *. lia.
      * intros s s' Hs Hc Hb.
        exact (decode_body_budget self s _ Hs Hc Hb).
      * intros s s' Hs Hc Hb.
        exact (decode_body_budget self s _ Hs Hc Hb).
      * split_and!; [done|done|]. intros Hne. by destruct Hne.
    + injection Hrun as <- <- <-. specialize (Hle Hsched).
      split.
      * destruct (Scheduler.s_scheduled (ctl_state c)); [done|].
        simpl in *. lia.
      * intros _. rewrite <- Ht. lia.
  - intros s s' [[Hs1 Hs2] Hs3] Hc Hb.
    split; [exact (prefill_body_inv s _ Hs1 Hs2 Hb)|].
    exact (prefill_body_budget self s _ Hs1 Hs2 Hs3 Hc Hb).
  - intros s s' [[Hs1 Hs2] Hs3] Hc Hb.
    split; [exact (prefill_body_inv s _ Hs1 Hs2 Hb)|].
    exact (prefill_body_budget self s _ Hs1 Hs2 Hs3 Hc Hb).
  - split; [split; [done|by intros r ?%elem_of_nil]|].
    split_and!; try done.
Qed.
End ScheduleBudget.

(** ** The tokens of a sequence in the engine *)

Lemma py_slice_prefix {A} (l : list A) (n : Z) :
  0 ≤ n ≤ Z.of_nat (length l) → py_slice l 0 n = take (Z.to_nat n) l.
Proof.
  intros Hn. unfold py_slice, py_slice_bound.
  rewrite (proj2 (Z.ltb_ge 0 0)) by lia.
  rewrite (proj2 (Z.ltb_ge n 0)) by lia.
  rewrite Z.min_l, Z.min_l by lia. simpl. by rewrite Z.sub_0_r.
Qed.

Lemma py_slice_suffix {A} (l : list A) (n : Z) :
  0 ≤ n ≤ Z.of_nat (length l) →
  py_slice l n (Z.of_nat (length l)) = drop (Z.to_nat n) l.
Proof.
  intros Hn. unfold py_slice, py_slice_bound.
  rewrite (proj2 (Z.ltb_ge n 0)) by lia.
  rewrite (proj2 (Z.ltb_ge (Z.of_nat (length l)) 0)) by lia.
  rewrite Z.min_l, Z.min_l by lia.
  apply take_ge. rewrite length_drop. lia.
Qed.

Lemma deque_remove_NoDup `{EqDecision A} (x : A) (l l' : list A) :
  NoDup l → deque_remove x l = Ok l' →
  ∀ y, y ∈ l' ↔ y ∈ l ∧ y ≠ x.
Proof.
  intros Hnd Hrun y.
  apply deque_remove_Ok in Hrun as (l1 & l2 & -> & -> & Hx).
  apply NoDup_app in Hnd as (_ & Hdis & [Hx2 _]%NoDup_cons).
  rewrite !elem_of_app, elem_of_cons. split.
  - intros [Hy|Hy]; (split; [tauto|]); intros ->; done.
  - tauto.
Qed.

Section Generation.
Context `{XXHash} `{Sequence.class_attrs}.

(** The attributes of a sequence that only [append_token] assigns. *)
Definition gen_core (s : Sequence.t) : Z * list Z * Z * Z * Z * Z * bool :=
  (Sequence.seq_id s, Sequence.token_ids s, Sequence.last_token s,
   Sequence.num_tokens s, Sequence.num_prompt_tokens s,
   Sequence.max_tokens s, Sequence.ignore_eos s).

Definition same_gen (objs objs' : list Sequence.t) : Prop :=
  length objs' = length objs ∧
  ∀ r s s', objs !! r = Some s → objs' !! r = Some s' →
            gen_core s' = gen_core s.

Lemma same_gen_refl objs : same_gen objs objs.
Proof. split; [done|]. intros r s s' Hs Hs'. congruence. Qed.

Lemma same_gen_trans objs1 objs2 objs3 :
  same_gen objs1 objs2 → same_gen objs2 objs3 → same_gen objs1 objs3.
Proof.
  intros [Hl1 H1] [Hl2 H2]. split; [congruence|].
  intros r s s' Hs Hs'.
  destruct (lookup_lt_is_Some_2 objs2 r) as [s2 Hs2].
  { rewrite Hl1. by eapply lookup_lt_Some. }
  rewrite (H2 r s2 s' Hs2 Hs'). by eapply H1.
Qed.

Lemma same_gen_insert objs r s s' :
  objs !! r = Some s → gen_core s' = gen_core s →
  same_gen objs (<[r := s']> objs).
Proof.
  intros Hs Hc. split; [by rewrite length_insert|].
  intros r2 s2 s2' Hs2 [[-> [<- _]]|[_ Hs2']]%list_lookup_insert_Some;
    congruence.
Qed.

Lemma seq_core_gen_core s s' :
  seq_core s' = seq_core s → gen_core s' = gen_core s.
Proof. unfold seq_core, gen_core. intros [=]. congruence. Qed.

Lemma deallocate_gen_core bm seq bm' seq' :
  BlockManager.deallocate bm seq = Ok (bm', seq') →
  gen_core seq' = gen_core seq.
Proof.
  unfold BlockManager.deallocate. intros Hrun.
  apply bind_Ok in Hrun as (bm1 & _ & Hrun). by injection Hrun as _ <-.
Qed.

Lemma may_append_gen_core bm seq bm' seq' :
  BlockManager.may_append bm seq = Ok (bm', seq') →
  gen_core seq' = gen_core seq.
Proof.
  intros Hrun.
  apply may_append_Ok in Hrun
    as (last_id & last_block & _ & _
        & [(_ & _ & b & _ & _ & ->)
          |[(_ & _ & _ & t & p & h & _ & _ & _ & _ & ->)
           |(_ & _ & _ & _ & ->)]]); done.
Qed.

Lemma preempt_same_gen self v self' :
  Scheduler.preempt self v = Ok self' →
  same_gen (Scheduler.objects self) (Scheduler.objects self').
Proof.
  unfold Scheduler.preempt. intros Hrun.
  apply bind_Ok in Hrun as (seq & Hderef%deref_Ok & Hrun).
  apply bind_Ok in Hrun as ([bm' seq'] & Hde & Hrun).
  injection Hrun as <-. simpl.
  apply same_gen_insert with seq; [done|].
  by rewrite (deallocate_gen_core _ _ _ _ Hde).
Qed.

Lemma prefill_body_same_gen st c :
  Scheduler.prefill_body st = Ok c →
  same_gen (Scheduler.objects (Scheduler.s_self st))
    (Scheduler.objects (Scheduler.s_self (ctl_state c))).
Proof.
  intros Hrun. unfold Scheduler.prefill_body in Hrun.
  apply bind_Ok in Hrun as (r & _ & Hrun).
  apply bind_Ok in Hrun as (seq & Hderef%deref_Ok & Hrun).
  destruct (_ || _) in Hrun; [injection Hrun as <-; apply same_gen_refl|].
  apply bind_Ok in Hrun as ([bm' seq'] & Halloc & Hrun).
  injection Hrun as <-. simpl.
  apply allocate_table_length in Halloc as [_ Hcore].
  apply same_gen_insert with seq; [done|].
  by rewrite <- (seq_core_gen_core _ _ Hcore).
Qed.

Lemma room_loop_same_gen r fuel self c :
  while fuel (Scheduler.room_cond r) (Scheduler.room_body r) self = Ok c →
  same_gen (Scheduler.objects self) (Scheduler.objects (ctl_state c)).
Proof.
  intros Hrun.
  apply (while_invariant
           (λ s, same_gen (Scheduler.objects self) (Scheduler.objects s)))
    in Hrun; [done| |apply same_gen_refl].
  intros s c0 Hs Hb. unfold Scheduler.room_body in Hb.
  destruct (reverse (Scheduler.running s)).
  - apply bind_Ok in Hb as (s' & Hpre & Hb). injection Hb as <-.
    eapply same_gen_trans; [done|]. by eapply preempt_same_gen.
  - apply bind_Ok in Hb as (s' & Hpre & Hb). injection Hb as <-.
    eapply same_gen_trans; [done|]. by apply preempt_same_gen in Hpre.
Qed.

Lemma decode_body_same_gen st c :
  Scheduler.decode_body st = Ok c →
  same_gen (Scheduler.objects (Scheduler.s_self st))
    (Scheduler.objects (Scheduler.s_self (ctl_state c))).
Proof.
  intros Hrun. unfold Scheduler.decode_body in Hrun.
  apply bind_Ok in Hrun as (r & _ & Hrun).
  apply bind_Ok in Hrun as (c1 & Hloop & Hrun).
  apply room_loop_same_gen in Hloop. simpl in Hloop.
  destruct c1 as [self1|self1]; simpl in *.
  - apply bind_Ok in Hrun as (seq & Hderef%deref_Ok & Hrun).
    apply bind_Ok in Hrun as ([bm' seq'] & Happ & Hrun).
    injection Hrun as <-. simpl.
    eapply same_gen_trans; [done|].
    apply same_gen_insert with seq; [done|].
    by eapply may_append_gen_core.
  - by injection Hrun as <-.
Qed.

(** [schedule] assigns none of the attributes of a sequence that hold its
    tokens and its sampling parameters. *)
Lemma schedule_same_gen self self' batch is_prefill :
  Scheduler.schedule self = Ok (self', (batch, is_prefill)) →
  same_gen (Scheduler.objects self) (Scheduler.objects self').
Proof.
  intros Hrun. unfold Scheduler.schedule in Hrun.
  apply bind_Ok in Hrun as (c & Hpre & Hrun).
  apply (while_invariant
           (λ st, same_gen (Scheduler.objects self)
                    (Scheduler.objects (Scheduler.s_self st)))) in Hpre;
    [|intros s c0 Hs Hb; eapply same_gen_trans;
        [done|by apply prefill_body_same_gen]
     |apply same_gen_refl].
  cbv zeta in Hrun.
  case_bool_decide as Hsched; cbn [negb] in Hrun.
  - apply bind_Ok in Hrun as (c2 & Hdec & Hrun).
    apply (while_invariant
             (λ st, same_gen (Scheduler.objects self)
                      (Scheduler.objects (Scheduler.s_self st)))) in Hdec;
      [|intros s c0 Hs Hb; eapply same_gen_trans;
          [done|by apply decode_body_same_gen]
       |done].
    apply bind_Ok in Hrun as (u & _ & Hrun). by injection Hrun as <- <- <-.
  - by injection Hrun as <- <- <-.
Qed.

(** ** When a sequence stops *)

Definition queued (self : Scheduler.t) (r : nat) : Prop :=
  r ∈ Scheduler.waiting self ∨ r ∈ Scheduler.running self.

Definition gen_ok (self : Scheduler.t) (r : nat) (seq : Sequence.t) : Prop :=
  1 ≤ Sequence.num_prompt_tokens seq ≤ Sequence.num_tokens seq ∧
  Z.of_nat (length (Sequence.token_ids seq)) = Sequence.num_tokens seq ∧
  (1 ≤ Sequence.max_tokens seq →
   Sequence.num_completion_tokens seq ≤ Sequence.max_tokens seq) ∧
  (queued self r →
   (1 ≤ Sequence.max_tokens seq →
    Sequence.num_completion_tokens seq < Sequence.max_tokens seq) ∧
   (Sequence.ignore_eos seq = false →
    Scheduler.eos self ∉ Sequence.completion_token_ids seq)) ∧
  (¬ queued self r →
   1 ≤ Sequence.num_completion_tokens seq ∧
   (Sequence.num_completion_tokens seq = Sequence.max_tokens seq
    ∨ (Sequence.ignore_eos seq = false ∧
       last (Sequence.completion_token_ids seq)
       = Some (Scheduler.eos self)))) ∧
  (Sequence.ignore_eos seq = false →
   ∀ i : nat, Sequence.completion_token_ids seq !! i
              = Some (Scheduler.eos self) →
              Z.of_nat i = Sequence.num_completion_tokens seq - 1).

Definition gen_inv (self : Scheduler.t) : Prop :=
  ∀ r seq, Scheduler.objects self !! r = Some seq → gen_ok self r seq.

Lemma gen_ok_ext self self' r s s' :
  gen_core s' = gen_core s →
  (queued self' r ↔ queued self r) →
  Scheduler.eos self' = Scheduler.eos self →
  gen_ok self r s → gen_ok self' r s'.
Proof.
  intros Hc Hq He.
  unfold gen_ok, Sequence.completion_token_ids,
    Sequence.num_completion_tokens.
  injection Hc as _ -> _ -> -> -> ->. rewrite He, Hq. done.
Qed.

Lemma completion_append seq token_id :
  0 ≤ Sequence.num_prompt_tokens seq ≤ Sequence.num_tokens seq →
  Z.of_nat (length (Sequence.token_ids seq)) = Sequence.num_tokens seq →
  Sequence.completion_token_ids (Sequence.append_token seq token_id)
  = Sequence.completion_token_ids seq ++ [token_id] ∧
  Z.of_nat (length (Sequence.completion_token_ids seq))
  = Sequence.num_completion_tokens seq.
Proof.
  intros Hn Hlen.
  unfold Sequence.completion_token_ids, Sequence.num_completion_tokens.
  simpl. rewrite !py_slice_suffix by (rewrite ?length_app; simpl; lia).
  rewrite drop_app_le by lia. split; [done|].
  rewrite length_drop. lia.
Qed.

Lemma postprocess_body_gen r rest token_id self self' :
  sched_inv (r :: rest) self →
  (∀ x, x ∈ r :: rest → x ∈ Scheduler.running self) →
  gen_inv self →
  Scheduler.postprocess_body (r, token_id) self = Ok self' →
  gen_inv self' ∧
  ∃ seq seq',
    Scheduler.objects self !! r = Some seq ∧
    Scheduler.objects self' !! r = Some seq' ∧
    gen_core seq' = gen_core (Sequence.append_token seq token_id) ∧
    (∀ r2, r2 ≠ r →
           Scheduler.objects self' !! r2 = Scheduler.objects self !! r2) ∧
    (Sequence.status seq' = Sequence.FINISHED ↔ ¬ queued self' r).
Proof.
  intros Hinv Hsub Hgen Hrun.
  assert (r ∈ Scheduler.running self) as Hrr by (apply Hsub; by left).
  destruct (si_batch _ _ Hinv r) as (seq & Hr & Hst & _); [by left|].
  assert (r ∉ Scheduler.waiting self) as Hrw
    by (intros Hw; by destruct (si_disjoint _ _ Hinv r Hw)).
  pose proof (si_nodup_running _ _ Hinv) as Hnd.
  destruct (Hgen r seq Hr) as (Hnp & Hlen & Hmax & Hq & _ & Hidx).
  destruct Hq as [Hlt Heos]; [by right|].
  destruct (completion_append seq token_id ltac:(lia) Hlen) as [Hcomp Hclen].
  assert (r < length (Scheduler.objects self))%nat as Hrlt
    by (by eapply lookup_lt_Some).
  unfold Scheduler.postprocess_body in Hrun.
  rewrite (proj2 (deref_Ok self r seq) Hr) in Hrun. simpl in Hrun.
  set (seq1 := Sequence.append_token seq token_id) in *.
  assert (Sequence.num_completion_tokens seq1
          = Sequence.num_completion_tokens seq + 1) as Hn1
    by (unfold Sequence.num_completion_tokens; simpl; lia).
  destruct (_ || _) eqn:Hcond in Hrun.
  - apply bind_Ok in Hrun as ([bm' seq2] & Hde & Hrun).
    apply bind_Ok in Hrun as (running' & Hrem & Hrun).
    injection Hrun as <-. simpl in *.
    rewrite list_insert_insert_eq in *.
    pose proof (deque_remove_NoDup _ _ _ Hnd Hrem) as Hrun'.
    apply deallocate_gen_core in Hde as Hcore. simpl in Hcore.
    assert (¬ queued (Scheduler.mk (Scheduler.max_num_seqs self)
                        (Scheduler.max_num_batched_tokens self)
                        (Scheduler.eos self) bm' (Scheduler.waiting self)
                        running' (<[r := seq2]> (Scheduler.objects self))) r)
      as Hnq.
    { intros [Hw|Hx]; simpl in *; [done|]. apply Hrun' in Hx. by destruct Hx. }
    split.
    + intros r2 s2 [[-> [<- _]]|[Hne Hs2]]%list_lookup_insert_Some.
      * apply (gen_ok_ext
                 (Scheduler.mk (Scheduler.max_num_seqs self)
                    (Scheduler.max_num_batched_tokens self)
                    (Scheduler.eos self) bm' (Scheduler.waiting self)
                    running' (<[r2 := seq2]> (Scheduler.objects self)))
                 _ r2 seq1); [done|done|done|].
        unfold gen_ok. rewrite Hcomp, Hn1. simpl.
        split; [unfold seq1; simpl; lia|].
        split; [unfold seq1; simpl; rewrite length_app; simpl; lia|].
        split; [unfold seq1; simpl; lia|].
        split; [done|]. split.
        -- intros _. split; [unfold Sequence.num_completion_tokens in *; lia|].
           apply orb_true_iff in Hcond as [Hc|Hc].
           ++ apply andb_true_iff in Hc as [Hig%negb_true_iff Ht].
              apply bool_decide_eq_true in Ht. simpl in *.
              right. split; [done|]. by rewrite last_snoc, Ht.
           ++ apply bool_decide_eq_true in Hc. rewrite Hn1 in Hc. by left.
        -- intros Hig i Hi. apply lookup_app_Some in Hi as [Hi|[Hge Hi]].
           ++ exfalso. apply (Heos Hig). by eapply list_elem_of_lookup_2.
           ++ apply list_lookup_singleton_Some in Hi as [Hi _]. lia.
      * simpl in Hs2. rewrite list_lookup_insert_ne in Hs2 by done.
        apply (gen_ok_ext self _ r2 s2); [done| |done|by apply Hgen].
        unfold queued. simpl. rewrite Hrun'. naive_solver.
    + exists seq, seq2.
      rewrite list_lookup_insert_eq
        by (simpl; by rewrite ?length_insert).
      split_and!; [done|done|done| |].
      * intros r2 Hne. simpl. by rewrite !list_lookup_insert_ne.
      * split; [done|]. intros _.
        unfold BlockManager.deallocate in Hde.
        apply bind_Ok in Hde as (bm1 & _ & Hde). by injection Hde as _ <-.
  - injection Hrun as <-. simpl.
    apply orb_false_iff in Hcond as [Hc1 Hc2].
    apply bool_decide_eq_false in Hc2. rewrite Hn1 in Hc2. simpl in Hc2.
    split.
    + intros r2 s2 [[-> [<- _]]|[Hne Hs2]]%list_lookup_insert_Some.
      * apply (gen_ok_ext self _ r2 seq1); [done|done|done|].
        unfold gen_ok. rewrite Hcomp, Hn1. simpl.
        split; [unfold seq1; simpl; lia|].
        split; [unfold seq1; simpl; rewrite length_app; simpl; lia|].
        split; [unfold seq1; simpl; lia|].
        split; [|split].
        -- intros _. split; [lia|]. intros Hig.
           rewrite not_elem_of_app. split; [by apply Heos|].
           intros Heq%list_elem_of_singleton.
           apply andb_false_iff in Hc1 as [Hc1|Hc1].
           ++ simpl in Hc1. by rewrite Hig in Hc1.
           ++ apply bool_decide_eq_false in Hc1. simpl in Hc1. congruence.
        -- intros Hnq. exfalso. apply Hnq. by right.
        -- intros Hig i Hi. apply lookup_app_Some in Hi as [Hi|[Hge Hi]].
           ++ exfalso. apply (Heos Hig). by eapply list_elem_of_lookup_2.
           ++ apply list_lookup_singleton_Some in Hi as [Hi _]. lia.
      * apply (gen_ok_ext self _ r2 s2); [done|done|done|by apply Hgen].
    + exists seq, seq1. rewrite list_lookup_insert_eq by done.
      split_and!; [done|done|done| |].
      * intros r2 Hne. by rewrite list_lookup_insert_ne.
      * split; [simpl; congruence|]. intros Hnq. exfalso. apply Hnq.
        by right.
Qed.

Lemma postprocess_gen batch token_ids self self' :
  sched_inv batch self →
  (∀ x, x ∈ batch → x ∈ Scheduler.running self) →
  gen_inv self →
  Scheduler.postprocess self batch token_ids = Ok self' →
  gen_inv self'.
Proof.
  unfold Scheduler.postprocess.
  revert token_ids self. induction batch as [|r rest IH];
    intros token_ids self Hinv Hsub Hgen Hrun.
  - simpl in Hrun. by injection Hrun as <-.
  - destruct token_ids as [|t ts]; [simpl in Hrun; by injection Hrun as <-|].
    simpl in Hrun. apply bind_Ok in Hrun as (self1 & Hbody & Hrun).
    destruct (postprocess_body_inv _ _ _ _ _ Hinv Hsub Hbody)
      as [Hinv1 Hsub1].
    destruct (postprocess_body_gen _ _ _ _ _ Hinv Hsub Hgen Hbody)
      as [Hgen1 _].
    by eapply (IH ts self1).
Qed.

Lemma postprocess_tokens batch token_ids self self' :
  sched_inv batch self →
  (∀ x, x ∈ batch → x ∈ Scheduler.running self) →
  gen_inv self →
  Scheduler.postprocess self batch token_ids = Ok self' →
  (∀ (i : nat) r t,
     batch !! i = Some r → token_ids !! i = Some t →
     ∃ seq seq',
       Scheduler.objects self !! r = Some seq ∧
       Scheduler.objects self' !! r = Some seq' ∧
       gen_core seq' = gen_core (Sequence.append_token seq t)) ∧
  (∀ r, r ∉ take (length token_ids) batch →
        Scheduler.objects self' !! r = Scheduler.objects self !! r).
Proof.
  unfold Scheduler.postprocess.
  revert token_ids self. induction batch as [|r rest IH];
    intros token_ids self Hinv Hsub Hgen Hrun.
  - simpl in Hrun. injection Hrun as <-. split; [by intros i r t ?|done].
  - destruct token_ids as [|t ts].
    { simpl in Hrun. injection Hrun as <-. split; [by intros i r0 t _ ?|done]. }
    simpl in Hrun. apply bind_Ok in Hrun as (self1 & Hbody & Hrun).
    destruct (postprocess_body_inv _ _ _ _ _ Hinv Hsub Hbody)
      as [Hinv1 Hsub1].
    destruct (postprocess_body_gen _ _ _ _ _ Hinv Hsub Hgen Hbody)
      as (Hgen1 & seq & seq1 & Hs & Hs1 & Hcore & Hother & _).
    destruct (IH ts self1 Hinv1 Hsub1 Hgen1 Hrun) as [Hin Hout].
    pose proof (si_nodup_batch _ _ Hinv) as [Hrn Hnd]%NoDup_cons.
    split.
    + intros [|i] r2 t2 Hr2 Ht2; simpl in Hr2, Ht2.
      * injection Hr2 as <-. injection Ht2 as <-. exists seq, seq1.
        split; [done|]. split; [|done]. rewrite Hout; [done|].
        intros Hx. apply Hrn. by apply (subseteq_take (length ts) rest).
      * destruct (Hin i r2 t2 Hr2 Ht2) as (s2 & s2' & Hs2 & Hs2' & Hc2).
        exists s2, s2'. split; [|done]. rewrite <- Hother; [done|].
        intros ->. apply Hrn. by eapply list_elem_of_lookup_2.
    + intros r2 Hr2. simpl in Hr2. apply not_elem_of_cons in Hr2 as [Hne Hr2].
      rewrite Hout by done. by apply Hother.
Qed.

Lemma add_request_gen self prompt params self' :
  gen_inv self →
  Scheduler.add_request self prompt params = Ok self' →
  gen_inv self'.
Proof.
  intros Hgen Hrun. unfold Scheduler.add_request in Hrun.
  apply bind_Ok in Hrun as (seq & Hinit & Hrun). injection Hrun as <-.
  unfold Sequence.__init__ in Hinit.
  apply bind_Ok in Hinit as (l & Hlast & Hinit). injection Hinit as <-.
  assert (1 ≤ Z.of_nat (length prompt)) as Hlen.
  { apply py_getitem_last in Hlast. destruct prompt; [done|simpl; lia]. }
  intros r s Hs. simpl in Hs.
  apply lookup_app_Some in Hs as [Hs|[Hge Hs]].
  - apply (gen_ok_ext self _ r s); [done| |done|by apply Hgen].
    unfold queued, Scheduler.add. simpl. rewrite elem_of_app.
    apply lookup_lt_Some in Hs.
    rewrite list_elem_of_singleton. split; [|tauto].
    intros [[?|Hx]|?]; [tauto|lia|tauto].
  - apply list_lookup_singleton_Some in Hs as [Hr <-].
    unfold gen_ok, Sequence.completion_token_ids,
      Sequence.num_completion_tokens. simpl.
    rewrite py_slice_suffix by lia.
    rewrite Nat2Z.id, drop_all, Z.sub_diag.
    split_and!; try lia; try done.
    + intros _. split; [lia|]. intros _. apply not_elem_of_nil.
    + intros Hnq. exfalso. apply Hnq. left. unfold Scheduler.add. simpl.
      apply elem_of_app. right. apply list_elem_of_singleton. lia.
Qed.

Lemma engine_reachable_gen self : engine_reachable self → gen_inv self.
Proof.
  induction 1 as [m1 m2 eos n self Hbs Hinit
                 |self prompt params self' Hreach IH Hadd
                 |self runner self' Hreach IH Hrunner Hstep].
  - unfold Scheduler.__init__ in Hinit.
    apply bind_Ok in Hinit as (bm & _ & Hinit). injection Hinit as <-.
    by intros r seq Hs.
  - by eapply add_request_gen.
  - pose proof (engine_reachable_inv self Hreach) as Hinv.
    unfold Scheduler.step in Hstep.
    apply bind_Ok in Hstep as ([self1 [batch is_prefill]] & Hsched & Hpost).
    destruct (schedule_inv _ _ _ _ Hinv Hsched) as (Hinv1 & Hsub & _).
    destruct (schedule_keeps_sequences _ _ _ _ Hsched) as [Hperm Hlim].
    destruct (schedule_same_gen _ _ _ _ Hsched) as [Hlen Hsame].
    eapply postprocess_gen; [done|done| |done].
    intros r s1 Hs1.
    destruct (lookup_lt_is_Some_2 (Scheduler.objects self) r) as [s Hs].
    { rewrite <- Hlen. by eapply lookup_lt_Some. }
    apply (gen_ok_ext self _ r s); [by eapply Hsame| | |by apply IH].
    + unfold queued. rewrite <- !elem_of_app. by rewrite Hperm.
    + by injection Hlim.
Qed.

Lemma generation_stops_inv self r seq :
  engine_reachable self →
  Scheduler.objects self !! r = Some seq →
  Z.of_nat (length (Sequence.completion_token_ids seq))
  = Sequence.num_completion_tokens seq ∧
  (Sequence.status seq = Sequence.FINISHED ↔ ¬ queued self r) ∧
  (¬ queued self r → 1 ≤ Sequence.num_completion_tokens seq).
Proof.
  intros Hreach Hs.
  pose proof (engine_reachable_inv self Hreach) as Hinv.
  destruct (engine_reachable_gen self Hreach r seq Hs)
    as (Hnp & Hlen & Hmax & Hq & Hnq & Hidx).
  split_and!.
  - unfold Sequence.completion_token_ids, Sequence.num_completion_tokens.
    rewrite py_slice_suffix by lia. rewrite length_drop. lia.
  - destruct (si_others _ _ Hinv r seq Hs) as [Hw|[Hrn|[Hb|Hf]]].
    + destruct (si_waiting _ _ Hinv r Hw) as (s' & Hs' & Hst & _).
      assert (s' = seq) as -> by congruence.
      split; [congruence|]. intros Hn. exfalso. apply Hn. by left.
    + destruct (si_running _ _ Hinv r Hrn) as (s' & Hs' & Hst & _);
        [by intros ?%elem_of_nil|].
      assert (s' = seq) as -> by congruence.
      split; [congruence|]. intros Hn. exfalso. apply Hn. by right.
    + by apply elem_of_nil in Hb.
    + destruct Hf as (Hst & _). split; [|done]. intros _ [Hw|Hrn].
      * destruct (si_waiting _ _ Hinv r Hw) as (s' & Hs' & Hst' & _).
        assert (s' = seq) as -> by congruence. congruence.
      * destruct (si_running _ _ Hinv r Hrn) as (s' & Hs' & Hst' & _);
          [by intros ?%elem_of_nil|].
        assert (s' = seq) as -> by congruence. congruence.
  - intros Hn. by apply Hnq.
Qed.

(** X10.  When generation stops.  For every sequence of a state the
    engine reaches: [completion_token_ids] has [num_completion_tokens]
    elements; with [max_tokens >= 1] the sequence never holds more than
    [max_tokens] completion tokens, and fewer while it is not FINISHED;
    with [ignore_eos] off, no completion token of a sequence that is not
    FINISHED is EOS, and EOS can only be the last completion token; a
    FINISHED sequence has at least one completion token, and it has
    [max_tokens] of them or (with [ignore_eos] off) ends with EOS. *)
Theorem generation_stops (self : Scheduler.t) (r : nat) (seq : Sequence.t) :
  engine_reachable self →
  Scheduler.objects self !! r = Some seq →
  Z.of_nat (length (Sequence.completion_token_ids seq))
  = Sequence.num_completion_tokens seq ∧
  (1 ≤ Sequence.max_tokens seq →
   Sequence.num_completion_tokens seq ≤ Sequence.max_tokens seq) ∧
  (Sequence.status seq ≠ Sequence.FINISHED →
   (1 ≤ Sequence.max_tokens seq →
    Sequence.num_completion_tokens seq < Sequence.max_tokens seq) ∧
   (Sequence.ignore_eos seq = false →
    Scheduler.eos self ∉ Sequence.completion_token_ids seq)) ∧
  (Sequence.status seq = Sequence.FINISHED →
   1 ≤ Sequence.num_completion_tokens seq ∧
   (Sequence.num_completion_tokens seq = Sequence.max_tokens seq
    ∨ (Sequence.ignore_eos seq = false ∧
       last (Sequence.completion_token_ids seq)
       = Some (Scheduler.eos self)))) ∧
  (Sequence.ignore_eos seq = false →
   ∀ i : nat, Sequence.completion_token_ids seq !! i
              = Some (Scheduler.eos self) →
              Z.of_nat i = Sequence.num_completion_tokens seq - 1).
Proof.
  intros Hreach Hs.
  destruct (engine_reachable_gen self Hreach r seq Hs)
    as (Hnp & Hlen & Hmax & Hq & Hnq & Hidx).
  destruct (generation_stops_inv self r seq Hreach Hs) as (Hclen & Hfin & _).
  split_and!; [done|done| | |done].
  - intros Hst. apply Hq.
    destruct (decide (queued self r)) as [|Hn]; [done|].
    by apply Hfin in Hn.
  - intros Hst. apply Hnq. by apply Hfin.
Qed.

Lemma mapM_deref self l seqs :
  mapM (Scheduler.deref self) l = Ok seqs →
  Forall2 (λ r seq, Scheduler.objects self !! r = Some seq) l seqs.
Proof.
  revert seqs. induction l as [|r l IH]; intros seqs Hrun; simpl in Hrun.
  - injection Hrun as <-. constructor.
  - apply bind_Ok in Hrun as (seq & Hseq%deref_Ok & Hrun).
    apply bind_Ok in Hrun as (rest & Hrest & Hrun). injection Hrun as <-.
    constructor; [done|by apply IH].
Qed.

Lemma sum_len_ge (seqs : list Sequence.t) :
  Forall (λ seq, 1 ≤ Sequence.num_tokens seq) seqs →
  Z.of_nat (length seqs) ≤ foldr Z.add 0 (Sequence.__len__ <$> seqs).
Proof.
  induction 1 as [|seq seqs Hseq _ IH]; [done|].
  rewrite fmap_cons. cbn [foldr length]. unfold Sequence.__len__ at 1. lia.
Qed.

(** X11.  The value of [LLMEngine.step], from any state the engine
    reaches, with a model runner that returns one token for each
    scheduled sequence.  [num_tokens] tells the two phases apart, as
    [generate] assumes: it is at least the size of the batch, hence
    positive, after a prefill, and minus the size of the batch, hence
    negative, after a decode.  The outputs are exactly the pairs
    [(seq_id, completion_token_ids)] of the sequences of the batch that
    are FINISHED after the step; each of them has at least one completion
    token, is in neither queue, and has given back its blocks. *)
Theorem step_outputs (self self' : Scheduler.t)
    (runner : list nat → bool → list Z) (outputs : list (Z * list Z))
    (num_tokens : Z) :
  engine_reachable self → answers_each runner →
  LLMEngine.step self runner = Ok (self', (outputs, num_tokens)) →
  ∃ self1 batch is_prefill,
    Scheduler.schedule self = Ok (self1, (batch, is_prefill)) ∧
    Scheduler.postprocess self1 batch (runner batch is_prefill) = Ok self' ∧
    (if is_prefill
     then 1 ≤ Z.of_nat (length batch) ≤ num_tokens
     else num_tokens = - Z.of_nat (length batch) ∧ num_tokens ≤ -1) ∧
    ∀ id toks,
      (id, toks) ∈ outputs
      ↔ ∃ r seq,
          r ∈ batch ∧ Scheduler.objects self' !! r = Some seq ∧
          Sequence.status seq = Sequence.FINISHED ∧
          id = Sequence.seq_id seq ∧
          toks = Sequence.completion_token_ids seq ∧
          toks ≠ [] ∧
          r ∉ Scheduler.waiting self' ∧ r ∉ Scheduler.running self' ∧
          Sequence.block_table seq = [].
Proof.
  intros Hreach Hrunner Hrun. unfold LLMEngine.step in Hrun.
  apply bind_Ok in Hrun as ([self1 [batch is_prefill]] & Hsched & Hrun).
  cbv zeta in Hrun.
  apply bind_Ok in Hrun as (self2 & Hpost & Hrun).
  apply bind_Ok in Hrun as (seqs & Hseqs & Hrun).
  injection Hrun as <- <- <-.
  assert (engine_reachable self2) as Hreach2.
  { apply (engine_step self runner); [done|done|].
    unfold Scheduler.step. rewrite Hsched. simpl. exact Hpost. }
  pose proof (engine_reachable_inv self Hreach) as Hinv.
  pose proof (engine_reachable_inv self2 Hreach2) as Hinv2.
  destruct (schedule_inv _ _ _ _ Hinv Hsched) as (_ & _ & Hne).
  apply mapM_deref in Hseqs.
  pose proof (Forall2_length _ _ _ Hseqs) as Hlen.
  assert (1 ≤ Z.of_nat (length batch)) as Hpos
    by (destruct batch; [done|simpl; lia]).
  exists self1, batch, is_prefill. split_and!; [done|done| |].
  - destruct is_prefill; [|lia]. split; [done|]. rewrite Hlen.
    apply sum_len_ge. apply Forall_forall. intros seq Hseq.
    apply list_elem_of_lookup in Hseq as [i Hi].
    destruct (Forall2_lookup_r _ _ _ _ _ Hseqs Hi) as (r & _ & Hr).
    by eapply (si_tokens _ _ Hinv2).
  - intros id toks. rewrite list_elem_of_fmap. split.
    + intros (seq & [= -> ->] & [Hfin Hseq]%list_elem_of_filter).
      apply bool_decide_eq_true in Hfin.
      apply list_elem_of_lookup in Hseq as [i Hi].
      destruct (Forall2_lookup_r _ _ _ _ _ Hseqs Hi) as (r & Hri & Hr).
      exists r, seq.
      destruct (generation_stops_inv self2 r seq Hreach2 Hr)
        as (Hclen & Hfq & Hone).
      destruct (si_others _ _ Hinv2 r seq Hr) as [Hw|[Hrn|[Hb|Hf]]].
      * exfalso. apply Hfq in Hfin. apply Hfin. by left.
      * exfalso. apply Hfq in Hfin. apply Hfin. by right.
      * by apply elem_of_nil in Hb.
      * destruct Hf as (_ & Htab & _). apply Hfq in Hfin as Hnq.
        split_and!; try done.
        -- by eapply list_elem_of_lookup_2.
        -- intros Hnil. specialize (Hone Hnq). rewrite Hnil in Hclen.
           simpl in Hclen. lia.
        -- intros Hw. apply Hnq. by left.
        -- intros Hw. apply Hnq. by right.
    + intros (r & seq & Hr & Hs & Hfin & -> & -> & _).
      exists seq. split; [done|]. apply list_elem_of_filter.
      split; [by apply bool_decide_eq_true|].
      apply list_elem_of_lookup in Hr as [i Hi].
      destruct (Forall2_lookup_l _ _ _ _ _ Hseqs Hi) as (seq' & Hi' & Hs').
      assert (seq' = seq) as -> by congruence.
      by eapply list_elem_of_lookup_2.
Qed.

(** X12.  [postprocess] on the batch that [schedule] returned, from any
    state the engine reaches: the [i]-th token goes to the [i]-th sequence
    of the batch ([token_ids] grows by that token at the end, [last_token]
    is that token, [num_tokens] grows by one and [num_prompt_tokens] is
    unchanged), and a sequence that is not among the first
    [len(token_ids)] of the batch is left as it is. *)
Theorem postprocess_appends (self self1 self' : Scheduler.t)
    (batch : list nat) (is_prefill : bool) (token_ids : list Z) :
  engine_reachable self →
  Scheduler.schedule self = Ok (self1, (batch, is_prefill)) →
  Scheduler.postprocess self1 batch token_ids = Ok self' →
  (∀ (i : nat) r t,
     batch !! i = Some r → token_ids !! i = Some t →
     ∃ seq seq',
       Scheduler.objects self1 !! r = Some seq ∧
       Scheduler.objects self' !! r = Some seq' ∧
       Sequence.token_ids seq' = Sequence.token_ids seq ++ [t] ∧
       Sequence.last_token seq' = t ∧
       Sequence.num_tokens seq' = Sequence.num_tokens seq + 1 ∧
       Sequence.num_prompt_tokens seq' = Sequence.num_prompt_tokens seq) ∧
  (∀ r, r ∉ take (length token_ids) batch →
        Scheduler.objects self' !! r = Scheduler.objects self1 !! r).
Proof.
  intros Hreach Hsched Hpost.
  pose proof (engine_reachable_inv self Hreach) as Hinv.
  destruct (schedule_inv _ _ _ _ Hinv Hsched) as (Hinv1 & Hsub & _).
  destruct (schedule_keeps_sequences _ _ _ _ Hsched) as [Hperm Hlim].
  destruct (schedule_same_gen _ _ _ _ Hsched) as [Hlen Hsame].
  assert (gen_inv self1) as Hgen1.
  { intros r s1 Hs1.
    destruct (lookup_lt_is_Some_2 (Scheduler.objects self) r) as [s Hs].
    { rewrite <- Hlen. by eapply lookup_lt_Some. }
    apply (gen_ok_ext self _ r s);
      [by eapply Hsame| | |by apply (engine_reachable_gen self Hreach)].
    - unfold queued. rewrite <- !elem_of_app. by rewrite Hperm.
    - by injection Hlim. }
  destruct (postprocess_tokens _ _ _ _ Hinv1 Hsub Hgen1 Hpost) as [Hin Hout].
  split; [|done].
  intros i r t Hr Ht.
  destruct (Hin i r t Hr Ht) as (seq & seq' & Hs & Hs' & Hcore).
  exists seq, seq'. split; [done|]. split; [done|].
  injection Hcore as _ -> -> -> -> _ _. done.
Qed.

End Generation.

(** ** The idle engine, and the blocks that sequences share *)

Section EngineMore.
Context `{XXHash} `{Sequence.class_attrs}.

(** [schedule] with both queues empty. *)
Lemma schedule_idle self :
  Scheduler.is_finished self = true →
  Scheduler.schedule self = Raise AssertionError.
Proof.
  unfold Scheduler.is_finished.
  intros [Hw%bool_decide_eq_true Hr%bool_decide_eq_true]%andb_true_iff.
  unfold Scheduler.schedule. rewrite Hw. simpl.
  rewrite (bool_decide_eq_true_2 _ Hw). simpl.
  by rewrite (bool_decide_eq_true_2 _ Hr).
Qed.

(** X13.  [is_finished] in a state the engine reaches: it returns True
    exactly when every sequence that was added is FINISHED.  Then no
    sequence holds a block, the used set is empty, the free deque holds the
    whole pool, and a further [step] raises AssertionError (at
    [assert scheduled_seqs]), whatever the model runner. *)
Theorem engine_is_finished (self : Scheduler.t) :
  engine_reachable self →
  (LLMEngine.is_finished self = true
   ↔ ∀ r seq, Scheduler.objects self !! r = Some seq →
              Sequence.status seq = Sequence.FINISHED) ∧
  (LLMEngine.is_finished self = true →
   (∀ runner, Scheduler.step self runner = Raise AssertionError) ∧
   (∀ r seq, Scheduler.objects self !! r = Some seq →
             Sequence.block_table seq = []) ∧
   BlockManager.used_block_ids (Scheduler.block_manager self) = ∅ ∧
   length (BlockManager.free_block_ids (Scheduler.block_manager self))
   = length (BlockManager.blocks (Scheduler.block_manager self))).
Proof.
  intros Hreach. pose proof (engine_reachable_inv self Hreach) as Hinv.
  assert (LLMEngine.is_finished self = true
          ↔ Scheduler.waiting self = [] ∧ Scheduler.running self = [])
    as Hfin.
  { unfold LLMEngine.is_finished, Scheduler.is_finished.
    by rewrite andb_true_iff, !bool_decide_eq_true. }
  split.
  - rewrite Hfin. split.
    + intros [Hw Hr] r seq Hs.
      destruct (si_others _ _ Hinv r seq Hs) as [Hx|[Hx|[Hx|Hf]]].
      * rewrite Hw in Hx. by apply elem_of_nil in Hx.
      * rewrite Hr in Hx. by apply elem_of_nil in Hx.
      * by apply elem_of_nil in Hx.
      * by destruct Hf.
    + intros Hall. split.
      * destruct (Scheduler.waiting self) as [|r w] eqn:Hw; [done|].
        destruct (si_waiting _ _ Hinv r) as (seq & Hs & Hst & _);
          [rewrite Hw; by left|].
        specialize (Hall r seq Hs). congruence.
      * destruct (Scheduler.running self) as [|r w] eqn:Hr; [done|].
        destruct (si_running _ _ Hinv r) as (seq & Hs & Hst & _);
          [rewrite Hr; by left|by intros ?%elem_of_nil|].
        specialize (Hall r seq Hs). congruence.
  - intros Hf. pose proof Hf as [Hw Hr]%Hfin.
    assert (∀ r seq, Scheduler.objects self !! r = Some seq →
                     Sequence.block_table seq = []) as Htab.
    { intros r seq Hs.
      destruct (si_others _ _ Hinv r seq Hs) as [Hx|[Hx|[Hx|Hfo]]].
      - rewrite Hw in Hx. by apply elem_of_nil in Hx.
      - rewrite Hr in Hx. by apply elem_of_nil in Hx.
      - by apply elem_of_nil in Hx.
      - by destruct Hfo as (_ & ? & _). }
    pose proof (si_wd _ _ Hinv) as [Hworld _ _].
    pose proof (wi_bm _ Hworld) as Hbm. simpl in Hbm.
    assert (BlockManager.used_block_ids (Scheduler.block_manager self) = ∅)
      as Hempty.
    { apply elem_of_equiv_empty_L. intros b Hb.
      apply (inv_used _ _ Hbm), total_occurrences_pos in Hb.
      destruct Hb as (r & seq & Hs & Hin). rewrite (Htab r seq Hs) in Hin.
      by apply elem_of_nil in Hin. }
    split_and!; [|done|done|].
    + intros runner. unfold Scheduler.step.
      by rewrite (schedule_idle self Hf).
    + pose proof (pool_total _ (inv_pool _ _ Hbm)) as Htot.
      rewrite Hempty, size_empty in Htot. lia.
Qed.

(** X14.  In every state the engine reaches, a block that is listed in
    the block tables of two different sequences is a full, hashed block:
    its hash is not the sentinel (it is an unsigned 64-bit value), it holds
    [block_size] tokens and its reference count is at least 2.  A block
    whose hash is unset, such as the block a sequence is filling, belongs
    to one sequence only. *)
Theorem shared_blocks_are_hashed (self : Scheduler.t) (r1 r2 : nat)
    (seq1 seq2 : Sequence.t) (b : Z) :
  engine_reachable self →
  Scheduler.objects self !! r1 = Some seq1 →
  Scheduler.objects self !! r2 = Some seq2 →
  r1 ≠ r2 →
  b ∈ Sequence.block_table seq1 → b ∈ Sequence.block_table seq2 →
  ∃ blk,
    BlockManager.get_block (Scheduler.block_manager self) b = Ok blk ∧
    Block.hash blk ≠ -1 ∧ 0 ≤ Block.hash blk < 2 ^ 64 ∧
    Z.of_nat (length (Block.token_ids blk)) = Sequence.block_size ∧
    2 ≤ Block.ref_count blk.
Proof.
  intros Hreach Hs1 Hs2 Hne Hb1 Hb2.
  pose proof (engine_reachable_inv self Hreach) as Hinv.
  pose proof (si_wd _ _ Hinv) as [Hworld Hbs Hex].
  pose proof Hworld as [Hbsz Hpos Hbm Hhash Htab Hlen]. simpl in *.
  assert (0 ≤ b < pool_size (Scheduler.block_manager self)) as Hb
    by (by eapply Htab).
  destruct (get_block_exists _ _ Hb) as [blk Hget].
  pose proof (contents_lookup _ _ _ Hb Hget) as Hc.
  pose proof (total_occurrences_two _ _ _ _ _ b Hne Hs1 Hs2) as Htwo.
  apply occurrences_elem in Hb1, Hb2.
  exists blk. split; [done|].
  assert (Block.hash blk ≠ -1) as Hh.
  { intros Hh. rewrite Hh in Hc. apply Hex in Hc.
    rewrite Z2Nat.id in Hc by lia. lia. }
  split; [done|].
  pose proof (proj1 (get_block_range _ _ _ Hb) Hget) as Hlook.
  destruct (Hhash _ _ Hlook) as [_ Hvalid].
  destruct (Hvalid Hh) as (Hlen' & L & HL & Hchain).
  assert (0 ≤ Block.hash blk < 2 ^ 64) as Hrange.
  { unfold chain_hash in Hchain. rewrite for_each_app in Hchain.
    apply bind_Ok in Hchain as (h0 & _ & Hchain). simpl in Hchain.
    apply bind_Ok in Hchain as (h1 & Hh1 & Hchain). injection Hchain as <-.
    by apply compute_hash_range in Hh1. }
  split; [done|]. split; [by rewrite Hlen', Hbsz|].
  rewrite (inv_ref_count _ _ Hbm _ _ Hlook).
  rewrite Z2Nat.id by lia. lia.
Qed.

End EngineMore.

(** ** [can_allocate] and [deallocate] in a reachable world *)

Lemma size_union_list (U : gset Z) (l : list Z) :
  (size (U ∪ list_to_set l) ≤ size U + length l)%nat.
Proof.
  induction l as [|x l IH]; simpl.
  - rewrite (right_id_L ∅ (∪)). lia.
  - replace (U ∪ ({[x]} ∪ list_to_set l))
      with ({[x]} ∪ (U ∪ list_to_set l)) by set_solver.
    rewrite size_union_alt, size_singleton.
    pose proof (subseteq_size ((U ∪ list_to_set l) ∖ {[x]})
                  (U ∪ list_to_set l) ltac:(set_solver)).
    lia.
Qed.

Section ManagerGuards.
Context `{XXHash} `{Sequence.class_attrs}.

Lemma pool_size_length bm :
  pool_size bm = Z.of_nat (length (BlockManager.blocks bm)).
Proof. done. Qed.

(** X15.  [can_allocate] guards [allocate]: in a reachable world, for a
    sequence whose block table is empty, if [can_allocate] returns True
    then [allocate] returns (no assertion fails and the free deque is
    never read when empty).  The block table then has [num_blocks]
    entries, all of them in the used set; the call takes at most
    [num_blocks] blocks from the free deque and gives none back, and
    every block that was in use still is. *)
Theorem can_allocate_guards_allocate (w : world) (seq : Sequence.t) :
  reachable w →
  Sequence.block_table seq = [] →
  BlockManager.can_allocate (w_bm w) seq = true →
  ∃ bm' seq',
    BlockManager.allocate (w_bm w) seq = Ok (bm', seq') ∧
    length (Sequence.block_table seq') = Z.to_nat (Sequence.num_blocks seq) ∧
    (length (BlockManager.free_block_ids bm')
     ≤ length (BlockManager.free_block_ids (w_bm w)))%nat ∧
    (length (BlockManager.free_block_ids (w_bm w))
     ≤ length (BlockManager.free_block_ids bm')
       + Z.to_nat (Sequence.num_blocks seq))%nat ∧
    BlockManager.used_block_ids (w_bm w)
    ⊆ BlockManager.used_block_ids bm' ∧
    ∀ b, b ∈ Sequence.block_table seq' →
         b ∈ BlockManager.used_block_ids bm'.
Proof.
  intros Hreach Htab Hcan.
  pose proof (reachable_world_inv w Hreach) as Hworld.
  pose proof (wi_bm _ Hworld) as Hbm.
  destruct (allocate_success _ _ _ Hbm Htab Hcan) as (bm' & seq' & Hrun).
  exists bm', seq'. split; [done|].
  destruct (bm_inv_allocate _ _ _ _ _ Hbm Hrun)
    as (Hbm' & Hrange & Hlen & Hsz & _ & _).
  set (occ := total_occurrences (w_seqs w)) in *.
  assert (BlockManager.used_block_ids (w_bm w)
          ⊆ BlockManager.used_block_ids bm') as Hsub.
  { intros b Hb. pose proof (inv_used _ _ Hbm b Hb) as Hocc.
    assert (0 ≤ b < pool_size (w_bm w)) as Hbr
      by (apply (inv_cover _ _ Hbm); by right).
    rewrite <- Hsz in Hbr. apply (bm_inv_used_iff _ _ _ Hbm' Hbr).
    pose proof (occurrences_nonneg b (Sequence.block_table seq')). lia. }
  assert (BlockManager.used_block_ids bm'
          ⊆ BlockManager.used_block_ids (w_bm w)
            ∪ list_to_set (Sequence.block_table seq')) as Hsup.
  { intros b Hb. pose proof (inv_used _ _ Hbm' b Hb) as Hocc. simpl in Hocc.
    assert (0 ≤ b < pool_size bm') as Hbr
      by (apply (inv_cover _ _ Hbm'); by right).
    rewrite Hsz in Hbr.
    destruct (decide (0 < occ b)) as [Hpos|Hz].
    - apply elem_of_union. left. by apply (bm_inv_used_iff _ _ _ Hbm Hbr).
    - apply elem_of_union. right. apply elem_of_list_to_set.
      apply occurrences_elem. lia. }
  pose proof (pool_total _ (inv_pool _ _ Hbm)) as Htot.
  pose proof (pool_total _ (inv_pool _ _ Hbm')) as Htot'.
  assert (length (BlockManager.blocks bm')
          = length (BlockManager.blocks (w_bm w))) as Hblocks
    by (rewrite !pool_size_length in Hsz; lia).
  pose proof (subseteq_size _ _ Hsub) as Hle1.
  pose proof (subseteq_size _ _ Hsup) as Hle2.
  pose proof (size_union_list (BlockManager.used_block_ids (w_bm w))
                (Sequence.block_table seq')) as Hun.
  split_and!; [done|lia|lia|done|].
  intros b Hb. apply (bm_inv_used_iff _ _ _ Hbm').
  - rewrite Hsz. by apply Hrange.
  - simpl. apply occurrences_elem in Hb.
    pose proof (total_occurrences_nonneg (w_seqs w) b) as Hnn.
    fold occ in Hnn. lia.
Qed.

(** X16.  [deallocate] on a sequence of a reachable world always returns.
    It empties the block table of the sequence and sets its cached tokens
    to 0; it lowers the reference count of each block by the number of
    entries the table had for it; it leaves the dedup index and the hash
    and the tokens of every block as they are (a freed block can still be
    found by its hash), and it removes no block from the free deque. *)
Theorem deallocate_keeps_cache (w : world) (r : nat) (seq : Sequence.t) :
  reachable w →
  w_seqs w !! r = Some seq →
  ∃ bm',
    BlockManager.deallocate (w_bm w) seq
    = Ok (bm', Sequence.with_block_table []
                 (Sequence.with_num_cached_tokens 0 seq)) ∧
    BlockManager.hash_to_block_id bm'
    = BlockManager.hash_to_block_id (w_bm w) ∧
    Block.hash <$> BlockManager.blocks bm'
    = Block.hash <$> BlockManager.blocks (w_bm w) ∧
    Block.token_ids <$> BlockManager.blocks bm'
    = Block.token_ids <$> BlockManager.blocks (w_bm w) ∧
    (∀ (n : nat) blk blk',
       BlockManager.blocks (w_bm w) !! n = Some blk →
       BlockManager.blocks bm' !! n = Some blk' →
       Block.ref_count blk'
       = Block.ref_count blk
         - occurrences (Z.of_nat n) (Sequence.block_table seq)) ∧
    (∀ b, b ∈ BlockManager.free_block_ids (w_bm w) →
          b ∈ BlockManager.free_block_ids bm').
Proof.
  intros Hreach Hs.
  pose proof (reachable_world_inv w Hreach) as Hworld.
  pose proof Hworld as [Hbsz Hpos Hbm Hhash Htab Hlen].
  destruct (deallocate_spec _ _ seq Hbm) as (bm' & Hrun & Hbm' & _ & Hidx
                                            & Hsz & Hcont).
  { intros b Hb. by eapply Htab. }
  { intros b. by apply total_occurrences_ge with r. }
  exists bm'. split; [done|]. split; [done|].
  unfold contents in Hcont.
  split_and!.
  - apply (f_equal (fmap fst)) in Hcont.
    rewrite <- !list_fmap_compose in Hcont. exact Hcont.
  - apply (f_equal (fmap snd)) in Hcont.
    rewrite <- !list_fmap_compose in Hcont. exact Hcont.
  - intros n blk blk' Hget Hget'.
    rewrite (inv_ref_count _ _ Hbm _ _ Hget).
    rewrite (inv_ref_count _ _ Hbm' _ _ Hget'). done.
  - intros b Hb.
    assert (0 ≤ b < pool_size (w_bm w)) as Hbr
      by (apply (inv_cover _ _ Hbm); by left).
    pose proof (inv_free _ _ Hbm b Hb) as Hz.
    rewrite <- Hsz in Hbr. apply (bm_inv_free_iff _ _ _ Hbm' Hbr).
    pose proof (occurrences_nonneg b (Sequence.block_table seq)).
    pose proof (total_occurrences_ge _ _ _ b Hs). lia.
Qed.

End ManagerGuards.

(** ** Blocks and tokens of a sequence *)

Lemma mapM_Ok_fmap {A B} (f : A → result B) (g : A → B) (l : list A) :
  (∀ x, x ∈ l → f x = Ok (g x)) → mapM f l = Ok (g <$> l).
Proof.
  induction l as [|x l IH]; intros Hf; simpl; [done|].
  rewrite (Hf x) by (by left). simpl.
  rewrite IH by (intros y Hy; apply Hf; by right). done.
Qed.

(** The first [j] slices of [bs] elements make up the first [j * bs]
    elements. *)
Lemma slices_concat {A} (l : list A) (bs : Z) (j : nat) :
  0 < bs →
  concat ((λ i, py_slice l (i * bs) ((i + 1) * bs)) <$> seqZ 0 (Z.of_nat j))
  = take (Z.to_nat (Z.of_nat j * bs)) l.
Proof.
  intros Hbs. induction j as [|j IH]; [done|].
  rewrite seqZ_S, fmap_app, concat_app, IH. simpl.
  rewrite app_nil_r, Z.add_0_l.
  unfold py_slice, py_slice_bound.
  rewrite (proj2 (Z.ltb_ge (Z.of_nat j * bs) 0)) by nia.
  rewrite (proj2 (Z.ltb_ge ((Z.of_nat j + 1) * bs) 0)) by nia.
  destruct (decide (Z.of_nat (length l) ≤ Z.of_nat j * bs)) as [Hge|Hlt].
  - rewrite !Z.min_r by nia. rewrite Z.sub_diag. simpl.
    rewrite app_nil_r, !take_ge by nia. done.
  - rewrite (Z.min_l (Z.of_nat j * bs)) by lia.
    rewrite take_take_drop.
    destruct (decide ((Z.of_nat j + 1) * bs ≤ Z.of_nat (length l))).
    + rewrite Z.min_l by lia. f_equal. nia.
    + rewrite Z.min_r by lia. rewrite !take_ge by nia. done.
Qed.

Section SequenceFacts.
Context `{Sequence.class_attrs}.

Lemma num_blocks_bounds n :
  0 ≤ n →
  let nb := (n + Sequence.block_size - 1) / Sequence.block_size in
  0 ≤ nb ∧ (nb - 1) * Sequence.block_size < n
  ∧ n ≤ nb * Sequence.block_size.
Proof.
  intros Hn nb. pose proof Sequence.block_size_pos as Hbs.
  assert (Sequence.block_size ≠ 0) as Hnz by lia.
  pose proof (Z.div_mod (n + Sequence.block_size - 1) Sequence.block_size
                Hnz) as Hdm.
  pose proof (Z.mod_pos_bound (n + Sequence.block_size - 1)
                Sequence.block_size Hbs) as Hmod.
  fold nb in Hdm.
  assert ((nb - 1) * Sequence.block_size
          = Sequence.block_size * nb - Sequence.block_size) as -> by ring.
  assert (nb * Sequence.block_size = Sequence.block_size * nb) as ->
    by ring.
  split_and!; [apply Z.div_pos; lia|lia|lia].
Qed.

(** X17.  The blocks of a sequence tile its tokens.  For a sequence whose
    [num_tokens] is the length of [token_ids]: [block(i)] returns for every
    [i] of [range(num_blocks)], these blocks concatenated in order give
    [token_ids], each block has [block_size] tokens except the last one,
    which has [last_block_num_tokens]; with at least one token that number
    is between 1 and [block_size]; and [block(i)] raises AssertionError
    for every other [i]. *)
Theorem blocks_partition (seq : Sequence.t) :
  Z.of_nat (length (Sequence.token_ids seq)) = Sequence.num_tokens seq →
  (∃ L,
     mapM (Sequence.block seq) (seqZ 0 (Sequence.num_blocks seq)) = Ok L ∧
     concat L = Sequence.token_ids seq ∧
     Z.of_nat (length L) = Sequence.num_blocks seq ∧
     ∀ (i : nat) T,
       L !! i = Some T →
       Z.of_nat (length T)
       = if bool_decide (Z.of_nat i = Sequence.num_blocks seq - 1)
         then Sequence.last_block_num_tokens seq
         else Sequence.block_size) ∧
  (1 ≤ Sequence.num_tokens seq →
   1 ≤ Sequence.last_block_num_tokens seq ≤ Sequence.block_size) ∧
  (∀ i, ¬ (0 ≤ i < Sequence.num_blocks seq) →
        Sequence.block seq i = Raise AssertionError).
Proof.
  intros Hlen. pose proof Sequence.block_size_pos as Hbs.
  destruct (num_blocks_bounds (Sequence.num_tokens seq) ltac:(lia))
    as (Hnb0 & Hlo & Hhi).
  fold (Sequence.num_blocks seq) in Hnb0, Hlo, Hhi.
  set (slice := λ i, py_slice (Sequence.token_ids seq)
                       (i * Sequence.block_size)
                       ((i + 1) * Sequence.block_size)).
  split_and!.
  - exists (slice <$> seqZ 0 (Sequence.num_blocks seq)). split_and!.
    + apply mapM_Ok_fmap. intros i Hi%elem_of_seqZ.
      unfold Sequence.block.
      rewrite (proj2 (Z.leb_le 0 i)), (proj2 (Z.ltb_lt _ _)) by lia. done.
    + rewrite <- (Z2Nat.id (Sequence.num_blocks seq)) by done.
      unfold slice. rewrite slices_concat by done.
      apply take_ge. rewrite Z2Nat.id by done. lia.
    + rewrite length_fmap, length_seqZ. lia.
    + intros i T Hi. apply list_lookup_fmap_Some in Hi as (z & -> & Hz).
      apply lookup_seqZ in Hz as [-> Hi].
      unfold slice. rewrite py_slice_length by nia. rewrite Hlen.
      rewrite Z.add_0_l. case_bool_decide as Hlast.
      * unfold Sequence.last_block_num_tokens. rewrite Hlast. lia.
      * rewrite !Z.min_l by nia. lia.
  - intros Hn. unfold Sequence.last_block_num_tokens. lia.
  - intros i Hi. unfold Sequence.block.
    destruct (decide (0 ≤ i)).
    + rewrite (proj2 (Z.leb_le 0 i)), (proj2 (Z.ltb_ge _ _)) by lia. done.
    + rewrite (proj2 (Z.leb_gt 0 i)) by lia. done.
Qed.

Lemma foldl_append_token (s : Sequence.t) (ts : list Z) :
  let s' := foldl Sequence.append_token s ts in
  Sequence.token_ids s' = Sequence.token_ids s ++ ts ∧
  Sequence.num_tokens s' = Sequence.num_tokens s + Z.of_nat (length ts) ∧
  Sequence.num_prompt_tokens s' = Sequence.num_prompt_tokens s ∧
  Sequence.last_token s' = default (Sequence.last_token s) (last ts) ∧
  (Sequence.seq_id s', Sequence.status s', Sequence.num_cached_tokens s',
   Sequence.block_table s', Sequence.max_tokens s', Sequence.ignore_eos s')
  = (Sequence.seq_id s, Sequence.status s, Sequence.num_cached_tokens s,
     Sequence.block_table s, Sequence.max_tokens s, Sequence.ignore_eos s).
Proof.
  revert s. induction ts as [|t ts IH]; intros s; simpl.
  - rewrite app_nil_r. split_and!; try done; lia.
  - destruct (IH (Sequence.append_token s t)) as (-> & -> & -> & -> & ->).
    simpl. rewrite <- (assoc_L (++)). split_and!; try done; [lia|].
    destruct ts as [|t' ts]; [done|]. rewrite last_cons_cons.
    destruct (proj2 (last_is_Some (t' :: ts))) as [x Hx]; [done|].
    by rewrite Hx.
Qed.

(** X18.  A sequence built from a prompt, after any number of
    [append_token].  [Sequence(prompt)] raises IndexError exactly on the
    empty prompt.  Otherwise, after appending the tokens [ts] in order:
    [prompt_token_ids] is the prompt, [completion_token_ids] is [ts],
    [len(seq)] is the sum of both lengths, [num_completion_tokens] is the
    length of [ts], [last_token] is the last token of [prompt ++ ts] and
    is [seq[-1]], and [seq[i]] for [i >= 0] is the [i]-th token of
    [prompt ++ ts], or IndexError beyond the end. *)
Theorem sequence_tokens (counter : Z) (prompt : list Z)
    (sampling_params : SamplingParams.t) (ts : list Z) :
  match Sequence.__init__ counter prompt sampling_params with
  | Raise e => e = IndexError ∧ prompt = []
  | Ok s =>
      prompt ≠ [] ∧
      let s' := foldl Sequence.append_token s ts in
      Sequence.prompt_token_ids s' = prompt ∧
      Sequence.completion_token_ids s' = ts ∧
      Sequence.__len__ s' = Z.of_nat (length prompt + length ts) ∧
      Sequence.num_completion_tokens s' = Z.of_nat (length ts) ∧
      last (prompt ++ ts) = Some (Sequence.last_token s') ∧
      Sequence.__getitem__ s' (-1) = Ok (Sequence.last_token s') ∧
      (∀ i : nat, Sequence.__getitem__ s' (Z.of_nat i)
                  = match (prompt ++ ts) !! i with
                    | Some t => Ok t
                    | None => Raise IndexError
                    end)
  end.
Proof.
  unfold Sequence.__init__.
  destruct (py_getitem prompt (-1)) as [l|e] eqn:Hlast; simpl.
  - apply py_getitem_last in Hlast.
    assert (prompt ≠ []) as Hne by (intros ->; done).
    split; [done|].
    set (s := Sequence.mk _ _ _ _ _ _ _ _ _ _).
    destruct (foldl_append_token s ts) as (Htok & Hnum & Hnp & Hlt & _).
    simpl in Htok, Hnum, Hnp, Hlt.
    assert (last (prompt ++ ts)
            = Some (Sequence.last_token (foldl Sequence.append_token s ts)))
      as Hl.
    { rewrite Hlt. destruct ts as [|t ts]; [by rewrite app_nil_r|].
      rewrite last_app.
      destruct (proj2 (last_is_Some (t :: ts))) as [x Hx]; [done|].
      by rewrite Hx. }
    unfold Sequence.prompt_token_ids, Sequence.completion_token_ids,
      Sequence.__len__, Sequence.num_completion_tokens, Sequence.__getitem__.
    rewrite Htok, Hnum, Hnp.
    split_and!.
    + rewrite py_slice_prefix by (rewrite length_app; lia).
      rewrite Nat2Z.id. by rewrite take_app_length.
    + rewrite py_slice_suffix by (rewrite length_app; lia).
      rewrite Nat2Z.id. by rewrite drop_app_length.
    + lia.
    + lia.
    + done.
    + by apply py_getitem_last.
    + intros i. unfold py_getitem.
      destruct (decide (i < length (prompt ++ ts))%nat) as [Hi|Hi].
      * rewrite py_index_nonneg by lia. by destruct (_ !! i).
      * rewrite (lookup_ge_None_2 (prompt ++ ts) i) by lia.
        unfold py_index.
        rewrite (proj2 (Z.ltb_ge _ _)) by lia.
        rewrite (proj2 (Z.ltb_ge (Z.of_nat i) 0)) by lia.
        by rewrite !andb_false_r.
  - destruct prompt as [|t prompt].
    + by injection Hlast as <-.
    + destruct (proj2 (last_is_Some (t :: prompt))) as [x Hx]; [done|].
      apply py_getitem_last in Hx. congruence.
Qed.

End SequenceFacts.

(** ** Free blocks, and the number of blocks under [append_token] *)

Section WorldSafety.
Context `{XXHash} `{Sequence.class_attrs}.

(** X19.  No sequence refers to a free block.  In a reachable world, a
    block id listed in the block table of a sequence is a block of the pool
    and is in the used set, with a reference count of at least 1; a block
    id of the free deque is in no block table and its block has reference
    count 0. *)
Theorem free_blocks_are_unlisted (w : world) :
  reachable w →
  (∀ r seq b,
     w_seqs w !! r = Some seq → b ∈ Sequence.block_table seq →
     0 ≤ b < Z.of_nat (length (BlockManager.blocks (w_bm w))) ∧
     b ∈ BlockManager.used_block_ids (w_bm w) ∧
     b ∉ BlockManager.free_block_ids (w_bm w) ∧
     ∃ blk, BlockManager.get_block (w_bm w) b = Ok blk ∧
            1 ≤ Block.ref_count blk) ∧
  (∀ b, b ∈ BlockManager.free_block_ids (w_bm w) →
        (∀ r seq, w_seqs w !! r = Some seq →
                  b ∉ Sequence.block_table seq) ∧
        ∃ blk, BlockManager.get_block (w_bm w) b = Ok blk ∧
               Block.ref_count blk = 0).
Proof.
  intros Hreach.
  pose proof (reachable_world_inv w Hreach) as Hworld.
  pose proof Hworld as [_ _ Hbm _ Htab _].
  split.
  - intros r seq b Hs Hb.
    assert (0 ≤ b < pool_size (w_bm w)) as Hbr by (by eapply Htab).
    assert (0 < total_occurrences (w_seqs w) b) as Hocc
      by (apply total_occurrences_pos; by exists r, seq).
    split; [done|].
    split; [by apply (bm_inv_used_iff _ _ _ Hbm Hbr)|].
    split.
    + intros Hf. apply (inv_free _ _ Hbm) in Hf. lia.
    + destruct (get_block_exists _ _ Hbr) as [blk Hget].
      exists blk. split; [done|].
      apply (get_block_range _ _ _ Hbr) in Hget.
      rewrite (inv_ref_count _ _ Hbm _ _ Hget), Z2Nat.id by lia. lia.
  - intros b Hf.
    assert (0 ≤ b < pool_size (w_bm w)) as Hbr
      by (apply (inv_cover _ _ Hbm); by left).
    pose proof (inv_free _ _ Hbm b Hf) as Hz.
    split.
    + intros r seq Hs Hb.
      assert (0 < total_occurrences (w_seqs w) b)
        by (apply total_occurrences_pos; by exists r, seq).
      lia.
    + destruct (get_block_exists _ _ Hbr) as [blk Hget].
      exists blk. split; [done|].
      apply (get_block_range _ _ _ Hbr) in Hget.
      by rewrite (inv_ref_count _ _ Hbm _ _ Hget), Z2Nat.id by lia.
Qed.

(** X20.  [append_token] and the number of blocks, for blocks of more than
    one token: appending a token to a sequence adds a block exactly when
    the new length is 1 modulo [block_size], the condition under which
    [can_append] asks for a free block and [may_append] takes one; the
    new token is then alone in the last block, and otherwise the last
    block grows by one token. *)
Theorem append_token_num_blocks (seq : Sequence.t) (token_id : Z) :
  1 < Sequence.block_size →
  0 ≤ Sequence.num_tokens seq →
  let seq' := Sequence.append_token seq token_id in
  Sequence.num_blocks seq'
  = Sequence.num_blocks seq
    + (if bool_decide (Sequence.__len__ seq' `mod` Sequence.block_size = 1)
       then 1 else 0) ∧
  Sequence.last_block_num_tokens seq'
  = (if bool_decide (Sequence.__len__ seq' `mod` Sequence.block_size = 1)
     then 1 else Sequence.last_block_num_tokens seq + 1).
Proof.
  intros Hbs Hn seq'.
  assert (Sequence.num_blocks seq'
          = Sequence.num_blocks seq
            + (if bool_decide
                    (Sequence.__len__ seq' `mod` Sequence.block_size = 1)
               then 1 else 0)) as Hnb
    by (unfold Sequence.num_blocks, Sequence.__len__; simpl;
        by apply num_blocks_step).
  split; [done|].
  unfold Sequence.last_block_num_tokens. rewrite Hnb.
  unfold Sequence.__len__, seq', Sequence.num_blocks. simpl.
  destruct (decide ((Sequence.num_tokens seq + 1) `mod` Sequence.block_size
                    = 1)) as [Hmod|Hmod];
    [rewrite !bool_decide_eq_true_2 by done
    |rewrite !bool_decide_eq_false_2 by done; lia].
  assert (Sequence.block_size ≠ 0) as Hnz by lia.
  pose proof (Z.div_mod (Sequence.num_tokens seq + 1) Sequence.block_size
                Hnz) as Hdm.
  rewrite Hmod in Hdm.
  assert (Sequence.num_tokens seq
          = Sequence.block_size
            * ((Sequence.num_tokens seq + 1) / Sequence.block_size)) as Hk
    by lia.
  rewrite (num_blocks_exact (Sequence.num_tokens seq)
             ((Sequence.num_tokens seq + 1) / Sequence.block_size))
    by lia.
  lia.
Qed.

End WorldSafety.

(** ** Tokens are kept and steps are bounded *)

Section Progress.
Context `{XXHash} `{Sequence.class_attrs}.

(** The tokens that a sequence may still generate before it reaches
    [max_tokens]; none once it is FINISHED. *)
Definition remaining (seq : Sequence.t) : Z :=
  if Sequence.is_finished seq then 0
  else Sequence.max_tokens seq - Sequence.num_completion_tokens seq.

Definition work (self : Scheduler.t) : Z :=
  foldr Z.add 0 (remaining <$> Scheduler.objects self).

(** Every request asks for at least one token. *)
Definition bounded (self : Scheduler.t) : Prop :=
  ∀ r seq, Scheduler.objects self !! r = Some seq →
           1 ≤ Sequence.max_tokens seq.

(** A run of [step]s, one model runner answer per step. *)
Fixpoint run_steps (runners : list (list nat → bool → list Z))
    (self : Scheduler.t) : result Scheduler.t :=
  match runners with
  | [] => Ok self
  | runner :: runners =>
      self ← Scheduler.step self runner; run_steps runners self
  end.

Lemma sum_insert (l : list Z) (i : nat) (x y : Z) :
  l !! i = Some x →
  foldr Z.add 0 (<[i := y]> l) = foldr Z.add 0 l - x + y.
Proof.
  revert i. induction l as [|z l IH]; intros [|i] Hi; simpl in *; try done.
  - injection Hi as ->. lia.
  - rewrite (IH i Hi). lia.
Qed.

Lemma sum_nonneg (l : list Z) :
  Forall (λ x, 0 ≤ x) l → 0 ≤ foldr Z.add 0 l.
Proof. induction 1; simpl; lia. Qed.

Lemma sum_zero (l : list Z) :
  Forall (λ x, 0 ≤ x) l → foldr Z.add 0 l = 0 → Forall (λ x, x = 0) l.
Proof.
  induction 1 as [|x l Hx Hl IH]; simpl; intros Hs; [done|].
  pose proof (sum_nonneg l Hl). constructor; [lia|]. apply IH. lia.
Qed.

Lemma work_store self r seq seq' :
  Scheduler.objects self !! r = Some seq →
  foldr Z.add 0 (remaining <$> <[r := seq']> (Scheduler.objects self))
  = work self - remaining seq + remaining seq'.
Proof.
  intros Hs. rewrite list_fmap_insert. apply sum_insert.
  by rewrite list_lookup_fmap, Hs.
Qed.

Lemma remaining_nonneg self r seq :
  engine_reachable self → bounded self →
  Scheduler.objects self !! r = Some seq →
  0 ≤ remaining seq ∧
  (remaining seq = 0 → Sequence.status seq = Sequence.FINISHED).
Proof.
  intros Hreach Hb Hs. unfold remaining, Sequence.is_finished.
  destruct (engine_reachable_gen self Hreach r seq Hs)
    as (_ & _ & _ & Hq & _).
  destruct (generation_stops_inv self r seq Hreach Hs) as (_ & Hfq & _).
  specialize (Hb r seq Hs).
  case_bool_decide as Hfin; [done|].
  destruct Hq as [Hlt _].
  { destruct (decide (queued self r)) as [|Hn]; [done|].
    by apply Hfq in Hn. }
  specialize (Hlt Hb). lia.
Qed.

(** [schedule] finishes no sequence and revives none. *)
Lemma schedule_finished self self1 batch is_prefill r s s1 :
  sched_inv [] self →
  Scheduler.schedule self = Ok (self1, (batch, is_prefill)) →
  Scheduler.objects self !! r = Some s →
  Scheduler.objects self1 !! r = Some s1 →
  Sequence.status s1 = Sequence.FINISHED
  ↔ Sequence.status s = Sequence.FINISHED.
Proof.
  intros Hinv Hsched Hs Hs1.
  destruct (schedule_inv _ _ _ _ Hinv Hsched) as (Hinv1 & Hsub & _).
  destruct (schedule_keeps_sequences _ _ _ _ Hsched) as [Hperm _].
  assert (queued self1 r ↔ queued self r) as Hq
    by (unfold queued; rewrite <- !elem_of_app; by rewrite Hperm).
  assert (Sequence.status s = Sequence.FINISHED ↔ ¬ queued self r) as ->.
  { destruct (si_others _ _ Hinv r s Hs) as [Hw|[Hrn|[Hb|Hf]]].
    - destruct (si_waiting _ _ Hinv r Hw) as (s' & Hs' & Hst & _).
      assert (s' = s) as -> by congruence.
      split; [congruence|]. intros Hn. exfalso. apply Hn. by left.
    - destruct (si_running _ _ Hinv r Hrn) as (s' & Hs' & Hst & _);
        [by intros ?%elem_of_nil|].
      assert (s' = s) as -> by congruence.
      split; [congruence|]. intros Hn. exfalso. apply Hn. by right.
    - by apply elem_of_nil in Hb.
    - destruct Hf as (Hst & _). split; [|done]. intros _ [Hw|Hrn].
      + destruct (si_waiting _ _ Hinv r Hw) as (s' & Hs' & Hst' & _).
        assert (s' = s) as -> by congruence. congruence.
      + destruct (si_running _ _ Hinv r Hrn)
          as (s' & Hs' & Hst' & _); [by intros ?%elem_of_nil|].
        assert (s' = s) as -> by congruence. congruence. }
  rewrite <- Hq.
  destruct (si_others _ _ Hinv1 r s1 Hs1) as [Hw|[Hrn|[Hb|Hf]]].
  - destruct (si_waiting _ _ Hinv1 r Hw) as (s' & Hs' & Hst & _).
    assert (s' = s1) as -> by congruence.
    split; [congruence|]. intros Hn. exfalso. apply Hn. by left.
  - split.
    + intros Hst [Hw|_].
      * destruct (si_waiting _ _ Hinv1 r Hw) as (s' & Hs' & Hst' & _).
        assert (s' = s1) as -> by congruence. congruence.
      * destruct (decide (r ∈ batch)) as [Hb|Hb].
        -- destruct (si_batch _ _ Hinv1 r Hb) as (s' & Hs' & Hst' & _).
           assert (s' = s1) as -> by congruence. congruence.
        -- destruct (si_running _ _ Hinv1 r Hrn Hb)
             as (s' & Hs' & Hst' & _).
           assert (s' = s1) as -> by congruence. congruence.
    + intros Hn. exfalso. apply Hn. by right.
  - split.
    + intros Hst. destruct (si_batch _ _ Hinv1 r Hb)
        as (s' & Hs' & Hst' & _).
      assert (s' = s1) as -> by congruence. congruence.
    + intros Hn. exfalso. apply Hn. right. by apply Hsub.
  - destruct Hf as (Hst & _). split; [|done]. intros _ [Hw|Hrn].
    + destruct (si_waiting _ _ Hinv1 r Hw) as (s' & Hs' & Hst' & _).
      assert (s' = s1) as -> by congruence. congruence.
    + destruct (decide (r ∈ batch)) as [Hb|Hb].
      * destruct (si_batch _ _ Hinv1 r Hb) as (s' & Hs' & Hst' & _).
        assert (s' = s1) as -> by congruence. congruence.
      * destruct (si_running _ _ Hinv1 r Hrn Hb)
          as (s' & Hs' & Hst' & _).
        assert (s' = s1) as -> by congruence. congruence.
Qed.

(** [schedule] leaves the work as it is. *)
Lemma schedule_work self self1 batch is_prefill :
  sched_inv [] self →
  Scheduler.schedule self = Ok (self1, (batch, is_prefill)) →
  work self1 = work self ∧ (bounded self → bounded self1).
Proof.
  intros Hinv Hsched.
  destruct (schedule_same_gen _ _ _ _ Hsched) as [Hlen Hsame].
  split.
  - unfold work. f_equal. apply list_eq. intros r.
    rewrite !list_lookup_fmap.
    destruct (Scheduler.objects self1 !! r) as [s1|] eqn:Hs1.
    + destruct (lookup_lt_is_Some_2 (Scheduler.objects self) r) as [s Hs].
      { rewrite <- Hlen. by eapply lookup_lt_Some. }
      rewrite Hs. simpl. f_equal.
      pose proof (Hsame r s s1 Hs Hs1) as Hcore.
      pose proof (schedule_finished _ _ _ _ r s s1 Hinv Hsched Hs Hs1)
        as Hfin.
      unfold remaining, Sequence.is_finished,
        Sequence.num_completion_tokens.
      injection Hcore as _ _ _ -> -> -> _.
      destruct (decide (Sequence.status s = Sequence.FINISHED)) as [Hf|Hf].
      * rewrite !bool_decide_eq_true_2 by tauto. done.
      * rewrite !bool_decide_eq_false_2 by tauto. done.
    + rewrite (lookup_ge_None_2 (Scheduler.objects self) r); [done|].
      rewrite <- Hlen. by apply lookup_ge_None_1.
  - intros Hb r s1 Hs1.
    destruct (lookup_lt_is_Some_2 (Scheduler.objects self) r) as [s Hs].
    { rewrite <- Hlen. by eapply lookup_lt_Some. }
    pose proof (Hsame r s s1 Hs Hs1) as Hcore.
    injection Hcore as _ _ _ _ _ -> _. by eapply Hb.
Qed.

Lemma postprocess_body_work r rest token_id self self' :
  sched_inv (r :: rest) self →
  (∀ x, x ∈ r :: rest → x ∈ Scheduler.running self) →
  gen_inv self → bounded self →
  Scheduler.postprocess_body (r, token_id) self = Ok self' →
  work self' ≤ work self - 1 ∧ bounded self'.
Proof.
  intros Hinv Hsub Hgen Hb Hrun.
  destruct (postprocess_body_gen _ _ _ _ _ Hinv Hsub Hgen Hrun)
    as (Hgen' & seq & seq' & Hs & Hs' & Hcore & Hother & Hfin).
  assert (Scheduler.objects self' = <[r := seq']> (Scheduler.objects self))
    as Hobjs.
  { apply list_eq. intros r2. destruct (decide (r2 = r)) as [->|Hne].
    - rewrite Hs'. symmetry. apply list_lookup_insert_eq.
      by eapply lookup_lt_Some.
    - rewrite list_lookup_insert_ne by done. by apply Hother. }
  assert (r ∈ Scheduler.running self) as Hrr by (apply Hsub; by left).
  destruct (si_batch _ _ Hinv r) as (s0 & Hs0 & Hst & _); [by left|].
  assert (s0 = seq) as -> by congruence.
  destruct (Hgen r seq Hs) as (Hnp & _ & _ & Hq & _).
  destruct Hq as [Hlt _]; [by right|].
  specialize (Hlt (Hb r seq Hs)).
  split.
  - unfold work at 1. rewrite Hobjs, (work_store self r seq seq' Hs).
    assert (remaining seq
            = Sequence.max_tokens seq - Sequence.num_completion_tokens seq)
      as ->.
    { unfold remaining, Sequence.is_finished.
      rewrite bool_decide_eq_false_2; [done|]. rewrite Hst. done. }
    unfold remaining, Sequence.is_finished, Sequence.num_completion_tokens
      in *.
    injection Hcore as _ _ _ -> -> -> _. simpl.
    case_bool_decide; lia.
  - intros r2 s2 Hs2. rewrite Hobjs in Hs2.
    apply list_lookup_insert_Some in Hs2 as [(-> & <- & _)|[_ Hs2]].
    + injection Hcore as _ _ _ _ _ -> _. simpl. by eapply Hb.
    + by eapply Hb.
Qed.

Lemma postprocess_work batch token_ids self self' :
  sched_inv batch self →
  (∀ x, x ∈ batch → x ∈ Scheduler.running self) →
  gen_inv self → bounded self →
  Scheduler.postprocess self batch token_ids = Ok self' →
  work self'
  ≤ work self - Z.of_nat (length batch `min` length token_ids) ∧
  bounded self'.
Proof.
  unfold Scheduler.postprocess.
  revert token_ids self. induction batch as [|r rest IH];
    intros token_ids self Hinv Hsub Hgen Hb Hrun.
  - simpl in Hrun. injection Hrun as <-. simpl. split; [lia|done].
  - destruct token_ids as [|t ts].
    { simpl in Hrun. injection Hrun as <-. simpl. split; [lia|done]. }
    simpl in Hrun. apply bind_Ok in Hrun as (self1 & Hbody & Hrun).
    destruct (postprocess_body_inv _ _ _ _ _ Hinv Hsub Hbody)
      as [Hinv1 Hsub1].
    destruct (postprocess_body_gen _ _ _ _ _ Hinv Hsub Hgen Hbody)
      as [Hgen1 _].
    destruct (postprocess_body_work _ _ _ _ _ Hinv Hsub Hgen Hb Hbody)
      as [Hw1 Hb1].
    destruct (IH ts self1 Hinv1 Hsub1 Hgen1 Hb1 Hrun) as [Hw Hb'].
    split; [|done]. simpl length. lia.
Qed.

Lemma step_work self runner self' :
  engine_reachable self → answers_each runner → bounded self →
  Scheduler.step self runner = Ok self' →
  work self' ≤ work self - 1 ∧ bounded self'.
Proof.
  intros Hreach Hrunner Hb Hstep.
  pose proof (engine_reachable_inv self Hreach) as Hinv.
  unfold Scheduler.step in Hstep.
  apply bind_Ok in Hstep as ([self1 [batch is_prefill]] & Hsched & Hpost).
  destruct (schedule_inv _ _ _ _ Hinv Hsched) as (Hinv1 & Hsub & Hne).
  destruct (schedule_work _ _ _ _ Hinv Hsched) as [Hw1 Hb1].
  destruct (schedule_keeps_sequences _ _ _ _ Hsched) as [Hperm Hlim].
  destruct (schedule_same_gen _ _ _ _ Hsched) as [Hlen Hsame].
  assert (gen_inv self1) as Hgen1.
  { intros r s1 Hs1.
    destruct (lookup_lt_is_Some_2 (Scheduler.objects self) r) as [s Hs].
    { rewrite <- Hlen. by eapply lookup_lt_Some. }
    apply (gen_ok_ext self _ r s);
      [by eapply Hsame| | |by apply (engine_reachable_gen self Hreach)].
    - unfold queued. rewrite <- !elem_of_app. by rewrite Hperm.
    - by injection Hlim. }
  destruct (postprocess_work _ _ _ _ Hinv1 Hsub Hgen1 (Hb1 Hb) Hpost)
    as [Hw Hb'].
  split; [|done]. rewrite (Hrunner batch is_prefill) in Hw.
  destruct batch; [done|]. simpl length in Hw. lia.
Qed.

Lemma all_finished_is_finished self :
  sched_inv [] self →
  (∀ r seq, Scheduler.objects self !! r = Some seq →
            Sequence.status seq = Sequence.FINISHED) →
  LLMEngine.is_finished self = true.
Proof.
  intros Hinv Hall. unfold LLMEngine.is_finished, Scheduler.is_finished.
  apply andb_true_iff. split; apply bool_decide_eq_true.
  - destruct (Scheduler.waiting self) as [|r w] eqn:Hw; [done|].
    destruct (si_waiting _ _ Hinv r) as (seq & Hs & Hst & _);
      [rewrite Hw; by left|].
    specialize (Hall r seq Hs). congruence.
  - destruct (Scheduler.running self) as [|r w] eqn:Hr; [done|].
    destruct (si_running _ _ Hinv r) as (seq & Hs & Hst & _);
      [rewrite Hr; by left|by intros ?%elem_of_nil|].
    specialize (Hall r seq Hs). congruence.
Qed.

(** X21.  Generation cannot go on forever.  From a state that the engine
    reaches in which every request has [max_tokens >= 1], the work left
    (the sum over the sequences that are not FINISHED of
    [max_tokens - num_completion_tokens]) is not negative, every [step]
    that returns lowers it by at least 1, and it is 0 only when
    [is_finished] holds: a run of steps that all return has at most as
    many steps as the work left when it starts. *)
Theorem steps_bounded_by_work (self self' : Scheduler.t)
    (runners : list (list nat → bool → list Z)) :
  engine_reachable self →
  bounded self →
  Forall answers_each runners →
  run_steps runners self = Ok self' →
  0 ≤ work self' ∧
  work self' + Z.of_nat (length runners) ≤ work self ∧
  (work self' = 0 → LLMEngine.is_finished self' = true).
Proof.
  intros Hreach Hb Hrunners Hrun.
  assert (engine_reachable self' ∧ bounded self' ∧
          work self' + Z.of_nat (length runners) ≤ work self)
    as (Hreach' & Hb' & Hle).
  { revert self Hreach Hb Hrun.
    induction Hrunners as [|runner runners Hrunner _ IH];
      intros self Hreach Hb Hrun; simpl in Hrun.
    - injection Hrun as <-. simpl. split_and!; [done|done|lia].
    - apply bind_Ok in Hrun as (self1 & Hstep & Hrun).
      destruct (step_work _ _ _ Hreach Hrunner Hb Hstep) as [Hw1 Hb1].
      destruct (IH self1) as (Hr' & Hb' & Hle); [|done|done|].
      + by eapply engine_step.
      + split_and!; [done|done|]. simpl length. lia. }
  assert (Forall (λ x, 0 ≤ x) (remaining <$> Scheduler.objects self'))
    as Hnn.
  { apply Forall_fmap, Forall_lookup. intros r seq Hs. simpl.
    by destruct (remaining_nonneg self' r seq Hreach' Hb' Hs). }
  split_and!; [by apply sum_nonneg|done|].
  intros Hz.
  apply (all_finished_is_finished self' (engine_reachable_inv self' Hreach')).
  intros r seq Hs.
  apply (sum_zero _ Hnn) in Hz.
  destruct (remaining_nonneg self' r seq Hreach' Hb' Hs) as [_ Hfin].
  apply Hfin.
  apply (proj1 (Forall_lookup _ _) Hz r).
  by rewrite list_lookup_fmap, Hs.
Qed.

(** X22.  [schedule] never touches the tokens of a sequence.  Whenever it
    returns, the scheduler holds the same number of sequences, and each of
    them has the [seq_id], [token_ids], [last_token], [num_tokens],
    [num_prompt_tokens], [max_tokens] and [ignore_eos] it had before: a
    sequence that is preempted keeps the tokens it has generated, and
    loses only its blocks and its cached-token count. *)
Theorem schedule_keeps_tokens (self self' : Scheduler.t) (batch : list nat)
    (is_prefill : bool) (r : nat) (seq : Sequence.t) :
  Scheduler.schedule self = Ok (self', (batch, is_prefill)) →
  Scheduler.objects self !! r = Some seq →
  length (Scheduler.objects self') = length (Scheduler.objects self) ∧
  ∃ seq',
    Scheduler.objects self' !! r = Some seq' ∧
    Sequence.seq_id seq' = Sequence.seq_id seq ∧
    Sequence.token_ids seq' = Sequence.token_ids seq ∧
    Sequence.last_token seq' = Sequence.last_token seq ∧
    Sequence.num_tokens seq' = Sequence.num_tokens seq ∧
    Sequence.num_prompt_tokens seq' = Sequence.num_prompt_tokens seq ∧
    Sequence.max_tokens seq' = Sequence.max_tokens seq ∧
    Sequence.ignore_eos seq' = Sequence.ignore_eos seq ∧
    Sequence.completion_token_ids seq' = Sequence.completion_token_ids seq.
Proof.
  intros Hsched Hs.
  destruct (schedule_same_gen _ _ _ _ Hsched) as [Hlen Hsame].
  split; [done|].
  destruct (lookup_lt_is_Some_2 (Scheduler.objects self') r) as [seq' Hs'].
  { rewrite Hlen. by eapply lookup_lt_Some. }
  exists seq'. split; [done|].
  pose proof (Hsame r seq seq' Hs Hs') as Hcore.
  unfold Sequence.completion_token_ids.
  injection Hcore as -> -> -> -> -> -> ->. done.
Qed.

End Progress.

(** ** An engine with enough blocks *)

Lemma sum_le {A} (f g : A → Z) (l : list A) :
  (∀ j y, l !! j = Some y → f y ≤ g y) →
  foldr Z.add 0 (f <$> l) ≤ foldr Z.add 0 (g <$> l).
Proof.
  induction l as [|z l IH]; intros Hall; [done|].
  rewrite !fmap_cons. cbn [foldr].
  pose proof (Hall 0%nat z eq_refl).
  assert (foldr Z.add 0 (f <$> l) ≤ foldr Z.add 0 (g <$> l))
    by (apply IH; intros j y Hj; by apply (Hall (S j))).
  lia.
Qed.

Lemma sum_le_at {A} (f g : A → Z) (l : list A) (i : nat) (x : A) (extra : Z) :
  l !! i = Some x →
  f x + extra ≤ g x →
  (∀ j y, l !! j = Some y → f y ≤ g y) →
  foldr Z.add 0 (f <$> l) + extra ≤ foldr Z.add 0 (g <$> l).
Proof.
  revert i. induction l as [|z l IH]; intros i Hi Hx Hall; [done|].
  rewrite !fmap_cons. cbn [foldr]. destruct i as [|i]; simpl in Hi.
  - injection Hi as ->.
    assert (foldr Z.add 0 (f <$> l) ≤ foldr Z.add 0 (g <$> l))
      by (apply sum_le; intros j y Hj; by apply (Hall (S j))).
    lia.
  - pose proof (Hall 0%nat z eq_refl).
    assert (foldr Z.add 0 (f <$> l) + extra ≤ foldr Z.add 0 (g <$> l))
      by (apply (IH i); [done|done|intros j y Hj; by apply (Hall (S j))]).
    lia.
Qed.

Lemma sum_le_lookup (l1 l2 : list Z) :
  length l1 = length l2 →
  (∀ i x y, l1 !! i = Some x → l2 !! i = Some y → x ≤ y) →
  foldr Z.add 0 l1 ≤ foldr Z.add 0 l2.
Proof.
  revert l2. induction l1 as [|x l1 IH]; intros [|y l2] Hlen Hall;
    simpl in *; try done.
  pose proof (Hall 0%nat x y eq_refl eq_refl).
  assert (foldr Z.add 0 l1 ≤ foldr Z.add 0 l2)
    by (apply IH; [lia|intros i a b Ha Hb; by apply (Hall (S i))]).
  lia.
Qed.

Lemma elem_of_concat_lookup {A} (ls : list (list A)) (i : nat) (l : list A)
    (x : A) :
  ls !! i = Some l → x ∈ l → x ∈ concat ls.
Proof.
  revert i. induction ls as [|l0 ls IH]; intros [|i] Hi Hx; simpl in *;
    try done.
  - injection Hi as ->. apply elem_of_app. by left.
  - apply elem_of_app. right. by apply (IH i).
Qed.

Section Provisioned.
Context `{XXHash} `{Sequence.class_attrs}.

(** The blocks that a sequence can come to need: those of its prompt and
    of [max_tokens] more tokens. *)
Definition need (seq : Sequence.t) : Z :=
  (Sequence.num_prompt_tokens seq + Sequence.max_tokens seq
   + Sequence.block_size - 1) / Sequence.block_size.

Definition demand_of (seq : Sequence.t) : Z :=
  if Sequence.is_finished seq then 0 else need seq.

Definition demand (self : Scheduler.t) : Z :=
  foldr Z.add 0 (demand_of <$> Scheduler.objects self).

(** A scheduler with enough of everything for its requests: one sequence
    per batch at least, a bound on every generation, a pool that can hold
    every unfinished sequence at its full length at once, and a token
    budget that fits any one of them. *)
Record provisioned (self : Scheduler.t) : Prop := {
  pv_seqs : 1 ≤ Scheduler.max_num_seqs self;
  pv_bounded : bounded self;
  pv_blocks :
    demand self
    ≤ Z.of_nat (length (BlockManager.blocks (Scheduler.block_manager self)));
  pv_tokens :
    ∀ r seq, Scheduler.objects self !! r = Some seq →
             Sequence.num_prompt_tokens seq + Sequence.max_tokens seq
             ≤ Scheduler.max_num_batched_tokens self
}.

Definition listed (seq : Sequence.t) : Z :=
  Z.of_nat (length (Sequence.block_table seq)).

Lemma used_le_listed (seqs : list Sequence.t) (bm : BlockManager.t) :
  bm_inv (total_occurrences seqs) bm →
  Z.of_nat (size (BlockManager.used_block_ids bm))
  ≤ foldr Z.add 0 (listed <$> seqs).
Proof.
  intros Hbm.
  assert (BlockManager.used_block_ids bm
          ⊆ ∅ ∪ list_to_set (concat (Sequence.block_table <$> seqs)))
    as Hsub.
  { intros b Hb. apply (inv_used _ _ Hbm), total_occurrences_pos in Hb.
    destruct Hb as (r & s & Hs & Hin). apply elem_of_union. right.
    apply elem_of_list_to_set.
    apply (elem_of_concat_lookup _ r (Sequence.block_table s)); [|done].
    by rewrite list_lookup_fmap, Hs. }
  apply subseteq_size in Hsub.
  pose proof (size_union_list ∅ (concat (Sequence.block_table <$> seqs)))
    as Hle.
  rewrite size_empty in Hle.
  assert (Z.of_nat (length (concat (Sequence.block_table <$> seqs)))
          = foldr Z.add 0 (listed <$> seqs)) as <-.
  { clear. induction seqs as [|s seqs IH]; [done|].
    rewrite !fmap_cons. cbn [foldr concat].
    rewrite length_app, Nat2Z.inj_add, IH. done. }
  lia.
Qed.

Lemma ceil_div_le a b :
  a ≤ b →
  (a + Sequence.block_size - 1) / Sequence.block_size
  ≤ (b + Sequence.block_size - 1) / Sequence.block_size.
Proof.
  intros Hab. pose proof Sequence.block_size_pos.
  apply Z.div_le_mono; lia.
Qed.

(** What a sequence lists against what it may come to need. *)
Lemma listed_le_demand self r seq :
  engine_reachable self → bounded self →
  Scheduler.objects self !! r = Some seq →
  listed seq ≤ demand_of seq ∧
  (r ∈ Scheduler.waiting self →
   listed seq + Sequence.num_blocks seq ≤ demand_of seq) ∧
  (r ∈ Scheduler.running self →
   Sequence.num_tokens seq `mod` Sequence.block_size = 1 →
   listed seq + 1 ≤ demand_of seq).
Proof.
  intros Hreach Hb Hs.
  pose proof (engine_reachable_inv self Hreach) as Hinv.
  pose proof (si_wd _ _ Hinv) as [_ Hbs _].
  destruct (engine_reachable_gen self Hreach r seq Hs)
    as (Hnp & _ & Hmax & Hq & _).
  specialize (Hmax (Hb r seq Hs)).
  unfold Sequence.num_completion_tokens in *.
  assert (0 ≤ need seq) as Hneed.
  { unfold need. pose proof Sequence.block_size_pos.
    pose proof (Hb r seq Hs). apply Z.div_pos; lia. }
  assert (Sequence.num_blocks seq ≤ need seq) as Hnb
    by (apply ceil_div_le; lia).
  unfold demand_of, listed, Sequence.is_finished.
  destruct (si_others _ _ Hinv r seq Hs) as [Hw|[Hrn|[Hx|Hf]]].
  - destruct (si_waiting _ _ Hinv r Hw) as (s' & Hs' & Hst & Htab & _).
    assert (s' = seq) as -> by congruence.
    rewrite bool_decide_eq_false_2 by (rewrite Hst; done).
    rewrite Htab. simpl. split; [lia|]. split; [lia|].
    intros Hrn. by destruct (si_disjoint _ _ Hinv r Hw).
  - destruct (si_running _ _ Hinv r Hrn) as (s' & Hs' & Hst & _ & Hcov & _);
      [by intros ?%elem_of_nil|].
    assert (s' = seq) as -> by congruence.
    rewrite bool_decide_eq_false_2 by (rewrite Hst; done).
    unfold covers in Hcov. rewrite Hcov.
    split; [unfold need; apply ceil_div_le; lia|]. split.
    + intros Hw. by destruct (si_disjoint _ _ Hinv r Hw).
    + intros _ Hmod.
      pose proof (num_blocks_step (Sequence.num_tokens seq - 1) Hbs
                    ltac:(lia)) as Hstep.
      replace (Sequence.num_tokens seq - 1 + 1)
        with (Sequence.num_tokens seq) in Hstep by lia.
      rewrite bool_decide_eq_true_2 in Hstep by done.
      unfold Sequence.num_blocks in Hnb. lia.
  - by apply elem_of_nil in Hx.
  - destruct Hf as (Hst & Htab & _).
    rewrite bool_decide_eq_true_2 by done. rewrite Htab. simpl.
    split; [lia|]. split.
    + intros Hw. destruct (si_waiting _ _ Hinv r Hw) as (s' & Hs' & Hst' & _).
      assert (s' = seq) as -> by congruence. congruence.
    + intros Hrn. destruct (si_running _ _ Hinv r Hrn)
        as (s' & Hs' & Hst' & _); [by intros ?%elem_of_nil|].
      assert (s' = seq) as -> by congruence. congruence.
Qed.

(** The free blocks of a provisioned engine make up for what its
    sequences may still need. *)
Lemma free_covers_demand self r seq extra :
  engine_reachable self → provisioned self →
  Scheduler.objects self !! r = Some seq →
  listed seq + extra ≤ demand_of seq →
  extra
  ≤ Z.of_nat (length (BlockManager.free_block_ids
                        (Scheduler.block_manager self))).
Proof.
  intros Hreach [_ Hb Hblocks _] Hs Hextra.
  pose proof (engine_reachable_inv self Hreach) as Hinv.
  pose proof (si_wd _ _ Hinv) as [Hworld _ _].
  pose proof (wi_bm _ Hworld) as Hbm. simpl in Hbm.
  pose proof (pool_total _ (inv_pool _ _ Hbm)) as Htot.
  pose proof (used_le_listed _ _ Hbm) as Hused.
  assert (foldr Z.add 0 (listed <$> Scheduler.objects self) + extra
          ≤ demand self) as Hsum.
  { apply (sum_le_at listed demand_of _ r seq); [done|done|].
    intros j y Hj. by destruct (listed_le_demand self j y Hreach Hb Hj). }
  lia.
Qed.

Lemma decode_body_scheduled st c :
  Scheduler.decode_body st = Ok c →
  Scheduler.s_scheduled st `prefix_of` Scheduler.s_scheduled (ctl_state c).
Proof.
  unfold Scheduler.decode_body. intros Hrun.
  apply bind_Ok in Hrun as (r & _ & Hrun).
  apply bind_Ok in Hrun as (c1 & _ & Hrun).
  destruct c1 as [self1|self1].
  - apply bind_Ok in Hrun as (seq & _ & Hrun).
    apply bind_Ok in Hrun as ([bm' seq'] & _ & Hrun).
    injection Hrun as <-. simpl. by apply prefix_app_r.
  - by injection Hrun as <-.
Qed.

(** With enough blocks, [schedule] finds a batch as long as a sequence is
    waiting or running. *)
Lemma schedule_returns self :
  engine_reachable self → provisioned self →
  Scheduler.is_finished self = false →
  ∃ self' batch is_prefill,
    Scheduler.schedule self = Ok (self', (batch, is_prefill)).
Proof.
  intros Hreach Hprov Hnf.
  pose proof (engine_reachable_inv self Hreach) as Hinv.
  pose proof Hprov as [Hseqs Hb Hblocks Htokens].
  destruct (schedule_total self Hinv)
    as [Hok|(_ & c1 & c2 & Hpre & Hs1 & Hdec & Hs2)]; [done|].
  exfalso.
  destruct (Scheduler.waiting self) as [|r wait'] eqn:Hw.
  - (* nothing waits: the first running sequence is scheduled *)
    destruct (Scheduler.running self) as [|r rest] eqn:Hr.
    { unfold Scheduler.is_finished in Hnf. by rewrite Hw, Hr in Hnf. }
    rewrite while_unfold in Hpre.
    assert (Scheduler.prefill_cond (Scheduler.SchedState self [] 0 0)
            = Ok false) as Hcond0.
    { unfold Scheduler.prefill_cond. simpl.
      by rewrite (bool_decide_eq_true_2 _ Hw). }
    rewrite Hcond0 in Hpre.
    apply bind_Ok in Hpre as (b & [= <-] & Hpre).
    injection Hpre as <-. cbn [ctl_state Scheduler.s_self] in Hdec.
    rewrite while_unfold in Hdec.
    assert (Scheduler.decode_cond (Scheduler.SchedState self [] 0 0)
            = Ok true) as Hcond.
    { unfold Scheduler.decode_cond. simpl.
      rewrite bool_decide_eq_false_2 by (by rewrite Hr).
      by rewrite (proj2 (Z.ltb_lt _ _)) by lia. }
    rewrite Hcond in Hdec.
    apply bind_Ok in Hdec as (b & [= <-] & Hdec).
    apply bind_Ok in Hdec as (c0 & Hbody & Hdec).
    assert ([r] `prefix_of` Scheduler.s_scheduled (ctl_state c0)) as Hfirst.
    { destruct (si_running _ _ Hinv r) as (seq & Hseq & _);
        [rewrite Hr; by left|by intros ?%elem_of_nil|].
      assert (BlockManager.can_append (Scheduler.block_manager self) seq
              = true) as Hcan.
      { unfold BlockManager.can_append, Sequence.__len__.
        pose proof (si_wd _ _ Hinv) as [Hworld _ _].
        pose proof (wi_block_size _ Hworld) as Hbsz. simpl in Hbsz.
        rewrite Hbsz. apply Z.leb_le.
        case_bool_decide as Hmod; [|lia].
        apply (free_covers_demand self r seq 1 Hreach Hprov Hseq).
        destruct (listed_le_demand self r seq Hreach Hb Hseq)
          as (_ & _ & Hrun).
        apply Hrun; [rewrite Hr; by left|done]. }
      unfold Scheduler.decode_body in Hbody.
      cbn [Scheduler.s_self] in Hbody. rewrite Hr in Hbody.
      apply bind_Ok in Hbody as (r0 & Hhead & Hbody).
      apply py_getitem_head in Hhead. injection Hhead as <-.
      cbv zeta in Hbody.
      apply bind_Ok in Hbody as (c3 & Hroom & Hbody).
      rewrite while_unfold in Hroom.
      assert (Scheduler.room_cond r
                (Scheduler.with_running (tail (r :: rest)) self)
              = Ok false) as Hcond1.
      { unfold Scheduler.room_cond, Scheduler.deref. simpl.
        rewrite Hseq. simpl. by rewrite Hcan. }
      rewrite Hcond1 in Hroom.
      apply bind_Ok in Hroom as (b & [= <-] & Hroom).
      injection Hroom as <-.
      apply bind_Ok in Hbody as (seq0 & _ & Hbody).
      apply bind_Ok in Hbody as ([bm' seq'] & _ & Hbody).
      by injection Hbody as <-. }
    assert ([r] `prefix_of` Scheduler.s_scheduled (ctl_state c2)) as Hall.
    { destruct c0 as [st1|st1]; simpl in *.
      - eapply (while_invariant
                  (λ s, [r] `prefix_of` Scheduler.s_scheduled s));
          [|exact Hfirst|exact Hdec].
        intros s0 c3 Hs0 Hb0. etrans; [done|].
        by apply decode_body_scheduled.
      - by injection Hdec as <-. }
    rewrite Hs2 in Hall. by apply prefix_nil_not in Hall.
  - (* the head of the waiting queue is admitted *)
    rewrite while_unfold in Hpre.
    assert (Scheduler.prefill_cond (Scheduler.SchedState self [] 0 0)
            = Ok true) as Hcond.
    { unfold Scheduler.prefill_cond. simpl.
      rewrite bool_decide_eq_false_2 by (by rewrite Hw).
      by rewrite (proj2 (Z.ltb_lt _ _)) by lia. }
    rewrite Hcond in Hpre.
    apply bind_Ok in Hpre as (b & [= <-] & Hpre).
    apply bind_Ok in Hpre as (c0 & Hbody & Hpre).
    assert ([r] `prefix_of` Scheduler.s_scheduled (ctl_state c0)) as Hfirst.
    { unfold Scheduler.prefill_body in Hbody. simpl in Hbody.
      rewrite Hw in Hbody.
      rewrite (proj2 (py_getitem_head (r :: wait') r) eq_refl) in Hbody.
      simpl in Hbody.
      destruct (si_waiting _ _ Hinv r) as (seq & Hseq & _);
        [rewrite Hw; by left|].
      rewrite (proj2 (deref_Ok self r seq) Hseq) in Hbody. simpl in Hbody.
      destruct (engine_reachable_gen self Hreach r seq Hseq)
        as (Hnp & _ & Hmax & _).
      specialize (Hmax (Hb r seq Hseq)).
      unfold Sequence.num_completion_tokens in Hmax.
      pose proof (Htokens r seq Hseq) as Hfit.
      unfold Sequence.__len__ in Hbody.
      rewrite (proj2 (Z.ltb_ge _ _)) in Hbody by lia.
      assert (BlockManager.can_allocate (Scheduler.block_manager self) seq
              = true) as Hcan.
      { unfold BlockManager.can_allocate. apply Z.leb_le.
        apply (free_covers_demand self r seq _ Hreach Hprov Hseq).
        destruct (listed_le_demand self r seq Hreach Hb Hseq)
          as (_ & Hwait & _).
        apply Hwait. rewrite Hw. by left. }
      rewrite Hcan in Hbody. simpl in Hbody.
      apply bind_Ok in Hbody as ([bm' seq'] & _ & Hbody).
      by injection Hbody as <-. }
    assert ([r] `prefix_of` Scheduler.s_scheduled (ctl_state c1)) as Hall.
    { destruct c0 as [st1|st1]; cbn [ctl_state] in Hfirst.
      - eapply (while_invariant
                  (λ s, [r] `prefix_of` Scheduler.s_scheduled s)
                  (length (r :: wait')));
          [|exact Hfirst|exact Hpre].
        intros s0 c3 Hs0 Hb0. etrans; [done|].
        by apply prefill_body_scheduled.
      - by injection Hpre as <-. }
    rewrite Hs1 in Hall. by apply prefix_nil_not in Hall.
Qed.

(** *** The size of the pool *)

Lemma allocate_pool_size bm seq bm' seq' :
  BlockManager.allocate bm seq = Ok (bm', seq') →
  pool_size bm' = pool_size bm.
Proof.
  unfold BlockManager.allocate. intros Hrun.
  apply bind_Ok in Hrun as (u & _ & Hrun).
  apply bind_Ok in Hrun as (st & Hloop & Hrun). injection Hrun as <- _.
  apply (for_each_invariant
           (λ _ st, pool_size (BlockManager.a_self st) = pool_size bm))
    in Hloop; [done| |done].
  intros _ i s1 s2 Hs1 Hbody.
  by rewrite (pool_size_allocate_body _ _ _ Hbody).
Qed.

Lemma deallocate_pool_size bm seq bm' seq' :
  BlockManager.deallocate bm seq = Ok (bm', seq') →
  pool_size bm' = pool_size bm.
Proof.
  unfold BlockManager.deallocate. intros Hrun.
  apply bind_Ok in Hrun as (bm1 & Hloop & Hrun). injection Hrun as <- _.
  apply (for_each_invariant (λ _ s, pool_size s = pool_size bm)) in Hloop;
    [done| |done].
  intros _ b s1 s2 Hs1 Hbody. unfold BlockManager.deallocate_body in Hbody.
  apply bind_Ok in Hbody as (blk & _ & Hbody). cbv zeta in Hbody.
  destruct (_ =? _) in Hbody.
  - apply pool_size__deallocate_block in Hbody.
    by rewrite Hbody, put_block_pool_size.
  - injection Hbody as <-. by rewrite put_block_pool_size.
Qed.

Lemma may_append_pool_size bm seq bm' seq' :
  BlockManager.may_append bm seq = Ok (bm', seq') →
  pool_size bm' = pool_size bm.
Proof.
  intros Hrun.
  apply may_append_Ok in Hrun
    as (last_id & last_block & _ & _
        & [(_ & _ & b & _ & Halloc & _)
          |[(_ & _ & _ & t & p & h & _ & _ & _ & -> & _)
           |(_ & _ & _ & -> & _)]]).
  - by apply pool_size__allocate_block in Halloc.
  - by rewrite publish_pool_size, put_block_pool_size.
  - done.
Qed.

Definition pool (self : Scheduler.t) : Z :=
  pool_size (Scheduler.block_manager self).

Lemma preempt_pool self v self' :
  Scheduler.preempt self v = Ok self' → pool self' = pool self.
Proof.
  unfold Scheduler.preempt. intros Hrun.
  apply bind_Ok in Hrun as (seq & _ & Hrun).
  apply bind_Ok in Hrun as ([bm' seq'] & Hde & Hrun).
  injection Hrun as <-. by apply deallocate_pool_size in Hde.
Qed.

Lemma prefill_body_pool st c :
  Scheduler.prefill_body st = Ok c →
  pool (Scheduler.s_self (ctl_state c)) = pool (Scheduler.s_self st).
Proof.
  intros Hrun. unfold Scheduler.prefill_body in Hrun.
  apply bind_Ok in Hrun as (r & _ & Hrun).
  apply bind_Ok in Hrun as (seq & _ & Hrun).
  destruct (_ || _) in Hrun; [by injection Hrun as <-|].
  apply bind_Ok in Hrun as ([bm' seq'] & Halloc & Hrun).
  injection Hrun as <-. by apply allocate_pool_size in Halloc.
Qed.

Lemma room_loop_pool r fuel self c :
  while fuel (Scheduler.room_cond r) (Scheduler.room_body r) self = Ok c →
  pool (ctl_state c) = pool self.
Proof.
  intros Hrun.
  apply (while_invariant (λ s, pool s = pool self)) in Hrun; [done| |done].
  intros s c0 Hs Hb. unfold Scheduler.room_body in Hb.
  destruct (reverse (Scheduler.running s)).
  - apply bind_Ok in Hb as (s' & Hpre & Hb). injection Hb as <-.
    apply preempt_pool in Hpre. simpl. congruence.
  - apply bind_Ok in Hb as (s' & Hpre & Hb). injection Hb as <-.
    apply preempt_pool in Hpre. simpl. by rewrite Hpre, <- Hs.
Qed.

Lemma decode_body_pool st c :
  Scheduler.decode_body st = Ok c →
  pool (Scheduler.s_self (ctl_state c)) = pool (Scheduler.s_self st).
Proof.
  intros Hrun. unfold Scheduler.decode_body in Hrun.
  apply bind_Ok in Hrun as (r & _ & Hrun).
  apply bind_Ok in Hrun as (c1 & Hloop & Hrun).
  apply room_loop_pool in Hloop.
  destruct c1 as [self1|self1]; simpl in *.
  - apply bind_Ok in Hrun as (seq & _ & Hrun).
    apply bind_Ok in Hrun as ([bm' seq'] & Happ & Hrun).
    injection Hrun as <-. apply may_append_pool_size in Happ.
    unfold pool in *. simpl in *. congruence.
  - by injection Hrun as <-.
Qed.

Lemma schedule_pool self self' batch is_prefill :
  Scheduler.schedule self = Ok (self', (batch, is_prefill)) →
  pool self' = pool self.
Proof.
  intros Hrun. unfold Scheduler.schedule in Hrun.
  apply bind_Ok in Hrun as (c & Hpre & Hrun).
  apply (while_invariant (λ st, pool (Scheduler.s_self st) = pool self))
    in Hpre; [|intros s c0 Hs Hb; by rewrite (prefill_body_pool _ _ Hb)
              |done].
  cbv zeta in Hrun.
  case_bool_decide as Hsched; cbn [negb] in Hrun.
  - apply bind_Ok in Hrun as (c2 & Hdec & Hrun).
    apply (while_invariant (λ st, pool (Scheduler.s_self st) = pool self))
      in Hdec; [|intros s c0 Hs Hb; by rewrite (decode_body_pool _ _ Hb)
                |done].
    apply bind_Ok in Hrun as (u & _ & Hrun). by injection Hrun as <- <- <-.
  - by injection Hrun as <- <- <-.
Qed.

Lemma postprocess_keeps self seqs token_ids self' :
  Scheduler.postprocess self seqs token_ids = Ok self' →
  pool self' = pool self ∧ limits self' = limits self.
Proof.
  unfold Scheduler.postprocess. intros Hrun.
  apply (for_each_invariant
           (λ _ s, pool s = pool self ∧ limits s = limits self)) in Hrun;
    [done| |done].
  intros _ [r t] s1 s2 [Hp Hl] Hbody.
  unfold Scheduler.postprocess_body in Hbody.
  apply bind_Ok in Hbody as (seq & _ & Hbody). cbv zeta in Hbody.
  destruct (_ || _) in Hbody.
  - apply bind_Ok in Hbody as ([bm' seq'] & Hde & Hbody).
    apply bind_Ok in Hbody as (running' & _ & Hbody).
    injection Hbody as <-. apply deallocate_pool_size in Hde.
    split; [|done]. unfold pool in *. simpl in *. congruence.
  - injection Hbody as <-. by split.
Qed.

(** *** A step of a provisioned engine *)

(** A step keeps the prompt and [max_tokens] of every sequence, and a
    FINISHED sequence stays so. *)
Lemma step_requests self runner self' r s s' :
  engine_reachable self →
  Scheduler.step self runner = Ok self' →
  Scheduler.objects self !! r = Some s →
  Scheduler.objects self' !! r = Some s' →
  Sequence.num_prompt_tokens s' = Sequence.num_prompt_tokens s ∧
  Sequence.max_tokens s' = Sequence.max_tokens s ∧
  (Sequence.status s = Sequence.FINISHED →
   Sequence.status s' = Sequence.FINISHED).
Proof.
  intros Hreach Hstep Hs Hs'.
  pose proof (engine_reachable_inv self Hreach) as Hinv.
  unfold Scheduler.step in Hstep.
  apply bind_Ok in Hstep as ([self1 [batch is_prefill]] & Hsched & Hpost).
  destruct (schedule_inv _ _ _ _ Hinv Hsched) as (Hinv1 & Hsub & _).
  destruct (schedule_keeps_sequences _ _ _ _ Hsched) as [Hperm Hlim].
  destruct (schedule_same_gen _ _ _ _ Hsched) as [Hlen Hsame].
  assert (gen_inv self1) as Hgen1.
  { intros r1 s1 Hs1.
    destruct (lookup_lt_is_Some_2 (Scheduler.objects self) r1) as [s0 Hs0].
    { rewrite <- Hlen. by eapply lookup_lt_Some. }
    apply (gen_ok_ext self _ r1 s0);
      [by eapply Hsame| | |by apply (engine_reachable_gen self Hreach)].
    - unfold queued. rewrite <- !elem_of_app. by rewrite Hperm.
    - by injection Hlim. }
  destruct (lookup_lt_is_Some_2 (Scheduler.objects self1) r) as [s1 Hs1].
  { rewrite Hlen. by eapply lookup_lt_Some. }
  pose proof (Hsame r s s1 Hs Hs1) as Hcore.
  pose proof (schedule_finished _ _ _ _ r s s1 Hinv Hsched Hs Hs1) as Hfin.
  destruct (postprocess_tokens _ _ _ _ Hinv1 Hsub Hgen1 Hpost) as [Hin Hout].
  destruct (decide (r ∈ take (length (runner batch is_prefill)) batch))
    as [Hr|Hr].
  - apply elem_of_take in Hr as (i & Hi & Hlt).
    destruct (lookup_lt_is_Some_2 (runner batch is_prefill) i) as [t Ht];
      [done|].
    destruct (Hin i r t Hi Ht) as (s1' & s2 & Hs1' & Hs2 & Hcore2).
    assert (s1' = s1) as -> by congruence.
    assert (s2 = s') as -> by congruence.
    destruct (si_batch _ _ Hinv1 r) as (s3 & Hs3 & Hst & _);
      [by eapply list_elem_of_lookup_2|].
    assert (s3 = s1) as -> by congruence.
    injection Hcore as _ _ _ _ <- <- _.
    injection Hcore2 as _ _ _ _ -> -> _. simpl.
    split; [done|]. split; [done|].
    intros Hf. apply Hfin in Hf. congruence.
  - rewrite (Hout r Hr) in Hs'. assert (s1 = s') as -> by congruence.
    injection Hcore as _ _ _ _ -> -> _.
    split; [done|]. split; [done|]. by apply Hfin.
Qed.

Lemma step_objects_length self runner self' :
  engine_reachable self →
  Scheduler.step self runner = Ok self' →
  length (Scheduler.objects self') = length (Scheduler.objects self).
Proof.
  intros Hreach Hstep.
  pose proof (engine_reachable_inv self Hreach) as Hinv.
  unfold Scheduler.step in Hstep.
  apply bind_Ok in Hstep as ([self1 [batch is_prefill]] & Hsched & Hpost).
  destruct (schedule_same_gen _ _ _ _ Hsched) as [Hlen _].
  rewrite <- Hlen. unfold Scheduler.postprocess in Hpost.
  apply (for_each_invariant
           (λ _ s, length (Scheduler.objects s)
                   = length (Scheduler.objects self1))) in Hpost;
    [done| |done].
  intros _ [r t] s1 s2 Hl Hbody.
  unfold Scheduler.postprocess_body in Hbody.
  apply bind_Ok in Hbody as (seq & _ & Hbody). cbv zeta in Hbody.
  destruct (_ || _) in Hbody.
  - apply bind_Ok in Hbody as ([bm' seq'] & _ & Hbody).
    apply bind_Ok in Hbody as (running' & _ & Hbody).
    injection Hbody as <-. simpl. by rewrite !length_insert.
  - injection Hbody as <-. simpl. by rewrite length_insert.
Qed.

Lemma step_keeps_provisioned self runner self' :
  engine_reachable self → answers_each runner → provisioned self →
  Scheduler.step self runner = Ok self' →
  provisioned self'.
Proof.
  intros Hreach Hrunner Hprov Hstep.
  pose proof Hprov as [Hseqs Hb Hblocks Htokens].
  destruct (step_work _ _ _ Hreach Hrunner Hb Hstep) as [_ Hb'].
  pose proof (step_objects_length _ _ _ Hreach Hstep) as Hlen.
  assert (pool self' = pool self ∧ limits self' = limits self)
    as [Hpool Hlim].
  { unfold Scheduler.step in Hstep.
    apply bind_Ok in Hstep as ([self1 [batch is_prefill]] & Hsched & Hpost).
    destruct (postprocess_keeps _ _ _ _ Hpost) as [Hp Hl].
    destruct (schedule_keeps_sequences _ _ _ _ Hsched) as [_ Hl1].
    rewrite Hp, Hl, Hl1. split; [|done]. by eapply schedule_pool. }
  injection Hlim as Hl1 Hl2 Hl3.
  split; [by rewrite Hl1|done| |].
  - unfold pool, pool_size in Hpool. rewrite Hpool.
    etrans; [|exact Hblocks]. unfold demand.
    apply sum_le_lookup; [by rewrite !length_fmap|].
    intros i x y Hx Hy. rewrite list_lookup_fmap in Hx, Hy.
    destruct (Scheduler.objects self' !! i) as [s'|] eqn:Hs'; [|done].
    destruct (Scheduler.objects self !! i) as [s|] eqn:Hs; [|done].
    injection Hx as <-. injection Hy as <-.
    destruct (step_requests _ _ _ i s s' Hreach Hstep Hs Hs')
      as (Hnp & Hmax & Hfin).
    assert (0 ≤ need s) as Hneed.
    { unfold need. pose proof Sequence.block_size_pos.
      pose proof (Hb i s Hs).
      destruct (engine_reachable_gen self Hreach i s Hs) as (Hpos & _).
      apply Z.div_pos; lia. }
    unfold demand_of, Sequence.is_finished, need in *.
    rewrite Hnp, Hmax.
    destruct (decide (Sequence.status s = Sequence.FINISHED)) as [Hf|Hf].
    + rewrite !bool_decide_eq_true_2 by tauto. done.
    + rewrite (bool_decide_eq_false_2 _ Hf). case_bool_decide; lia.
  - intros r s' Hs'.
    destruct (lookup_lt_is_Some_2 (Scheduler.objects self) r) as [s Hs].
    { rewrite <- Hlen. by eapply lookup_lt_Some. }
    destruct (step_requests _ _ _ r s s' Hreach Hstep Hs Hs')
      as (Hnp & Hmax & _).
    rewrite Hnp, Hmax, Hl2. by eapply Htokens.
Qed.

(** X23.  With enough blocks a step always returns.  From a state that
    the engine reaches and that is provisioned ([max_num_seqs >= 1], every
    request has [max_tokens >= 1] and [num_prompt_tokens + max_tokens <=
    max_num_batched_tokens], and the pool has at least as many blocks as
    the sequences that are not FINISHED need at their full length,
    [ceil ((num_prompt_tokens + max_tokens) / block_size)] each), a step
    on an engine that is not finished returns, never failing the
    [assert scheduled_seqs] of [schedule]; the state after the step is
    provisioned again, and the tokens still to generate are fewer. *)
Theorem step_returns_when_provisioned (self : Scheduler.t)
    (runner : list nat → bool → list Z) :
  engine_reachable self →
  provisioned self →
  answers_each runner →
  LLMEngine.is_finished self = false →
  ∃ self',
    Scheduler.step self runner = Ok self' ∧
    provisioned self' ∧
    work self' < work self.
Proof.
  intros Hreach Hprov Hrunner Hnf.
  pose proof (engine_reachable_inv self Hreach) as Hinv.
  destruct (step_total self runner Hinv) as [[self' Hstep]|[_ Hraise]].
  - exists self'. split; [done|].
    split; [by eapply step_keeps_provisioned|].
    destruct (step_work _ _ _ Hreach Hrunner (pv_bounded _ Hprov) Hstep)
      as [Hw _].
    lia.
  - destruct (schedule_returns self Hreach Hprov Hnf)
      as (self1 & batch & is_prefill & Hok).
    congruence.
Qed.

End Provisioned.

(** ** [generate] *)

Lemma while_more_fuel {S} fuel fuel' (cond : S → result bool)
    (body : S → result (ctl S)) (s : S) (c : ctl S) :
  while fuel cond body s = Ok c → (fuel ≤ fuel')%nat →
  while fuel' cond body s = Ok c.
Proof.
  revert fuel' s. induction fuel as [|fuel IH]; intros fuel' s Hrun Hle;
    [done|].
  destruct fuel' as [|fuel']; [lia|].
  rewrite while_unfold in Hrun. rewrite while_unfold.
  destruct (cond s) as [[|]|e]; simpl in *; [|done|done].
  destruct (body s) as [[s1|s1]|e]; simpl in *; [|done|done].
  apply IH; [done|lia].
Qed.

Lemma sum_app (l1 l2 : list Z) :
  foldr Z.add 0 (l1 ++ l2) = foldr Z.add 0 l1 + foldr Z.add 0 l2.
Proof. induction l1 as [|x l1 IH]; simpl; lia. Qed.

Lemma sum_all_zero (l : list Z) :
  Forall (λ x, x = 0) l → foldr Z.add 0 l = 0.
Proof. induction 1; simpl; lia. Qed.

(** The dictionary after [for k, v in l: d[k] = v]. *)
Definition dict_update (d : gmap Z (list Z)) (l : list (Z * list Z))
  : gmap Z (list Z) :=
  foldl (λ outputs '(seq_id, token_ids), <[seq_id := token_ids]> outputs) d l.

Lemma dict_update_absent d l k :
  (∀ v, (k, v) ∉ l) → dict_update d l !! k = d !! k.
Proof.
  revert d. induction l as [|[k1 v1] l IH]; intros d Hno; [done|].
  unfold dict_update in *. simpl. rewrite IH.
  - apply lookup_insert_ne. intros ->. apply (Hno v1). by left.
  - intros v Hv. apply (Hno v). by right.
Qed.

Lemma dict_update_present d l k v :
  (k, v) ∈ l → (∀ v', (k, v') ∈ l → v' = v) →
  dict_update d l !! k = Some v.
Proof.
  revert d. induction l as [|[k1 v1] l IH]; intros d Hin Hfun.
  - by apply elem_of_nil in Hin.
  - unfold dict_update in *. simpl.
    destruct (decide (k ∈ l.*1)) as [Hk|Hno].
    + apply list_elem_of_fmap in Hk as ([k' v'] & -> & Hv'). simpl in *.
      assert (v' = v) as -> by (apply Hfun; by right).
      apply IH; [done|]. intros v2 Hv2. apply Hfun. by right.
    + assert (∀ v', (k, v') ∉ l) as Hno'.
      { intros v' Hv'. apply Hno. apply list_elem_of_fmap.
        by exists (k, v'). }
      fold (dict_update (<[k1:=v1]> d) l).
      rewrite dict_update_absent by done.
      apply elem_of_cons in Hin as [[= <- <-]|Hin].
      * by rewrite lookup_insert_eq.
      * by apply Hno' in Hin.
Qed.

(** [sorted] of the keys of a dictionary whose keys are [n0], ...,
    [n0 + n - 1]. *)
Lemma sorted_keys (d : gmap Z (list Z)) (n0 n : nat) :
  (∀ k, is_Some (d !! k) ↔ Z.of_nat n0 ≤ k < Z.of_nat (n0 + n)) →
  merge_sort Z.le (map_to_list d).*1 = Z.of_nat <$> seq n0 n.
Proof.
  intros Hdom.
  apply (Sorted_unique Z.le).
  - apply Sorted_merge_sort. intros x y. lia.
  - clear Hdom. revert n0. induction n as [|n IH]; intros n0; simpl.
    + constructor.
    + constructor; [apply IH|]. destruct n; simpl; constructor. lia.
  - rewrite merge_sort_Permutation. apply NoDup_Permutation.
    + apply NoDup_fst_map_to_list.
    + apply NoDup_fmap; [intros x y; lia|apply NoDup_seq].
    + intros k. rewrite !list_elem_of_fmap. split.
      * intros ([k' v] & -> & Hin). simpl.
        apply elem_of_map_to_list in Hin.
        destruct (proj1 (Hdom k') (mk_is_Some _ _ Hin)) as [Hlo Hhi].
        exists (Z.to_nat k'). split; [lia|]. apply elem_of_seq. lia.
      * intros (r & -> & Hr). apply elem_of_seq in Hr.
        destruct (proj2 (Hdom (Z.of_nat r))) as [v Hv]; [lia|].
        exists (Z.of_nat r, v). split; [done|]. by apply elem_of_map_to_list.
Qed.

Section Generate.
Context `{XXHash} `{Sequence.class_attrs}.

(** ** What a step does to each sequence *)

Lemma mapM_deref_total self l :
  (∀ r, r ∈ l → is_Some (Scheduler.objects self !! r)) →
  ∃ seqs, mapM (Scheduler.deref self) l = Ok seqs.
Proof.
  induction l as [|r l IH]; intros Hall; [by exists []|].
  destruct (Hall r) as [s Hs]; [by left|].
  destruct IH as [seqs Hseqs]; [intros r' Hr'; apply Hall; by right|].
  exists (s :: seqs). simpl.
  rewrite (proj2 (deref_Ok self r s) Hs). simpl. by rewrite Hseqs.
Qed.

Lemma prompt_after_append (s : Sequence.t) (t : Z) :
  0 ≤ Sequence.num_prompt_tokens s ≤ Z.of_nat (length (Sequence.token_ids s)) →
  Sequence.prompt_token_ids (Sequence.append_token s t)
  = Sequence.prompt_token_ids s.
Proof.
  intros Hn. unfold Sequence.prompt_token_ids. simpl.
  rewrite !py_slice_prefix by (rewrite ?length_app; simpl; lia).
  rewrite take_app_le by lia. done.
Qed.

Lemma same_core_prompt (s s' : Sequence.t) :
  gen_core s' = gen_core s →
  Sequence.prompt_token_ids s' = Sequence.prompt_token_ids s ∧
  Sequence.completion_token_ids s' = Sequence.completion_token_ids s.
Proof.
  intros Hc. unfold Sequence.prompt_token_ids, Sequence.completion_token_ids.
  injection Hc as _ -> _ _ -> _ _. done.
Qed.

Lemma step_sequences self self1 batch is_prefill token_ids self' :
  engine_reachable self →
  Scheduler.schedule self = Ok (self1, (batch, is_prefill)) →
  length token_ids = length batch →
  Scheduler.postprocess self1 batch token_ids = Ok self' →
  length (Scheduler.objects self') = length (Scheduler.objects self) ∧
  (∀ r, r ∈ batch → is_Some (Scheduler.objects self' !! r)) ∧
  ∀ r s s',
    Scheduler.objects self !! r = Some s →
    Scheduler.objects self' !! r = Some s' →
    Sequence.seq_id s' = Sequence.seq_id s ∧
    Sequence.num_prompt_tokens s' = Sequence.num_prompt_tokens s ∧
    Sequence.max_tokens s' = Sequence.max_tokens s ∧
    Sequence.ignore_eos s' = Sequence.ignore_eos s ∧
    Sequence.prompt_token_ids s' = Sequence.prompt_token_ids s ∧
    (Sequence.status s = Sequence.FINISHED →
     r ∉ batch ∧ Sequence.status s' = Sequence.FINISHED ∧
     Sequence.completion_token_ids s' = Sequence.completion_token_ids s) ∧
    (Sequence.status s ≠ Sequence.FINISHED →
     Sequence.status s' = Sequence.FINISHED → r ∈ batch).
Proof.
  intros Hreach Hsched Htoks Hpost.
  pose proof (engine_reachable_inv self Hreach) as Hinv.
  destruct (schedule_inv _ _ _ _ Hinv Hsched) as (Hinv1 & Hsub & _).
  destruct (schedule_keeps_sequences _ _ _ _ Hsched) as [Hperm Hlim].
  destruct (schedule_same_gen _ _ _ _ Hsched) as [Hlen Hsame].
  assert (gen_inv self1) as Hgen1.
  { intros r1 s1 Hs1.
    destruct (lookup_lt_is_Some_2 (Scheduler.objects self) r1) as [s0 Hs0].
    { rewrite <- Hlen. by eapply lookup_lt_Some. }
    apply (gen_ok_ext self _ r1 s0);
      [by eapply Hsame| | |by apply (engine_reachable_gen self Hreach)].
    - unfold queued. rewrite <- !elem_of_app. by rewrite Hperm.
    - by injection Hlim. }
  destruct (postprocess_tokens _ _ _ _ Hinv1 Hsub Hgen1 Hpost) as [Hin Hout].
  rewrite Htoks, firstn_all in Hout.
  assert (∀ r, r ∈ batch →
    ∃ t s1 s2, Scheduler.objects self1 !! r = Some s1 ∧
               Scheduler.objects self' !! r = Some s2 ∧
               gen_core s2 = gen_core (Sequence.append_token s1 t) ∧
               Sequence.status s1 = Sequence.RUNNING) as Hbatch.
  { intros r Hr. apply list_elem_of_lookup in Hr as Hi. destruct Hi as [i Hi].
    destruct (lookup_lt_is_Some_2 token_ids i) as [t Ht].
    { rewrite Htoks. by eapply lookup_lt_Some. }
    destruct (Hin i r t Hi Ht) as (s1 & s2 & Hs1 & Hs2 & Hcore).
    destruct (si_batch _ _ Hinv1 r Hr) as (s3 & Hs3 & Hst & _).
    assert (s3 = s1) as -> by congruence.
    by exists t, s1, s2. }
  assert (length (Scheduler.objects self')
          = length (Scheduler.objects self1)) as Hlen'.
  { unfold Scheduler.postprocess in Hpost.
    apply (for_each_invariant
             (λ _ s, length (Scheduler.objects s)
                     = length (Scheduler.objects self1))) in Hpost;
      [done| |done].
    intros _ [r t] s1 s2 Hl Hbody.
    unfold Scheduler.postprocess_body in Hbody.
    apply bind_Ok in Hbody as (seq & _ & Hbody). cbv zeta in Hbody.
    destruct (_ || _) in Hbody.
    - apply bind_Ok in Hbody as ([bm' seq'] & _ & Hbody).
      apply bind_Ok in Hbody as (running' & _ & Hbody).
      injection Hbody as <-. simpl. by rewrite !length_insert.
    - injection Hbody as <-. simpl. by rewrite length_insert. }
  split; [congruence|]. split.
  { intros r Hr. destruct (Hbatch r Hr) as (t & s1 & s2 & _ & Hs2 & _).
    by exists s2. }
  intros r s s' Hs Hs'.
  destruct (lookup_lt_is_Some_2 (Scheduler.objects self1) r) as [s1 Hs1].
  { rewrite Hlen. by eapply lookup_lt_Some. }
  pose proof (Hsame r s s1 Hs Hs1) as Hcore.
  pose proof (schedule_finished _ _ _ _ r s s1 Hinv Hsched Hs Hs1) as Hfin.
  destruct (same_core_prompt _ _ Hcore) as [Hp1 Hc1].
  destruct (decide (r ∈ batch)) as [Hr|Hr].
  - destruct (Hbatch r Hr) as (t & s1' & s2 & Hs1' & Hs2 & Hcore2 & Hst).
    assert (s1' = s1) as -> by congruence.
    assert (s2 = s') as -> by congruence.
    destruct (Hgen1 r s1 Hs1) as (Hnp & Hlen1 & _).
    destruct (same_core_prompt _ _ Hcore2) as [Hp2 _].
    rewrite Hp2, prompt_after_append, Hp1 by lia.
    injection Hcore as <- _ _ _ <- <- <-.
    injection Hcore2 as -> _ _ _ -> -> ->. simpl.
    split_and!; try done.
    intros Hf. apply Hfin in Hf. congruence.
  - rewrite (Hout r Hr) in Hs'. assert (s1 = s') as -> by congruence.
    injection Hcore as -> _ _ _ -> -> ->.
    split_and!; try done.
    + intros Hf. split; [done|]. split; [by apply Hfin|done].
    + intros Hnf Hf. apply Hfin in Hf. done.
Qed.

(** The [seq_id] of a sequence is its position in the engine. *)
Lemma engine_seq_ids self r s :
  engine_reachable self →
  Scheduler.objects self !! r = Some s →
  Sequence.seq_id s = Z.of_nat r.
Proof.
  intros Hreach. revert r s.
  induction Hreach as [m1 m2 eos n self Hbs Hinit
                      |self prompt params self' Hreach IH Hadd
                      |self runner self' Hreach IH Hrunner Hstep];
    intros r s Hs.
  - unfold Scheduler.__init__ in Hinit.
    apply bind_Ok in Hinit as (bm & _ & Hinit). injection Hinit as <-.
    done.
  - unfold Scheduler.add_request in Hadd.
    apply bind_Ok in Hadd as (seq & Hinit & Hadd). injection Hadd as <-.
    simpl in Hs. apply lookup_app_Some in Hs as [Hs|[Hge Hs]];
      [by apply IH|].
    apply list_lookup_singleton_Some in Hs as [Hr <-].
    unfold Sequence.__init__ in Hinit.
    apply bind_Ok in Hinit as (l & _ & Hinit). injection Hinit as <-.
    simpl. lia.
  - unfold Scheduler.step in Hstep.
    apply bind_Ok in Hstep as ([self1 [batch is_prefill]] & Hsched & Hpost).
    destruct (step_sequences _ _ _ _ _ _ Hreach Hsched (Hrunner _ _) Hpost)
      as (Hlen & _ & Hall).
    destruct (lookup_lt_is_Some_2 (Scheduler.objects self) r) as [s0 Hs0].
    { rewrite <- Hlen. by eapply lookup_lt_Some. }
    destruct (Hall r s0 s Hs0 Hs) as (-> & _). by apply IH.
Qed.

(** [LLMEngine.step] returns whenever the scheduler's part of it does, and
    its outputs are the sequences of the batch that are FINISHED. *)
Lemma llm_step_Ok self runner self' :
  engine_reachable self → answers_each runner →
  Scheduler.step self runner = Ok self' →
  ∃ self1 batch is_prefill outputs num_tokens,
    Scheduler.schedule self = Ok (self1, (batch, is_prefill)) ∧
    Scheduler.postprocess self1 batch (runner batch is_prefill) = Ok self' ∧
    LLMEngine.step self runner = Ok (self', (outputs, num_tokens)) ∧
    ∀ id toks,
      (id, toks) ∈ outputs
      ↔ ∃ r seq,
          r ∈ batch ∧ Scheduler.objects self' !! r = Some seq ∧
          Sequence.status seq = Sequence.FINISHED ∧
          id = Sequence.seq_id seq ∧
          toks = Sequence.completion_token_ids seq.
Proof.
  intros Hreach Hrunner Hstep. unfold Scheduler.step in Hstep.
  apply bind_Ok in Hstep as ([self1 [batch is_prefill]] & Hsched & Hpost).
  destruct (step_sequences _ _ _ _ _ _ Hreach Hsched (Hrunner _ _) Hpost)
    as (_ & Hbatch & _).
  destruct (mapM_deref_total self' batch Hbatch) as [seqs Hseqs].
  exists self1, batch, is_prefill. eexists _, _.
  split; [done|]. split; [done|]. split.
  { unfold LLMEngine.step. rewrite Hsched. simpl. rewrite Hpost. simpl.
    rewrite Hseqs. simpl. reflexivity. }
  apply mapM_deref in Hseqs.
  intros id toks. rewrite list_elem_of_fmap. split.
  - intros (seq & [= -> ->] & [Hfin Hseq]%list_elem_of_filter).
    apply bool_decide_eq_true in Hfin.
    apply list_elem_of_lookup in Hseq as [i Hi].
    destruct (Forall2_lookup_r _ _ _ _ _ Hseqs Hi) as (r & Hri & Hr).
    exists r, seq. split_and!; try done. by eapply list_elem_of_lookup_2.
  - intros (r & seq & Hr & Hs & Hfin & -> & ->).
    exists seq. split; [done|]. apply list_elem_of_filter.
    split; [by apply bool_decide_eq_true|].
    apply list_elem_of_lookup in Hr as [i Hi].
    destruct (Forall2_lookup_l _ _ _ _ _ Hseqs Hi) as (seq' & Hi' & Hs').
    assert (seq' = seq) as -> by congruence.
    by eapply list_elem_of_lookup_2.
Qed.

(** ** The requests of a call of [generate] *)

Definition params_list (prompts : list (list Z))
    (sampling_params : SamplingParams.t + list SamplingParams.t)
  : list SamplingParams.t :=
  match sampling_params with
  | inl sp => replicate (length prompts) sp
  | inr l => l
  end.

(** A request that the engine can serve: a prompt that is not empty, at
    least one token to generate, and a full length within the token budget
    of a batch. *)
Definition request_ok (max_num_batched_tokens : Z)
    (req : list Z * SamplingParams.t) : Prop :=
  req.1 ≠ [] ∧ 1 ≤ SamplingParams.max_tokens req.2 ∧
  Z.of_nat (length req.1) + SamplingParams.max_tokens req.2
  ≤ max_num_batched_tokens.

(** The blocks of a request at its full length. *)
Definition request_need (req : list Z * SamplingParams.t) : Z :=
  (Z.of_nat (length req.1) + SamplingParams.max_tokens req.2
   + Sequence.block_size - 1) / Sequence.block_size.

Definition request_tokens (req : list Z * SamplingParams.t) : Z :=
  SamplingParams.max_tokens req.2.

Definition sequence_of (req : list Z * SamplingParams.t) (seq : Sequence.t)
  : Prop :=
  Sequence.status seq = Sequence.WAITING ∧
  Sequence.token_ids seq = req.1 ∧
  Sequence.num_tokens seq = Z.of_nat (length req.1) ∧
  Sequence.num_prompt_tokens seq = Z.of_nat (length req.1) ∧
  Sequence.max_tokens seq = SamplingParams.max_tokens req.2 ∧
  Sequence.ignore_eos seq = SamplingParams.ignore_eos req.2.

Definition add_requests (reqs : list (list Z * SamplingParams.t))
    (self : Scheduler.t) : result Scheduler.t :=
  for_each (λ '(prompt, sp) self, Scheduler.add_request self prompt sp)
    reqs self.

Lemma add_request_effect self prompt sp :
  prompt ≠ [] →
  ∃ self' seq,
    Scheduler.add_request self prompt sp = Ok self' ∧
    Scheduler.objects self' = Scheduler.objects self ++ [seq] ∧
    sequence_of (prompt, sp) seq ∧
    limits self' = limits self ∧
    Scheduler.block_manager self' = Scheduler.block_manager self.
Proof.
  intros Hne.
  destruct (last prompt) as [l|] eqn:Hlast;
    [|by apply last_None in Hlast].
  unfold Scheduler.add_request, Sequence.__init__.
  rewrite (proj2 (py_getitem_last prompt l) Hlast). simpl.
  eexists _, _. split; [reflexivity|]. simpl. split; [reflexivity|].
  split; [|done]. by unfold sequence_of.
Qed.

Lemma add_requests_effect reqs self :
  engine_reachable self → provisioned self →
  Forall (request_ok (Scheduler.max_num_batched_tokens self)) reqs →
  demand self + foldr Z.add 0 (request_need <$> reqs) ≤ pool self →
  ∃ self' seqs,
    add_requests reqs self = Ok self' ∧
    engine_reachable self' ∧ provisioned self' ∧
    Scheduler.objects self' = Scheduler.objects self ++ seqs ∧
    Forall2 sequence_of reqs seqs ∧
    work self' = work self + foldr Z.add 0 (request_tokens <$> reqs) ∧
    limits self' = limits self.
Proof.
  revert self. induction reqs as [|[prompt sp] reqs IH];
    intros self Hreach Hprov Hok Hneed.
  { exists self, []. rewrite app_nil_r. simpl.
    split_and!; try done. lia. }
  apply Forall_cons in Hok as [(Hne & Hmax & Htok) Hok].
  simpl in Hne, Hmax, Htok. rewrite fmap_cons in Hneed. cbn [foldr] in Hneed.
  destruct (add_request_effect self prompt sp Hne)
    as (self1 & seq & Hadd & Hobjs & Hseq & Hlim & Hbm).
  destruct Hseq as (Hst & Htoks & Hnt & Hnp & Hmt & Hie).
  simpl in Hst, Htoks, Hnt, Hnp, Hmt, Hie.
  injection Hlim as Hl1 Hl2 Hl3.
  assert (Sequence.is_finished seq = false) as Hnf
    by (unfold Sequence.is_finished; rewrite Hst; done).
  assert (demand self1 = demand self + request_need (prompt, sp)) as Hd.
  { unfold demand. rewrite Hobjs, fmap_app, sum_app. simpl.
    unfold demand_of, need, request_need. rewrite Hnf, Hnp, Hmt. simpl. lia. }
  assert (work self1 = work self + SamplingParams.max_tokens sp) as Hw.
  { unfold work. rewrite Hobjs, fmap_app, sum_app. simpl.
    unfold remaining, Sequence.num_completion_tokens.
    rewrite Hnf, Hnp, Hnt, Hmt. lia. }
  assert (0 ≤ foldr Z.add 0 (request_need <$> reqs)) as Hpos.
  { apply sum_nonneg. apply Forall_fmap. eapply Forall_impl; [exact Hok|].
    intros req (_ & Hm & _). simpl. unfold request_need.
    pose proof Sequence.block_size_pos. apply Z.div_pos; lia. }
  assert (pool self1 = pool self) as Hpool by (unfold pool; by rewrite Hbm).
  destruct Hprov as [Hseqs Hb Hblocks Htokens].
  destruct (IH self1) as (self' & seqs & Hrun & Hreach' & Hprov' & Hobjs'
                          & Hall & Hw' & Hlim').
  - by eapply engine_add_request.
  - split.
    + by rewrite Hl1.
    + intros r s Hs. rewrite Hobjs in Hs.
      apply lookup_app_Some in Hs as [Hs|[_ Hs]]; [by eapply Hb|].
      apply list_lookup_singleton_Some in Hs as [_ <-]. lia.
    + unfold pool, pool_size in *. lia.
    + intros r s Hs. rewrite Hl2. rewrite Hobjs in Hs.
      apply lookup_app_Some in Hs as [Hs|[_ Hs]]; [by eapply Htokens|].
      apply list_lookup_singleton_Some in Hs as [_ <-]. lia.
  - by rewrite Hl2.
  - lia.
  - exists self', (seq :: seqs). split.
    { unfold add_requests in *. simpl. rewrite Hadd. simpl. exact Hrun. }
    split; [done|]. split; [done|]. split_and!.
    + by rewrite Hobjs', Hobjs, <- app_assoc.
    + constructor; [|done]. by unfold sequence_of.
    + rewrite Hw', Hw, fmap_cons. cbn [foldr]. unfold request_tokens at 2.
      simpl. lia.
    + rewrite Hlim'. unfold limits. by rewrite Hl1, Hl2, Hl3.
Qed.

(** ** The idle engine *)

Lemma idle_all_finished self r s :
  sched_inv [] self → LLMEngine.is_finished self = true →
  Scheduler.objects self !! r = Some s →
  Sequence.status s = Sequence.FINISHED.
Proof.
  intros Hinv Hidle Hs. unfold LLMEngine.is_finished, Scheduler.is_finished in Hidle.
  apply andb_true_iff in Hidle as [Hw%bool_decide_eq_true Hr%bool_decide_eq_true].
  destruct (si_others _ _ Hinv r s Hs) as [Hin|[Hin|[Hin|(Hst & _)]]];
    [rewrite Hw in Hin|rewrite Hr in Hin| |done];
    by apply elem_of_nil in Hin.
Qed.

Lemma idle_work self :
  sched_inv [] self → LLMEngine.is_finished self = true →
  work self = 0 ∧ demand self = 0.
Proof.
  intros Hinv Hidle. unfold work, demand.
  split; apply sum_all_zero, Forall_fmap, Forall_forall; intros s Hs;
    apply list_elem_of_lookup in Hs as [r Hs];
    pose proof (idle_all_finished self r s Hinv Hidle Hs) as Hst;
    simpl; unfold remaining, demand_of, Sequence.is_finished;
    by rewrite bool_decide_eq_true_2.
Qed.

(** ** The loop of [generate] *)

(** The entry of [outputs] for the key [k]: the completion tokens of the
    sequence at position [k], once it is FINISHED, for the sequences that
    the call added (those from position [n0] on). *)
Definition finished_output (n0 : nat) (objs : list Sequence.t) (k : Z)
  : option (list Z) :=
  if decide (Z.of_nat n0 ≤ k) then
    match objs !! Z.to_nat k with
    | Some s =>
        if Sequence.is_finished s then Some (Sequence.completion_token_ids s)
        else None
    | None => None
    end
  else None.

Record generating (n0 : nat) (reqs : list (list Z * SamplingParams.t))
    (eos : Z) (st : LLMEngine.generate_state) : Prop := {
  gs_reach : engine_reachable (LLMEngine.g_self st);
  gs_prov : provisioned (LLMEngine.g_self st);
  gs_eos : Scheduler.eos (LLMEngine.g_self st) = eos;
  gs_length :
    length (Scheduler.objects (LLMEngine.g_self st))
    = (n0 + length reqs)%nat;
  gs_old :
    ∀ r s, Scheduler.objects (LLMEngine.g_self st) !! r = Some s →
           (r < n0)%nat → Sequence.status s = Sequence.FINISHED;
  gs_requests :
    ∀ i req s,
      reqs !! i = Some req →
      Scheduler.objects (LLMEngine.g_self st) !! (n0 + i)%nat = Some s →
      Sequence.prompt_token_ids s = req.1 ∧
      Sequence.max_tokens s = SamplingParams.max_tokens req.2 ∧
      Sequence.ignore_eos s = SamplingParams.ignore_eos req.2;
  gs_outputs :
    ∀ k, LLMEngine.g_outputs st !! k
         = finished_output n0 (Scheduler.objects (LLMEngine.g_self st)) k
}.

Lemma generate_body_generating n0 reqs eos runner st :
  (∀ k, answers_each (runner k)) →
  generating n0 reqs eos st →
  LLMEngine.is_finished (LLMEngine.g_self st) = false →
  ∃ st',
    LLMEngine.generate_body runner st = Ok (Continue st') ∧
    generating n0 reqs eos st' ∧
    work (LLMEngine.g_self st') < work (LLMEngine.g_self st).
Proof.
  intros Hrunner [Hreach Hprov Heos Hlen Hold Hreqs Hout] Hnf.
  destruct st as [self outs steps]. simpl in *.
  pose proof (engine_reachable_inv self Hreach) as Hinv.
  assert (∃ self', Scheduler.step self (runner steps) = Ok self')
    as [self' Hstep].
  { destruct (step_total self (runner steps) Hinv) as [Hok|[_ Hraise]];
      [done|].
    destruct (schedule_returns self Hreach Hprov Hnf)
      as (self1 & batch & is_prefill & Hok).
    congruence. }
  assert (engine_reachable self') as Hreach'
    by (by eapply (engine_step self (runner steps))).
  pose proof (step_keeps_provisioned _ _ _ Hreach (Hrunner steps) Hprov Hstep)
    as Hprov'.
  destruct (step_work _ _ _ Hreach (Hrunner steps) (pv_bounded _ Hprov) Hstep)
    as [Hwork _].
  destruct (llm_step_Ok _ _ _ Hreach (Hrunner steps) Hstep)
    as (self1 & batch & is_prefill & outputs & num_tokens
        & Hsched & Hpost & Hllm & Houtputs).
  destruct (step_sequences _ _ _ _ _ _ Hreach Hsched (Hrunner _ _ _) Hpost)
    as (Hlen' & _ & Hall).
  destruct (schedule_keeps_sequences _ _ _ _ Hsched) as [_ Hlim1].
  destruct (postprocess_keeps _ _ _ _ Hpost) as [_ Hlim2].
  exists (LLMEngine.GenerateState self' (dict_update outs outputs) (S steps)).
  split.
  { unfold LLMEngine.generate_body. simpl. rewrite Hllm. done. }
  split; [|simpl; lia].
  assert (∀ r s', Scheduler.objects self' !! r = Some s' →
                  ∃ s, Scheduler.objects self !! r = Some s) as Hpre.
  { intros r s' Hs'. apply lookup_lt_is_Some_2. rewrite <- Hlen'.
    by eapply lookup_lt_Some. }
  split; simpl; try done.
  - rewrite Hlim1 in Hlim2. injection Hlim2 as _ _ He. congruence.
  - congruence.
  - intros r s' Hs' Hr. destruct (Hpre r s' Hs') as [s Hs].
    destruct (Hall r s s' Hs Hs') as (_ & _ & _ & _ & _ & Hfin & _).
    by apply Hfin, (Hold r s).
  - intros i req s' Hreq Hs'. destruct (Hpre _ s' Hs') as [s Hs].
    destruct (Hall _ s s' Hs Hs') as (_ & _ & -> & -> & -> & _).
    by apply (Hreqs i).
  - intros k. 
    assert (∀ v, (k, v) ∈ outputs →
                 ∃ s', 0 ≤ k ∧ Z.to_nat k ∈ batch ∧
                       Scheduler.objects self' !! Z.to_nat k = Some s' ∧
                       Sequence.status s' = Sequence.FINISHED ∧
                       v = Sequence.completion_token_ids s') as Hkey.
    { intros v (r & s' & Hr & Hs' & Hst & -> & ->)%Houtputs.
      rewrite (engine_seq_ids self' r s' Hreach' Hs').
      rewrite Nat2Z.id. exists s'. split_and!; try done. lia. }
    assert ((∃ s', Z.to_nat k ∈ batch ∧ 0 ≤ k ∧
                Scheduler.objects self' !! Z.to_nat k = Some s' ∧
                Sequence.status s' = Sequence.FINISHED)
            ∨ ¬ (∃ s', Z.to_nat k ∈ batch ∧ 0 ≤ k ∧
                Scheduler.objects self' !! Z.to_nat k = Some s' ∧
                Sequence.status s' = Sequence.FINISHED))
      as [(s' & Hr & Hk & Hs' & Hst)|Hno].
    { destruct (Scheduler.objects self' !! Z.to_nat k) as [s'|] eqn:Hs'.
      - destruct (decide (Z.to_nat k ∈ batch ∧ 0 ≤ k ∧
                          Sequence.status s' = Sequence.FINISHED))
          as [(Hr & Hk & Hst)|Hn].
        + left. by exists s'.
        + right. intros (s2 & Hr & Hk & [= <-] & Hst). by apply Hn.
      - right. by intros (s2 & _ & _ & [=] & _). }
    + destruct (Hpre _ s' Hs') as [s Hs].
      destruct (Hall _ s s' Hs Hs') as (_ & _ & _ & _ & _ & Hfin & _).
      assert (Z.of_nat n0 ≤ k) as Hn0.
      { destruct (decide (Z.to_nat k < n0)%nat) as [Hlt|]; [|lia].
        pose proof (Hold _ s Hs Hlt) as Hf. apply Hfin in Hf as [Hf _].
        done. }
      rewrite (dict_update_present outs outputs k
                 (Sequence.completion_token_ids s')).
      * unfold finished_output. rewrite decide_True by done. rewrite Hs'.
        unfold Sequence.is_finished. by rewrite bool_decide_eq_true_2.
      * apply Houtputs. exists (Z.to_nat k), s'. split_and!; try done.
        rewrite (engine_seq_ids self' _ s' Hreach' Hs'). lia.
      * intros v' (s2 & _ & _ & Hs2 & _ & ->)%Hkey. congruence.
    + rewrite dict_update_absent.
      2:{ intros v (s' & Hk & Hr & Hs' & Hst & _)%Hkey. apply Hno.
          by exists s'. }
      rewrite Hout. unfold finished_output.
      destruct (decide (Z.of_nat n0 ≤ k)) as [Hn0|]; [|done].
      destruct (Scheduler.objects self' !! Z.to_nat k) as [s'|] eqn:Hs'.
      * destruct (Hpre _ s' Hs') as [s Hs]. rewrite Hs.
        destruct (Hall _ s s' Hs Hs') as (_ & _ & _ & _ & _ & Hfin & Hnew).
        unfold Sequence.is_finished.
        destruct (decide (Sequence.status s = Sequence.FINISHED)) as [Hf|Hf].
        -- destruct (Hfin Hf) as (_ & Hf' & ->).
           by rewrite !bool_decide_eq_true_2.
        -- rewrite (bool_decide_eq_false_2 _ Hf).
           case_bool_decide as Hf'; [|done].
           exfalso. apply Hno. exists s'. split_and!; try done; [|lia].
           by apply Hnew.
      * apply lookup_ge_None in Hs'. rewrite Hlen' in Hs'.
        by rewrite (proj2 (lookup_ge_None _ _) Hs').
Qed.

Lemma generate_loop n0 reqs eos runner st fuel :
  (∀ k, answers_each (runner k)) →
  generating n0 reqs eos st →
  (Z.to_nat (work (LLMEngine.g_self st)) < fuel)%nat →
  ∃ st',
    while fuel LLMEngine.generate_cond (LLMEngine.generate_body runner) st
    = Ok (Continue st') ∧
    generating n0 reqs eos st' ∧
    LLMEngine.is_finished (LLMEngine.g_self st') = true.
Proof.
  intros Hrunner Hgen Hfuel.
  destruct (while_total (generating n0 reqs eos)
              (λ st, Z.to_nat (work (LLMEngine.g_self st))) fuel
              LLMEngine.generate_cond (LLMEngine.generate_body runner) st)
    as [c Hrun]; [| |done|done|].
  - intros s _. by eexists.
  - intros s Hs [= Hc%negb_true_iff].
    destruct (generate_body_generating _ _ _ _ _ Hrunner Hs Hc)
      as (s' & Hbody & Hs' & Hw).
    exists (Continue s'). split; [done|]. split; [done|].
    assert (0 ≤ work (LLMEngine.g_self s')); [|lia].
    apply sum_nonneg, Forall_fmap, Forall_forall. intros seq Hseq. simpl.
    apply list_elem_of_lookup in Hseq as [r Hr].
    by eapply remaining_nonneg;
      [apply (gs_reach _ _ _ _ Hs')|apply (pv_bounded _ (gs_prov _ _ _ _ Hs'))|].
  - pose proof (while_invariant_break (generating n0 reqs eos) (λ _, False)
                  fuel LLMEngine.generate_cond
                  (LLMEngine.generate_body runner) st c) as Hend.
    assert (∀ s s', generating n0 reqs eos s →
                    LLMEngine.generate_cond s = Ok true →
                    LLMEngine.generate_body runner s = Ok (Continue s') →
                    generating n0 reqs eos s') as Hcont.
    { intros s s' Hs [= Hc%negb_true_iff] Hbody.
      destruct (generate_body_generating _ _ _ _ _ Hrunner Hs Hc)
        as (s2 & Hbody2 & Hs2 & _).
      congruence. }
    assert (∀ s s', generating n0 reqs eos s →
                    LLMEngine.generate_cond s = Ok true →
                    LLMEngine.generate_body runner s = Ok (Break s') →
                    False) as Hbreak.
    { intros s s' Hs [= Hc%negb_true_iff] Hbody.
      destruct (generate_body_generating _ _ _ _ _ Hrunner Hs Hc)
        as (s2 & Hbody2 & Hs2 & _).
      congruence. }
    specialize (Hend Hcont Hbreak Hgen Hrun).
    destruct c as [st'|st']; [|done].
    destruct Hend as [Hs' [= Hc%negb_false_iff]]. by exists st'.
Qed.

Lemma outputs_in_order (d : gmap Z (list Z)) (objs : list Sequence.t)
    (n0 n : nat) :
  length objs = (n0 + n)%nat →
  (∀ r s, objs !! r = Some s → (n0 ≤ r)%nat →
          d !! Z.of_nat r = Some (Sequence.completion_token_ids s)) →
  mapM (λ seq_id, match d !! seq_id with
                  | Some token_ids => Ok token_ids
                  | None => Raise KeyError
                  end) (Z.of_nat <$> seq n0 n)
  = Ok (Sequence.completion_token_ids <$> drop n0 objs).
Proof.
  revert n0. induction n as [|n IH]; intros n0 Hlen Hd.
  - rewrite drop_ge by lia. done.
  - destruct (lookup_lt_is_Some_2 objs n0) as [s Hs]; [lia|].
    rewrite (drop_S _ _ _ Hs). cbn [seq]. rewrite !fmap_cons.
    cbn [mapM]. rewrite (Hd n0 s Hs) by lia. simpl.
    rewrite (IH (S n0)); [done|lia|].
    intros r s' Hs' Hr. apply Hd; [done|lia].
Qed.

(** X24.  [generate] returns, with one output for each request.  On an
    engine that is reachable, idle and provisioned, with requests whose
    prompts are not empty, that ask for at least one token, whose full
    length [len(prompt) + max_tokens] is within [max_num_batched_tokens],
    and which together need no more blocks at their full length than the
    pool has, and with a model runner that answers one token for each
    scheduled sequence: the loop of [generate] ends after at most
    [sum of max_tokens] steps, no step raises, and the result has one list
    of completion tokens for each request, in the order of the requests.
    Each list has between one and [max_tokens] tokens; it has [max_tokens]
    of them, or [ignore_eos] is off and it ends with EOS; with
    [ignore_eos] off, EOS occurs nowhere but at its end.  The engine is
    idle and provisioned again afterwards. *)
Theorem generate_returns (self : Scheduler.t)
    (runner : nat → list nat → bool → list Z) (prompts : list (list Z))
    (sampling_params : SamplingParams.t + list SamplingParams.t) :
  let requests := zip prompts (params_list prompts sampling_params) in
  engine_reachable self → provisioned self →
  LLMEngine.is_finished self = true →
  (∀ k, answers_each (runner k)) →
  Forall (request_ok (Scheduler.max_num_batched_tokens self)) requests →
  foldr Z.add 0 (request_need <$> requests)
  ≤ Z.of_nat (length (BlockManager.blocks (Scheduler.block_manager self))) →
  ∃ self' outputs,
    (∀ fuel,
       (Z.to_nat (foldr Z.add 0%Z (request_tokens <$> requests)) < fuel)%nat →
       LLMEngine.generate fuel self runner prompts sampling_params
       = Ok (self', outputs)) ∧
    engine_reachable self' ∧ provisioned self' ∧
    LLMEngine.is_finished self' = true ∧
    length outputs = length requests ∧
    ∀ i req,
      requests !! i = Some req →
      ∃ seq,
        Scheduler.objects self' !! (length (Scheduler.objects self) + i)%nat
        = Some seq ∧
        Sequence.prompt_token_ids seq = req.1 ∧
        outputs !! i = Some (Sequence.completion_token_ids seq) ∧
        1 ≤ Z.of_nat (length (Sequence.completion_token_ids seq))
          ≤ SamplingParams.max_tokens req.2 ∧
        (Z.of_nat (length (Sequence.completion_token_ids seq))
         = SamplingParams.max_tokens req.2
         ∨ (SamplingParams.ignore_eos req.2 = false ∧
            last (Sequence.completion_token_ids seq)
            = Some (Scheduler.eos self))) ∧
        (SamplingParams.ignore_eos req.2 = false →
         ∀ j : nat,
           Sequence.completion_token_ids seq !! j = Some (Scheduler.eos self) →
           S j = length (Sequence.completion_token_ids seq)).
Proof.
  intros requests Hreach Hprov Hidle Hrunner Hok Hneed.
  pose proof (engine_reachable_inv self Hreach) as Hinv.
  destruct (idle_work self Hinv Hidle) as [Hw0 Hd0].
  destruct (add_requests_effect requests self Hreach Hprov Hok)
    as (self1 & seqs & Hadd & Hreach1 & Hprov1 & Hobjs1 & Hseqs & Hw1 & Hlim1);
    [unfold pool, pool_size; lia|].
  pose proof (Forall2_length _ _ _ Hseqs) as Hlens.
  set (n0 := length (Scheduler.objects self)) in *.
  assert (generating n0 requests (Scheduler.eos self)
            (LLMEngine.GenerateState self1 ∅ 0)) as Hgen0.
  { split; simpl; try done.
    - by injection Hlim1.
    - rewrite Hobjs1, length_app. fold n0. lia.
    - intros r s Hs Hr. rewrite Hobjs1, lookup_app_l in Hs by (fold n0; lia).
      by eapply idle_all_finished.
    - intros i req s Hreq Hs.
      rewrite Hobjs1, lookup_app_r in Hs by (fold n0; lia). fold n0 in Hs.
      replace (n0 + i - n0)%nat with i in Hs by lia.
      pose proof (Forall2_lookup_lr _ _ _ _ _ _ Hseqs Hreq Hs)
        as (Hst & Htoks & Hnt & Hnp & Hmt & Hie).
      split; [|done]. unfold Sequence.prompt_token_ids.
      rewrite Hnp, Htoks, py_slice_prefix by lia.
      by rewrite Nat2Z.id, firstn_all.
    - intros k. rewrite lookup_empty. unfold finished_output.
      destruct (decide (Z.of_nat n0 ≤ k)) as [Hk|]; [|done].
      destruct (Scheduler.objects self1 !! Z.to_nat k) as [s|] eqn:Hs;
        [|done].
      rewrite Hobjs1, lookup_app_r in Hs by (fold n0; lia).
      destruct (Forall2_lookup_r _ _ _ _ _ Hseqs Hs)
        as (req & _ & Hst & _).
      unfold Sequence.is_finished. rewrite Hst. done. }
  destruct (generate_loop n0 requests (Scheduler.eos self) runner
              (LLMEngine.GenerateState self1 ∅ 0)
              (S (Z.to_nat (work self1))) Hrunner Hgen0)
    as (st' & Hloop & Hgen' & Hfin'); [simpl; lia|].
  destruct Hgen' as [Hreach' Hprov' Heos' Hlen' Hold' Hreqs' Hout'].
  pose proof (engine_reachable_inv _ Hreach') as Hinv'.
  exists (LLMEngine.g_self st'),
    (Sequence.completion_token_ids
       <$> drop n0 (Scheduler.objects (LLMEngine.g_self st'))).
  split.
  { intros fuel Hfuel. unfold LLMEngine.generate.
    unfold add_requests, requests, params_list in Hadd.
    apply bind_Ok. exists self1. split; [exact Hadd|].
    apply bind_Ok. exists (Continue st'). split.
    { eapply while_more_fuel; [exact Hloop|]. rewrite Hw1, Hw0.
      fold requests in Hfuel. lia. }
    cbv zeta. apply bind_Ok. eexists. split; [|reflexivity].
    cbn [ctl_state].
    rewrite (sorted_keys _ n0 (length requests)).
    - by apply outputs_in_order; [|intros r s Hs Hr; rewrite Hout';
        unfold finished_output; rewrite decide_True by lia;
        rewrite Nat2Z.id, Hs; unfold Sequence.is_finished;
        rewrite bool_decide_eq_true_2
          by (by eapply (idle_all_finished _ r))].
    - intros k. rewrite Hout'. unfold finished_output. split.
      + intros [v Hv]. destruct (decide (Z.of_nat n0 ≤ k)); [|done].
        destruct (Scheduler.objects (LLMEngine.g_self st') !! Z.to_nat k)
          as [s|] eqn:Hs; [|done].
        apply lookup_lt_Some in Hs. lia.
      + intros [Hlo Hhi]. rewrite decide_True by done.
        destruct (lookup_lt_is_Some_2
                    (Scheduler.objects (LLMEngine.g_self st')) (Z.to_nat k))
          as [s Hs]; [lia|].
        rewrite Hs. unfold Sequence.is_finished.
        rewrite bool_decide_eq_true_2
          by (by eapply (idle_all_finished _ (Z.to_nat k))).
        done. }
  split; [done|]. split; [done|]. split; [done|]. split.
  { rewrite length_fmap, length_drop, Hlen'. lia. }
  intros i req Hreq.
  destruct (lookup_lt_is_Some_2
              (Scheduler.objects (LLMEngine.g_self st')) (n0 + i))
    as [seq Hs]; [apply lookup_lt_Some in Hreq; lia|].
  exists seq.
  destruct (Hreqs' i req seq Hreq Hs) as (Hp & Hmax & Hie).
  pose proof (idle_all_finished _ _ _ Hinv' Hfin' Hs) as Hst.
  destruct (engine_reachable_gen _ Hreach' _ _ Hs)
    as (Hnp & Hlen & Hmaxle & Hq & Hnq & Hidx).
  destruct (generation_stops_inv _ _ _ Hreach' Hs) as (Hclen & Hfq & _).
  pose proof (pv_bounded _ Hprov' _ _ Hs) as Hb.
  apply Hfq in Hst as Hnotq. destruct (Hnq Hnotq) as [Hone Hend].
  specialize (Hmaxle Hb).
  rewrite Heos', Hmax, Hie in *. rewrite Hclen.
  split; [done|]. split; [done|]. split.
  { by rewrite list_lookup_fmap, lookup_drop, Hs. }
  split; [lia|]. split; [done|].
  intros Hoff j Hj. specialize (Hidx Hoff j Hj). lia.
Qed.

End Generate.

(** * Concrete runs

    The digest is XXH64.  Scenario 1 of the design document is run with
    blocks of 4 tokens, as the document has it; every other run uses the
    block size of the source, 256. *)

Definition no_manager : BlockManager.t := BlockManager.mk 0 [] ∅ [] ∅.
Definition no_sequence : Sequence.t :=
  Sequence.mk 0 Sequence.WAITING [] 0 0 0 0 [] 0 false.
Definition no_scheduler : Scheduler.t :=
  Scheduler.mk 0 0 0 no_manager [] [] [].

Definition get_world (r : result world) : world :=
  match r with Ok w => w | Raise _ => World no_manager [] end.
Definition get_scheduler (r : result Scheduler.t) : Scheduler.t :=
  match r with Ok s => s | Raise _ => no_scheduler end.
Definition get_alloc_state (r : result BlockManager.alloc_state)
  : BlockManager.alloc_state :=
  match r with
  | Ok st => st
  | Raise _ => BlockManager.AllocState no_manager no_sequence (-1) false
  end.
Definition get_sched_state (r : result (ctl Scheduler.sched_state))
  : Scheduler.sched_state :=
  match r with
  | Ok c => ctl_state c
  | Raise _ => Scheduler.SchedState no_scheduler [] 0 0
  end.

Definition nth_seq (seqs : list Sequence.t) (r : nat) : Sequence.t :=
  default no_sequence (seqs !! r).
Definition nth_block (bm : BlockManager.t) (n : nat) : Block.t :=
  default (Block.__init__ (-1)) (BlockManager.blocks bm !! n).

Definition request (prompt : list Z) : op := OpNew prompt SamplingParams.default.

(** The model runner of the runs samples token 5 for every sequence. *)
Definition runner_5 (seqs : list nat) (is_prefill : bool) : list Z :=
  (λ _, 5) <$> seqs.

Section Engine.
Context `{XXHash} `{Sequence.class_attrs}.

Fixpoint ticks (n : nat) (self : Scheduler.t) : result Scheduler.t :=
  match n with
  | O => Ok self
  | S n' => self ← Scheduler.step self runner_5; ticks n' self
  end.

(** An engine with the default budgets, a pool of [num_blocks] blocks of
    [Sequence.block_size] tokens, EOS = 0 and the requests [prompts], after
    [n] ticks. *)
Definition engine (num_blocks : Z) (prompts : list (list Z)) (n : nat)
  : result Scheduler.t :=
  self ← Scheduler.__init__ 512 16384 0 num_blocks Sequence.block_size;
  self ← for_each (λ prompt self,
                     Scheduler.add_request self prompt SamplingParams.default)
           prompts self;
  ticks n self.

End Engine.

(** ** Scenario 1 of the design document: blocks of 4 tokens *)

Definition block_size_4 : Sequence.class_attrs :=
  {| Sequence.block_size := 4; Sequence.block_size_pos := eq_refl |}.

Section Scenario1.
#[local] Existing Instance XXH64.xxhash.
#[local] Existing Instance block_size_4.

Definition prefix_sharing : list op :=
  [request [1; 2; 3; 4; 5; 6; 7; 8; 9];
   request [1; 2; 3; 4; 5; 6; 7; 8; 10];
   OpAllocate 0; OpAllocate 1].
Definition prefix_sharing_world : world :=
  Eval vm_compute in get_world (run 8 prefix_sharing).

(** The same calls when only the manager is given blocks of 4 tokens and
    the class attribute [Sequence.block_size] keeps the value of the
    source. *)
Definition prefix_sharing_unpatched : result world :=
  bm ← BlockManager.__init__ 8 4;
  for_each (run_op (H0 := Sequence.source_class_attrs)) prefix_sharing
    (World bm []).

(** The world of scenario 1 when only the first sequence is allocated. *)
Definition first_allocated : world :=
  Eval vm_compute in get_world (run 8 (take 3 prefix_sharing)).
(** The loop of [allocate] on the second sequence of scenario 1 when it
    reaches logical block 1, and the result of the call. *)
Definition second_sequence_at_1 : BlockManager.alloc_state :=
  Eval vm_compute in get_alloc_state
    (allocate_upto (w_bm first_allocated)
       (nth_seq (w_seqs first_allocated) 1) 1).
Definition second_sequence_allocated : BlockManager.t * Sequence.t :=
  Eval vm_compute in
  match BlockManager.allocate (w_bm first_allocated)
          (nth_seq (w_seqs first_allocated) 1) with
  | Ok r => r
  | Raise _ => (w_bm first_allocated, no_sequence)
  end.


(** A pool of 4 blocks of 4 tokens in which block 1 holds [1..4] and is
    indexed both as a first block and as the block after [9,9,9,9]: the
    sequence [1..4] (sequence 2) took it from the free pool, the sequence
    [9,9,9,9,1,2,3,4] (sequence 3) then hit it and left the hash of its own
    chain in it; sequence 2 then decodes 5, 6, 7, 8 and fills its second
    block. *)
Definition foreign_prefix : list op :=
  [request [9; 9; 9; 9; 1; 2; 3; 4];
   request [7; 7; 7; 7; 7];
   request [1; 2; 3; 4];
   request [9; 9; 9; 9; 1; 2; 3; 4];
   OpAllocate 0; OpDeallocate 0; OpAllocate 1; OpAllocate 2; OpAllocate 3;
   OpDeallocate 1;
   OpAppendToken 2 5; OpMayAppend 2; OpAppendToken 2 6; OpMayAppend 2;
   OpAppendToken 2 7; OpMayAppend 2; OpAppendToken 2 8; OpMayAppend 2].
Definition foreign_prefix_world : world :=
  Eval vm_compute in get_world (run 4 foreign_prefix).

(** A sequence outside the world of scenario 1, to allocate and
    deallocate. *)
Definition visitor : Sequence.t :=
  Sequence.mk 7 Sequence.WAITING [1; 2; 3; 4; 7] 7 5 5 0 [] 64 false.

(** The two requests of scenario 1 in the waiting queue of an engine, and
    the state of the prefill loop after its first pass. *)
Definition two_waiting : Scheduler.t :=
  Eval vm_compute in get_scheduler
    (engine 8 [[1; 2; 3; 4; 5; 6; 7; 8; 9]; [1; 2; 3; 4; 5; 6; 7; 8; 10]] 0).
Definition after_first_pass : Scheduler.sched_state :=
  Eval vm_compute in get_sched_state
    (Scheduler.prefill_body (Scheduler.SchedState two_waiting [] 0 0)).

Lemma prefix_sharing_reachable : reachable prefix_sharing_world.
Proof.
  apply (run_reachable 8 prefix_sharing); [done|]. vm_compute. reflexivity.
Qed.

(** C2, as the design document states it, fails for the first sequence: it
    is allocated on an empty dedup index, every one of its blocks is a miss,
    and it reports 0 cached tokens, not 8.  (It reports 0 as well when
    [Sequence.block_size] is left at 256: each sequence is then one partial
    block, and the two block tables are [0] and [1].) *)
Lemma prefix_sharing_first_sequence_uncached :
  run 8 prefix_sharing = Ok prefix_sharing_world ∧
  Sequence.token_ids (nth_seq (w_seqs prefix_sharing_world) 0)
  = [1; 2; 3; 4; 5; 6; 7; 8; 9] ∧
  Sequence.num_cached_tokens (nth_seq (w_seqs prefix_sharing_world) 0) = 0 ∧
  Sequence.num_cached_tokens (nth_seq (w_seqs prefix_sharing_world) 0) ≠ 8 ∧
  (∃ w, prefix_sharing_unpatched = Ok w ∧
        Sequence.block_table <$> w_seqs w = [[0]; [1]] ∧
        Sequence.num_cached_tokens <$> w_seqs w = [0; 0]).
Proof.
  split_and!; try by vm_compute.
  eexists. split_and!; vm_compute; reflexivity.
Qed.

(** C2 (as amended).  From a fresh block manager with 8 blocks of 4 tokens,
    and with [Sequence.block_size] = 4 as well, allocating
    A = [1..8, 9] and then B = [1..8, 10]: both block tables start with
    blocks 0 and 1, each of these two blocks has reference count 2, A
    reports 0 cached tokens and B reports 8. *)
Theorem prefix_sharing_scenario :
  run 8 prefix_sharing = Ok prefix_sharing_world ∧
  take 2 (Sequence.block_table (nth_seq (w_seqs prefix_sharing_world) 0))
  = take 2 (Sequence.block_table (nth_seq (w_seqs prefix_sharing_world) 1)) ∧
  Sequence.block_table (nth_seq (w_seqs prefix_sharing_world) 0) = [0; 1; 2] ∧
  Sequence.block_table (nth_seq (w_seqs prefix_sharing_world) 1) = [0; 1; 3] ∧
  Block.ref_count (nth_block (w_bm prefix_sharing_world) 0) = 2 ∧
  Block.ref_count (nth_block (w_bm prefix_sharing_world) 1) = 2 ∧
  Sequence.num_cached_tokens (nth_seq (w_seqs prefix_sharing_world) 0) = 0 ∧
  Sequence.num_cached_tokens (nth_seq (w_seqs prefix_sharing_world) 1) = 8.
Proof.
  assert (run 8 prefix_sharing = Ok prefix_sharing_world) as Hrun
    by (vm_compute; reflexivity).
  split; [exact Hrun|].
  split_and!; vm_compute; reflexivity.
Qed.

Lemma first_allocated_reachable : reachable first_allocated.
Proof.
  apply (run_reachable 8 (take 3 prefix_sharing)); [done|].
  vm_compute. reflexivity.
Qed.

(** The second sequence of scenario 1 hits block 1 with its logical block
    1, its logical block 0 having been a hit as well. *)
Lemma allocate_hit_until_first_miss_witness :
  ∃ st st',
    allocate_upto (w_bm first_allocated)
      (nth_seq (w_seqs first_allocated) 1) 1 = Ok st ∧
    BlockManager.allocate_body 1 st = Ok st' ∧
    BlockManager.a_cache_miss st = false ∧
    ¬ earlier_miss (w_bm first_allocated)
        (nth_seq (w_seqs first_allocated) 1) 1 ∧
    Block.ref_count (nth_block (BlockManager.a_self st') 1) = 2 ∧
    Sequence.num_cached_tokens (BlockManager.a_seq st') = 8 ∧
    Sequence.block_table (BlockManager.a_seq st') = [0; 1].
Proof.
  destruct (allocate_hit_until_first_miss first_allocated
              (nth_seq (w_seqs first_allocated) 1)
              (second_sequence_allocated.1) (second_sequence_allocated.2) 1)
    as (st & st' & st_end & Hst & Hbody & _ & _ & _ & _ & Hflag & Hpass).
  - exact first_allocated_reachable.
  - vm_compute. reflexivity.
  - vm_compute. split; [discriminate|reflexivity].
  - assert (st = second_sequence_at_1) as ->.
    { assert (allocate_upto (w_bm first_allocated)
                (nth_seq (w_seqs first_allocated) 1) 1
              = Ok second_sequence_at_1) as Hc by (vm_compute; reflexivity).
      rewrite Hc in Hst. injection Hst as <-. reflexivity. }
    assert (BlockManager.a_cache_miss second_sequence_at_1 = false) as Hfalse
      by reflexivity.
    assert (¬ earlier_miss (w_bm first_allocated)
                (nth_seq (w_seqs first_allocated) 1) 1) as Hno.
    { intros Hm. apply Hflag in Hm. rewrite Hfalse in Hm. discriminate. }
    destruct (Hpass [5; 6; 7; 8]
                (BlockManager.a_h
                   (get_alloc_state
                      (BlockManager.allocate_body 1 second_sequence_at_1)))
                1 (nth_block (BlockManager.a_self second_sequence_at_1) 1))
      as [Hhit _].
    { unfold index_match. split_and!; vm_compute; reflexivity. }
    destruct (Hhit Hno) as (Hcached & Htable & Hused & _).
    destruct Hused as (Hget & _ & _).
    { refine (bool_decide_unpack _ _). vm_compute. exact I. }
    exists second_sequence_at_1, st'.
    split; [exact Hst|]. split; [exact Hbody|]. split; [exact Hfalse|].
    split; [exact Hno|]. split; [|split].
    + unfold nth_block. apply get_block_range in Hget.
      * change (Z.to_nat 1) with 1%nat in Hget. rewrite Hget.
        vm_compute. reflexivity.
      * apply (get_block_nonneg _ 1) in Hget; [|done]. lia.
    + rewrite Hcached. vm_compute. reflexivity.
    + rewrite Htable. vm_compute. reflexivity.
Defined.



(** The chain of a hash written by [may_append] need not be the chain of
    the sequence it is called on: in [foreign_prefix_world] sequence 2 is
    [1..8] and its second block, block 3, is hashed as the chain of
    [9,9,9,9], [1..4] and [5..8]. *)
Lemma hash_chained_to_foreign_prefix :
  run 4 foreign_prefix = Ok foreign_prefix_world ∧
  Sequence.token_ids (nth_seq (w_seqs foreign_prefix_world) 2)
  = [1; 2; 3; 4; 5; 6; 7; 8] ∧
  Sequence.block_table (nth_seq (w_seqs foreign_prefix_world) 2) = [1; 3] ∧
  Sequence.block_table <$> w_seqs foreign_prefix_world
  = [[]; []; [1; 3]; [0; 1]] ∧
  Block.token_ids (nth_block (w_bm foreign_prefix_world) 3) = [5; 6; 7; 8] ∧
  chain_hash [[9; 9; 9; 9]; [1; 2; 3; 4]; [5; 6; 7; 8]]
  = Ok (Block.hash (nth_block (w_bm foreign_prefix_world) 3)) ∧
  chain_hash [[1; 2; 3; 4]; [5; 6; 7; 8]]
  ≠ Ok (Block.hash (nth_block (w_bm foreign_prefix_world) 3)).
Proof. split_and!; by vm_compute. Qed.

Lemma pool_conservation_witness :
  NoDup (BlockManager.free_block_ids (w_bm prefix_sharing_world)) ∧
  (∀ b, b ∈ BlockManager.free_block_ids (w_bm prefix_sharing_world) →
        b ∉ BlockManager.used_block_ids (w_bm prefix_sharing_world)) ∧
  (length (BlockManager.free_block_ids (w_bm prefix_sharing_world))
   + size (BlockManager.used_block_ids (w_bm prefix_sharing_world))
   = length (BlockManager.blocks (w_bm prefix_sharing_world)))%nat.
Proof.
  exact (pool_conservation _
           (reachable_bm_reachable _ prefix_sharing_reachable)).
Defined.

Lemma allocate_deallocate_roundtrip_witness :
  ∃ bm1 seq1 bm2 seq2,
    BlockManager.allocate (w_bm prefix_sharing_world) visitor = Ok (bm1, seq1) ∧
    BlockManager.deallocate bm1 seq1 = Ok (bm2, seq2) ∧
    length (BlockManager.free_block_ids bm2)
    = length (BlockManager.free_block_ids (w_bm prefix_sharing_world)) ∧
    size (BlockManager.used_block_ids bm2)
    = size (BlockManager.used_block_ids (w_bm prefix_sharing_world)) ∧
    Sequence.block_table seq2 = [] ∧
    Sequence.num_cached_tokens seq2 = 0.
Proof.
  apply (allocate_deallocate_roundtrip prefix_sharing_world visitor).
  - exact prefix_sharing_reachable.
  - reflexivity.
  - vm_compute. reflexivity.
Defined.

(** The second pass of the prefill loop: 9 tokens are batched, the second
    sequence has 9 tokens of which 8 are cached, and 10 tokens are batched
    afterwards. *)
Lemma prefill_admission_witness :
  ∃ st',
    Scheduler.prefill_body after_first_pass = Ok (Continue st') ∧
    Scheduler.s_num_batched_tokens after_first_pass = 9 ∧
    Scheduler.s_num_batched_tokens st' = 10 ∧
    Scheduler.s_scheduled st' = [0%nat; 1%nat].
Proof.
  edestruct (prefill_admission after_first_pass 1
               (nth_seq (Scheduler.objects (Scheduler.s_self after_first_pass))
                  1))
    as (_ & Hadmit & _).
  - vm_compute. reflexivity.
  - vm_compute. reflexivity.
  - edestruct Hadmit as (st' & Hrun & Hnbt & _ & _ & _ & _ & Hsched & _).
    + by vm_compute.
    + vm_compute. reflexivity.
    + vm_compute. reflexivity.
    + exists st'. split; [exact Hrun|]. split_and!.
      * vm_compute. reflexivity.
      * rewrite Hnbt. vm_compute. reflexivity.
      * rewrite Hsched. vm_compute. reflexivity.
Defined.

End Scenario1.

(** ** Runs with the block size of the source: blocks of 256 tokens *)

Section SourceBlockSize.
#[local] Existing Instance XXH64.xxhash.
#[local] Existing Instance Sequence.source_class_attrs.

(** A pool of 4 blocks in which the dedup entry of the first block of
    [1..512] has gone stale while the one of its second block is still
    good: sequence 1 filled block 2 with [1..256] by decoding, which took
    over the dedup entry, and block 2 was then reused by sequence 2. *)
Definition stale_first_block : list op :=
  [request (seqZ 1 512);
   request (seqZ 1 255);
   request (replicate 257 9);
   request (seqZ 1 512);
   OpAllocate 0; OpAllocate 1; OpAppendToken 1 256; OpMayAppend 1;
   OpDeallocate 1; OpAllocate 2; OpDeallocate 2].
Definition stale_first_block_world : world :=
  Eval vm_compute in get_world (run 4 stale_first_block).
Definition stale_state_0 : BlockManager.alloc_state :=
  Eval vm_compute in
  BlockManager.AllocState (w_bm stale_first_block_world)
    (nth_seq (w_seqs stale_first_block_world) 3) (-1) false.
Definition stale_state_1 : BlockManager.alloc_state :=
  Eval vm_compute in get_alloc_state (BlockManager.allocate_body 0 stale_state_0).
Definition stale_state_2 : BlockManager.alloc_state :=
  Eval vm_compute in get_alloc_state (BlockManager.allocate_body 1 stale_state_1).

(** A pool of 4 blocks in which a sequence made of the same full block
    twice, 512 times the token 7, is allocated after block 1 was hashed
    both as a second block (by sequence 0) and as a first block (by
    sequence 2, decoding): both of its logical blocks hit block 1. *)
Definition double_listing : list op :=
  [request (replicate 512 7);
   request (replicate 257 9);
   request (replicate 255 7);
   request (replicate 512 7);
   OpAllocate 0; OpDeallocate 0; OpAllocate 1; OpAllocate 2;
   OpAppendToken 2 7; OpMayAppend 2; OpDeallocate 1; OpAllocate 3].
Definition double_listing_world : world :=
  Eval vm_compute in get_world (run 4 double_listing).

(** One block only and a prompt of 255 tokens: after two ticks the
    sequence has filled the block and needs a second one. *)
Definition exhausted : Scheduler.t :=
  Eval vm_compute in get_scheduler (engine 1 [replicate 255 1] 2).
(** Two blocks: the same sequence finds a free block. *)
Definition roomy : Scheduler.t :=
  Eval vm_compute in get_scheduler (engine 2 [replicate 255 1] 2).

(** A request with [max_tokens = 0], scheduled for prefill. *)
Definition zero_budget : Scheduler.t :=
  Eval vm_compute in get_scheduler
    (self ← Scheduler.__init__ 512 16384 0 8 256;
     self ← Scheduler.add_request self [1; 2; 3] (SamplingParams.mk 0 false);
     '(self, _) ← Scheduler.schedule self;
     Ok self).

Lemma double_listing_reachable : reachable double_listing_world.
Proof.
  apply (run_reachable 4 double_listing); [done|]. vm_compute. reflexivity.
Qed.

(** C1, as the design document states it, fails on the pool
    [stale_first_block_world] (reached by [stale_first_block]) when the
    last sequence, [1..512], is allocated.  Its logical block 0 is a miss
    (the dedup entry of its hash points to a block that was reused), which
    sets [cache_miss].  Its logical block 1, [257..512], has a chained hash
    other than the sentinel, the dedup index maps that hash to block 1, and
    block 1 holds [257..512] and is in use with reference count 1; yet the
    pass for logical block 1 leaves that count at 1, adds nothing to
    [num_cached_tokens], and lists a block taken from the free pool. *)
Lemma hit_after_miss_counterexample :
  run 4 stale_first_block = Ok stale_first_block_world ∧
  BlockManager.allocate_body 0 stale_state_0 = Ok stale_state_1 ∧
  BlockManager.a_cache_miss stale_state_1 = true ∧
  Sequence.block (BlockManager.a_seq stale_state_1) 1 = Ok (seqZ 257 256) ∧
  (∃ h, BlockManager.compute_hash (seqZ 257 256)
          (BlockManager.a_h stale_state_1) = Ok h ∧
        h ≠ -1 ∧
        BlockManager.hash_to_block_id (BlockManager.a_self stale_state_1) !! h
        = Some 1) ∧
  Block.token_ids (nth_block (BlockManager.a_self stale_state_1) 1)
  = seqZ 257 256 ∧
  bool_decide
    (1 ∈ BlockManager.used_block_ids (BlockManager.a_self stale_state_1))
  = true ∧
  Block.ref_count (nth_block (BlockManager.a_self stale_state_1) 1) = 1 ∧
  BlockManager.allocate_body 1 stale_state_1 = Ok stale_state_2 ∧
  Block.ref_count (nth_block (BlockManager.a_self stale_state_2) 1) = 1 ∧
  Sequence.num_cached_tokens (BlockManager.a_seq stale_state_1) = 0 ∧
  Sequence.num_cached_tokens (BlockManager.a_seq stale_state_2) = 0 ∧
  Sequence.block_table (BlockManager.a_seq stale_state_2) = [2; 3].
Proof.
  split_and!; try by vm_compute.
  eexists. split_and!; by vm_compute.
Qed.




(** C7.  The code departs from the claim on [exhausted]: an engine with a
    pool of one block and a request of 255 tokens, after two ticks.  The
    waiting queue is empty, the only running sequence has 257 tokens, holds
    the only block and needs a second one; [schedule] preempts it, is left
    with an empty batch, and raises AssertionError at
    [assert scheduled_seqs], which [step] passes on.  The claim, and the
    note on self-preemption in the source of [schedule], say that the
    sequence waits for the next round. *)
Lemma schedule_raises_on_exhaustion :
  engine 1 [replicate 255 1] 2 = Ok exhausted ∧
  Scheduler.waiting exhausted = [] ∧
  Scheduler.running exhausted = [0%nat] ∧
  Sequence.status (nth_seq (Scheduler.objects exhausted) 0)
  = Sequence.RUNNING ∧
  Sequence.token_ids (nth_seq (Scheduler.objects exhausted) 0)
  = replicate 255 1 ++ [5; 5] ∧
  Sequence.block_table (nth_seq (Scheduler.objects exhausted) 0) = [0] ∧
  BlockManager.free_block_ids (Scheduler.block_manager exhausted) = [] ∧
  BlockManager.can_append (Scheduler.block_manager exhausted)
    (nth_seq (Scheduler.objects exhausted) 0) = false ∧
  Scheduler.schedule exhausted = Raise AssertionError ∧
  Scheduler.step exhausted runner_5 = Raise AssertionError.
Proof. split_and!; by vm_compute. Qed.

Lemma roomy_running : Scheduler.running roomy = [0%nat].
Proof. by vm_compute. Qed.

Lemma roomy_decode_inv : decode_inv roomy.
Proof.
  split.
  - apply reachable_world_inv.
    apply (run_reachable 2
             [request (replicate 255 1); OpAllocate 0;
              OpStatus 0 Sequence.RUNNING;
              OpAppendToken 0 5; OpMayAppend 0; OpAppendToken 0 5]);
      [done|].
    vm_compute. reflexivity.
  - done.
  - intros n toks Hn. destruct n as [|[|n]].
    + vm_compute in Hn. discriminate.
    + by vm_compute.
    + vm_compute in Hn. discriminate.
  - intros r Hr. rewrite roomy_running in Hr.
    apply list_elem_of_singleton in Hr as ->.
    exists (nth_seq (Scheduler.objects roomy) 0).
    split; [vm_compute; reflexivity|].
    split; [by vm_compute|].
    eexists _, _, _. split_and!.
    + vm_compute. reflexivity.
    + vm_compute. reflexivity.
    + split; intros Hx; by vm_compute.
  - rewrite roomy_running. apply NoDup_singleton.
Qed.

(** With a second block in the pool the same sequence is scheduled for
    decode. *)
Lemma decode_exhaustion_witness :
  ∃ self' batch,
    Scheduler.schedule roomy = Ok (self', (batch, false)) ∧
    head batch = Some 0%nat.
Proof.
  destruct (decode_exhaustion roomy 0 []) as [(c & Hroom & Hc) _].
  - exact roomy_decode_inv.
  - left. vm_compute. reflexivity.
  - exact roomy_running.
  - by vm_compute.
  - vm_compute in Hroom. injection Hroom as <-. exact Hc.
Defined.



(** The manager's block size matters for [may_append]: with blocks of 512
    tokens in the manager and [Sequence.block_size] = 256, a sequence of
    256 tokens that decodes one token has 2 logical blocks, and
    [may_append] returns with a table of one entry. *)
Definition wide_blocks : result (BlockManager.t * Sequence.t) :=
  bm ← BlockManager.__init__ 4 512;
  seq ← Sequence.__init__ 0 (replicate 256 1) SamplingParams.default;
  '(bm, seq) ← BlockManager.allocate bm seq;
  BlockManager.may_append bm (Sequence.append_token seq 5).

Lemma block_table_short_with_wide_blocks :
  ∃ bm seq,
    wide_blocks = Ok (bm, seq) ∧
    BlockManager.block_size bm = 512 ∧
    Sequence.num_tokens seq = 257 ∧
    Sequence.block_table seq = [0] ∧
    Sequence.num_blocks seq = 2.
Proof. eexists _, _. split_and!; by vm_compute. Qed.

(** Token 5 is not EOS: [postprocess] appends it and the sequence stays
    Running. *)
Lemma nonpositive_max_tokens_witness :
  Sequence.max_tokens (nth_seq (Scheduler.objects zero_budget) 0) = 0 ∧
  Scheduler.postprocess_body (0%nat, 5) zero_budget
  = Ok (Scheduler.store 0
          (Sequence.append_token (nth_seq (Scheduler.objects zero_budget) 0) 5)
          zero_budget) ∧
  Sequence.status
    (nth_seq (Scheduler.objects
                (get_scheduler
                   (Scheduler.postprocess_body (0%nat, 5) zero_budget))) 0)
  = Sequence.RUNNING.
Proof.
  destruct (nonpositive_max_tokens_finishes_on_eos_only zero_budget 0 5
              (nth_seq (Scheduler.objects zero_budget) 0)
              (get_scheduler
                 (Scheduler.postprocess_body (0%nat, 5) zero_budget)))
    as (_ & _ & _ & Hsame).
  - vm_compute. reflexivity.
  - by vm_compute.
  - by vm_compute.
  - by vm_compute.
  - vm_compute. reflexivity.
  - split_and!.
    + vm_compute. reflexivity.
    + rewrite <- Hsame; [vm_compute; reflexivity|]. right. by vm_compute.
    + vm_compute. reflexivity.
Defined.

End SourceBlockSize.

(** ** Runs of the engine *)

Lemma runner_5_answers_each : answers_each runner_5.
Proof. intros seqs is_prefill. unfold runner_5. by rewrite length_fmap. Qed.

Lemma ticks_reachable `{XXHash} `{Sequence.class_attrs} n self self' :
  engine_reachable self → ticks n self = Ok self' → engine_reachable self'.
Proof.
  revert self. induction n as [|n IH]; intros self Hreach Hrun; simpl in Hrun.
  - by injection Hrun as <-.
  - apply bind_Ok in Hrun as (self1 & Hstep & Hrun).
    eapply IH; [|done].
    eapply engine_step; [done|apply runner_5_answers_each|done].
Qed.

Lemma engine_run_reachable `{XXHash} `{Sequence.class_attrs}
    num_blocks prompts n self :
  1 < Sequence.block_size →
  engine num_blocks prompts n = Ok self → engine_reachable self.
Proof.
  intros Hbs Hrun. unfold engine in Hrun.
  apply bind_Ok in Hrun as (self0 & Hinit & Hrun).
  apply bind_Ok in Hrun as (self1 & Hadd & Hrun).
  eapply ticks_reachable; [|done].
  eapply (for_each_invariant (λ _ s, engine_reachable s) _ _ self0);
    [|exact (engine_init _ _ _ _ _ Hbs Hinit)|exact Hadd].
  intros _ prompt s1 s2 Hs1 Hstep.
  exact (engine_add_request _ _ _ _ Hs1 Hstep).
Qed.

Section EngineRuns.
#[local] Existing Instance XXH64.xxhash.
#[local] Existing Instance Sequence.source_class_attrs.

(** Two short requests in a pool of 4 blocks, before the first tick and
    after it. *)
Definition two_requests : Scheduler.t :=
  Eval vm_compute in get_scheduler (engine 4 [[1; 2; 3]; [4; 5]] 0).
Definition two_prefilled : Scheduler.t :=
  Eval vm_compute in get_scheduler (engine 4 [[1; 2; 3]; [4; 5]] 1).
Definition two_scheduled : Scheduler.t * (list nat * bool) :=
  Eval vm_compute in
  match Scheduler.schedule two_requests with
  | Ok x => x
  | Raise _ => (no_scheduler, ([], false))
  end.

(** Two requests with the same 257 tokens, after the prefill tick. *)
Definition same_prompts : Scheduler.t :=
  Eval vm_compute in
  get_scheduler (engine 4 [replicate 257 1; replicate 257 1] 1).

(** One request that may generate one token, before and after its tick. *)
Definition one_token : Scheduler.t :=
  Eval vm_compute in
  get_scheduler
    (self ← Scheduler.__init__ 512 16384 0 4 256;
     Scheduler.add_request self [1; 2; 3] (SamplingParams.mk 1 false)).
Definition one_token_step
  : Scheduler.t * (list (Z * list Z) * Z) :=
  Eval vm_compute in
  match LLMEngine.step one_token runner_5 with
  | Ok x => x
  | Raise _ => (no_scheduler, ([], 0))
  end.

Lemma two_requests_reachable : engine_reachable two_requests.
Proof.
  apply (engine_run_reachable 4 [[1; 2; 3]; [4; 5]] 0); [done|].
  vm_compute. reflexivity.
Qed.

Lemma two_prefilled_reachable : engine_reachable two_prefilled.
Proof.
  apply (engine_run_reachable 4 [[1; 2; 3]; [4; 5]] 1); [done|].
  vm_compute. reflexivity.
Qed.

Lemma same_prompts_reachable : engine_reachable same_prompts.
Proof.
  apply (engine_run_reachable 4 [replicate 257 1; replicate 257 1] 1);
    [done|].
  vm_compute. reflexivity.
Qed.

Lemma one_token_reachable : engine_reachable one_token.
Proof.
  eapply (engine_add_request _ [1; 2; 3] (SamplingParams.mk 1 false)).
  - apply (engine_init 512 16384 0 4); [done|]. vm_compute. reflexivity.
  - vm_compute. reflexivity.
Qed.

Lemma one_token_done_reachable : engine_reachable one_token_step.1.
Proof.
  apply (engine_step one_token runner_5);
    [exact one_token_reachable|exact runner_5_answers_each|].
  vm_compute. reflexivity.
Qed.

Lemma engine_step_fails_only_at_assert_witness :
  ∃ self', Scheduler.step two_requests runner_5 = Ok self'.
Proof.
  destruct (engine_step_fails_only_at_assert two_requests runner_5
              two_requests_reachable) as [Hok|[Hfail _]].
  - exact Hok.
  - vm_compute in Hfail. discriminate.
Defined.

Lemma engine_sequences_partition_witness :
  Scheduler.running two_prefilled = [0%nat; 1%nat] ∧
  NoDup (Scheduler.running two_prefilled) ∧
  Sequence.status (nth_seq (Scheduler.objects two_prefilled) 1)
  = Sequence.RUNNING.
Proof.
  destruct (engine_sequences_partition two_prefilled two_prefilled_reachable)
    as (_ & Hnd & _ & Hpart).
  split; [vm_compute; reflexivity|]. split; [exact Hnd|].
  destruct (Hpart 1%nat (nth_seq (Scheduler.objects two_prefilled) 1))
    as [(Hw & _)|[(_ & _ & Hst & _)|(_ & Hr & _)]].
  - vm_compute. reflexivity.
  - vm_compute in Hw. by apply elem_of_nil in Hw.
  - exact Hst.
  - exfalso. apply Hr. vm_compute. set_solver.
Defined.

Lemma engine_running_table_length_witness :
  Z.of_nat (length (Sequence.block_table
                      (nth_seq (Scheduler.objects two_prefilled) 0)))
  = (Sequence.num_tokens (nth_seq (Scheduler.objects two_prefilled) 0)
     - 1 + Sequence.block_size - 1) / Sequence.block_size.
Proof.
  apply (engine_running_table_length two_prefilled 0).
  - exact two_prefilled_reachable.
  - vm_compute. set_solver.
  - vm_compute. reflexivity.
Defined.

Lemma engine_cached_tokens_bound_witness :
  Sequence.num_cached_tokens (nth_seq (Scheduler.objects same_prompts) 1)
  = 256 ∧
  0 ≤ Sequence.num_cached_tokens (nth_seq (Scheduler.objects same_prompts) 1)
    ≤ Sequence.num_tokens (nth_seq (Scheduler.objects same_prompts) 1).
Proof.
  split; [vm_compute; reflexivity|].
  apply (engine_cached_tokens_bound same_prompts 1).
  - exact same_prompts_reachable.
  - vm_compute. reflexivity.
Defined.

Lemma engine_used_blocks_witness :
  0 ∈ BlockManager.used_block_ids (Scheduler.block_manager same_prompts)
  ↔ ∃ r seq, r ∈ Scheduler.running same_prompts ∧
             Scheduler.objects same_prompts !! r = Some seq ∧
             0 ∈ Sequence.block_table seq.
Proof.
  exact (proj1 (engine_used_blocks same_prompts same_prompts_reachable) 0).
Defined.

Lemma engine_decode_inv_witness : decode_inv two_prefilled.
Proof. exact (engine_decode_inv two_prefilled two_prefilled_reachable). Defined.

Lemma two_scheduled_eq :
  Scheduler.schedule two_requests
  = Ok (two_scheduled.1, (two_scheduled.2.1, two_scheduled.2.2)).
Proof. vm_compute. reflexivity. Qed.

Lemma schedule_batch_witness :
  two_scheduled.2 = ([0%nat; 1%nat], true) ∧
  ∀ r, r ∈ two_scheduled.2.1 →
       r ∈ Scheduler.running two_scheduled.1 ∧
       ∃ seq, Scheduler.objects two_scheduled.1 !! r = Some seq ∧
              Sequence.status seq = Sequence.RUNNING ∧
              Z.of_nat (length (Sequence.block_table seq))
              = Sequence.num_blocks seq.
Proof.
  split; [vm_compute; reflexivity|].
  apply (schedule_batch two_requests two_scheduled.1 two_scheduled.2.1
           two_scheduled.2.2).
  - exact two_requests_reachable.
  - exact two_scheduled_eq.
Defined.

Lemma schedule_queues_witness :
  Scheduler.waiting two_requests
  = two_scheduled.2.1 ++ Scheduler.waiting two_scheduled.1 ∧
  Scheduler.running two_scheduled.1
  = Scheduler.running two_requests ++ two_scheduled.2.1.
Proof.
  destruct (schedule_queues two_requests two_scheduled.1 two_scheduled.2.1
              two_scheduled.2.2 two_scheduled_eq) as (_ & Hq & _).
  exact Hq.
Defined.

Lemma schedule_budget_witness :
  batched_tokens (Scheduler.objects two_scheduled.1) two_scheduled.2.1 = 5 ∧
  1 ≤ Z.of_nat (length two_scheduled.2.1)
    ≤ Scheduler.max_num_seqs two_requests ∧
  0 ≤ batched_tokens (Scheduler.objects two_scheduled.1) two_scheduled.2.1
    ≤ Scheduler.max_num_batched_tokens two_requests.
Proof.
  split; [vm_compute; reflexivity|].
  destruct (schedule_budget two_requests two_scheduled.1 two_scheduled.2.1
              two_scheduled.2.2 two_requests_reachable two_scheduled_eq)
    as [Hseqs Htokens].
  split; [exact Hseqs|]. by apply Htokens.
Defined.

Lemma generation_stops_witness :
  Sequence.status (nth_seq (Scheduler.objects one_token_step.1) 0)
  = Sequence.FINISHED ∧
  Sequence.completion_token_ids
    (nth_seq (Scheduler.objects one_token_step.1) 0) = [5] ∧
  1 ≤ Sequence.num_completion_tokens
        (nth_seq (Scheduler.objects one_token_step.1) 0)
    ≤ Sequence.max_tokens (nth_seq (Scheduler.objects one_token_step.1) 0).
Proof.
  destruct (generation_stops one_token_step.1 0
              (nth_seq (Scheduler.objects one_token_step.1) 0))
    as (_ & Hmax & _ & Hfin & _).
  - exact one_token_done_reachable.
  - vm_compute. reflexivity.
  - split_and!; [vm_compute; reflexivity..| |].
    + by apply Hfin.
    + by apply Hmax.
Defined.

Lemma step_outputs_witness :
  one_token_step.2 = ([(0, [5])], 4) ∧
  ∃ r seq,
    Scheduler.objects one_token_step.1 !! r = Some seq ∧
    Sequence.status seq = Sequence.FINISHED ∧
    [5] = Sequence.completion_token_ids seq ∧
    r ∉ Scheduler.running one_token_step.1 ∧
    Sequence.block_table seq = [].
Proof.
  split; [vm_compute; reflexivity|].
  destruct (step_outputs one_token one_token_step.1 runner_5
              [(0, [5])] 4)
    as (self1 & batch & is_prefill & _ & _ & _ & Hout).
  - exact one_token_reachable.
  - exact runner_5_answers_each.
  - vm_compute. reflexivity.
  - destruct (proj1 (Hout 0 [5])) as (r & seq & _ & Hs & Hst & _ & Htoks
                                      & _ & _ & Hr & Htab); [set_solver|].
    by exists r, seq.
Defined.

Lemma engine_is_finished_witness :
  LLMEngine.is_finished one_token_step.1 = true ∧
  (∀ r seq, Scheduler.objects one_token_step.1 !! r = Some seq →
            Sequence.status seq = Sequence.FINISHED) ∧
  Scheduler.step one_token_step.1 runner_5 = Raise AssertionError.
Proof.
  destruct (engine_is_finished one_token_step.1 one_token_done_reachable)
    as [Hiff Hidle].
  assert (LLMEngine.is_finished one_token_step.1 = true) as Hfin
    by (vm_compute; reflexivity).
  split; [exact Hfin|]. split; [by apply Hiff|].
  by destruct (Hidle Hfin) as [Hstep _].
Defined.

Lemma shared_blocks_are_hashed_witness :
  ∃ blk,
    BlockManager.get_block (Scheduler.block_manager same_prompts) 0 = Ok blk ∧
    Block.hash blk ≠ -1 ∧ 0 ≤ Block.hash blk < 2 ^ 64 ∧
    Z.of_nat (length (Block.token_ids blk)) = Sequence.block_size ∧
    2 ≤ Block.ref_count blk.
Proof.
  apply (shared_blocks_are_hashed same_prompts 0 1
           (nth_seq (Scheduler.objects same_prompts) 0)
           (nth_seq (Scheduler.objects same_prompts) 1)).
  - exact same_prompts_reachable.
  - vm_compute. reflexivity.
  - vm_compute. reflexivity.
  - done.
  - vm_compute. set_solver.
  - vm_compute. set_solver.
Defined.

Definition one_token_scheduled : Scheduler.t * (list nat * bool) :=
  Eval vm_compute in
  match Scheduler.schedule one_token with
  | Ok x => x
  | Raise _ => (no_scheduler, ([], false))
  end.

Lemma postprocess_appends_witness :
  ∃ seq seq',
    Scheduler.objects one_token_scheduled.1 !! 0%nat = Some seq ∧
    Scheduler.objects one_token_step.1 !! 0%nat = Some seq' ∧
    Sequence.token_ids seq = [1; 2; 3] ∧
    Sequence.token_ids seq' = Sequence.token_ids seq ++ [5].
Proof.
  destruct (postprocess_appends one_token one_token_scheduled.1
              one_token_step.1 [0%nat] true [5]) as [Hin _].
  - exact one_token_reachable.
  - vm_compute. reflexivity.
  - vm_compute. reflexivity.
  - destruct (Hin 0%nat 0%nat 5 eq_refl eq_refl)
      as (seq & seq' & Hs & Hs' & Htok & _).
    exists seq, seq'. split_and!; [done|done| |done].
    vm_compute in Hs. by injection Hs as <-.
Defined.

Lemma steps_bounded_by_work_witness :
  work one_token = 1 ∧
  work one_token_step.1 + 1 ≤ work one_token ∧
  LLMEngine.is_finished one_token_step.1 = true.
Proof.
  split; [vm_compute; reflexivity|].
  destruct (steps_bounded_by_work one_token one_token_step.1 [runner_5])
    as (Hnn & Hle & Hfin).
  - exact one_token_reachable.
  - intros r seq Hs. destruct r as [|r]; vm_compute in Hs; [|done].
    injection Hs as <-. done.
  - constructor; [exact runner_5_answers_each|constructor].
  - vm_compute. reflexivity.
  - split; [exact Hle|]. apply Hfin. vm_compute. reflexivity.
Defined.

Lemma step_returns_when_provisioned_witness :
  provisioned two_requests ∧
  ∃ self',
    Scheduler.step two_requests runner_5 = Ok self' ∧
    provisioned self' ∧
    work self' < work two_requests.
Proof.
  assert (provisioned two_requests) as Hprov.
  { split.
    - vm_compute. discriminate.
    - intros r seq Hs. destruct r as [|[|r]]; vm_compute in Hs; [| |done];
        injection Hs as <-; done.
    - vm_compute. discriminate.
    - intros r seq Hs. destruct r as [|[|r]]; vm_compute in Hs; [| |done];
        injection Hs as <-; vm_compute; discriminate. }
  split; [exact Hprov|].
  apply (step_returns_when_provisioned two_requests runner_5).
  - exact two_requests_reachable.
  - exact Hprov.
  - exact runner_5_answers_each.
  - vm_compute. reflexivity.
Defined.

Lemma schedule_keeps_tokens_witness :
  ∃ seq',
    Scheduler.objects two_scheduled.1 !! 1%nat = Some seq' ∧
    Sequence.status seq' = Sequence.RUNNING ∧
    Sequence.token_ids seq' = [4; 5].
Proof.
  destruct (schedule_keeps_tokens two_requests two_scheduled.1
              two_scheduled.2.1 two_scheduled.2.2 1
              (nth_seq (Scheduler.objects two_requests) 1))
    as (_ & seq' & Hs' & _ & Htok & _).
  - exact two_scheduled_eq.
  - vm_compute. reflexivity.
  - exists seq'. split; [exact Hs'|]. split; [|exact Htok].
    vm_compute in Hs'. by injection Hs' as <-.
Defined.

(** A pool of 4 blocks and one request that is not allocated yet. *)
Definition one_request_world : world :=
  Eval vm_compute in get_world (run 4 [request [1; 2; 3]]).

Lemma one_request_reachable : reachable one_request_world.
Proof.
  apply (run_reachable 4 [request [1; 2; 3]]); [done|].
  vm_compute. reflexivity.
Qed.

Lemma can_allocate_guards_allocate_witness :
  ∃ bm' seq',
    BlockManager.allocate (w_bm one_request_world)
      (nth_seq (w_seqs one_request_world) 0) = Ok (bm', seq') ∧
    length (Sequence.block_table seq') = 1%nat.
Proof.
  destruct (can_allocate_guards_allocate one_request_world
              (nth_seq (w_seqs one_request_world) 0))
    as (bm' & seq' & Hrun & Hlen & _).
  - exact one_request_reachable.
  - vm_compute. reflexivity.
  - vm_compute. reflexivity.
  - exists bm', seq'. split; [exact Hrun|]. exact Hlen.
Defined.

Lemma deallocate_keeps_cache_witness :
  ∃ bm',
    BlockManager.deallocate (w_bm double_listing_world)
      (nth_seq (w_seqs double_listing_world) 3)
    = Ok (bm', Sequence.with_block_table []
                 (Sequence.with_num_cached_tokens 0
                    (nth_seq (w_seqs double_listing_world) 3))) ∧
    BlockManager.hash_to_block_id bm'
    = BlockManager.hash_to_block_id (w_bm double_listing_world) ∧
    Block.ref_count (nth_block bm' 1)
    = Block.ref_count (nth_block (w_bm double_listing_world) 1) - 2.
Proof.
  destruct (deallocate_keeps_cache double_listing_world 3
              (nth_seq (w_seqs double_listing_world) 3))
    as (bm' & Hrun & Hidx & Hhash & _ & Hrc & _).
  - exact double_listing_reachable.
  - vm_compute. reflexivity.
  - exists bm'. split; [exact Hrun|]. split; [exact Hidx|].
    apply (f_equal length) in Hhash. rewrite !length_fmap in Hhash.
    destruct (lookup_lt_is_Some_2 (BlockManager.blocks bm') 1) as [blk' Hb'];
      [rewrite Hhash; vm_compute; lia|].
    unfold nth_block at 1. rewrite Hb'. simpl.
    by rewrite (Hrc 1%nat (nth_block (w_bm double_listing_world) 1) blk'
                  eq_refl Hb').
Defined.

Lemma blocks_partition_witness :
  Sequence.last_block_num_tokens
    (nth_seq (Scheduler.objects same_prompts) 0) = 2 ∧
  ∃ L,
    mapM (Sequence.block (nth_seq (Scheduler.objects same_prompts) 0))
      (seqZ 0 (Sequence.num_blocks
                 (nth_seq (Scheduler.objects same_prompts) 0))) = Ok L ∧
    concat L = Sequence.token_ids (nth_seq (Scheduler.objects same_prompts) 0).
Proof.
  split; [vm_compute; reflexivity|].
  destruct (blocks_partition (nth_seq (Scheduler.objects same_prompts) 0))
    as [(L & Hrun & Hcat & _) _].
  - vm_compute. reflexivity.
  - by exists L.
Defined.

Lemma free_blocks_are_unlisted_witness :
  1 ∈ BlockManager.used_block_ids (w_bm double_listing_world) ∧
  1 ∉ BlockManager.free_block_ids (w_bm double_listing_world).
Proof.
  destruct (free_blocks_are_unlisted double_listing_world
              double_listing_reachable) as [Hlisted _].
  destruct (Hlisted 3%nat (nth_seq (w_seqs double_listing_world) 3) 1)
    as (_ & Hused & Hfree & _).
  - vm_compute. reflexivity.
  - vm_compute. set_solver.
  - by split.
Defined.

(** A sequence that fills one block exactly. *)
Definition full_block : Sequence.t :=
  Sequence.mk 0 Sequence.RUNNING (replicate 256 1) 1 256 256 0 [0] 64 false.

Lemma append_token_num_blocks_witness :
  Sequence.num_blocks full_block = 1 ∧
  Sequence.num_blocks (Sequence.append_token full_block 5) = 2 ∧
  Sequence.last_block_num_tokens (Sequence.append_token full_block 5) = 1.
Proof.
  split; [vm_compute; reflexivity|].
  destruct (append_token_num_blocks full_block 5) as [Hnb Hlast].
  - done.
  - done.
  - split; [exact Hnb|exact Hlast].
Defined.

(** A new engine with a pool of 4 blocks, and a call of [generate] on it
    with two prompts that may generate two tokens each. *)
Definition new_engine : Scheduler.t :=
  Eval vm_compute in get_scheduler (Scheduler.__init__ 512 16384 0 4 256).

Lemma new_engine_reachable : engine_reachable new_engine.
Proof. apply (engine_init 512 16384 0 4); [done|]. vm_compute. reflexivity. Qed.

Lemma generate_returns_witness :
  ∃ self' outputs,
    LLMEngine.generate 5 new_engine (λ _, runner_5) [[1; 2; 3]; [4; 5]]
      (inl (SamplingParams.mk 2 false)) = Ok (self', outputs) ∧
    length outputs = 2%nat ∧
    LLMEngine.is_finished self' = true.
Proof.
  destruct (generate_returns new_engine (λ _, runner_5) [[1; 2; 3]; [4; 5]]
              (inl (SamplingParams.mk 2 false)))
    as (self' & outputs & Hrun & _ & _ & Hfin & Hlen & _).
  - exact new_engine_reachable.
  - split.
    + vm_compute. discriminate.
    + intros r seq Hs. vm_compute in Hs. discriminate.
    + vm_compute. discriminate.
    + intros r seq Hs. vm_compute in Hs. discriminate.
  - vm_compute. reflexivity.
  - intros k. exact runner_5_answers_each.
  - repeat constructor; vm_compute; discriminate.
  - vm_compute. discriminate.
  - exists self', outputs. split; [|split; [exact Hlen|exact Hfin]].
    apply Hrun. vm_compute. lia.
Defined.

End EngineRuns.
